(** * Forthic (Go runtime): tokenizer, module system and interpreter core

    A shallow embedding of the core of the Go runtime of the Forthic
    language: the tokenizer, the data stack, words, modules and the
    interpreter loop, followed by the properties established about them.

    Go objects that are shared through pointers and mutated in place
    (modules, variables, memo cells) live in explicit heaps that are part
    of the interpreter state; a pointer is an index into its heap.
    Functions that return [error], or that may panic, are written in a
    small state-and-outcome monad: the state is threaded through every
    outcome because Go mutates the receiver before it fails. *)

From Stdlib Require Import ZArith Ascii String List Lia Bool DecimalString.
From Stdlib Require Floats.PrimFloat Numbers.Cyclic.Int63.Uint63.
From Stdlib Require Decimal DecimalPos.
From stdpp Require Import base option list gmap strings.

Local Open Scope string_scope.
Local Open Scope list_scope.
Local Open Scope Z_scope.
Set Warnings "-register-all".

(* ===================================================================== *)
(** ** Source locations, tokens and errors *)
(* ===================================================================== *)

(** [CodeLocation] of the errors file. *)
Record CodeLocation := mkCodeLocation {
  Source : string;
  File : string;
  Line : Z;
  Column : Z;
  StartPos : Z;
  EndPos : Z
}.

Inductive TokenType :=
| TOKEN_STRING | TOKEN_COMMENT | TOKEN_START_ARRAY | TOKEN_END_ARRAY
| TOKEN_START_MODULE | TOKEN_END_MODULE | TOKEN_START_DEF | TOKEN_END_DEF
| TOKEN_START_MEMO | TOKEN_WORD | TOKEN_DOT_SYMBOL | TOKEN_EOS.

Record Token := NewToken {
  Type_ : TokenType;
  String_ : string;
  Location : option CodeLocation
}.

(** The dynamic Go type of an error value.  [KForthic] is [*ForthicError];
    the others are the structs that embed it; [KPlain] stands for errors
    made by [errors.New] and [fmt.Errorf]. *)
Inductive ErrorKind :=
| KForthic
| KUnknownWord (word : string)
| KUnknownModule (module : string)
| KStackUnderflow
| KWordExecution (word : string)
| KMissingSemicolon
| KExtraSemicolon
| KModule (module : string)
| KIntentionalStop
| KInvalidVariableName (varName : string)
| KPlain.

Inductive Error :=
| mkError (kind : ErrorKind) (Message Forthic : string)
          (ErrLocation : option CodeLocation) (Cause : option Error).

Definition errKind (e : Error) : ErrorKind :=
  match e with mkError k _ _ _ _ => k end.
Definition errMessage (e : Error) : string :=
  match e with mkError _ m _ _ _ => m end.
Definition errLocation (e : Error) : option CodeLocation :=
  match e with mkError _ _ _ l _ => l end.

Definition NewForthicError (message : string) : Error :=
  mkError KForthic message EmptyString None None.

(** [WithLocation] is a method of the embedded [*ForthicError]: it sets
    the location and returns the embedded value, so its result has the
    dynamic type [*ForthicError] whatever struct it was called through. *)
Definition WithLocation (e : Error) (loc : option CodeLocation) : Error :=
  match e with mkError _ m f _ c => mkError KForthic m f loc c end.

Definition NewUnknownWordError (word : string) : Error :=
  mkError (KUnknownWord word) ("Unknown word: " +:+ word) EmptyString None None.
Definition NewStackUnderflowError : Error :=
  mkError KStackUnderflow "Stack underflow" EmptyString None None.
Definition NewMissingSemicolonError : Error :=
  mkError KMissingSemicolon "Missing semicolon (;) to end definition" EmptyString None None.
Definition NewExtraSemicolonError : Error :=
  mkError KExtraSemicolon "Extra semicolon (;) outside of definition" EmptyString None None.
Definition NewIntentionalStopError (message : string) : Error :=
  mkError KIntentionalStop message EmptyString None None.

(** The type assertion of [err] to a pointer to [IntentionalStopError]. *)
Definition isIntentionalStop (e : Error) : bool :=
  match errKind e with KIntentionalStop => true | _ => false end.

(** What a Go panic carries: an error value, a string, or a runtime
    error raised by the language itself. *)
Inductive PanicValue :=
| PError (e : Error)
| PString (s : string)
| PRuntime (s : string).

(* ===================================================================== *)
(** ** Outcomes and the state monad *)
(* ===================================================================== *)

(** [Ok] is a normal return with a nil error, [Err] a non-nil [error]
    return, [Panic] an unwinding panic.  [OutOfFuel] is produced only by
    [runWithTokenizer] when its iteration bound is exhausted. *)
Inductive Outcome (A : Type) :=
| Ok (a : A)
| Err (e : Error)
| Panic (p : PanicValue)
| OutOfFuel.
Arguments Ok {A} a.
Arguments Err {A} e.
Arguments Panic {A} p.
Arguments OutOfFuel {A}.

Definition M (S A : Type) : Type := S -> Outcome A * S.

Definition ret {S A} (a : A) : M S A := fun s => (Ok a, s).
Definition bind {S A B} (m : M S A) (f : A -> M S B) : M S B :=
  fun s => match m s with
           | (Ok a, s') => f a s'
           | (Err e, s') => (Err e, s')
           | (Panic p, s') => (Panic p, s')
           | (OutOfFuel, s') => (OutOfFuel, s')
           end.
Definition get {S} : M S S := fun s => (Ok s, s).
Definition put {S} (s : S) : M S unit := fun _ => (Ok tt, s).
Definition modify {S} (f : S -> S) : M S unit := fun s => (Ok tt, f s).
Definition throw {S A} (e : Error) : M S A := fun s => (Err e, s).
Definition panic {S A} (p : PanicValue) : M S A := fun s => (Panic p, s).

Declare Scope monad_scope.
Delimit Scope monad_scope with monad.
Notation "'let*' x ':=' m 'in' k" := (bind m (fun x => k))
  (at level 10, x name, m at level 100, k at level 200) : monad_scope.
Notation "m ;> k" := (bind m (fun _ => k))
  (at level 100, k at level 200, right associativity) : monad_scope.
Local Open Scope monad_scope.

(* ===================================================================== *)
(** ** Bytes and strings *)
(* ===================================================================== *)

(** A Go string is a sequence of bytes; [len] and indexing count bytes. *)
Definition len (s : string) : Z := Z.of_nat (String.length s).

(** [s[i]].  Every use below is guarded by a bounds check, as in the
    source; out of range the value is the zero byte. *)
Definition byteAt (s : string) (i : Z) : ascii :=
  if i <? 0 then Ascii.zero
  else match String.get (Z.to_nat i) s with Some c => c | None => Ascii.zero end.

Definition byteEq (a b : ascii) : bool := Ascii.eqb a b.

(** [rune(b)] of a byte is the code point of the same number;
    [WriteRune] appends its UTF-8 encoding: the byte itself below 0x80
    and two bytes from 0x80 to 0xFF. *)
Definition encodeRune (ch : ascii) : string :=
  let n := N.to_nat (N_of_ascii ch) in
  if (n <? 128)%nat then String ch EmptyString
  else String (ascii_of_nat (192 + n / 64))
         (String (ascii_of_nat (128 + n mod 64)) EmptyString).

Definition WriteRune (b : string) (ch : ascii) : string := b +:+ encodeRune ch.

(** [strings.ContainsRune(chars, ch)]. *)
Fixpoint ContainsRune (chars : string) (ch : ascii) : bool :=
  match chars with
  | EmptyString => false
  | String c rest => byteEq c ch || ContainsRune rest ch
  end.

(** [strings.HasPrefix]. *)
Fixpoint HasPrefix (s p : string) : bool :=
  match p, s with
  | EmptyString, _ => true
  | String a p', String b s' => byteEq a b && HasPrefix s' p'
  | String _ _, EmptyString => false
  end.

(** [strings.Contains(s, sub)]. *)
Fixpoint Contains (s sub : string) : bool :=
  HasPrefix s sub ||
  match s with
  | EmptyString => false
  | String _ s' => Contains s' sub
  end.

Fixpoint dropBytes (n : nat) (s : string) : string :=
  match n, s with
  | O, _ => s
  | S n', String _ s' => dropBytes n' s'
  | S _, EmptyString => EmptyString
  end.

(** [strings.ReplaceAll(s, old, new)] for a non-empty [old]: the
    non-overlapping occurrences are replaced from left to right. *)
Fixpoint ReplaceAll_go (n : nat) (s old new : string) : string :=
  match n with
  | O => s
  | S n' =>
    match s with
    | EmptyString => EmptyString
    | String c s' =>
      if HasPrefix s old
      then new +:+ ReplaceAll_go n' (dropBytes (String.length old) s) old new
      else String c (ReplaceAll_go n' s' old new)
    end
  end.
Definition ReplaceAll (s old new : string) : string :=
  ReplaceAll_go (String.length s) s old new.

Definition unescapeString (s : string) : string :=
  let s := ReplaceAll s "&lt;" "<" in
  let s := ReplaceAll s "&gt;" ">" in
  s.

(* ===================================================================== *)
(** ** Tokenizer *)
(* ===================================================================== *)

Record stringDelta := mkStringDelta { delta_start : Z; delta_end : Z }.

Record Tokenizer := mkTokenizer {
  referenceLocation : CodeLocation;
  line : Z;
  column : Z;
  inputString : string;
  inputPos : Z;
  whitespace : list ascii;
  quoteChars : list ascii;
  tokenStartPos : Z;
  tokenEndPos : Z;
  tokenLine : Z;
  tokenColumn : Z;
  tokenString : string;
  stringDelta_ : option stringDelta;
  streaming : bool
}.

Definition set_line (v : Z) (t : Tokenizer) : Tokenizer :=
  mkTokenizer (referenceLocation t) v (column t) (inputString t) (inputPos t)
    (whitespace t) (quoteChars t) (tokenStartPos t) (tokenEndPos t)
    (tokenLine t) (tokenColumn t) (tokenString t) (stringDelta_ t) (streaming t).
Definition set_column (v : Z) (t : Tokenizer) : Tokenizer :=
  mkTokenizer (referenceLocation t) (line t) v (inputString t) (inputPos t)
    (whitespace t) (quoteChars t) (tokenStartPos t) (tokenEndPos t)
    (tokenLine t) (tokenColumn t) (tokenString t) (stringDelta_ t) (streaming t).
Definition set_inputPos (v : Z) (t : Tokenizer) : Tokenizer :=
  mkTokenizer (referenceLocation t) (line t) (column t) (inputString t) v
    (whitespace t) (quoteChars t) (tokenStartPos t) (tokenEndPos t)
    (tokenLine t) (tokenColumn t) (tokenString t) (stringDelta_ t) (streaming t).
Definition set_tokenStart (pos ln col : Z) (t : Tokenizer) : Tokenizer :=
  mkTokenizer (referenceLocation t) (line t) (column t) (inputString t) (inputPos t)
    (whitespace t) (quoteChars t) pos (tokenEndPos t)
    ln col (tokenString t) (stringDelta_ t) (streaming t).
Definition set_tokenString (v : string) (t : Tokenizer) : Tokenizer :=
  mkTokenizer (referenceLocation t) (line t) (column t) (inputString t) (inputPos t)
    (whitespace t) (quoteChars t) (tokenStartPos t) (tokenEndPos t)
    (tokenLine t) (tokenColumn t) v (stringDelta_ t) (streaming t).
Definition set_stringDelta (v : option stringDelta) (t : Tokenizer) : Tokenizer :=
  mkTokenizer (referenceLocation t) (line t) (column t) (inputString t) (inputPos t)
    (whitespace t) (quoteChars t) (tokenStartPos t) (tokenEndPos t)
    (tokenLine t) (tokenColumn t) (tokenString t) v (streaming t).

Definition NewTokenizer (input : string) (reference : option CodeLocation)
    (streaming : bool) : Tokenizer :=
  let referenceLocation :=
    match reference with
    | None => mkCodeLocation EmptyString EmptyString 1 1 0 0
    | Some r => r
    end in
  mkTokenizer referenceLocation (Line referenceLocation) (Column referenceLocation)
    (unescapeString input) 0
    [" "; "009"; "010"; "013"; "("; ")"; ","]%char
    ["034"; "'"; "^"]%char
    0 0 0 0 EmptyString None streaming.

Definition clearTokenString (t : Tokenizer) : Tokenizer := set_tokenString EmptyString t.

Definition noteStartToken (t : Tokenizer) : Tokenizer :=
  set_tokenStart (inputPos t + StartPos (referenceLocation t)) (line t) (column t) t.

Definition inList (l : list ascii) (ch : ascii) : bool := existsb (byteEq ch) l.

Definition isWhitespace (t : Tokenizer) (ch : ascii) : bool := inList (whitespace t) ch.
Definition isQuote (t : Tokenizer) (ch : ascii) : bool := inList (quoteChars t) ch.

Definition isTripleQuote (t : Tokenizer) (index : Z) (ch : ascii) : bool :=
  if negb (isQuote t ch) then false
  else if len (inputString t) <=? index + 2 then false
  else byteEq (byteAt (inputString t) (index + 1)) ch
       && byteEq (byteAt (inputString t) (index + 2)) ch.

Definition isStartMemo (t : Tokenizer) (index : Z) : bool :=
  if len (inputString t) <=? index + 1 then false
  else byteEq (byteAt (inputString t) index) "@"
       && byteEq (byteAt (inputString t) (index + 1)) ":".

(** One iteration of the forward loop of [advancePosition]. *)
Definition advanceForward (t : Tokenizer) : Tokenizer :=
  let t1 :=
    if (inputPos t <? len (inputString t))
       && byteEq (byteAt (inputString t) (inputPos t)) "010"
    then set_column 1 (set_line (line t + 1) t)
    else set_column (column t + 1) t in
  set_inputPos (inputPos t1 + 1) t1.

(** One iteration of the backward loop of [advancePosition]. *)
Definition advanceBackward : M Tokenizer unit := fun t =>
  let t1 := set_inputPos (inputPos t - 1) t in
  if inputPos t1 <? 0 then (Panic (PString "Invalid input position"), t1)
  else if byteEq (byteAt (inputString t1) (inputPos t1)) "010"
       then (Ok tt, set_column 1 (set_line (line t1 - 1) t1))
       else (Ok tt, set_column (column t1 - 1) t1).

Fixpoint repeatM {S} (n : nat) (m : M S unit) : M S unit :=
  match n with
  | O => ret tt
  | S n' => m ;> repeatM n' m
  end.

Definition advancePosition (numChars : Z) : M Tokenizer unit :=
  if 0 <=? numChars then repeatM (Z.to_nat numChars) (modify advanceForward)
  else repeatM (Z.to_nat (- numChars)) advanceBackward.

Definition getTokenLocation (t : Tokenizer) : CodeLocation :=
  mkCodeLocation (Source (referenceLocation t)) EmptyString (tokenLine t) (tokenColumn t)
    (tokenStartPos t) (tokenStartPos t + len (tokenString t)).

(** The location literal [&CodeLocation{Line: ..., Column: ...}] of the
    tokenizer's errors. *)
Definition errorLocation (t : Tokenizer) : CodeLocation :=
  mkCodeLocation EmptyString EmptyString (tokenLine t) (tokenColumn t) 0 0.

Definition tokenizerError (message : string) : M Tokenizer (option Token) :=
  let* t := get in
  throw (WithLocation (NewForthicError message) (Some (errorLocation t))).

(** [NewToken(ty, str, t.getTokenLocation()), nil]. *)
Definition emit (ty : TokenType) (str : Tokenizer -> string) : M Tokenizer (option Token) :=
  let* t := get in
  ret (Some (NewToken ty (str t) (Some (getTokenLocation t)))).

Definition writeRune (ch : ascii) : M Tokenizer unit :=
  modify (fun t => set_tokenString (WriteRune (tokenString t) ch) t).

Definition atEnd (t : Tokenizer) : bool := len (inputString t) <=? inputPos t.
Definition cur (t : Tokenizer) : ascii := byteAt (inputString t) (inputPos t).

(** Bound on the iterations of a scanning loop: every iteration consumes
    one byte, so the bytes left bound the iterations that can follow. *)
Definition bytesLeft (t : Tokenizer) : nat :=
  S (Z.to_nat (len (inputString t) - inputPos t)).

Fixpoint COMMENT_loop (n : nat) : M Tokenizer unit :=
  let* t := get in
  if atEnd t then ret tt else
  match n with
  | O => fun t => (OutOfFuel, t)
  | S n' =>
    let ch := cur t in
    writeRune ch ;>
    advancePosition 1 ;>
    if byteEq ch "010" then advancePosition (-1) else COMMENT_loop n'
  end.

Definition transitionFromCOMMENT : M Tokenizer (option Token) :=
  modify noteStartToken ;>
  (let* t := get in COMMENT_loop (bytesLeft t)) ;>
  emit TOKEN_COMMENT tokenString.

Fixpoint gatherDefinitionName_loop (n : nat) : M Tokenizer unit :=
  let* t := get in
  if atEnd t then ret tt else
  match n with
  | O => fun t => (OutOfFuel, t)
  | S n' =>
    let ch := cur t in
    advancePosition 1 ;>
    if isWhitespace t ch then ret tt
    else if isQuote t ch then
      throw (WithLocation (NewForthicError "Definition names can't have quotes in them")
               (Some (errorLocation t)))
    else if ContainsRune "[]{}" ch then
      throw (WithLocation
               (NewForthicError ("Definition names can't have '" +:+ encodeRune ch +:+ "' in them"))
               (Some (errorLocation t)))
    else writeRune ch ;> gatherDefinitionName_loop n'
  end.

Definition gatherDefinitionName : M Tokenizer unit :=
  let* t := get in gatherDefinitionName_loop (bytesLeft t).

Definition transitionFromGATHER_DEFINITION_NAME : M Tokenizer (option Token) :=
  modify noteStartToken ;>
  gatherDefinitionName ;>
  emit TOKEN_START_DEF tokenString.

Definition transitionFromGATHER_MEMO_NAME : M Tokenizer (option Token) :=
  modify noteStartToken ;>
  gatherDefinitionName ;>
  emit TOKEN_START_MEMO tokenString.

Fixpoint START_DEFINITION_loop (n : nat) : M Tokenizer (option Token) :=
  let* t := get in
  if atEnd t then tokenizerError "Got EOS in START_DEFINITION" else
  match n with
  | O => fun t => (OutOfFuel, t)
  | S n' =>
    let ch := cur t in
    advancePosition 1 ;>
    if isWhitespace t ch then START_DEFINITION_loop n'
    else if isQuote t ch then tokenizerError "Definition names can't have quotes in them"
    else advancePosition (-1) ;> transitionFromGATHER_DEFINITION_NAME
  end.

Definition transitionFromSTART_DEFINITION : M Tokenizer (option Token) :=
  let* t := get in START_DEFINITION_loop (bytesLeft t).

Fixpoint START_MEMO_loop (n : nat) : M Tokenizer (option Token) :=
  let* t := get in
  if atEnd t then tokenizerError "Got EOS in START_MEMO" else
  match n with
  | O => fun t => (OutOfFuel, t)
  | S n' =>
    let ch := cur t in
    advancePosition 1 ;>
    if isWhitespace t ch then START_MEMO_loop n'
    else if isQuote t ch then tokenizerError "Memo names can't have quotes in them"
    else advancePosition (-1) ;> transitionFromGATHER_MEMO_NAME
  end.

Definition transitionFromSTART_MEMO : M Tokenizer (option Token) :=
  let* t := get in START_MEMO_loop (bytesLeft t).

Fixpoint GATHER_MODULE_loop (n : nat) : M Tokenizer unit :=
  let* t := get in
  if atEnd t then ret tt else
  match n with
  | O => fun t => (OutOfFuel, t)
  | S n' =>
    let ch := cur t in
    advancePosition 1 ;>
    if isWhitespace t ch then ret tt
    else if byteEq ch "}" then advancePosition (-1)
    else writeRune ch ;> GATHER_MODULE_loop n'
  end.

Definition transitionFromGATHER_MODULE : M Tokenizer (option Token) :=
  modify noteStartToken ;>
  (let* t := get in GATHER_MODULE_loop (bytesLeft t)) ;>
  emit TOKEN_START_MODULE tokenString.

Definition setDeltaEnd (t : Tokenizer) : Tokenizer :=
  match stringDelta_ t with
  | Some d => set_stringDelta (Some (mkStringDelta (delta_start d) (inputPos t))) t
  | None => t
  end.

Definition unterminatedString : M Tokenizer (option Token) :=
  let* t := get in
  if streaming t then ret None
  else tokenizerError "Unterminated string".

Fixpoint GATHER_TRIPLE_QUOTE_STRING_loop (stringDelimiter : ascii) (n : nat)
    : M Tokenizer (option Token) :=
  let* t := get in
  if atEnd t then unterminatedString else
  match n with
  | O => fun t => (OutOfFuel, t)
  | S n' =>
    let ch := cur t in
    if byteEq ch stringDelimiter && isTripleQuote t (inputPos t) ch then
      if (inputPos t + 3 <? len (inputString t))
         && byteEq (byteAt (inputString t) (inputPos t + 3)) stringDelimiter
      then
        advancePosition 1 ;>
        writeRune stringDelimiter ;>
        modify setDeltaEnd ;>
        GATHER_TRIPLE_QUOTE_STRING_loop stringDelimiter n'
      else
        advancePosition 3 ;>
        let* token := emit TOKEN_STRING tokenString in
        modify (set_stringDelta None) ;>
        ret token
    else
      advancePosition 1 ;>
      writeRune ch ;>
      modify setDeltaEnd ;>
      GATHER_TRIPLE_QUOTE_STRING_loop stringDelimiter n'
  end.

Definition transitionFromGATHER_TRIPLE_QUOTE_STRING (delim : ascii)
    : M Tokenizer (option Token) :=
  modify noteStartToken ;>
  modify (fun t => set_stringDelta (Some (mkStringDelta (inputPos t) (inputPos t))) t) ;>
  let* t := get in
  GATHER_TRIPLE_QUOTE_STRING_loop delim (bytesLeft t).

Fixpoint GATHER_STRING_loop (stringDelimiter : ascii) (n : nat)
    : M Tokenizer (option Token) :=
  let* t := get in
  if atEnd t then unterminatedString else
  match n with
  | O => fun t => (OutOfFuel, t)
  | S n' =>
    let ch := cur t in
    advancePosition 1 ;>
    if byteEq ch stringDelimiter then
      let* token := emit TOKEN_STRING tokenString in
      modify (set_stringDelta None) ;>
      ret token
    else
      writeRune ch ;>
      modify setDeltaEnd ;>
      GATHER_STRING_loop stringDelimiter n'
  end.

Definition transitionFromGATHER_STRING (delim : ascii) : M Tokenizer (option Token) :=
  modify noteStartToken ;>
  modify (fun t => set_stringDelta (Some (mkStringDelta (inputPos t) (inputPos t))) t) ;>
  let* t := get in
  GATHER_STRING_loop delim (bytesLeft t).

(** The inner loop of [transitionFromGATHER_WORD] that gathers a
    bracketed time zone up to and including the closing bracket. *)
Fixpoint GATHER_WORD_tz_loop (n : nat) : M Tokenizer unit :=
  let* t := get in
  if atEnd t then ret tt else
  match n with
  | O => fun t => (OutOfFuel, t)
  | S n' =>
    let tzChar := cur t in
    advancePosition 1 ;>
    writeRune tzChar ;>
    if byteEq tzChar "]" then ret tt else GATHER_WORD_tz_loop n'
  end.

Fixpoint GATHER_WORD_loop (n : nat) : M Tokenizer unit :=
  let* t := get in
  if atEnd t then ret tt else
  match n with
  | O => fun t => (OutOfFuel, t)
  | S n' =>
    let ch := cur t in
    advancePosition 1 ;>
    if isWhitespace t ch then ret tt
    else if ContainsRune ";{}#" ch then advancePosition (-1)
    else if byteEq ch "[" then
      if Contains (tokenString t) "T" then
        writeRune ch ;>
        let* t' := get in GATHER_WORD_tz_loop (bytesLeft t')
      else advancePosition (-1)
    else if byteEq ch "]" then advancePosition (-1)
    else writeRune ch ;> GATHER_WORD_loop n'
  end.

Definition transitionFromGATHER_WORD : M Tokenizer (option Token) :=
  modify noteStartToken ;>
  (let* t := get in GATHER_WORD_loop (bytesLeft t)) ;>
  emit TOKEN_WORD tokenString.

(** The loop of [transitionFromGATHER_DOT_SYMBOL]; the local builder
    [fullTokenString] is the accumulator. *)
Fixpoint GATHER_DOT_SYMBOL_loop (n : nat) (fullTokenString : string) : M Tokenizer string :=
  let* t := get in
  if atEnd t then ret fullTokenString else
  match n with
  | O => fun t => (OutOfFuel, t)
  | S n' =>
    let ch := cur t in
    advancePosition 1 ;>
    if isWhitespace t ch then ret fullTokenString
    else if ContainsRune ";[]{}#" ch then advancePosition (-1) ;> ret fullTokenString
    else writeRune ch ;> GATHER_DOT_SYMBOL_loop n' (WriteRune fullTokenString ch)
  end.

Definition transitionFromGATHER_DOT_SYMBOL : M Tokenizer (option Token) :=
  modify noteStartToken ;>
  let* t := get in
  let* fullToken := GATHER_DOT_SYMBOL_loop (bytesLeft t) EmptyString in
  if len fullToken <? 2 then emit TOKEN_WORD (fun _ => fullToken)
  else
    let symbolWithoutDot := dropBytes 1 fullToken in
    emit TOKEN_DOT_SYMBOL (fun _ => symbolWithoutDot).

Fixpoint START_loop (n : nat) : M Tokenizer (option Token) :=
  let* t := get in
  if atEnd t then emit TOKEN_EOS (fun _ => EmptyString) else
  match n with
  | O => fun t => (OutOfFuel, t)
  | S n' =>
    let ch := cur t in
    modify noteStartToken ;>
    advancePosition 1 ;>
    let* t := get in
    if isWhitespace t ch then START_loop n'
    else if byteEq ch "#" then transitionFromCOMMENT
    else if byteEq ch ":" then transitionFromSTART_DEFINITION
    else if isStartMemo t (inputPos t - 1) then
      advancePosition 1 ;> transitionFromSTART_MEMO
    else if byteEq ch ";" then writeRune ch ;> emit TOKEN_END_DEF (fun _ => encodeRune ch)
    else if byteEq ch "[" then writeRune ch ;> emit TOKEN_START_ARRAY (fun _ => encodeRune ch)
    else if byteEq ch "]" then writeRune ch ;> emit TOKEN_END_ARRAY (fun _ => encodeRune ch)
    else if byteEq ch "{" then transitionFromGATHER_MODULE
    else if byteEq ch "}" then writeRune ch ;> emit TOKEN_END_MODULE (fun _ => encodeRune ch)
    else if isTripleQuote t (inputPos t - 1) ch then
      advancePosition 2 ;> transitionFromGATHER_TRIPLE_QUOTE_STRING ch
    else if isQuote t ch then transitionFromGATHER_STRING ch
    else if byteEq ch "." then
      advancePosition (-1) ;> transitionFromGATHER_DOT_SYMBOL
    else
      advancePosition (-1) ;> transitionFromGATHER_WORD
  end.

Definition transitionFromSTART : M Tokenizer (option Token) :=
  let* t := get in START_loop (bytesLeft t).

Definition NextToken : M Tokenizer (option Token) :=
  modify clearTokenString ;>
  transitionFromSTART.

(** The tokens of an input: tokens are pulled until the end-of-stream
    token, an error, or the bound [n]. *)
Fixpoint tokens (n : nat) (t : Tokenizer) : list (Outcome (option Token)) :=
  match n with
  | O => []
  | S n' =>
    match NextToken t with
    | (Ok (Some tok), t') =>
      match Type_ tok with
      | TOKEN_EOS => [Ok (Some tok)]
      | _ => Ok (Some tok) :: tokens n' t'
      end
    | (o, _) => [o]
    end
  end.

(* ===================================================================== *)
(** ** Values, words and the heap *)
(* ===================================================================== *)

(** A [time.Time]: the instant and the name of its location.  Values of
    this type are only made by the functions of Go's [time] package. *)
Inductive GoTime := mkGoTime (unixNano : Z) (locationName : string).

(** What an [interface{}] on the stack holds.  A [*Variable] is the index
    of its cell in the variable heap. *)
Inductive Value :=
| VNil
| VBool (b : bool)
| VInt (n : Z)
| VFloat (f : PrimFloat.float)
| VString (s : string)
| VTime (t : GoTime)
| VArray (items : list Value)
| VToken (tok : Token)
| VVariable (ref : nat).

(** [BaseWord].  An error handler is a Go function value; it is named
    here by a number that the host interprets.

    The Go struct has one more field, [location].  [handleWord] writes
    it when it compiles a word, through the pointer that the dictionary,
    the bodies of the definitions and the imports share, so that the
    write is seen by all of them; no function of the runtime reads it.
    The field is left out here: a word below is the Go word up to its
    location, and nothing below speaks about the location of a word. *)
Record BaseWord := mkBaseWord {
  name : string;
  str : string;
  errorHandlers : list nat
}.

Definition NewBaseWord (name : string) : BaseWord := mkBaseWord name name [].

(** The concrete word types.  The handler of a [ModuleWord] is a Go
    function value, named by a number.  The mutable fields [hasValue] and
    [value] of a [ModuleMemoWord] live in the memo heap at [cell], so that
    the memo word and its two refresh words share them. *)
Inductive Word :=
| PushValueWord (b : BaseWord) (value : Value)
| ModuleWord (b : BaseWord) (handler : nat)
| DefinitionWord (b : BaseWord) (words : list Word)
| ExecuteWord (b : BaseWord) (targetWord : Word)
| StartModuleWord (b : BaseWord)
| EndModuleWord (b : BaseWord)
| EndArrayWord (b : BaseWord)
| ModuleMemoWord (m : MemoWord)
| ModuleMemoBangWord (b : BaseWord) (memoWord : MemoWord)
| ModuleMemoBangAtWord (b : BaseWord) (memoWord : MemoWord)
with MemoWord :=
| mkModuleMemoWord (b : BaseWord) (word : Word) (cell : nat).

Definition memoBase (m : MemoWord) : BaseWord :=
  match m with mkModuleMemoWord b _ _ => b end.
Definition memoCell (m : MemoWord) : nat :=
  match m with mkModuleMemoWord _ _ c => c end.
Definition memoBody (m : MemoWord) : Word :=
  match m with mkModuleMemoWord _ w _ => w end.

Definition base (w : Word) : BaseWord :=
  match w with
  | PushValueWord b _ | ModuleWord b _ | DefinitionWord b _ | ExecuteWord b _
  | StartModuleWord b | EndModuleWord b | EndArrayWord b
  | ModuleMemoBangWord b _ | ModuleMemoBangAtWord b _ => b
  | ModuleMemoWord m => memoBase m
  end.

Definition GetName (w : Word) : string := name (base w).
Definition GetErrorHandlers (w : Word) : list nat := errorHandlers (base w).

(** Induction on words: the words of the body of a definition and the
    word inside a wrapper come with their induction hypotheses. *)
Section WordInduction.
Variable P : Word -> Prop.
Variable Q : MemoWord -> Prop.
Hypothesis HPush : forall b v, P (PushValueWord b v).
Hypothesis HModule : forall b h, P (ModuleWord b h).
Hypothesis HDefinition : forall b ws, Forall P ws -> P (DefinitionWord b ws).
Hypothesis HExecute : forall b t, P t -> P (ExecuteWord b t).
Hypothesis HStart : forall b, P (StartModuleWord b).
Hypothesis HEnd : forall b, P (EndModuleWord b).
Hypothesis HEndArray : forall b, P (EndArrayWord b).
Hypothesis HMemo : forall m, Q m -> P (ModuleMemoWord m).
Hypothesis HBang : forall b m, Q m -> P (ModuleMemoBangWord b m).
Hypothesis HBangAt : forall b m, Q m -> P (ModuleMemoBangAtWord b m).
Hypothesis HMk : forall b w c, P w -> Q (mkModuleMemoWord b w c).

Fixpoint Word_induction (w : Word) : P w :=
  match w with
  | PushValueWord b v => HPush b v
  | ModuleWord b h => HModule b h
  | DefinitionWord b ws =>
    HDefinition b ws
      ((fix go (ws : list Word) : Forall P ws :=
          match ws with
          | [] => @List.Forall_nil Word P
          | x :: rest => @List.Forall_cons Word P x rest (Word_induction x) (go rest)
          end) ws)
  | ExecuteWord b t => HExecute b t (Word_induction t)
  | StartModuleWord b => HStart b
  | EndModuleWord b => HEnd b
  | EndArrayWord b => HEndArray b
  | ModuleMemoWord m => HMemo m (MemoWord_induction m)
  | ModuleMemoBangWord b m => HBang b m (MemoWord_induction m)
  | ModuleMemoBangAtWord b m => HBangAt b m (MemoWord_induction m)
  end
with MemoWord_induction (m : MemoWord) : Q m :=
  match m with
  | mkModuleMemoWord b w c => HMk b w c (Word_induction w)
  end.

End WordInduction.

Definition NewPushValueWord (name : string) (value : Value) : Word :=
  PushValueWord (NewBaseWord name) value.
Definition NewModuleWord (name : string) (handler : nat) : Word :=
  ModuleWord (NewBaseWord name) handler.
Definition NewExecuteWord (name : string) (targetWord : Word) : Word :=
  ExecuteWord (NewBaseWord name) targetWord.
Definition NewStartModuleWord (name : string) : Word := StartModuleWord (NewBaseWord name).
Definition NewEndModuleWord : Word := EndModuleWord (NewBaseWord "}").
Definition NewEndArrayWord : Word := EndArrayWord (NewBaseWord "]").
Definition NewModuleMemoBangWord (memoWord : MemoWord) : Word :=
  ModuleMemoBangWord (NewBaseWord (name (memoBase memoWord) +:+ "!")) memoWord.
Definition NewModuleMemoBangAtWord (memoWord : MemoWord) : Word :=
  ModuleMemoBangAtWord (NewBaseWord (name (memoBase memoWord) +:+ "!@")) memoWord.

(** [Variable]. *)
Record Variable_ := NewVariable { var_name : string; var_value : Value }.

Definition Variable_Dup (v : Variable_) : Variable_ :=
  NewVariable (var_name v) (var_value v).

(** The mutable part of a [ModuleMemoWord]. *)
Record MemoCell := mkMemoCell { hasValue : bool; memo_value : Value }.

(** [Module].  Child modules and variables are held by pointer.  The
    field [interp] records whether the interpreter pointer is set. *)
Record Module_ := mkModule {
  words : list Word;
  exportable : list string;
  variables : gmap string nat;
  modules : gmap string nat;
  modulePrefixes : gmap string (gmap string bool);
  mname : string;
  forthicCode : string;
  interp : bool
}.

Definition NewModule (name forthicCode : string) : Module_ :=
  mkModule [] [] ∅ ∅ ∅ name forthicCode false.

Definition set_words (v : list Word) (m : Module_) : Module_ :=
  mkModule v (exportable m) (variables m) (modules m) (modulePrefixes m)
    (mname m) (forthicCode m) (interp m).
Definition set_exportable (v : list string) (m : Module_) : Module_ :=
  mkModule (words m) v (variables m) (modules m) (modulePrefixes m)
    (mname m) (forthicCode m) (interp m).
Definition set_variables (v : gmap string nat) (m : Module_) : Module_ :=
  mkModule (words m) (exportable m) v (modules m) (modulePrefixes m)
    (mname m) (forthicCode m) (interp m).
Definition set_modules (v : gmap string nat) (m : Module_) : Module_ :=
  mkModule (words m) (exportable m) (variables m) v (modulePrefixes m)
    (mname m) (forthicCode m) (interp m).
Definition set_modulePrefixes (v : gmap string (gmap string bool)) (m : Module_) : Module_ :=
  mkModule (words m) (exportable m) (variables m) (modules m) v
    (mname m) (forthicCode m) (interp m).
Definition SetInterp (m : Module_) : Module_ :=
  mkModule (words m) (exportable m) (variables m) (modules m) (modulePrefixes m)
    (mname m) (forthicCode m) true.

(** The part of the Go heap that holds modules, variables and memo
    cells.  A pointer is the index of its object. *)
Record Heap := mkHeap {
  moduleHeap : list Module_;
  variableHeap : list Variable_;
  memoHeap : list MemoCell
}.

Definition emptyHeap : Heap := mkHeap [] [] [].

Definition nilDereference : PanicValue :=
  PRuntime "invalid memory address or nil pointer dereference".

Definition allocModule (m : Module_) : M Heap nat := fun h =>
  (Ok (length (moduleHeap h)), mkHeap (moduleHeap h ++ [m]) (variableHeap h) (memoHeap h)).
Definition derefModule (r : nat) : M Heap Module_ := fun h =>
  match moduleHeap h !! r with
  | Some m => (Ok m, h)
  | None => (Panic nilDereference, h)
  end.
Definition storeModule (r : nat) (m : Module_) : M Heap unit := fun h =>
  (Ok tt, mkHeap (<[r := m]> (moduleHeap h)) (variableHeap h) (memoHeap h)).
Definition updateModule (r : nat) (f : Module_ -> Module_) : M Heap unit :=
  let* m := derefModule r in storeModule r (f m).

Definition allocVariable (v : Variable_) : M Heap nat := fun h =>
  (Ok (length (variableHeap h)), mkHeap (moduleHeap h) (variableHeap h ++ [v]) (memoHeap h)).
Definition derefVariable (r : nat) : M Heap Variable_ := fun h =>
  match variableHeap h !! r with
  | Some v => (Ok v, h)
  | None => (Panic nilDereference, h)
  end.

Definition allocMemo (c : MemoCell) : M Heap nat := fun h =>
  (Ok (length (memoHeap h)), mkHeap (moduleHeap h) (variableHeap h) (memoHeap h ++ [c])).
Definition derefMemo (r : nat) : M Heap MemoCell := fun h =>
  match memoHeap h !! r with
  | Some c => (Ok c, h)
  | None => (Panic nilDereference, h)
  end.
Definition storeMemo (r : nat) (c : MemoCell) : M Heap unit := fun h =>
  (Ok tt, mkHeap (moduleHeap h) (variableHeap h) (<[r := c]> (memoHeap h))).

(** [NewModuleMemoWord]: a new memo word with an empty cache. *)
Definition NewModuleMemoWord (word : Word) : M Heap MemoWord :=
  let* cell := allocMemo (mkMemoCell false VNil) in
  ret (mkModuleMemoWord (NewBaseWord (GetName word)) word cell).

(* ===================================================================== *)
(** ** Modules *)
(* ===================================================================== *)

(** [FindDictionaryWord]: the index runs from the last word to the first. *)
Definition Module_FindDictionaryWord (m : Module_) (wordName : string) : option Word :=
  List.find (fun w => String.eqb (GetName w) wordName) (rev (words m)).

Definition Module_FindVariable (m : Module_) (varName : string) : option Word :=
  match variables m !! varName with
  | Some variable => Some (NewPushValueWord varName (VVariable variable))
  | None => None
  end.

Definition Module_FindWord (m : Module_) (name : string) : option Word :=
  match Module_FindDictionaryWord m name with
  | Some word => Some word
  | None => Module_FindVariable m name
  end.

Definition Module_FindModule (m : Module_) (name : string) : option nat :=
  modules m !! name.

Definition Module_RegisterModule (moduleName prefix : string) (module : nat)
    (m : Module_) : Module_ :=
  let m := set_modules (<[moduleName := module]> (modules m)) m in
  let prefixes :=
    match modulePrefixes m !! moduleName with
    | Some p => p
    | None => ∅
    end in
  set_modulePrefixes (<[moduleName := <[prefix := true]> prefixes]> (modulePrefixes m)) m.

Definition Module_AddWord (word : Word) (m : Module_) : Module_ :=
  set_words (words m ++ [word]) m.

Definition Module_AddExportable (names : list string) (m : Module_) : Module_ :=
  set_exportable (exportable m ++ names) m.

Definition Module_AddExportableWord (word : Word) (m : Module_) : Module_ :=
  set_exportable (exportable m ++ [GetName word]) (set_words (words m ++ [word]) m).

Definition Module_AddModuleWord (wordName : string) (handler : nat) (m : Module_) : Module_ :=
  Module_AddExportableWord (NewModuleWord wordName handler) m.

(** [ExportableWords]: the words whose name is a key of the map built
    from the exportable list, in dictionary order. *)
Definition Module_ExportableWords (m : Module_) : list Word :=
  let exportableMap : gmap string bool :=
    fold_left (fun acc name => <[name := true]> acc) (exportable m) ∅ in
  List.filter (fun w => match exportableMap !! GetName w with
                        | Some b => b
                        | None => false
                        end) (words m).

(** [AddMemoWords], on the module at [r]. *)
Definition Module_AddMemoWords (r : nat) (word : Word) : M Heap MemoWord :=
  let* memoWord := NewModuleMemoWord word in
  updateModule r (fun m => set_words (words m ++ [ModuleMemoWord memoWord]) m) ;>
  updateModule r (fun m => set_words (words m ++ [NewModuleMemoBangWord memoWord]) m) ;>
  updateModule r (fun m => set_words (words m ++ [NewModuleMemoBangAtWord memoWord]) m) ;>
  ret memoWord.

(** [AddVariable], on the module at [r]: a new cell unless the name is bound. *)
Definition Module_AddVariable (r : nat) (name : string) (value : Value) : M Heap unit :=
  let* m := derefModule r in
  match variables m !! name with
  | Some _ => ret tt
  | None =>
    let* v := allocVariable (NewVariable name value) in
    storeModule r (set_variables (<[name := v]> (variables m)) m)
  end.

(** The loop of [Dup] over the variables: every variable is duplicated
    into a new cell.  Go ranges over the map in an unspecified order;
    the order only decides which new cell gets which address. *)
Fixpoint dupVariables (vars : list (string * nat)) (acc : gmap string nat)
    : M Heap (gmap string nat) :=
  match vars with
  | [] => ret acc
  | (key, variable) :: rest =>
    let* v := derefVariable variable in
    let* v' := allocVariable (Variable_Dup v) in
    dupVariables rest (<[key := v']> acc)
  end.

(** [Dup], of the module at [r]; the result is the pointer to the copy. *)
Definition Module_Dup (r : nat) : M Heap nat :=
  let* m := derefModule r in
  let result := NewModule (mname m) (forthicCode m) in
  let result := set_words (words m) result in
  let result := set_exportable (exportable m) result in
  let* vars := dupVariables (map_to_list (variables m)) (variables result) in
  let result := set_variables vars result in
  let result :=
    set_modules
      (fold_left (fun acc kv => <[fst kv := snd kv]> acc) (map_to_list (modules m)) (modules result))
      result in
  allocModule result.

(** The loop of [ImportModule] over the exportable words of the copy. *)
Definition importWords (prefix : string) (words : list Word) (m : Module_) : Module_ :=
  fold_left
    (fun m word =>
       if String.eqb prefix EmptyString then Module_AddWord word m
       else
         let prefixedWord := NewExecuteWord (prefix +:+ "." +:+ GetName word) word in
         Module_AddWord prefixedWord m)
    words m.

(** [ImportModule] into the module at [host]. *)
Definition Module_ImportModule (host : nat) (prefix : string) (module : nat) : M Heap unit :=
  let* newModule := Module_Dup module in
  let* copy := derefModule newModule in
  let words := Module_ExportableWords copy in
  updateModule host (importWords prefix words) ;>
  let* original := derefModule module in
  updateModule host (Module_RegisterModule (mname original) prefix newModule).

(* ===================================================================== *)
(** ** Interpreter *)
(* ===================================================================== *)

(** [LiteralHandler]: the parsed value, or nothing. *)
Definition LiteralHandler : Type := string -> option Value.

(** [Interpreter].  [stack] holds the items of the data stack, bottom
    first; [curDefinition] holds the name part and the words of the
    definition being compiled; [heap] is the part of the Go heap that the
    interpreter reaches. *)
Record Interpreter := mkInterpreter {
  stack : list Value;
  appModule : nat;
  moduleStack : list nat;
  registeredMods : gmap string nat;
  tokenizerStack : list Tokenizer;
  previousToken : option Token;
  isCompiling : bool;
  isMemoDefinition : bool;
  curDefinition : option (BaseWord * list Word);
  literalHandlers : list LiteralHandler;
  timezone : string;
  heap : Heap
}.

Definition set_stack (v : list Value) (i : Interpreter) : Interpreter :=
  mkInterpreter v (appModule i) (moduleStack i) (registeredMods i) (tokenizerStack i)
    (previousToken i) (isCompiling i) (isMemoDefinition i) (curDefinition i)
    (literalHandlers i) (timezone i) (heap i).
Definition set_appModule (v : nat) (i : Interpreter) : Interpreter :=
  mkInterpreter (stack i) v (moduleStack i) (registeredMods i) (tokenizerStack i)
    (previousToken i) (isCompiling i) (isMemoDefinition i) (curDefinition i)
    (literalHandlers i) (timezone i) (heap i).
Definition set_moduleStack (v : list nat) (i : Interpreter) : Interpreter :=
  mkInterpreter (stack i) (appModule i) v (registeredMods i) (tokenizerStack i)
    (previousToken i) (isCompiling i) (isMemoDefinition i) (curDefinition i)
    (literalHandlers i) (timezone i) (heap i).
Definition set_registeredMods (v : gmap string nat) (i : Interpreter) : Interpreter :=
  mkInterpreter (stack i) (appModule i) (moduleStack i) v (tokenizerStack i)
    (previousToken i) (isCompiling i) (isMemoDefinition i) (curDefinition i)
    (literalHandlers i) (timezone i) (heap i).
Definition set_tokenizerStack (v : list Tokenizer) (i : Interpreter) : Interpreter :=
  mkInterpreter (stack i) (appModule i) (moduleStack i) (registeredMods i) v
    (previousToken i) (isCompiling i) (isMemoDefinition i) (curDefinition i)
    (literalHandlers i) (timezone i) (heap i).
Definition set_previousToken (v : option Token) (i : Interpreter) : Interpreter :=
  mkInterpreter (stack i) (appModule i) (moduleStack i) (registeredMods i) (tokenizerStack i)
    v (isCompiling i) (isMemoDefinition i) (curDefinition i)
    (literalHandlers i) (timezone i) (heap i).
Definition set_isCompiling (v : bool) (i : Interpreter) : Interpreter :=
  mkInterpreter (stack i) (appModule i) (moduleStack i) (registeredMods i) (tokenizerStack i)
    (previousToken i) v (isMemoDefinition i) (curDefinition i)
    (literalHandlers i) (timezone i) (heap i).
Definition set_isMemoDefinition (v : bool) (i : Interpreter) : Interpreter :=
  mkInterpreter (stack i) (appModule i) (moduleStack i) (registeredMods i) (tokenizerStack i)
    (previousToken i) (isCompiling i) v (curDefinition i)
    (literalHandlers i) (timezone i) (heap i).
Definition set_curDefinition (v : option (BaseWord * list Word)) (i : Interpreter) : Interpreter :=
  mkInterpreter (stack i) (appModule i) (moduleStack i) (registeredMods i) (tokenizerStack i)
    (previousToken i) (isCompiling i) (isMemoDefinition i) v
    (literalHandlers i) (timezone i) (heap i).
Definition set_literalHandlers (v : list LiteralHandler) (i : Interpreter) : Interpreter :=
  mkInterpreter (stack i) (appModule i) (moduleStack i) (registeredMods i) (tokenizerStack i)
    (previousToken i) (isCompiling i) (isMemoDefinition i) (curDefinition i)
    v (timezone i) (heap i).
Definition set_heap (v : Heap) (i : Interpreter) : Interpreter :=
  mkInterpreter (stack i) (appModule i) (moduleStack i) (registeredMods i) (tokenizerStack i)
    (previousToken i) (isCompiling i) (isMemoDefinition i) (curDefinition i)
    (literalHandlers i) (timezone i) v.

(** A heap operation run on the heap of the interpreter. *)
Definition liftHeap {A} (m : M Heap A) : M Interpreter A := fun i =>
  let (o, h) := m (heap i) in (o, set_heap h i).

(** What the host supplies: the Go functions behind the numbers of
    native handlers and of error handlers.  An error handler that returns
    nil ends in [Ok]; one that returns an error ends in [Err]. *)
Class Host := {
  native : nat -> M Interpreter unit;
  errorHandler : nat -> Error -> Word -> M Interpreter unit
}.

(** [m], and on an [error] return [h] applied to it, in the state that
    [m] left. *)
Definition catch {S A} (m : M S A) (h : Error -> M S A) : M S A := fun s =>
  match m s with
  | (Err e, s') => h e s'
  | r => r
  end.

(** *** Stack operations *)

(** [Stack.Pop] and [Stack.Peek] on the items. *)
Definition Stack_Pop (items : list Value) : (Value * list Value) + Error :=
  match last items with
  | None => inr NewStackUnderflowError
  | Some val => inl (val, removelast items)
  end.
Definition Stack_Peek (items : list Value) : Value + Error :=
  match last items with
  | None => inr NewStackUnderflowError
  | Some val => inl val
  end.

Definition StackPush (val : Value) : M Interpreter unit :=
  modify (fun i => set_stack (stack i ++ [val]) i).

(** The location that [StackPop] and [StackPeek] attach to the underflow. *)
Definition underflowLocation (i : Interpreter) : option CodeLocation :=
  match last (tokenizerStack i) with
  | Some tokenizer => Some (getTokenLocation tokenizer)
  | None => None
  end.

Definition StackPop : M Interpreter Value := fun i =>
  match Stack_Pop (stack i) with
  | inl (val, items) => (Ok val, set_stack items i)
  | inr _ =>
    (Panic (PError (WithLocation NewStackUnderflowError (underflowLocation i))), i)
  end.

Definition StackPeek : M Interpreter Value := fun i =>
  match Stack_Peek (stack i) with
  | inl val => (Ok val, i)
  | inr _ =>
    (Panic (PError (WithLocation NewStackUnderflowError (underflowLocation i))), i)
  end.

(** *** Module operations *)

Definition indexOutOfRange : PanicValue := PRuntime "index out of range".

Definition CurModule : M Interpreter nat := fun i =>
  match last (moduleStack i) with
  | Some module => (Ok module, i)
  | None => (Panic indexOutOfRange, i)
  end.

Definition ModuleStackPush (module : nat) : M Interpreter unit :=
  modify (fun i => set_moduleStack (moduleStack i ++ [module]) i).

Definition ModuleStackPop : M Interpreter nat := fun i =>
  if (length (moduleStack i) <=? 1)%nat
  then (Panic (PError (NewForthicError "Cannot pop app module from module stack")), i)
  else
    match last (moduleStack i) with
    | Some module => (Ok module, set_moduleStack (removelast (moduleStack i)) i)
    | None => (Panic indexOutOfRange, i)
    end.

Definition RegisterModule (module : nat) : M Interpreter unit :=
  let* m := liftHeap (derefModule module) in
  modify (fun i => set_registeredMods (<[mname m := module]> (registeredMods i)) i) ;>
  liftHeap (updateModule module SetInterp).


(** [Interpreter.ImportModule]: register, then import into the app module. *)
Definition ImportModule (module : nat) (prefix : string) : M Interpreter unit :=
  RegisterModule module ;>
  let* i := get in
  liftHeap (Module_ImportModule (appModule i) prefix module).

(** *** Literal handlers and word lookup *)

Definition RegisterLiteralHandler (handler : LiteralHandler) : M Interpreter unit :=
  modify (fun i => set_literalHandlers (handler :: literalHandlers i) i).

Fixpoint findLiteralWord_loop (handlers : list LiteralHandler) (name : string) : option Word :=
  match handlers with
  | [] => None
  | handler :: rest =>
    match handler name with
    | Some value => Some (NewPushValueWord name value)
    | None => findLiteralWord_loop rest name
    end
  end.

Definition findLiteralWord (i : Interpreter) (name : string) : option Word :=
  findLiteralWord_loop (literalHandlers i) name.

(** The loop of [FindWord] over the module stack; [stack] is listed from
    the top of the module stack to its bottom. *)
Fixpoint FindWord_loop (stack : list nat) (name : string) : M Heap (option Word) :=
  match stack with
  | [] => ret None
  | module :: rest =>
    let* m := derefModule module in
    match Module_FindWord m name with
    | Some word => ret (Some word)
    | None => FindWord_loop rest name
    end
  end.

Definition FindWord (name : string) : M Interpreter Word :=
  let* i := get in
  let* found := liftHeap (FindWord_loop (rev (moduleStack i)) name) in
  match found with
  | Some word => ret word
  | None =>
    match findLiteralWord i name with
    | Some word => ret word
    | None => throw (NewUnknownWordError name)
    end
  end.

(** *** Word execution *)

Section Execution.
Context {host : Host}.

(** The loop of [TryErrorHandlers] over the handlers of the word. *)
Fixpoint tryHandlers (handlers : list nat) (err : Error) (word : Word)
    : M Interpreter unit := fun i =>
  match handlers with
  | [] => (Err err, i)
  | handler :: rest =>
    match errorHandler handler err word i with
    | (Ok _, i') => (Ok tt, i')
    | (Err _, i') => tryHandlers rest err word i'
    | (Panic p, i') => (Panic p, i')
    | (OutOfFuel, i') => (OutOfFuel, i')
    end
  end.

(** [TryErrorHandlers]: [Ok] when the error was handled (nil is
    returned), [Err] with the error otherwise. *)
Definition TryErrorHandlers (b : BaseWord) (err : Error) (word : Word)
    : M Interpreter unit :=
  if isIntentionalStop err then throw err
  else tryHandlers (errorHandlers b) err word.

(** The reaction of [ModuleWord.Execute] and [DefinitionWord.Execute] to
    an error [err] of what they ran: nil if a handler of the word [w]
    handled it, [err] otherwise. *)
Definition handleExecutionError (b : BaseWord) (w : Word) (err : Error)
    : M Interpreter unit :=
  catch (TryErrorHandlers b err w) (fun _ => throw err).

Definition isStartArrayToken (item : Value) : bool :=
  match item with
  | VToken token =>
    match Type_ token with
    | TOKEN_START_ARRAY => true
    | _ => false
    end
  | _ => false
  end.

(** The first loop of [EndArrayWord.Execute]; [n] bounds the pops. *)
Fixpoint EndArray_loop (n : nat) (items : list Value) : M Interpreter (list Value) :=
  match n with
  | O => fun i => (OutOfFuel, i)
  | S n' =>
    let* item := StackPop in
    if isStartArrayToken item then ret items
    else EndArray_loop n' (items ++ [item])
  end.

Definition EndArrayWord_Execute : M Interpreter unit :=
  let* i := get in
  let* items := EndArray_loop (S (length (stack i))) [] in
  let items := rev items in
  StackPush (VArray items).

Definition StartModuleWord_Execute (b : BaseWord) : M Interpreter unit :=
  if String.eqb (name b) EmptyString then
    let* i := get in ModuleStackPush (appModule i)
  else
    let* cur := CurModule in
    let* curModule := liftHeap (derefModule cur) in
    let* module :=
      match Module_FindModule curModule (name b) with
      | Some module => ret module
      | None =>
        let* module := liftHeap (allocModule (NewModule (name b) EmptyString)) in
        let* cur := CurModule in
        liftHeap (updateModule cur (Module_RegisterModule (name b) (name b) module)) ;>
        let* cur := CurModule in
        let* curModule := liftHeap (derefModule cur) in
        (if String.eqb (mname curModule) EmptyString
         then RegisterModule module else ret tt) ;>
        ret module
      end in
    ModuleStackPush module.

Definition EndModuleWord_Execute : M Interpreter unit :=
  ModuleStackPop ;> ret tt.

Definition memoValue (m : MemoWord) : M Interpreter MemoCell :=
  liftHeap (derefMemo (memoCell m)).

(** [Execute] of every word type, and [ModuleMemoWord.Refresh]. *)
Fixpoint Execute (w : Word) : M Interpreter unit :=
  match w with
  | PushValueWord _ value => StackPush value
  | ModuleWord b handler =>
    catch (native handler) (handleExecutionError b w)
  | DefinitionWord b words =>
    (fix loop (words : list Word) : M Interpreter unit :=
       match words with
       | [] => ret tt
       | word :: rest =>
         catch (Execute word) (handleExecutionError b w) ;> loop rest
       end) words
  | ExecuteWord _ targetWord => Execute targetWord
  | StartModuleWord b => StartModuleWord_Execute b
  | EndModuleWord _ => EndModuleWord_Execute
  | EndArrayWord _ => EndArrayWord_Execute
  | ModuleMemoWord m =>
    let* c := memoValue m in
    (if negb (hasValue c) then Refresh m else ret tt) ;>
    let* c := memoValue m in
    StackPush (memo_value c)
  | ModuleMemoBangWord _ memoWord => Refresh memoWord
  | ModuleMemoBangAtWord _ memoWord =>
    Refresh memoWord ;>
    let* c := memoValue memoWord in
    StackPush (memo_value c)
  end
with Refresh (m : MemoWord) : M Interpreter unit :=
  match m with
  | mkModuleMemoWord _ word cell =>
    Execute word ;>
    let* value := StackPop in
    liftHeap (storeMemo cell (mkMemoCell true value))
  end.

(** The loop of [DefinitionWord.Execute], for the definition [w] with
    the name part [b]. *)
Definition Definition_loop (b : BaseWord) (w : Word) : list Word -> M Interpreter unit :=
  fix loop (words : list Word) : M Interpreter unit :=
    match words with
    | [] => ret tt
    | word :: rest =>
      catch (Execute word) (handleExecutionError b w) ;> loop rest
    end.

(** *** Token handling *)

(** [i.curDefinition.words = append(i.curDefinition.words, word)]. *)
Definition appendToDefinition (word : Word) : M Interpreter unit := fun i =>
  match curDefinition i with
  | Some (b, words) => (Ok tt, set_curDefinition (Some (b, words ++ [word])) i)
  | None => (Panic nilDereference, i)
  end.

(** [handleWord].  While compiling, the Go code first writes [location]
    into the word, a field that words do not have here, and then appends
    the word. *)
Definition handleWord (word : Word) (location : option CodeLocation) : M Interpreter unit :=
  let* i := get in
  if isCompiling i then
    appendToDefinition word
  else Execute word.

Definition handleStringToken (token : Token) : M Interpreter unit :=
  handleWord (NewPushValueWord "<string>" (VString (String_ token))) (Location token).

Definition handleDotSymbolToken (token : Token) : M Interpreter unit :=
  handleWord (NewPushValueWord "<dot-symbol>" (VString (String_ token))) (Location token).

Definition handleCommentToken (token : Token) : M Interpreter unit := ret tt.

Definition handleStartArrayToken (token : Token) : M Interpreter unit :=
  handleWord (NewPushValueWord "<start_array_token>" (VToken token)) (Location token).

Definition handleEndArrayToken (token : Token) : M Interpreter unit :=
  handleWord NewEndArrayWord (Location token).

Definition handleStartModuleToken (token : Token) : M Interpreter unit :=
  let word := NewStartModuleWord (String_ token) in
  let* i := get in
  (if isCompiling i then appendToDefinition word else ret tt) ;>
  Execute word.

Definition handleEndModuleToken (token : Token) : M Interpreter unit :=
  let word := NewEndModuleWord in
  let* i := get in
  (if isCompiling i then appendToDefinition word else ret tt) ;>
  Execute word.

(** [NewMissingSemicolonError().WithLocation(i.previousToken.Location)]. *)
Definition missingSemicolonAtPrevious : M Interpreter unit := fun i =>
  match previousToken i with
  | Some previous => (Err (WithLocation NewMissingSemicolonError (Location previous)), i)
  | None => (Panic nilDereference, i)
  end.

Definition handleStartDefinitionToken (token : Token) : M Interpreter unit :=
  let* i := get in
  if isCompiling i then missingSemicolonAtPrevious
  else
    modify (set_curDefinition (Some (NewBaseWord (String_ token), []))) ;>
    modify (set_isCompiling true) ;>
    modify (set_isMemoDefinition false).

Definition handleStartMemoToken (token : Token) : M Interpreter unit :=
  let* i := get in
  if isCompiling i then missingSemicolonAtPrevious
  else
    modify (set_curDefinition (Some (NewBaseWord (String_ token), []))) ;>
    modify (set_isCompiling true) ;>
    modify (set_isMemoDefinition true).

Definition handleEndDefinitionToken (token : Token) : M Interpreter unit :=
  let* i := get in
  match isCompiling i, curDefinition i with
  | true, Some (b, words) =>
    let* cur := CurModule in
    (if isMemoDefinition i
     then liftHeap (Module_AddMemoWords cur (DefinitionWord b words)) ;> ret tt
     else liftHeap (updateModule cur (Module_AddWord (DefinitionWord b words)))) ;>
    modify (set_isCompiling false)
  | _, _ => throw (WithLocation NewExtraSemicolonError (Location token))
  end.

Definition handleWordToken (token : Token) : M Interpreter unit :=
  let* word := FindWord (String_ token) in
  handleWord word (Location token).

Definition handleEOS : M Interpreter unit := fun i =>
  if isCompiling i then
    match previousToken i with
    | Some previous => (Err (WithLocation NewMissingSemicolonError (Location previous)), i)
    | None => (Err NewMissingSemicolonError, i)
    end
  else (Ok tt, i).

Definition handleToken (token : Token) : M Interpreter unit :=
  match Type_ token with
  | TOKEN_STRING => handleStringToken token
  | TOKEN_COMMENT => handleCommentToken token
  | TOKEN_START_ARRAY => handleStartArrayToken token
  | TOKEN_END_ARRAY => handleEndArrayToken token
  | TOKEN_START_MODULE => handleStartModuleToken token
  | TOKEN_END_MODULE => handleEndModuleToken token
  | TOKEN_START_DEF => handleStartDefinitionToken token
  | TOKEN_START_MEMO => handleStartMemoToken token
  | TOKEN_END_DEF => handleEndDefinitionToken token
  | TOKEN_DOT_SYMBOL => handleDotSymbolToken token
  | TOKEN_WORD => handleWordToken token
  | TOKEN_EOS => handleEOS
  end.

(** *** The main loop *)

(** [tokenizer.NextToken()] on the tokenizer that [Run] pushed: the top
    of the tokenizer stack.  The loop of the source holds a pointer to
    that tokenizer; the pointer and the top of the stack agree as long as
    what runs between two tokens leaves the tokenizer stack as it found
    it, which a nested [Run] does on every return. *)
Definition nextToken : M Interpreter (option Token) := fun i =>
  match last (tokenizerStack i) with
  | Some tokenizer =>
    let (o, tokenizer') := NextToken tokenizer in
    (o, set_tokenizerStack (removelast (tokenizerStack i) ++ [tokenizer']) i)
  | None => (Panic indexOutOfRange, i)
  end.

Definition isEOS (token : Token) : bool :=
  match Type_ token with TOKEN_EOS => true | _ => false end.

(** [runWithTokenizer]; [fuel] bounds the iterations of its loop. *)
Fixpoint runWithTokenizer (fuel : nat) : M Interpreter unit :=
  match fuel with
  | O => fun i => (OutOfFuel, i)
  | S fuel' =>
    let* next := nextToken in
    match next with
    | None => panic nilDereference
    | Some token =>
      handleToken token ;>
      if isEOS token then ret tt
      else modify (set_previousToken (Some token)) ;> runWithTokenizer fuel'
    end
  end.

(** [Run].  The tokenizer is popped on a normal or [error] return; a
    panic unwinds through [Run], which has no deferred call. *)
Definition Run (fuel : nat) (code : string) : M Interpreter unit := fun i =>
  let tokenizer := NewTokenizer code None false in
  let i := set_tokenizerStack (tokenizerStack i ++ [tokenizer]) i in
  match runWithTokenizer fuel i with
  | (Ok tt, i') => (Ok tt, set_tokenizerStack (removelast (tokenizerStack i')) i')
  | (Err err, i') => (Err err, set_tokenizerStack (removelast (tokenizerStack i')) i')
  | r => r
  end.

End Execution.

(* ===================================================================== *)
(** ** Literals and interpreter construction *)
(* ===================================================================== *)

(** The functions of Go's standard library that the literal handlers
    call and that are not modelled: float parsing, the clock, and the
    construction and parsing of times.  A location is named by a string. *)
Class External := {
  strconv_ParseFloat : string -> option PrimFloat.float;
  time_LoadLocation : string -> bool;
  time_Date : Z -> Z -> Z -> Z -> Z -> Z -> Z -> string -> GoTime;
  time_Now : string -> Z * Z * Z;
  parseZonedDateTime : string -> string -> option GoTime
}.

Definition isDigit (c : ascii) : bool :=
  let n := N_of_ascii c in ((48 <=? n) && (n <=? 57))%N.

Fixpoint digitsValue (s : string) (acc : Z) : option Z :=
  match s with
  | EmptyString => Some acc
  | String c rest =>
    if isDigit c then digitsValue rest (10 * acc + (Z.of_N (N_of_ascii c) - 48))
    else None
  end.

(** [strconv.ParseInt(s, 10, 64)]: an optional sign, then at least one
    decimal digit; a value out of the range of int64 is an error. *)
Definition strconv_ParseInt (s : string) : option Z :=
  match s with
  | EmptyString => None
  | String c rest =>
    let '(neg, digits) :=
      if byteEq c "+" then (false, rest)
      else if byteEq c "-" then (true, rest)
      else (false, s) in
    match digits with
    | EmptyString => None
    | _ =>
      match digitsValue digits 0 with
      | None => None
      | Some un =>
        if negb neg && (2 ^ 63 <=? un) then None
        else if neg && (2 ^ 63 <? un) then None
        else Some (if neg then - un else un)
      end
    end
  end.

(** [strconv.FormatInt(n, 10)]. *)
Definition strconv_FormatInt (n : Z) : string := NilZero.string_of_int (Z.to_int n).

(** [strconv.Atoi] on a string of decimal digits. *)
Definition strconv_Atoi (s : string) : option Z := strconv_ParseInt s.

Definition ToBool (str : string) : option Value :=
  if String.eqb str "TRUE" then Some (VBool true)
  else if String.eqb str "FALSE" then Some (VBool false)
  else None.

Definition ToInt (str : string) : option Value :=
  if Contains str "." then None
  else
    match strconv_ParseInt str with
    | None => None
    | Some result =>
      if negb (String.eqb (strconv_FormatInt result) str) then None
      else Some (VInt result)
    end.

(** Whitespace of the regular expression class [\s]. *)
Definition isRegexpSpace (c : ascii) : bool :=
  inList ["009"; "010"; "012"; "013"; " "]%char c.

Fixpoint skipRegexpSpace (s : string) : string :=
  match s with
  | String c rest => if isRegexpSpace c then skipRegexpSpace rest else s
  | EmptyString => s
  end.

(** The submatches of [^(\d{1,2}):(\d{2})(?:\s*(AM|PM))?$]. *)
Definition matchTime (str : string) : option (string * string * string) :=
  let tail (hh rest : string) :=
    match rest with
    | String m1 (String m2 suffix) =>
      if isDigit m1 && isDigit m2 then
        let mm := String m1 (String m2 EmptyString) in
        if String.eqb suffix EmptyString then Some (hh, mm, EmptyString)
        else
          let meridiem := skipRegexpSpace suffix in
          if String.eqb meridiem "AM" || String.eqb meridiem "PM"
          then Some (hh, mm, meridiem) else None
      else None
    | _ => None
    end in
  match str with
  | String h1 (String c2 rest) =>
    if isDigit h1 then
      if byteEq c2 ":" then tail (String h1 EmptyString) rest
      else if isDigit c2 then
        match rest with
        | String c3 rest' =>
          if byteEq c3 ":" then tail (String h1 (String c2 EmptyString)) rest' else None
        | EmptyString => None
        end
      else None
    else None
  | _ => None
  end.

(** The submatches of [^(\d{4}|YYYY)-(\d{2}|MM)-(\d{2}|DD)$]. *)
Definition matchLiteralDate (str : string) : option (string * string * string) :=
  let allDigits (s : string) := match digitsValue s 0 with Some _ => true | None => false end in
  match str with
  | String y1 (String y2 (String y3 (String y4 (String d1 (String m1 (String m2
      (String d2 (String a1 (String a2 EmptyString))))))))) =>
    let year := String y1 (String y2 (String y3 (String y4 EmptyString))) in
    let month := String m1 (String m2 EmptyString) in
    let day := String a1 (String a2 EmptyString) in
    if byteEq d1 "-" && byteEq d2 "-"
       && (allDigits year || String.eqb year "YYYY")
       && (allDigits month || String.eqb month "MM")
       && (allDigits day || String.eqb day "DD")
    then Some (year, month, day) else None
  | _ => None
  end.

(** The first steps of [NewInterpreter]: the fields are initialised, the
    app module is created and made the bottom of the module stack.  The
    result is the interpreter as it is when [NewInterpreter] comes to
    register the literal handlers. *)
Definition interpreterCore (h : Heap) : Interpreter :=
  snd ((let* app := liftHeap (allocModule (NewModule EmptyString EmptyString)) in
        modify (set_appModule app) ;>
        liftHeap (updateModule app SetInterp) ;>
        ModuleStackPush app)
         (mkInterpreter [] 0%nat [] ∅ [] None false false None [] "UTC" h)).

Section Literals.
Context {external : External}.

Definition ToFloat (str : string) : option Value :=
  if negb (Contains str ".") then None
  else
    match strconv_ParseFloat str with
    | None => None
    | Some result => Some (VFloat result)
    end.

Definition ToTime (str : string) : option Value :=
  match matchTime str with
  | None => None
  | Some (hh, mm, meridiem) =>
    match strconv_Atoi hh, strconv_Atoi mm with
    | Some hours, Some minutes =>
      let hours :=
        if String.eqb meridiem "PM" && (hours <? 12) then hours + 12
        else if String.eqb meridiem "AM" && (hours =? 12) then 0
        else if String.eqb meridiem "AM" && (12 <? hours) then hours - 12
        else hours in
      if (23 <? hours) || (60 <=? minutes) then None
      else Some (VTime (time_Date 0 1 1 hours minutes 0 0 "UTC"))
    | _, _ => None
    end
  end.

Definition ToLiteralDate (timezone : string) (str : string) : option Value :=
  match matchLiteralDate str with
  | None => None
  | Some (y, m, d) =>
    let '(nowYear, nowMonth, nowDay) := time_Now timezone in
    let pick (text wildcard : string) (today : Z) : option Z :=
      if negb (String.eqb text wildcard) then strconv_Atoi text else Some today in
    match pick y "YYYY" nowYear, pick m "MM" nowMonth, pick d "DD" nowDay with
    | Some year, Some month, Some day =>
      Some (VTime (time_Date year month day 0 0 0 0 timezone))
    | _, _, _ => None
    end
  end.

(** [ToZonedDateTime]: the guard on the letter T is the handler's own;
    what follows it is parsing by Go's [time] package. *)
Definition ToZonedDateTime (timezone : string) (str : string) : option Value :=
  if negb (Contains str "T") then None
  else
    match parseZonedDateTime timezone str with
    | Some t => Some (VTime t)
    | None => None
    end.

Definition registerStandardLiterals : M Interpreter unit :=
  let* i := get in
  let loc := if time_LoadLocation (timezone i) then timezone i else "UTC" in
  modify (set_literalHandlers
            [ToBool; ToFloat; ToZonedDateTime loc; ToLiteralDate loc; ToTime; ToInt]).

(** The loop of [NewInterpreter] that imports the given modules. *)
Fixpoint importModules (modules : list nat) : M Interpreter unit :=
  match modules with
  | [] => ret tt
  | module :: rest => ImportModule module EmptyString ;> importModules rest
  end.

(** [NewInterpreter(modules...)], in a heap [h] that holds the modules. *)
Definition NewInterpreter (h : Heap) (modules : list nat) : Outcome unit * Interpreter :=
  (registerStandardLiterals ;> importModules modules) (interpreterCore h).

End Literals.

(* ===================================================================== *)
(** ** A host: the addition word of the math module *)
(* ===================================================================== *)

(** [float64(v)] of an int64. *)
Definition float64_of_int64 (n : Z) : PrimFloat.float :=
  if 0 <=? n then PrimFloat.of_uint63 (Uint63.of_Z n)
  else if n =? - 2 ^ 63
       then PrimFloat.opp (PrimFloat.mul (PrimFloat.of_uint63 (Uint63.of_Z (2 ^ 62)))
                                         (PrimFloat.of_uint63 (Uint63.of_Z 2)))
       else PrimFloat.opp (PrimFloat.of_uint63 (Uint63.of_Z (- n))).

(** [toNumber] of the math module. *)
Definition toNumber (val : Value) : option PrimFloat.float :=
  match val with
  | VInt v => Some (float64_of_int64 v)
  | VFloat v => Some v
  | _ => None
  end.

(** [MathModule.plus]. *)
Definition MathModule_plus : M Interpreter unit :=
  let* b := StackPop in
  match b with
  | VArray arr =>
    let result :=
      fold_left (fun result val =>
                   match toNumber val with
                   | Some num => PrimFloat.add result num
                   | None => result
                   end) arr PrimFloat.zero in
    StackPush (VFloat result)
  | _ =>
    let* a := StackPop in
    match toNumber a, toNumber b with
    | Some numA, Some numB => StackPush (VFloat (PrimFloat.add numA numB))
    | _, _ => StackPush (VFloat PrimFloat.zero)
    end
  end.

(** The host of the math module: its native handler number 0 is [plus].
    It registers no error handler. *)
Definition mathHost : Host := {|
  native := fun handler =>
    match handler with
    | O => MathModule_plus
    | _ => throw (NewForthicError "Must override Word.Execute")
    end;
  errorHandler := fun _ err _ => throw err
|}.

(** [NewModule("math", "")] with [AddModuleWord("+", m.plus)]. *)
Definition mathModule : Module_ :=
  Module_AddModuleWord "+" 0%nat (NewModule "math" EmptyString).

(** The interpreter of the math tests: a new interpreter into which the
    math module is imported without a prefix. *)
Definition setupMathInterpreter {external : External} : Outcome unit * Interpreter :=
  let (module, h) := allocModule mathModule emptyHeap in
  match module with
  | Ok module =>
    match NewInterpreter h [] with
    | (Ok _, i) => ImportModule module EmptyString i
    | r => r
    end
  | _ => NewInterpreter h []
  end.

(* ===================================================================== *)
(** ** Notions used by the statements *)
(* ===================================================================== *)

(** [AddErrorHandler]: registration appends to the handlers of the word. *)
Definition AddErrorHandler (handler : nat) (b : BaseWord) : BaseWord :=
  mkBaseWord (name b) (str b) (errorHandlers b ++ [handler]).

(** The handlers [hs], called in order on [err] for [word] from the state
    [i], each return an error; [i'] is the state after the last of them. *)
Inductive allFail {host : Host} (err : Error) (word : Word)
    : list nat -> Interpreter -> Interpreter -> Prop :=
| allFail_nil i : allFail err word [] i i
| allFail_cons h hs i e i1 i2 :
    errorHandler h err word i = (Err e, i1) ->
    allFail err word hs i1 i2 ->
    allFail err word (h :: hs) i i2.

(** The loop of [runWithTokenizer], started in [i], handles the tokens
    [toks] without error, in this order, then pulls the end-of-stream
    token; [i'] is the state in which that token is about to be handled. *)
Inductive runsToEOS {host : Host} : Interpreter -> list Token -> Interpreter -> Prop :=
| runsToEOS_now i tok i1 :
    nextToken i = (Ok (Some tok), i1) ->
    isEOS tok = true ->
    runsToEOS i [] i1
| runsToEOS_step i tok i1 i2 toks i3 :
    nextToken i = (Ok (Some tok), i1) ->
    isEOS tok = false ->
    handleToken tok i1 = (Ok tt, i2) ->
    runsToEOS (set_previousToken (Some tok) i2) toks i3 ->
    runsToEOS i (tok :: toks) i3.

(** The token handled last before the end of the stream: the last of
    the tokens of this run or, if there is none, the previous token that
    the interpreter remembers from an earlier run. *)
Definition previousAtEOS (i : Interpreter) (toks : list Token) : option Token :=
  match last toks with
  | Some tok => Some tok
  | None => previousToken i
  end.

(** The state in which [Run] starts its loop. *)
Definition pushTokenizer (code : string) (i : Interpreter) : Interpreter :=
  set_tokenizerStack (tokenizerStack i ++ [NewTokenizer code None false]) i.

Definition popTokenizer (i : Interpreter) : Interpreter :=
  set_tokenizerStack (removelast (tokenizerStack i)) i.

(** A closing run at byte [q]: three delimiters start at [q] and no
    fourth follows them. *)
Definition closesAt (t : Tokenizer) (delim : ascii) (q : Z) : bool :=
  byteEq (byteAt (inputString t) q) delim
  && isTripleQuote t q delim
  && negb ((q + 3 <? len (inputString t))
           && byteEq (byteAt (inputString t) (q + 3)) delim).

(** What [WriteRune] appends for the bytes [from], ..., [from + n - 1]. *)
Fixpoint written (s : string) (from : Z) (n : nat) : string :=
  match n with
  | O => EmptyString
  | S n' => encodeRune (byteAt s from) +:+ written s (from + 1) n'
  end.

(** The double quote character and strings made of it. *)
Definition dq : ascii := "034"%char.
Definition quotes (n : nat) : string := string_of_list_ascii (repeat dq n).

(** What the interpreter does for the element tokens of an array literal
    that stand for the values [vs]: one [handleWord] of a push word per
    value, in order. *)
Fixpoint handleValues {host : Host} (vs : list (string * Value))
    (location : option CodeLocation) : M Interpreter unit :=
  match vs with
  | [] => ret tt
  | (name, v) :: rest =>
    handleWord (NewPushValueWord name v) location ;> handleValues rest location
  end.

(** What the interpreter does for the tokens of the literal
    [[ v1 ... vn ]]. *)
Definition handleArrayLiteral {host : Host} (open close : Token)
    (vs : list (string * Value)) : M Interpreter unit :=
  handleToken open ;> handleValues vs (Location open) ;> handleToken close.

(** The module stack is not empty and its bottom is the app module. *)
Definition moduleStackOK (i : Interpreter) : Prop :=
  exists rest, moduleStack i = appModule i :: rest.

(** The naming discipline of the modules that the interpreter reaches:
    the app module is the module with the empty name; a module on the
    module stack with the empty name is the app module; a child module
    registered under a non-empty key has a non-empty name. *)
Definition modulesNamed (i : Interpreter) : Prop :=
  (exists app, moduleHeap (heap i) !! appModule i = Some app /\ mname app = EmptyString) /\
  (forall r, In r (moduleStack i) ->
     exists m, moduleHeap (heap i) !! r = Some m /\
               (mname m = EmptyString -> r = appModule i)) /\
  (forall r m k c, moduleHeap (heap i) !! r = Some m -> modules m !! k = Some c ->
     k <> EmptyString ->
     exists mc, moduleHeap (heap i) !! c = Some mc /\ mname mc <> EmptyString).

Definition modulesWF (i : Interpreter) : Prop := moduleStackOK i /\ modulesNamed i.

(** A computation keeps [P]: whatever the outcome, the state it leaves
    satisfies [P] if the state it started in did. *)
Definition keeps {A} (P : Interpreter -> Prop) (m : M Interpreter A) : Prop :=
  forall i, P i -> P (snd (m i)).

(** The handlers of the host keep [P]. *)
Definition hostKeeps (host : Host) (P : Interpreter -> Prop) : Prop :=
  (forall handler, keeps P (native handler)) /\
  (forall handler err word, keeps P (errorHandler handler err word)).

(** What the preservation of a property of the module system along the
    execution of words rests on: the property reads only the app module,
    the module stack and the module heap, and the operations of the
    interpreter that change those keep it. *)
Record ModuleInvariant {host : Host} (P : Interpreter -> Prop) : Prop := {
  inv_ext : forall i i',
    appModule i' = appModule i -> moduleStack i' = moduleStack i ->
    moduleHeap (heap i') = moduleHeap (heap i) -> P i -> P i';
  inv_pop : keeps P ModuleStackPop;
  inv_start : forall b, keeps P (StartModuleWord_Execute b);
  inv_update : forall r f,
    (forall m, mname (f m) = mname m /\ modules (f m) = modules m) ->
    keeps P (liftHeap (updateModule r f))
}.

(** The state [i] with the value [v] cached in the memo cell [cell]. *)
Definition cacheIn (cell : nat) (v : Value) (i : Interpreter) : Interpreter :=
  set_heap (mkHeap (moduleHeap (heap i)) (variableHeap (heap i))
                   (<[cell := mkMemoCell true v]> (memoHeap (heap i)))) i.

(** The word that an import with [prefix] adds to the host for the
    exportable word [w]. *)
Definition importedWord (prefix : string) (w : Word) : Word :=
  if String.eqb prefix EmptyString then w
  else NewExecuteWord (prefix +:+ "." +:+ GetName w) w.

(** [w'] is what some import of the module [m] adds for one of its
    exportable words. *)
Definition fromExports (m : Module_) (w' : Word) : Prop :=
  exists prefix w, In w (words m) /\ In (GetName w) (exportable m) /\
                   w' = importedWord prefix w.

(** Handling [token] while compiling appends [word] to the body of the
    current definition and executes it now, in the state that has the
    word appended. *)
Definition executedNow {host : Host} (token : Token) (word : Word) : Prop :=
  forall i b body,
    isCompiling i = true -> curDefinition i = Some (b, body) ->
    handleToken token i = Execute word (set_curDefinition (Some (b, body ++ [word])) i).

(** Handling [token] while compiling appends [word] to the body of the
    current definition and does nothing else: nothing is executed. *)
Definition onlyAppended {host : Host} (token : Token) (word : Word) : Prop :=
  forall i b body,
    isCompiling i = true -> curDefinition i = Some (b, body) ->
    handleToken token i = (Ok tt, set_curDefinition (Some (b, body ++ [word])) i).

(* ===================================================================== *)
(** ** Hosts used as concrete inputs *)
(* ===================================================================== *)

(** The host of the error handler tests.  Native 0 returns a plain error
    and native 1 an intentional stop.  Handler 1 fails and the other
    handlers succeed; every handler records its call by pushing its own
    number on the data stack. *)
Definition testHost : Host := {|
  native := fun handler =>
    match handler with
    | O => throw (mkError KPlain "Test error" EmptyString None None)
    | _ => throw (NewIntentionalStopError "Intentional stop")
    end;
  errorHandler := fun handler err word =>
    StackPush (VInt (Z.of_nat handler)) ;>
    match handler with
    | 1%nat => throw (mkError KPlain "Handler 1 failed" EmptyString None None)
    | _ => ret tt
    end
|}.

(** A host whose native 0 is an addition of integers: it pops two
    integers and pushes their sum as a 64-bit integer; on other operands
    it returns an error.  It registers no error handler. *)
Definition wrap64 (n : Z) : Z := (n + 2 ^ 63) mod 2 ^ 64 - 2 ^ 63.

Definition integerPlus : M Interpreter unit :=
  let* b := StackPop in
  let* a := StackPop in
  match a, b with
  | VInt x, VInt y => StackPush (VInt (wrap64 (x + y)))
  | _, _ => throw (mkError KPlain "not an integer" EmptyString None None)
  end.

Definition integerHost : Host := {|
  native := fun handler =>
    match handler with
    | O => integerPlus
    | _ => throw (NewForthicError "Must override Word.Execute")
    end;
  errorHandler := fun _ err _ => throw err
|}.

(* ===================================================================== *)
(** ** Concrete inputs *)
(* ===================================================================== *)

Definition openToken : Token :=
  NewToken TOKEN_START_ARRAY "[" (Some (mkCodeLocation EmptyString EmptyString 1 1 0 1)).
Definition closeToken : Token :=
  NewToken TOKEN_END_ARRAY "]" (Some (mkCodeLocation EmptyString EmptyString 1 7 6 7)).

(** The float64 of value 5. *)
Definition float5 : PrimFloat.float := float64_of_int64 5.

(** An interpreter that is compiling the memo definition [X], in a
    module stack that holds the app module only. *)
Definition compilingMemoX : Interpreter :=
  set_isMemoDefinition true
    (set_isCompiling true
       (set_curDefinition
          (Some (NewBaseWord "X", [NewPushValueWord "5" (VInt 5)]))
          (interpreterCore emptyHeap))).

Definition endDefToken : Token :=
  NewToken TOKEN_END_DEF ";" (Some (mkCodeLocation EmptyString EmptyString 1 8 7 8)).

(** The memo word of [@: X 5 ;] and the state in which it is installed. *)
Definition memoX : MemoWord :=
  mkModuleMemoWord (NewBaseWord "X")
    (DefinitionWord (NewBaseWord "X") [NewPushValueWord "5" (VInt 5)]) 0.
Definition installedX : Interpreter :=
  snd (handleToken (host := mathHost) endDefToken compilingMemoX).


(** The core interpreter inside the module [m], and back outside it. *)
Definition insideM : Interpreter :=
  snd (Execute (host := mathHost) (NewStartModuleWord "m") (interpreterCore emptyHeap)).
Definition outsideM : Interpreter :=
  snd (Execute (host := mathHost) NewEndModuleWord insideM).

(** A library module with an exportable word, a private word and a
    variable, next to a new host module. *)
Definition libModule : Module_ :=
  set_variables {[ "x" := 0%nat ]}
    (Module_AddWord (NewPushValueWord "PRIV" (VInt 2))
       (Module_AddExportableWord (NewPushValueWord "PUB" (VInt 1)) (NewModule "lib" EmptyString))).
Definition libHeap : Heap :=
  mkHeap [NewModule EmptyString EmptyString; libModule] [NewVariable "x" (VInt 7)] [].

(** The failing word of the handler tests, with the handlers 1, 2 and 3
    registered in this order. *)
Definition failingBase : BaseWord :=
  AddErrorHandler 3 (AddErrorHandler 2 (AddErrorHandler 1 (NewBaseWord "FAILING-WORD"))).
Definition testError : Error := mkError KPlain "Test error" EmptyString None None.
Definition testState : Interpreter := interpreterCore emptyHeap.

Definition locationOfW : CodeLocation := mkCodeLocation EmptyString EmptyString 1 3 2 3.
Definition tokenW : Token := NewToken TOKEN_START_DEF "W" (Some locationOfW).

Definition runW0 : Interpreter := pushTokenizer ": W" (interpreterCore emptyHeap).
Definition runW1 : Interpreter := snd (nextToken runW0).
Definition runW2 : Interpreter :=
  set_previousToken (Some tokenW) (snd (handleToken (host := mathHost) tokenW runW1)).
Definition runW3 : Interpreter := snd (nextToken runW2).

(** The kinds and the strings of the tokens of an input. *)
Definition lexes (input : string) : list (option (TokenType * string)) :=
  map (fun o => match o with
                | Ok (Some tok) => Some (Type_ tok, String_ tok)
                | _ => None
                end)
      (tokens 10 (NewTokenizer input None false)).

Definition inputFourClosers : string := quotes 3 +:+ "a" +:+ quotes 4.

(** The tokenizer on the input of the counterexample, at the point
    where the opening quotes are consumed. *)
Definition afterOpening : Tokenizer :=
  snd ((modify noteStartToken ;> advancePosition 1 ;> advancePosition 2)
         (clearTokenString (NewTokenizer inputFourClosers None false))).

(** An interpreter that is compiling the definition [A], whose body is
    still empty. *)
Definition compilingA : Interpreter :=
  set_isCompiling true
    (set_curDefinition (Some (NewBaseWord "A", [])) (interpreterCore emptyHeap)).

Definition startArrayWord (token : Token) : Word :=
  NewPushValueWord "<start_array_token>" (VToken token).

Definition startModuleToken : Token :=
  NewToken TOKEN_START_MODULE "m" (Some (mkCodeLocation EmptyString EmptyString 1 6 5 6)).


Definition underflow (i : Interpreter) : PanicValue :=
  PError (WithLocation NewStackUnderflowError (underflowLocation i)).

(* ===================================================================== *)
(** ** Auxiliary notions of the proofs *)
(* ===================================================================== *)

Definition stepWrite (ch : ascii) (t : Tokenizer) : Tokenizer :=
  setDeltaEnd (set_tokenString (WriteRune (tokenString (advanceForward t)) ch) (advanceForward t)).

(** The state after a new module named [nm] is created under the module
    [m] at [r]. *)
Definition afterNewModule (i : Interpreter) (r : nat) (m : Module_) (nm : string) : Interpreter :=
  let new := length (moduleHeap (heap i)) in
  let parent := Module_RegisterModule nm nm new m in
  let mh := <[r := parent]> (moduleHeap (heap i) ++ [NewModule nm EmptyString]) in
  let registered := String.eqb (mname m) EmptyString in
  let mh := if registered then <[new := SetInterp (NewModule nm EmptyString)]> mh else mh in
  let rm := if registered then <[nm := new]> (registeredMods i) else registeredMods i in
  set_moduleStack (moduleStack i ++ [new])
    (set_registeredMods rm
       (set_heap (mkHeap mh (variableHeap (heap i)) (memoHeap (heap i))) i)).

(** A computation that only pushes on the module stack. *)
Definition pushesOnly {A} (m : M Interpreter A) : Prop :=
  forall i, appModule (snd (m i)) = appModule i /\
            exists suffix, moduleStack (snd (m i)) = moduleStack i ++ suffix.

(** The module heap [mh'] extends [mh]: every module of [mh] is still
    there, with its name. *)
Definition namesKept (mh mh' : list Module_) : Prop :=
  forall r m, mh !! r = Some m -> exists m', mh' !! r = Some m' /\ mname m' = mname m.

(* ===================================================================== *)
(** ** Further functions of the runtime and notions of their properties *)
(* ===================================================================== *)

(** *** Triples for monadic code, and what a scan ends with *)

(** A computation started in a state that satisfies [P] ends with an
    outcome and a state that satisfy [Q]. *)
Definition hoare {S A} (P : S -> Prop) (m : M S A) (Q : Outcome A -> S -> Prop) : Prop :=
  forall s, P s -> Q (fst (m s)) (snd (m s)).

(** The postcondition of the first part of a [bind]: [R] on a normal
    return, [Q] on what [bind] passes on. *)
Definition bindPost {S A B} (R : A -> S -> Prop) (Q : Outcome B -> S -> Prop)
    : Outcome A -> S -> Prop :=
  fun o s =>
    match o with
    | Ok a => R a s
    | Err e => Q (Err e) s
    | Panic p => Q (Panic p) s
    | OutOfFuel => Q OutOfFuel s
    end.

(** The tokenizer reads the input [s] with the given character classes
    and is at byte [p]. *)
Definition scanning (s : string) (ws qs : list ascii) (p : Z) (t : Tokenizer) : Prop :=
  inputString t = s /\ whitespace t = ws /\ quoteChars t = qs /\ inputPos t = p.

(** Every byte of [s] from [p] on is whitespace. *)
Definition restIsWhitespace (s : string) (ws : list ascii) (p : Z) : Prop :=
  forall q, p <= q < len s -> inList ws (byteAt s q) = true.

(** What a call of [NextToken] at byte [p0] ends with: the tokenizer is
    at a byte [p] of the same input, not before [p0] and not beyond the
    end; the end-of-stream token is returned exactly when only whitespace
    was left, and then the tokenizer is at the end; every other token has
    consumed at least one byte. *)
Definition tokenPost (s : string) (ws qs : list ascii) (p0 : Z)
    (o : Outcome (option Token)) (t : Tokenizer) : Prop :=
  exists p, scanning s ws qs p t /\ p0 <= p <= len s /\
    match o with
    | Ok (Some tok) =>
      match Type_ tok with
      | TOKEN_EOS => p = len s /\ restIsWhitespace s ws p0
      | _ => p0 < p /\ ~ restIsWhitespace s ws p0
      end
    | Ok None => ~ restIsWhitespace s ws p0
    | Err _ => ~ restIsWhitespace s ws p0
    | Panic _ => False
    | OutOfFuel => False
    end.

(** What a scanning loop started at byte [q] ends with: the tokenizer is
    at a byte of the same input, not before [q] and not beyond the end,
    and the loop has returned, with a result that satisfies [good] or
    with an error. *)
Definition scanPost {A} (s : string) (ws qs : list ascii) (good : A -> Prop) (q : Z)
    (o : Outcome A) (t : Tokenizer) : Prop :=
  exists p, scanning s ws qs p t /\ q <= p <= len s /\
    match o with
    | Ok a => good a
    | Err _ => True
    | Panic _ => False
    | OutOfFuel => False
    end.

(** A token that is not the end-of-stream token, or no token. *)
Definition notEOS (tok : option Token) : Prop :=
  match tok with
  | Some tok => Type_ tok <> TOKEN_EOS
  | None => True
  end.

(** *** Computations that end and leave the tokenizer stack in place *)

(** A computation of the interpreter ends (with a return, an error or a
    panic) and leaves the tokenizer stack as it found it. *)
Definition endsInPlace {A} (m : M Interpreter A) : Prop :=
  forall ts,
    hoare (fun i => tokenizerStack i = ts) m
          (fun o i => o <> OutOfFuel /\ tokenizerStack i = ts).

(** The handlers of the host end and leave the tokenizer stack alone. *)
Definition hostEnds (host : Host) : Prop :=
  (forall handler, endsInPlace (native handler)) /\
  (forall handler err word, endsInPlace (errorHandler handler err word)).

(** A heap operation ends. *)
Definition heapEnds {A} (m : M Heap A) : Prop := forall h, fst (m h) <> OutOfFuel.

(** *** What the scanning loops gather *)

(** The tokenizers [t] and [t'] differ at most in the position (with its
    line and column), the text gathered so far and the string delta. *)
Definition sameScan (t t' : Tokenizer) : Prop :=
  inputString t' = inputString t /\ whitespace t' = whitespace t /\
  quoteChars t' = quoteChars t /\ streaming t' = streaming t /\
  referenceLocation t' = referenceLocation t /\
  tokenStartPos t' = tokenStartPos t /\
  tokenLine t' = tokenLine t /\ tokenColumn t' = tokenColumn t.

(** The error that the tokenizer returns for a string without its
    closing delimiter. *)
Definition unterminatedError (t : Tokenizer) : Error :=
  WithLocation (NewForthicError "Unterminated string") (Some (errorLocation t)).

(** The first byte at or after [p] that satisfies [stop] is at [q]. *)
Definition firstAt (s : string) (stop : ascii -> bool) (p q : Z) : Prop :=
  p <= q < len s /\ stop (byteAt s q) = true /\
  forall r, p <= r < q -> stop (byteAt s r) = false.

(** No byte at or after [p] satisfies [stop]. *)
Definition noneFrom (s : string) (stop : ascii -> bool) (p : Z) : Prop :=
  forall r, p <= r < len s -> stop (byteAt s r) = false.

(** One iteration of the comment loop on a byte other than the newline:
    the byte is written, then the position advances. *)
Definition writeStep (ch : ascii) (t : Tokenizer) : Tokenizer :=
  advanceForward (set_tokenString (WriteRune (tokenString t) ch) t).


(** One iteration of the loop that gathers a definition name, on a byte
    of the name: the position advances, then the byte is written. *)
Definition nameStep (ch : ascii) (t : Tokenizer) : Tokenizer :=
  set_tokenString (WriteRune (tokenString (advanceForward t)) ch) (advanceForward t).

(** The error of the tokenizer with the message [msg], for the token
    that starts at the line and column of [t]. *)
Definition tokenizerErrorAt (msg : string) (t : Tokenizer) : Error :=
  WithLocation (NewForthicError msg)
    (Some (mkCodeLocation EmptyString EmptyString (line t) (column t) 0 0)).


(** A byte below 0x80. *)
Definition isASCII (ch : ascii) : bool := (N_of_ascii ch <? 128)%N.

(** The number of bytes from 0x80 on among the [n] bytes of [s] that
    start at [from]. *)
Fixpoint highBytes (s : string) (from : Z) (n : nat) : nat :=
  match n with
  | O => O
  | S n' => ((if isASCII (byteAt s from) then 0 else 1) + highBytes s (from + 1) n')%nat
  end.

(** The tokenizer on [input] after [NextToken] has consumed the first
    byte from the start state. *)
Definition afterFirstByte (input : string) : Tokenizer :=
  snd ((modify noteStartToken ;> advancePosition 1)
         (clearTokenString (NewTokenizer input None false))).

(** A comment followed by a line that holds [X]. *)
Definition commentThenX : string := "# hi" +:+ String "010" "X".

(** The tokenizer on [input], moved to the byte [n]. *)
Definition atByte (n : Z) (input : string) : Tokenizer :=
  snd (advancePosition n (NewTokenizer input None false)).

(** *** The data stack by index *)

(** [Stack.Push] on the items. *)
Definition Stack_Push (items : list Value) (val : Value) : list Value := items ++ [val].

(** The error of [Stack.Get] and [Stack.Set] for an index out of bounds:
    [fmt.Errorf] with the index and the length in decimal. *)
Definition stackIndexError (items : list Value) (index : Z) : Error :=
  mkError KPlain
    ("Stack index out of bounds: " +:+ strconv_FormatInt index +:+
     " (length: " +:+ strconv_FormatInt (Z.of_nat (length items)) +:+ ")")
    EmptyString None None.

(** [Stack.Get]: index 0 is the bottom of the stack. *)
Definition Stack_Get (items : list Value) (index : Z) : Value + Error :=
  if (index <? 0) || (Z.of_nat (length items) <=? index)
  then inr (stackIndexError items index)
  else
    match items !! Z.to_nat index with
    | Some val => inl val
    | None => inr (stackIndexError items index)
    end.

(** [Stack.Set]: the items after the assignment, or the error. *)
Definition Stack_Set (items : list Value) (index : Z) (val : Value)
    : list Value + Error :=
  if (index <? 0) || (Z.of_nat (length items) <=? index)
  then inr (stackIndexError items index)
  else inl (<[Z.to_nat index := val]> items).

(** *** The tokens of a definition *)




(** *** Module errors, variables and the use of modules *)



(** [Module.GetVariable]. *)
Definition Module_GetVariable (m : Module_) (name : string) : option nat :=
  variables m !! name.

(** [Variable.GetValue] and [Variable.SetValue], on the cell at [r]. *)
Definition Variable_GetValue (r : nat) : M Heap Value :=
  let* v := derefVariable r in ret (var_value v).

Definition Variable_SetValue (r : nat) (val : Value) : M Heap unit := fun h =>
  match variableHeap h !! r with
  | Some v =>
    (Ok tt, mkHeap (moduleHeap h) (<[r := NewVariable (var_name v) val]> (variableHeap h))
                   (memoHeap h))
  | None => (Panic nilDereference, h)
  end.

(** The name of the dynamic type of a value, as a failed type assertion
    prints it. *)
Definition dynamicType (v : Value) : string :=
  match v with
  | VNil => "nil"
  | VBool _ => "bool"
  | VInt _ => "int64"
  | VFloat _ => "float64"
  | VString _ => "string"
  | VTime _ => "time.Time"
  | VArray _ => "[]interface {}"
  | VToken _ => "*forthic.Token"
  | VVariable _ => "*forthic.Variable"
  end.





(** *** Decimal texts *)

(** The number that a decimal numeral denotes after the digits [acc]. *)
Fixpoint uintValue (d : Decimal.uint) (acc : Z) : Z :=
  match d with
  | Decimal.Nil => acc
  | Decimal.D0 l => uintValue l (10 * acc)
  | Decimal.D1 l => uintValue l (10 * acc + 1)
  | Decimal.D2 l => uintValue l (10 * acc + 2)
  | Decimal.D3 l => uintValue l (10 * acc + 3)
  | Decimal.D4 l => uintValue l (10 * acc + 4)
  | Decimal.D5 l => uintValue l (10 * acc + 5)
  | Decimal.D6 l => uintValue l (10 * acc + 6)
  | Decimal.D7 l => uintValue l (10 * acc + 7)
  | Decimal.D8 l => uintValue l (10 * acc + 8)
  | Decimal.D9 l => uintValue l (10 * acc + 9)
  end.

Fixpoint digitsOnly (s : string) : bool :=
  match s with
  | EmptyString => true
  | String c rest => isDigit c && digitsOnly rest
  end.

(** The shape of the text of an integer: digits, after a minus sign or
    a first digit. *)
Definition integerShape (s : string) : bool :=
  match s with
  | EmptyString => false
  | String c rest => (isDigit c || byteEq c "-") && digitsOnly rest
  end.

(** The range of Go's [int64]. *)
Definition inInt64 (n : Z) : Prop := - 2 ^ 63 <= n < 2 ^ 63.

(** External functions for concrete inputs: no text parses as a float
    or as a zoned time, every location loads, and every time is the
    epoch of its location. *)
Definition plainExternal : External := {|
  strconv_ParseFloat := fun _ => None;
  time_LoadLocation := fun _ => true;
  time_Date := fun _ _ _ _ _ _ _ loc => mkGoTime 0 loc;
  time_Now := fun _ => (1970, 1, 1);
  parseZonedDateTime := fun _ _ => None
|}.

(** *** Blank code *)

(** Code that is made of the whitespace of a new tokenizer only. *)
Fixpoint isBlank (code : string) : bool :=
  match code with
  | EmptyString => true
  | String c rest => isWhitespace (NewTokenizer EmptyString None false) c && isBlank rest
  end.

(** *** Word options *)

(** [WordOptions]: the options of a word, by key. *)
Record WordOptions := mkWordOptions { options : gmap string Value }.

(** What the verb [%T] of [fmt] prints for a value. *)
Definition formatType (v : Value) : string :=
  match v with
  | VNil => "<nil>"
  | _ => dynamicType v
  end.

(** The loop of [NewWordOptions] over the pairs of the array; the check
    of the length has made sure that [arr[i+1]] exists. *)
Fixpoint NewWordOptions_loop (arr : list Value) (opts : gmap string Value)
    : WordOptions + string :=
  match arr with
  | key :: value :: rest =>
    match key with
    | VString keyStr => NewWordOptions_loop rest (<[keyStr := value]> opts)
    | _ => inr ("Option key must be a string (dot-symbol). Got: " +:+ formatType key)
    end
  | _ => inl (mkWordOptions opts)
  end.

(** [NewWordOptions]; the error is the message of the [error]. *)
Definition NewWordOptions (flatArray : Value) : WordOptions + string :=
  match flatArray with
  | VArray arr =>
    if negb (Z.of_nat (length arr) mod 2 =? 0)
    then inr ("Options must be key-value pairs (even length). Got " +:+
              strconv_FormatInt (Z.of_nat (length arr)) +:+ " elements")
    else NewWordOptions_loop arr ∅
  | _ => inr "Options must be an array"
  end.

(** [WordOptions.Get]; [defaultValue] is the variadic argument. *)
Definition WordOptions_Get (wo : WordOptions) (key : string) (defaultValue : list Value)
    : Value :=
  match options wo !! key with
  | Some val => val
  | None =>
    match defaultValue with
    | d :: _ => d
    | [] => VNil
    end
  end.

(** [WordOptions.Has]. *)
Definition WordOptions_Has (wo : WordOptions) (key : string) : bool :=
  match options wo !! key with
  | Some _ => true
  | None => false
  end.

(** The flat array of a list of options: key, value, key, value. *)
Definition flatOptions (pairs : list (string * Value)) : list Value :=
  concat (map (fun p => [VString (fst p); snd p]) pairs).

(** The value of the last pair of [pairs] that has the key. *)
Definition lastOption (key : string) (pairs : list (string * Value)) : option Value :=
  match List.find (fun p => String.eqb (fst p) key) (rev pairs) with
  | Some p => Some (snd p)
  | None => None
  end.

(** *** Words *)

(** A byte that ends a word: whitespace, or a byte that starts the next
    token. *)
Definition endsWord (t : Tokenizer) (ch : ascii) : bool :=
  isWhitespace t ch || ContainsRune ";{}#" ch || byteEq ch "[" || byteEq ch "]".

(** The byte at the position of [t] starts a word: the start state takes
    it for nothing else. *)
Definition startsWord (t : Tokenizer) : bool :=
  let ch := cur t in
  negb (endsWord t ch) && negb (byteEq ch ":") && negb (isStartMemo t (inputPos t))
  && negb (isQuote t ch) && negb (byteEq ch ".").

(** *** The text of an integer *)

(** A byte of the text of an integer. *)
Definition integerByte (c : ascii) : bool := isDigit c || byteEq c "-".

(** The standard literal handlers, for the location [loc]. *)
Definition standardHandlers {external : External} (loc : string) : list LiteralHandler :=
  [ToBool; ToFloat; ToZonedDateTime loc; ToLiteralDate loc; ToTime; ToInt].

(** *** Plain string literals *)

(** The text of a plain string literal with the delimiter [q]: bytes
    below 0x80, other than [q] and other than the ampersand that starts
    an escape. *)
Fixpoint plainText (q : ascii) (text : string) : bool :=
  match text with
  | EmptyString => true
  | String c rest =>
    isASCII c && negb (byteEq c q) && negb (byteEq c "&") && plainText q rest
  end.

(** The text between two delimiters [q]. *)
Definition quoted (q : ascii) (text : string) : string :=
  String q (text +:+ String q EmptyString).

(** The byte at the position of [t] is a quote that opens a string with
    a single delimiter: the start state takes it for nothing else. *)
Definition startsString (t : Tokenizer) : bool :=
  let ch := cur t in
  isQuote t ch && negb (isWhitespace t ch) && negb (ContainsRune "#:;[]{}" ch)
  && negb (isStartMemo t (inputPos t)) && negb (isTripleQuote t (inputPos t) ch).

(** *** Dot symbols *)

(** A byte that ends a dot symbol. *)
Definition endsSymbol (t : Tokenizer) (ch : ascii) : bool :=
  isWhitespace t ch || ContainsRune ";[]{}#" ch.

(** The token that [transitionFromGATHER_DOT_SYMBOL] makes of the text
    [fullToken] that it has gathered, dot included. *)
Definition dotToken (fullToken : string) (t : Tokenizer) : Token :=
  if len fullToken <? 2
  then NewToken TOKEN_WORD fullToken (Some (getTokenLocation t))
  else NewToken TOKEN_DOT_SYMBOL (dropBytes 1 fullToken) (Some (getTokenLocation t)).

(* ===================================================================== *)
(** ** Properties *)
(* ===================================================================== *)

(** The token streams of three inputs. *)
Example tokenizer_definition_tokens :
  lexes ": DOUBLE 2 * ;"
  = [Some (TOKEN_START_DEF, "DOUBLE"); Some (TOKEN_WORD, "2"); Some (TOKEN_WORD, "*");
     Some (TOKEN_END_DEF, ";"); Some (TOKEN_EOS, EmptyString)].
Proof. vm_compute. reflexivity. Qed.

Example tokenizer_module_tokens :
  lexes "{module}"
  = [Some (TOKEN_START_MODULE, "module"); Some (TOKEN_END_MODULE, "}"); Some (TOKEN_EOS, EmptyString)].
Proof. vm_compute. reflexivity. Qed.

Example tokenizer_rfc9557 :
  lexes "2025-05-20T08:00:00[America/Los_Angeles]"
  = [Some (TOKEN_WORD, "2025-05-20T08:00:00[America/Los_Angeles]"); Some (TOKEN_EOS, EmptyString)].
Proof. vm_compute. reflexivity. Qed.

Section HandlerFacts.
Context {host : Host}.

Lemma tryHandlers_allFail err word hs i i' :
  allFail err word hs i i' -> tryHandlers hs err word i = (Err err, i').
Proof.
  induction 1 as [i | h hs i e i1 i2 Hh _ IH]; simpl; [reflexivity |].
  rewrite Hh. exact IH.
Qed.

Lemma tryHandlers_first err word pre h post i i1 i2 :
  allFail err word pre i i1 ->
  errorHandler h err word i1 = (Ok tt, i2) ->
  tryHandlers (pre ++ h :: post) err word i = (Ok tt, i2).
Proof.
  induction 1 as [i | h0 hs i e i1 i3 Hh _ IH]; simpl; intros Hok.
  - rewrite Hok. reflexivity.
  - rewrite Hh. apply IH. exact Hok.
Qed.

Lemma Execute_Definition b words :
  Execute (DefinitionWord b words) = Definition_loop b (DefinitionWord b words) words.
Proof. reflexivity. Qed.

Lemma Definition_loop_cons b w word rest i :
  Definition_loop b w (word :: rest) i =
  match catch (Execute word) (handleExecutionError b w) i with
  | (Ok _, i') => Definition_loop b w rest i'
  | (Err e, i') => (Err e, i')
  | (Panic p, i') => (Panic p, i')
  | (OutOfFuel, i') => (OutOfFuel, i')
  end.
Proof. reflexivity. Qed.

End HandlerFacts.

Section StackFacts.
Context {host : Host}.

Lemma StackPop_snoc i s v :
  stack i = s ++ [v] -> StackPop i = (Ok v, set_stack s i).
Proof.
  intros Hs. unfold StackPop, Stack_Pop. rewrite Hs, last_snoc, removelast_last.
  reflexivity.
Qed.



Lemma set_stack_stack s i : stack (set_stack s i) = s.
Proof. reflexivity. Qed.
Lemma set_stack_twice s s' i : set_stack s (set_stack s' i) = set_stack s i.
Proof. reflexivity. Qed.

Lemma EndArray_loop_sentinel items : forall n acc i below tok,
  Type_ tok = TOKEN_START_ARRAY ->
  Forall (fun v => isStartArrayToken v = false) items ->
  stack i = below ++ VToken tok :: items ->
  (length items < n)%nat ->
  EndArray_loop n acc i = (Ok (acc ++ rev items), set_stack below i).
Proof.
  induction items as [| x items IH] using rev_ind; intros n acc i below tok Htok Hall Hs Hn.
  - destruct n as [| n]; [simpl in Hn; lia |]. simpl. unfold bind.
    rewrite (StackPop_snoc i below (VToken tok)) by exact Hs.
    simpl. rewrite Htok. rewrite app_nil_r. reflexivity.
  - destruct n as [| n]; [simpl in Hn; lia |].
    apply Forall_app in Hall as [Hall Hx]. inversion Hx as [| ? ? Hx' _]; subst.
    simpl. unfold bind.
    rewrite (StackPop_snoc i (below ++ VToken tok :: items) x)
      by (rewrite Hs, <- app_assoc; reflexivity).
    rewrite Hx'.
    rewrite (IH n (acc ++ [x]) _ below tok Htok Hall (set_stack_stack _ _)).
    + rewrite rev_app_distr. simpl. rewrite <- app_assoc. reflexivity.
    + rewrite length_app in Hn. simpl in Hn. lia.
Qed.


Lemma EndArrayWord_Execute_sentinel i below tok items :
  Type_ tok = TOKEN_START_ARRAY ->
  Forall (fun v => isStartArrayToken v = false) items ->
  stack i = below ++ VToken tok :: items ->
  EndArrayWord_Execute i = (Ok tt, set_stack (below ++ [VArray items]) i).
Proof.
  intros Htok Hall Hs. unfold EndArrayWord_Execute, bind, get.
  rewrite (EndArray_loop_sentinel items _ [] i below tok Htok Hall Hs).
  - simpl. rewrite rev_involutive. reflexivity.
  - rewrite Hs, length_app. simpl. lia.
Qed.


End StackFacts.

Section ArrayLiteral.
Context {host : Host}.

Lemma handleWord_interpreting w loc i :
  isCompiling i = false -> handleWord w loc i = Execute w i.
Proof. intros H. unfold handleWord, bind, get. rewrite H. reflexivity. Qed.

Lemma handleValues_pushes vs : forall loc i,
  isCompiling i = false ->
  handleValues vs loc i = (Ok tt, set_stack (stack i ++ map snd vs) i).
Proof.
  induction vs as [| [n v] vs IH]; intros loc i Hc; simpl.
  - rewrite app_nil_r. destruct i; reflexivity.
  - unfold bind. rewrite handleWord_interpreting by exact Hc. simpl.
    unfold StackPush, modify. rewrite IH by exact Hc.
    simpl. rewrite <- app_assoc. reflexivity.
Qed.

Lemma handleToken_start_array open i :
  Type_ open = TOKEN_START_ARRAY ->
  isCompiling i = false ->
  handleToken open i = (Ok tt, set_stack (stack i ++ [VToken open]) i).
Proof.
  intros Ho Hi. unfold handleToken. rewrite Ho. unfold handleStartArrayToken.
  rewrite handleWord_interpreting by exact Hi. reflexivity.
Qed.

Lemma handleToken_end_array close i :
  Type_ close = TOKEN_END_ARRAY ->
  isCompiling i = false ->
  handleToken close i = EndArrayWord_Execute i.
Proof.
  intros Ho Hi. unfold handleToken. rewrite Ho. unfold handleEndArrayToken.
  rewrite handleWord_interpreting by exact Hi. reflexivity.
Qed.

Lemma array_round_trip open close vs i :
  Type_ open = TOKEN_START_ARRAY ->
  Type_ close = TOKEN_END_ARRAY ->
  isCompiling i = false ->
  Forall (fun v => isStartArrayToken v = false) (map snd vs) ->
  handleArrayLiteral open close vs i
  = (Ok tt, set_stack (stack i ++ [VArray (map snd vs)]) i).
Proof.
  intros Ho Hc Hi Hall. unfold handleArrayLiteral, bind.
  rewrite handleToken_start_array by assumption.
  rewrite handleValues_pushes by exact Hi. simpl.
  rewrite handleToken_end_array by assumption.
  rewrite (EndArrayWord_Execute_sentinel _ (stack i) open (map snd vs) Ho Hall).
  - reflexivity.
  - simpl. rewrite <- app_assoc. reflexivity.
Qed.

End ArrayLiteral.

Section RunFacts.
Context {host : Host}.

Lemma nextToken_frame i o i' :
  nextToken i = (o, i') ->
  isCompiling i' = isCompiling i /\ previousToken i' = previousToken i.
Proof.
  unfold nextToken. destruct (last (tokenizerStack i)) as [tk |].
  - destruct (NextToken tk) as [o' tk']. intros [= <- <-]. split; reflexivity.
  - intros [= <- <-]. split; reflexivity.
Qed.

Lemma previousAtEOS_cons i i2 tok toks :
  previousAtEOS i (tok :: toks) = previousAtEOS (set_previousToken (Some tok) i2) toks.
Proof.
  unfold previousAtEOS. destruct toks as [| t toks]; [reflexivity |].
  rewrite last_cons. destruct (last (t :: toks)) eqn:E; [reflexivity |].
  apply last_None in E. discriminate.
Qed.

Lemma isEOS_Type tok : isEOS tok = true -> Type_ tok = TOKEN_EOS.
Proof. unfold isEOS. destruct (Type_ tok); intros; congruence. Qed.

Lemma runWithTokenizer_EOS_compiling i toks i' :
  runsToEOS i toks i' ->
  forall prev, isCompiling i' = true ->
  previousAtEOS i toks = Some prev ->
  forall fuel, (length toks < fuel)%nat ->
  runWithTokenizer fuel i
  = (Err (WithLocation NewMissingSemicolonError (Location prev)), i').
Proof.
  induction 1 as [i tok i1 Hnext Heos | i tok i1 i2 toks i3 Hnext Heos Hh _ IH];
    intros prev Hc Hp fuel Hfuel.
  - destruct fuel as [| fuel]; [simpl in Hfuel; lia |].
    simpl. unfold bind. rewrite Hnext.
    unfold handleToken. rewrite (isEOS_Type _ Heos). unfold handleEOS. rewrite Hc.
    destruct (nextToken_frame _ _ _ Hnext) as [_ Hprev].
    unfold previousAtEOS in Hp. simpl in Hp. rewrite Hprev, Hp. reflexivity.
  - destruct fuel as [| fuel]; [simpl in Hfuel; lia |].
    simpl. unfold bind. rewrite Hnext, Hh, Heos. unfold modify.
    apply IH; [exact Hc | | simpl in Hfuel; lia].
    rewrite <- Hp. symmetry. apply previousAtEOS_cons.
Qed.

Lemma runsToEOS_previous i toks i' :
  runsToEOS i toks i' ->
  (isCompiling i = true -> is_Some (previousToken i)) ->
  isCompiling i' = true ->
  is_Some (previousAtEOS i toks).
Proof.
  intros Hr. destruct Hr as [i tok i1 Hnext Heos | i tok i1 i2 toks i3 Hnext Heos Hh Hr];
    intros HJ Hc.
  - destruct (nextToken_frame _ _ _ Hnext) as [Hc' _].
    unfold previousAtEOS. simpl. apply HJ. rewrite <- Hc'. exact Hc.
  - unfold previousAtEOS. destruct (last (tok :: toks)) eqn:E; [eauto |].
    apply last_None in E. discriminate.
Qed.

Lemma Run_EOS_compiling code i toks i' :
  (isCompiling i = true -> is_Some (previousToken i)) ->
  runsToEOS (pushTokenizer code i) toks i' ->
  isCompiling i' = true ->
  exists prev, previousAtEOS i toks = Some prev /\
    forall fuel, (length toks < fuel)%nat ->
    Run fuel code i
    = (Err (WithLocation NewMissingSemicolonError (Location prev)), popTokenizer i').
Proof.
  intros HJ Hr Hc.
  destruct (runsToEOS_previous _ _ _ Hr HJ Hc) as [prev Hp].
  exists prev. split; [exact Hp |].
  intros fuel Hfuel. unfold Run. fold (pushTokenizer code i).
  rewrite (runWithTokenizer_EOS_compiling _ _ _ Hr prev Hc Hp fuel Hfuel).
  reflexivity.
Qed.

End RunFacts.

Section TripleQuote.

Lemma triple_loop_S delim n t :
  GATHER_TRIPLE_QUOTE_STRING_loop delim (S n) t =
  if atEnd t then unterminatedString t else
  if byteEq (cur t) delim && isTripleQuote t (inputPos t) (cur t) then
    if (inputPos t + 3 <? len (inputString t))%Z
       && byteEq (byteAt (inputString t) (inputPos t + 3)) delim
    then GATHER_TRIPLE_QUOTE_STRING_loop delim n (stepWrite delim t)
    else
      let t3 := advanceForward (advanceForward (advanceForward t)) in
      (Ok (Some (NewToken TOKEN_STRING (tokenString t3) (Some (getTokenLocation t3)))),
       set_stringDelta None t3)
  else GATHER_TRIPLE_QUOTE_STRING_loop delim n (stepWrite (cur t) t).
Proof.
  cbn [GATHER_TRIPLE_QUOTE_STRING_loop]. unfold bind at 1. unfold get at 1.
  destruct (atEnd t); [reflexivity |].
  destruct (byteEq (cur t) delim && isTripleQuote t (inputPos t) (cur t)).
  - destruct ((inputPos t + 3 <? len (inputString t))%Z
              && byteEq (byteAt (inputString t) (inputPos t + 3)) delim);
      reflexivity.
  - reflexivity.
Qed.


Lemma advanceForward_frame t :
  inputString (advanceForward t) = inputString t /\
  quoteChars (advanceForward t) = quoteChars t /\
  inputPos (advanceForward t) = (inputPos t + 1)%Z /\
  tokenString (advanceForward t) = tokenString t.
Proof.
  unfold advanceForward.
  destruct ((inputPos t <? len (inputString t))%Z
            && byteEq (byteAt (inputString t) (inputPos t)) "010"); simpl; auto.
Qed.

Lemma stepWrite_frame ch t :
  inputString (stepWrite ch t) = inputString t /\
  quoteChars (stepWrite ch t) = quoteChars t /\
  inputPos (stepWrite ch t) = (inputPos t + 1)%Z /\
  tokenString (stepWrite ch t) = tokenString t +:+ encodeRune ch.
Proof.
  destruct (advanceForward_frame t) as (H1 & H2 & H3 & H4).
  unfold stepWrite, setDeltaEnd.
  destruct (stringDelta_ _);
    cbn [inputString quoteChars inputPos tokenString set_stringDelta set_tokenString];
    rewrite ?H1, ?H2, ?H3, ?H4; auto.
Qed.

Lemma closesAt_frame t t' delim q :
  inputString t' = inputString t -> quoteChars t' = quoteChars t ->
  closesAt t' delim q = closesAt t delim q.
Proof.
  intros H1 H2. unfold closesAt, isTripleQuote, isQuote. rewrite H1, H2. reflexivity.
Qed.

Lemma append_cons c (a b : string) : String c a +:+ b = String c (a +:+ b).
Proof. reflexivity. Qed.

Lemma append_empty_r s : s +:+ EmptyString = s.
Proof.
  induction s as [| c s IH]; [reflexivity |]. rewrite append_cons, IH. reflexivity.
Qed.

Lemma append_assoc' (a b c : string) : (a +:+ b) +:+ c = a +:+ (b +:+ c).
Proof.
  induction a as [| x a IH]; [reflexivity |]. rewrite !append_cons, IH. reflexivity.
Qed.

Lemma triple_quote_loop_closes delim n : forall t tok t',
  GATHER_TRIPLE_QUOTE_STRING_loop delim n t = (Ok (Some tok), t') ->
  let p := (inputPos t' - 3)%Z in
  (inputPos t <= p)%Z /\
  closesAt t delim p = true /\
  (forall q, (inputPos t <= q < p)%Z -> closesAt t delim q = false) /\
  Type_ tok = TOKEN_STRING /\
  String_ tok
  = tokenString t +:+ written (inputString t) (inputPos t) (Z.to_nat (p - inputPos t)).
Proof.
  induction n as [| n IH]; intros t tok t' H.
  - simpl in H. unfold bind, get in H. destruct (atEnd t).
    + unfold unterminatedString, bind, get in H. destruct (streaming t); discriminate.
    + discriminate.
  - rewrite triple_loop_S in H.
    destruct (atEnd t).
    { unfold unterminatedString, bind, get in H. destruct (streaming t); discriminate. }
    destruct (byteEq (cur t) delim) eqn:Hd; cbn [andb] in H.
    + apply Ascii.eqb_eq in Hd.
      destruct (isTripleQuote t (inputPos t) (cur t)) eqn:Htq.
      * destruct ((inputPos t + 3 <? len (inputString t))%Z
                  && byteEq (byteAt (inputString t) (inputPos t + 3)) delim) eqn:Hg.
        -- (* greedy *)
           destruct (stepWrite_frame delim t) as (F1 & F2 & F3 & F4).
           specialize (IH _ _ _ H). cbv zeta in IH.
           destruct IH as (I1 & I2 & I3 & I4 & I5).
           rewrite F3 in *. rewrite F1 in *.
           rewrite (closesAt_frame t _ delim _ F1 F2) in I2.
           assert (Hhere : closesAt t delim (inputPos t) = false).
           { unfold closesAt. rewrite Hg. apply andb_false_r. }
           cbv zeta. split; [lia |]. split; [exact I2 |]. split.
           { intros q Hq. destruct (Z.eq_dec q (inputPos t)) as [-> | Hne]; [exact Hhere |].
             rewrite <- (closesAt_frame t _ delim _ F1 F2). apply I3. lia. }
           split; [exact I4 |].
           rewrite I5, F4.
           replace (Z.to_nat (inputPos t' - 3 - inputPos t))
             with (S (Z.to_nat (inputPos t' - 3 - (inputPos t + 1)))) by lia.
           simpl written. fold (cur t). rewrite Hd. rewrite append_assoc'. reflexivity.
        -- (* close *)
           destruct (advanceForward_frame t) as (A1 & A2 & A3 & A4).
           destruct (advanceForward_frame (advanceForward t)) as (B1 & B2 & B3 & B4).
           destruct (advanceForward_frame (advanceForward (advanceForward t)))
             as (C1 & C2 & C3 & C4).
           cbv zeta in H.
           remember (advanceForward (advanceForward (advanceForward t))) as t3 eqn:E3.
           injection H as <- <-.
           change (inputPos (set_stringDelta None t3)) with (inputPos t3).
           rewrite C3, B3, A3.
           replace (inputPos t + 1 + 1 + 1 - 3)%Z with (inputPos t) by lia.
           cbv zeta. split; [lia |]. split.
           { unfold closesAt. fold (cur t). rewrite Hd in *. rewrite Htq, Hg.
             rewrite Ascii.eqb_refl. reflexivity. }
           split; [intros q Hq; lia |].
           split; [reflexivity |].
           change (String_ (NewToken TOKEN_STRING (tokenString t3) (Some (getTokenLocation t3))))
             with (tokenString t3).
           rewrite C4, B4, A4. rewrite Z.sub_diag.
           change (written (inputString t) (inputPos t) (Z.to_nat 0)) with EmptyString.
           rewrite append_empty_r. reflexivity.
      * (* a delimiter that does not start a run of three *)
        destruct (stepWrite_frame (cur t) t) as (F1 & F2 & F3 & F4).
        specialize (IH _ _ _ H). cbv zeta in IH.
        destruct IH as (I1 & I2 & I3 & I4 & I5).
        rewrite F3 in *. rewrite F1 in *.
        rewrite (closesAt_frame t _ delim _ F1 F2) in I2.
        assert (Hhere : closesAt t delim (inputPos t) = false).
        { unfold closesAt. fold (cur t). rewrite Hd in *. rewrite Htq.
          rewrite andb_false_r. reflexivity. }
        cbv zeta. split; [lia |]. split; [exact I2 |]. split.
        { intros q Hq. destruct (Z.eq_dec q (inputPos t)) as [-> | Hne]; [exact Hhere |].
          rewrite <- (closesAt_frame t _ delim _ F1 F2). apply I3. lia. }
        split; [exact I4 |].
        rewrite I5, F4.
        replace (Z.to_nat (inputPos t' - 3 - inputPos t))
          with (S (Z.to_nat (inputPos t' - 3 - (inputPos t + 1)))) by lia.
        simpl written. fold (cur t). rewrite append_assoc'. reflexivity.
    + (* another byte *)
      destruct (stepWrite_frame (cur t) t) as (F1 & F2 & F3 & F4).
      specialize (IH _ _ _ H). cbv zeta in IH.
      destruct IH as (I1 & I2 & I3 & I4 & I5).
      rewrite F3 in *. rewrite F1 in *.
      rewrite (closesAt_frame t _ delim _ F1 F2) in I2.
      assert (Hhere : closesAt t delim (inputPos t) = false).
      { unfold closesAt. fold (cur t). rewrite Hd. reflexivity. }
      cbv zeta. split; [lia |]. split; [exact I2 |]. split.
      { intros q Hq. destruct (Z.eq_dec q (inputPos t)) as [-> | Hne]; [exact Hhere |].
        rewrite <- (closesAt_frame t _ delim _ F1 F2). apply I3. lia. }
      split; [exact I4 |].
      rewrite I5, F4.
      replace (Z.to_nat (inputPos t' - 3 - inputPos t))
        with (S (Z.to_nat (inputPos t' - 3 - (inputPos t + 1)))) by lia.
      simpl written. fold (cur t). rewrite append_assoc'. reflexivity.
Qed.

End TripleQuote.

Section Lookup.


Lemma find_rev_Some {A} (f : A -> bool) (l : list A) (w : A) :
  List.find f (rev l) = Some w ->
  exists pre post, l = pre ++ w :: post /\ f w = true /\ Forall (fun x => f x = false) post.
Proof.
  induction l as [| x l IH] using rev_ind; [discriminate |].
  rewrite rev_unit. simpl. destruct (f x) eqn:Hx.
  - intros [= ->]. exists l, []. auto.
  - intros H. destruct (IH H) as (pre & post & -> & Hw & Hpost).
    exists pre, (post ++ [x]). split; [rewrite <- app_assoc; reflexivity |].
    split; [exact Hw |]. apply Forall_app. split; [exact Hpost | auto].
Qed.

Lemma find_rev_last {A} (f : A -> bool) (pre post : list A) (w : A) :
  f w = true -> Forall (fun x => f x = false) post ->
  List.find f (rev (pre ++ w :: post)) = Some w.
Proof.
  intros Hw. induction post as [| x post IH] using rev_ind; intros Hpost.
  - rewrite rev_unit. simpl. rewrite Hw. reflexivity.
  - apply Forall_app in Hpost as [Hpost Hx]. inversion Hx as [| ? ? Hx' _]; subst.
    replace (pre ++ w :: post ++ [x]) with ((pre ++ w :: post) ++ [x])
      by (rewrite <- app_assoc; reflexivity).
    rewrite rev_unit. simpl. rewrite Hx'. apply IH. exact Hpost.
Qed.

Lemma find_rev_None {A} (f : A -> bool) (l : list A) :
  List.find f (rev l) = None <-> Forall (fun x => f x = false) l.
Proof.
  split.
  - intros H. apply Forall_forall. intros x Hx.
    apply (find_none _ _ H). apply in_rev. rewrite rev_involutive. apply list_elem_of_In. exact Hx.
  - intros H. induction l as [| x l IH] using rev_ind; [reflexivity |].
    apply Forall_app in H as [H Hx]. inversion Hx as [| ? ? Hx' _]; subst.
    rewrite rev_unit. simpl. rewrite Hx'. auto.
Qed.


Lemma FindWord_loop_none n h : forall l,
  Forall (fun r' => exists m', moduleHeap h !! r' = Some m' /\ Module_FindWord m' n = None) l ->
  FindWord_loop l n h = (Ok None, h).
Proof.
  induction l as [| r' l IH]; intros Hab; simpl; [reflexivity |].
  inversion Hab as [| ? ? (m' & Hr' & Hm') Hab']; subst.
  unfold bind, derefModule. rewrite Hr', Hm'. apply IH; assumption.
Qed.



Lemma set_heap_same i : set_heap (heap i) i = i.
Proof. destruct i; reflexivity. Qed.


Lemma FindWord_not_in_modules i n :
  Forall (fun r' => exists m', moduleHeap (heap i) !! r' = Some m' /\ Module_FindWord m' n = None)
         (moduleStack i) ->
  FindWord n i
  = match findLiteralWord i n with
    | Some word => (Ok word, i)
    | None => (Err (NewUnknownWordError n), i)
    end.
Proof.
  intros Hall. unfold FindWord, bind, get, liftHeap.
  rewrite (FindWord_loop_none n (heap i) (rev (moduleStack i))) by (apply Forall_rev; exact Hall).
  rewrite set_heap_same. destruct (findLiteralWord i n); reflexivity.
Qed.

End Lookup.

Section Keeps.

Lemma keeps_ret {A} P (a : A) : keeps P (ret a).
Proof. intros i H. exact H. Qed.

Lemma keeps_bind {A B} P (m : M Interpreter A) (f : A -> M Interpreter B) :
  keeps P m -> (forall a, keeps P (f a)) -> keeps P (bind m f).
Proof.
  intros Hm Hf i Hi. unfold bind. specialize (Hm i Hi).
  destruct (m i) as [[a | e | p |] i1]; simpl in *; try exact Hm.
  apply Hf. exact Hm.
Qed.

Lemma keeps_catch {A} P (m : M Interpreter A) (f : Error -> M Interpreter A) :
  keeps P m -> (forall e, keeps P (f e)) -> keeps P (catch m f).
Proof.
  intros Hm Hf i Hi. unfold catch. specialize (Hm i Hi).
  destruct (m i) as [[a | e | p |] i1]; simpl in *; try exact Hm.
  apply Hf. exact Hm.
Qed.

Lemma keeps_get P : keeps P get.
Proof. intros i H. exact H. Qed.

Lemma keeps_throw {A} P e : keeps P (@throw Interpreter A e).
Proof. intros i H. exact H. Qed.

Lemma keeps_panic {A} P e : keeps P (@panic Interpreter A e).
Proof. intros i H. exact H. Qed.

Lemma keeps_modify P f : (forall i, P i -> P (f i)) -> keeps P (modify f).
Proof. intros Hf i H. apply Hf. exact H. Qed.

Lemma keeps_if {A} P (c : bool) (m1 m2 : M Interpreter A) :
  keeps P m1 -> keeps P m2 -> keeps P (if c then m1 else m2).
Proof. destruct c; auto. Qed.

End Keeps.

Section StartModule.
Context {host : Host}.

Lemma CurModule_top i ms r :
  moduleStack i = ms ++ [r] -> CurModule i = (Ok r, i).
Proof. intros H. unfold CurModule. rewrite H, last_snoc. reflexivity. Qed.

Lemma liftHeap_derefModule i r m :
  moduleHeap (heap i) !! r = Some m ->
  liftHeap (derefModule r) i = (Ok m, i).
Proof.
  intros H. unfold liftHeap, derefModule. rewrite H. rewrite set_heap_same. reflexivity.
Qed.

Lemma StartModule_app b i :
  name b = EmptyString ->
  StartModuleWord_Execute b i
  = (Ok tt, set_moduleStack (moduleStack i ++ [appModule i]) i).
Proof.
  intros H. unfold StartModuleWord_Execute. rewrite H. reflexivity.
Qed.

Lemma StartModule_existing b i ms r m child :
  name b <> EmptyString ->
  moduleStack i = ms ++ [r] ->
  moduleHeap (heap i) !! r = Some m ->
  modules m !! name b = Some child ->
  StartModuleWord_Execute b i
  = (Ok tt, set_moduleStack (moduleStack i ++ [child]) i).
Proof.
  intros Hn Hs Hr Hc. unfold StartModuleWord_Execute.
  destruct (String.eqb_spec (name b) EmptyString) as [E | _]; [contradiction |].
  unfold bind at 1. rewrite (CurModule_top i ms r Hs).
  unfold bind at 1. rewrite (liftHeap_derefModule i r m Hr).
  unfold Module_FindModule. rewrite Hc. reflexivity.
Qed.

Lemma bind_Ok {S A B} (m : M S A) (f : A -> M S B) s a s' :
  m s = (Ok a, s') -> bind m f s = f a s'.
Proof. intros H. unfold bind. rewrite H. reflexivity. Qed.

Lemma bind_assoc {S A B C} (m : M S A) (f : A -> M S B) (g : B -> M S C) s :
  bind (bind m f) g s = bind m (fun a => bind (f a) g) s.
Proof. unfold bind. destruct (m s) as [[a | e | p |] s']; reflexivity. Qed.

Lemma liftHeap_updateModule i r m f :
  moduleHeap (heap i) !! r = Some m ->
  liftHeap (updateModule r f) i
  = (Ok tt, set_heap (mkHeap (<[r := f m]> (moduleHeap (heap i)))
                             (variableHeap (heap i)) (memoHeap (heap i))) i).
Proof.
  intros H. unfold liftHeap, updateModule, bind, derefModule. rewrite H. reflexivity.
Qed.

Lemma StartModule_new b i ms r m :
  name b <> EmptyString ->
  moduleStack i = ms ++ [r] ->
  moduleHeap (heap i) !! r = Some m ->
  modules m !! name b = None ->
  StartModuleWord_Execute b i = (Ok tt, afterNewModule i r m (name b)).
Proof.
  intros Hn Hs Hr Hc. unfold StartModuleWord_Execute.
  destruct (String.eqb_spec (name b) EmptyString) as [E | _]; [contradiction |].
  rewrite (bind_Ok _ _ _ _ _ (CurModule_top i ms r Hs)).
  rewrite (bind_Ok _ _ _ _ _ (liftHeap_derefModule i r m Hr)).
  unfold Module_FindModule. rewrite Hc.
  assert (Hlt : (r < length (moduleHeap (heap i)))%nat) by (eapply lookup_lt_Some; eauto).
  rewrite bind_assoc.
  set (new := length (moduleHeap (heap i))).
  set (i1 := set_heap (mkHeap (moduleHeap (heap i) ++ [NewModule (name b) EmptyString])
                              (variableHeap (heap i)) (memoHeap (heap i))) i).
  rewrite (bind_Ok _ _ i new i1) by reflexivity.
  rewrite bind_assoc.
  rewrite (bind_Ok _ _ _ _ _ (CurModule_top i1 ms r Hs)).
  assert (Hr1 : moduleHeap (heap i1) !! r = Some m).
  { subst i1. simpl. rewrite lookup_app_l by exact Hlt. exact Hr. }
  rewrite bind_assoc.
  rewrite (bind_Ok _ _ _ _ _ (liftHeap_updateModule i1 r m _ Hr1)).
  set (i2 := set_heap _ i1).
  rewrite bind_assoc.
  rewrite (bind_Ok _ _ _ _ _ (CurModule_top i2 ms r Hs)).
  assert (Hr2 : moduleHeap (heap i2) !! r = Some (Module_RegisterModule (name b) (name b) new m)).
  { subst i2 i1. simpl. apply list_lookup_insert_eq. rewrite length_app. simpl. lia. }
  rewrite bind_assoc.
  rewrite (bind_Ok _ _ _ _ _ (liftHeap_derefModule i2 r _ Hr2)).
  unfold afterNewModule. fold new.
  change (mname (Module_RegisterModule (name b) (name b) new m)) with (mname m).
  rewrite bind_assoc.
  destruct (String.eqb (mname m) EmptyString).
  - assert (Hnew : moduleHeap (heap i2) !! new = Some (NewModule (name b) EmptyString)).
    { subst i2 i1 new. simpl. rewrite list_lookup_insert_ne by lia.
      rewrite lookup_app_r by lia. rewrite Nat.sub_diag. reflexivity. }
    unfold RegisterModule. rewrite bind_assoc.
    rewrite (bind_Ok _ _ _ _ _ (liftHeap_derefModule i2 _ _ Hnew)).
    rewrite bind_assoc. unfold modify at 1.
    erewrite bind_Ok by reflexivity.
    erewrite bind_Ok; [| apply liftHeap_updateModule; exact Hnew].
    reflexivity.
  - reflexivity.
Qed.

End StartModule.

Section Preservation.
Context {host : Host}.
Variable P : Interpreter -> Prop.
Hypothesis PI : ModuleInvariant P.
Hypothesis PH : hostKeeps host P.

Lemma keeps_frame {A} (m : M Interpreter A) :
  (forall i, appModule (snd (m i)) = appModule i /\
             moduleStack (snd (m i)) = moduleStack i /\
             moduleHeap (heap (snd (m i))) = moduleHeap (heap i)) ->
  keeps P m.
Proof.
  intros H i Hi. destruct (H i) as (H1 & H2 & H3).
  exact (inv_ext P PI i _ H1 H2 H3 Hi).
Qed.

Lemma keeps_StackPush v : keeps P (StackPush v).
Proof. apply keeps_frame. intros i. auto. Qed.

Lemma keeps_StackPop : keeps P StackPop.
Proof.
  apply keeps_frame. intros i. unfold StackPop.
  destruct (Stack_Pop (stack i)) as [[v s] | e]; auto.
Qed.

Lemma keeps_liftHeap {A} (m : M Heap A) :
  (forall h, moduleHeap (snd (m h)) = moduleHeap h) -> keeps P (liftHeap m).
Proof.
  intros H. apply keeps_frame. intros i. unfold liftHeap.
  specialize (H (heap i)). destruct (m (heap i)) as [o h]. simpl in *. auto.
Qed.

Lemma keeps_memoValue m : keeps P (memoValue m).
Proof.
  apply keeps_liftHeap. intros h. unfold derefMemo.
  destruct (memoHeap h !! memoCell m); reflexivity.
Qed.

Lemma keeps_storeMemo c x : keeps P (liftHeap (storeMemo c x)).
Proof. apply keeps_liftHeap. intros h. reflexivity. Qed.

Lemma keeps_tryHandlers err word hs : keeps P (tryHandlers hs err word).
Proof.
  induction hs as [| h hs IH]; intros i Hi; simpl; [exact Hi |].
  destruct PH as [_ PHe]. specialize (PHe h err word i Hi).
  destruct (errorHandler h err word i) as [[a | e | p |] i1]; simpl in *; auto.
Qed.

Lemma keeps_handleExecutionError b w err : keeps P (handleExecutionError b w err).
Proof.
  unfold handleExecutionError. apply keeps_catch; [| intros; apply keeps_throw].
  unfold TryErrorHandlers. apply keeps_if; [apply keeps_throw | apply keeps_tryHandlers].
Qed.

Lemma keeps_EndArray_loop n : forall items, keeps P (EndArray_loop n items).
Proof.
  induction n as [| n IH]; intros items; simpl.
  - intros i Hi. exact Hi.
  - apply keeps_bind; [apply keeps_StackPop |]. intros item.
    apply keeps_if; [apply keeps_ret | apply IH].
Qed.

Lemma keeps_EndArrayWord_Execute : keeps P EndArrayWord_Execute.
Proof.
  unfold EndArrayWord_Execute. apply keeps_bind; [apply keeps_get |]. intros i.
  apply keeps_bind; [apply keeps_EndArray_loop |]. intros items. apply keeps_StackPush.
Qed.

Lemma keeps_Execute : forall w, keeps P (Execute w).
Proof.
  apply (Word_induction (fun w => keeps P (Execute w)) (fun m => keeps P (Refresh m))).
  - intros b v. apply keeps_StackPush.
  - intros b h. simpl. apply keeps_catch; [apply PH | intros; apply keeps_handleExecutionError].
  - intros b ws Hws. change (Execute (DefinitionWord b ws))
      with (Definition_loop b (DefinitionWord b ws) ws).
    generalize (DefinitionWord b ws) as w.
    induction Hws as [| x rest Hx _ IH]; intros w.
    + apply keeps_ret.
    + change (Definition_loop b w (x :: rest))
        with (bind (catch (Execute x) (handleExecutionError b w))
                   (fun _ => Definition_loop b w rest)).
      apply keeps_bind; [| intros; apply IH].
      apply keeps_catch; [exact Hx | intros; apply keeps_handleExecutionError].
  - intros b t Ht. exact Ht.
  - intros b. apply (inv_start P PI).
  - intros b. simpl. unfold EndModuleWord_Execute.
    apply keeps_bind; [apply (inv_pop P PI) | intros; apply keeps_ret].
  - intros b. apply keeps_EndArrayWord_Execute.
  - intros m Hm. simpl.
    apply keeps_bind; [apply keeps_memoValue |]. intros c.
    apply keeps_bind; [apply keeps_if; [exact Hm | apply keeps_ret] |]. intros _.
    apply keeps_bind; [apply keeps_memoValue |]. intros c'. apply keeps_StackPush.
  - intros b m Hm. exact Hm.
  - intros b m Hm. simpl.
    apply keeps_bind; [exact Hm |]. intros _.
    apply keeps_bind; [apply keeps_memoValue |]. intros c'. apply keeps_StackPush.
  - intros b w c Hw. simpl.
    apply keeps_bind; [exact Hw |]. intros _.
    apply keeps_bind; [apply keeps_StackPop |]. intros v. apply keeps_storeMemo.
Qed.


Lemma keeps_appendToDefinition w : keeps P (appendToDefinition w).
Proof.
  apply keeps_frame. intros i. unfold appendToDefinition.
  destruct (curDefinition i) as [[b ws] |]; auto.
Qed.

Lemma keeps_handleWord w loc : keeps P (handleWord w loc).
Proof.
  unfold handleWord. apply keeps_bind; [apply keeps_get |]. intros i.
  apply keeps_if; [apply keeps_appendToDefinition | apply keeps_Execute].
Qed.

Lemma FindWord_loop_heap n : forall l h, snd (FindWord_loop l n h) = h.
Proof.
  induction l as [| r l IH]; intros h; simpl; [reflexivity |].
  unfold bind, derefModule. destruct (moduleHeap h !! r) as [m |]; [| reflexivity].
  destruct (Module_FindWord m n); [reflexivity | apply IH].
Qed.

Lemma keeps_FindWord n : keeps P (FindWord n).
Proof.
  unfold FindWord. apply keeps_bind; [apply keeps_get |]. intros i.
  apply keeps_bind.
  - apply keeps_liftHeap. intros h. rewrite FindWord_loop_heap. reflexivity.
  - intros [w |]; [apply keeps_ret |].
    destruct (findLiteralWord i n); [apply keeps_ret | apply keeps_throw].
Qed.

Lemma keeps_CurModule : keeps P CurModule.
Proof.
  intros i Hi. unfold CurModule. destruct (last (moduleStack i)); exact Hi.
Qed.

Lemma keeps_missingSemicolonAtPrevious : keeps P missingSemicolonAtPrevious.
Proof.
  intros i Hi. unfold missingSemicolonAtPrevious. destruct (previousToken i); exact Hi.
Qed.

Lemma liftHeap_bind {A B} (m : M Heap A) (f : A -> M Heap B) i :
  liftHeap (bind m f) i = bind (liftHeap m) (fun a => liftHeap (f a)) i.
Proof.
  unfold liftHeap, bind. destruct (m (heap i)) as [[a | e | p |] h]; reflexivity.
Qed.

Lemma keeps_liftHeap_bind {A B} (m : M Heap A) (f : A -> M Heap B) :
  keeps P (liftHeap m) -> (forall a, keeps P (liftHeap (f a))) ->
  keeps P (liftHeap (bind m f)).
Proof.
  intros Hm Hf i Hi. rewrite liftHeap_bind. revert i Hi.
  apply keeps_bind; assumption.
Qed.

Lemma keeps_liftHeap_ret {A} (a : A) : keeps P (liftHeap (ret a)).
Proof. apply keeps_liftHeap. reflexivity. Qed.

Lemma keeps_AddMemoWords r w : keeps P (liftHeap (Module_AddMemoWords r w)).
Proof.
  unfold Module_AddMemoWords, NewModuleMemoWord.
  apply keeps_liftHeap_bind.
  - apply keeps_liftHeap_bind; [apply keeps_liftHeap; reflexivity |].
    intros c. apply keeps_liftHeap_ret.
  - intros mw.
    repeat (apply keeps_liftHeap_bind;
            [apply (inv_update P PI); intros m; split; reflexivity | intros _]).
    apply keeps_liftHeap_ret.
Qed.

Lemma keeps_handleToken tok : keeps P (handleToken tok).
Proof.
  unfold handleToken. destruct (Type_ tok).
  - apply keeps_handleWord.
  - apply keeps_ret.
  - apply keeps_handleWord.
  - apply keeps_handleWord.
  - unfold handleStartModuleToken. apply keeps_bind; [apply keeps_get |]. intros i.
    apply keeps_bind; [| intros; apply keeps_Execute].
    apply keeps_if; [apply keeps_appendToDefinition | apply keeps_ret].
  - unfold handleEndModuleToken. apply keeps_bind; [apply keeps_get |]. intros i.
    apply keeps_bind; [| intros; apply keeps_Execute].
    apply keeps_if; [apply keeps_appendToDefinition | apply keeps_ret].
  - unfold handleStartDefinitionToken. apply keeps_bind; [apply keeps_get |]. intros i.
    apply keeps_if; [apply keeps_missingSemicolonAtPrevious |].
    repeat (apply keeps_bind; [| intros _]);
      apply keeps_modify; intros j Hj; apply (inv_ext P PI j); auto.
  - unfold handleEndDefinitionToken. apply keeps_bind; [apply keeps_get |]. intros i.
    destruct (isCompiling i); [| apply keeps_throw].
    destruct (curDefinition i) as [[b ws] |]; [| apply keeps_throw].
    apply keeps_bind; [apply keeps_CurModule |]. intros cur.
    apply keeps_bind.
    + apply keeps_if.
      * apply keeps_bind; [apply keeps_AddMemoWords | intros; apply keeps_ret].
      * apply (inv_update P PI). intros m. split; reflexivity.
    + intros _. apply keeps_modify. intros j Hj. apply (inv_ext P PI j); auto.
  - unfold handleStartMemoToken. apply keeps_bind; [apply keeps_get |]. intros i.
    apply keeps_if; [apply keeps_missingSemicolonAtPrevious |].
    repeat (apply keeps_bind; [| intros _]);
      apply keeps_modify; intros j Hj; apply (inv_ext P PI j); auto.
  - unfold handleWordToken. apply keeps_bind; [apply keeps_FindWord |]. intros w.
    apply keeps_handleWord.
  - apply keeps_handleWord.
  - intros i Hi. unfold handleEOS. destruct (isCompiling i); [| exact Hi].
    destruct (previousToken i); exact Hi.
Qed.

Lemma keeps_nextToken : keeps P nextToken.
Proof.
  apply keeps_frame. intros i. unfold nextToken.
  destruct (last (tokenizerStack i)) as [tk |]; [| auto].
  destruct (NextToken tk) as [o tk']. auto.
Qed.

Lemma keeps_runWithTokenizer fuel : keeps P (runWithTokenizer fuel).
Proof.
  induction fuel as [| fuel IH]; simpl.
  - intros i Hi. exact Hi.
  - apply keeps_bind; [apply keeps_nextToken |]. intros [tok |]; [| apply keeps_panic].
    apply keeps_bind; [apply keeps_handleToken |]. intros _.
    apply keeps_if; [apply keeps_ret |].
    apply keeps_bind; [| intros; apply IH].
    apply keeps_modify. intros j Hj. apply (inv_ext P PI j); auto.
Qed.

Lemma keeps_Run fuel code : keeps P (Run fuel code).
Proof.
  intros i Hi. unfold Run.
  assert (H0 : P (set_tokenizerStack (tokenizerStack i ++ [NewTokenizer code None false]) i))
    by (apply (inv_ext P PI i); auto).
  pose proof (keeps_runWithTokenizer fuel _ H0) as H1.
  destruct (runWithTokenizer fuel _) as [[[] | e | p |] i1]; simpl in *; try exact H1;
    apply (inv_ext P PI i1); auto.
Qed.

End Preservation.

Section StackInvariant.
Context {host : Host}.

Lemma removelast_cons_ne {A} (x : A) l : l <> [] -> removelast (x :: l) = x :: removelast l.
Proof. destruct l; [contradiction | reflexivity]. Qed.

Lemma moduleStackOK_pop : keeps moduleStackOK ModuleStackPop.
Proof.
  intros i [rest Hi]. unfold ModuleStackPop.
  destruct (length (moduleStack i) <=? 1)%nat eqn:Hl; [exists rest; exact Hi |].
  apply Nat.leb_gt in Hl.
  destruct (last (moduleStack i)); [| exists rest; exact Hi].
  simpl. unfold moduleStackOK. simpl. rewrite Hi in *. simpl in Hl.
  exists (removelast rest). apply removelast_cons_ne. destruct rest; simpl in *; [lia | discriminate].
Qed.

Lemma pushesOnly_bind {A B} (m : M Interpreter A) (f : A -> M Interpreter B) :
  pushesOnly m -> (forall a, pushesOnly (f a)) -> pushesOnly (bind m f).
Proof.
  intros Hm Hf i. unfold bind. destruct (Hm i) as [Ha [s Hs]].
  destruct (m i) as [[a | e | p |] i1]; simpl in *; try (split; [exact Ha | exists s; exact Hs]).
  destruct (Hf a i1) as [Ha' [s' Hs']]. split; [congruence |].
  exists (s ++ s'). rewrite Hs', Hs, app_assoc. reflexivity.
Qed.

Lemma pushesOnly_same {A} (m : M Interpreter A) :
  (forall i, appModule (snd (m i)) = appModule i /\ moduleStack (snd (m i)) = moduleStack i) ->
  pushesOnly m.
Proof.
  intros H i. destruct (H i) as [H1 H2]. split; [exact H1 |].
  exists []. rewrite app_nil_r. exact H2.
Qed.

Lemma pushesOnly_liftHeap {A} (m : M Heap A) : pushesOnly (liftHeap m).
Proof.
  apply pushesOnly_same. intros i. unfold liftHeap. destruct (m (heap i)). auto.
Qed.

Lemma pushesOnly_CurModule : pushesOnly CurModule.
Proof.
  apply pushesOnly_same. intros i. unfold CurModule. destruct (last (moduleStack i)); auto.
Qed.

Lemma pushesOnly_push r : pushesOnly (ModuleStackPush r).
Proof. intros i. split; [reflexivity |]. exists [r]. reflexivity. Qed.

Lemma pushesOnly_RegisterModule r : pushesOnly (RegisterModule r).
Proof.
  unfold RegisterModule. apply pushesOnly_bind; [apply pushesOnly_liftHeap |]. intros m.
  apply pushesOnly_bind; [| intros; apply pushesOnly_liftHeap].
  apply pushesOnly_same. intros i. auto.
Qed.

Lemma pushesOnly_StartModule b : pushesOnly (StartModuleWord_Execute b).
Proof.
  unfold StartModuleWord_Execute. destruct (String.eqb (name b) EmptyString).
  - apply pushesOnly_bind; [apply pushesOnly_same; intros; auto |].
    intros i. apply pushesOnly_push.
  - apply pushesOnly_bind; [apply pushesOnly_CurModule |]. intros cur.
    apply pushesOnly_bind; [apply pushesOnly_liftHeap |]. intros m.
    apply pushesOnly_bind; [| intros; apply pushesOnly_push].
    destruct (Module_FindModule m (name b)).
    + apply pushesOnly_same. intros i. auto.
    + apply pushesOnly_bind; [apply pushesOnly_liftHeap |]. intros new.
      apply pushesOnly_bind; [apply pushesOnly_CurModule |]. intros cur'.
      apply pushesOnly_bind; [apply pushesOnly_liftHeap |]. intros _.
      apply pushesOnly_bind; [apply pushesOnly_CurModule |]. intros cur''.
      apply pushesOnly_bind; [apply pushesOnly_liftHeap |]. intros m'.
      apply pushesOnly_bind; [| intros; apply pushesOnly_same; intros; auto].
      destruct (String.eqb (mname m') EmptyString);
        [apply pushesOnly_RegisterModule | apply pushesOnly_same; intros; auto].
Qed.

Lemma moduleStackOK_invariant : ModuleInvariant moduleStackOK.
Proof.
  split.
  - intros i i' Ha Hs _ [rest Hi]. exists rest. congruence.
  - apply moduleStackOK_pop.
  - intros b i [rest Hi]. destruct (pushesOnly_StartModule b i) as [Ha [s Hs]].
    exists (rest ++ s). rewrite Hs, Hi, Ha. reflexivity.
  - intros r f _ i [rest Hi]. destruct (pushesOnly_liftHeap (updateModule r f) i) as [Ha [s Hs]].
    exists (rest ++ s). rewrite Hs, Hi, Ha. reflexivity.
Qed.

End StackInvariant.

Section NamingInvariant.
Context {host : Host}.

Lemma modulesNamed_grow i i' :
  appModule i' = appModule i ->
  namesKept (moduleHeap (heap i)) (moduleHeap (heap i')) ->
  (forall r, In r (moduleStack i') ->
     In r (moduleStack i) \/
     exists m, moduleHeap (heap i') !! r = Some m /\ mname m <> EmptyString) ->
  (forall r m k c, moduleHeap (heap i') !! r = Some m -> modules m !! k = Some c ->
     k <> EmptyString ->
     (exists m0, moduleHeap (heap i) !! r = Some m0 /\ modules m0 !! k = Some c) \/
     (exists mc, moduleHeap (heap i') !! c = Some mc /\ mname mc <> EmptyString)) ->
  modulesNamed i -> modulesNamed i'.
Proof.
  intros Ha Hk Hs Hc (N1 & N2 & N3). split; [| split].
  - destruct N1 as (app & Happ & Hn). destruct (Hk _ _ Happ) as (app' & Happ' & Hn').
    exists app'. rewrite Ha. split; [exact Happ' | congruence].
  - intros r Hr. destruct (Hs r Hr) as [Hold | (m & Hm & Hne)].
    + destruct (N2 r Hold) as (m & Hm & Himp). destruct (Hk _ _ Hm) as (m' & Hm' & Hn').
      exists m'. split; [exact Hm' |]. rewrite Ha, Hn'. exact Himp.
    + exists m. split; [exact Hm |]. intros E. contradiction.
  - intros r m k c Hr Hkc Hne. destruct (Hc r m k c Hr Hkc Hne) as [(m0 & Hm0 & Hk0) | Hnew].
    + destruct (N3 r m0 k c Hm0 Hk0 Hne) as (mc & Hmc & Hnmc).
      destruct (Hk _ _ Hmc) as (mc' & Hmc' & Hn'). exists mc'. split; [exact Hmc' | congruence].
    + exact Hnew.
Qed.

Lemma modulesNamed_update i r f :
  (forall m, mname (f m) = mname m /\ modules (f m) = modules m) ->
  modulesNamed i -> modulesNamed (snd (liftHeap (updateModule r f) i)).
Proof.
  intros Hf HN. unfold liftHeap, updateModule, bind, derefModule.
  destruct (moduleHeap (heap i) !! r) as [m |] eqn:Hr; [| exact HN].
  cbn [storeModule snd].
  assert (Hlt : (r < length (moduleHeap (heap i)))%nat) by (eapply lookup_lt_Some; eauto).
  apply (modulesNamed_grow i); try reflexivity.
  - intros r' m' Hr'. cbn [heap set_heap moduleHeap].
    destruct (decide (r = r')) as [<- | Hne].
    + rewrite list_lookup_insert_eq by exact Hlt. exists (f m). split; [reflexivity |].
      rewrite Hr in Hr'. injection Hr' as <-. apply Hf.
    + rewrite list_lookup_insert_ne by exact Hne. eauto.
  - intros r' Hr'. left. exact Hr'.
  - intros r' m' k c Hr' Hkc Hne. left. cbn [heap set_heap moduleHeap] in Hr'.
    destruct (decide (r = r')) as [<- | Hne'].
    + rewrite list_lookup_insert_eq in Hr' by exact Hlt. injection Hr' as <-.
      exists m. split; [exact Hr |]. destruct (Hf m) as [_ <-]. exact Hkc.
    + rewrite list_lookup_insert_ne in Hr' by exact Hne'. eauto.
  - exact HN.
Qed.

Lemma modulesNamed_afterNewModule i ms r m nm :
  nm <> EmptyString ->
  moduleStack i = ms ++ [r] ->
  moduleHeap (heap i) !! r = Some m ->
  modulesNamed i -> modulesNamed (afterNewModule i r m nm).
Proof.
  intros Hnm Hs Hr HN.
  assert (Hlt : (r < length (moduleHeap (heap i)))%nat) by (eapply lookup_lt_Some; eauto).
  set (new := length (moduleHeap (heap i))).
  (* the module heap after the creation *)
  assert (Hheap : exists mh' mnew,
    moduleHeap (heap (afterNewModule i r m nm)) = mh' /\
    mh' !! new = Some mnew /\ mname mnew = nm /\ modules mnew = ∅ /\
    mh' !! r = Some (Module_RegisterModule nm nm new m) /\
    (forall r', r' <> r -> r' <> new -> mh' !! r' = moduleHeap (heap i) !! r')).
  { unfold afterNewModule. fold new. cbn [heap set_heap set_moduleStack set_registeredMods moduleHeap].
    destruct (String.eqb (mname m) EmptyString); eexists; eexists; (split; [reflexivity |]).
    - split; [apply list_lookup_insert_eq; rewrite length_insert, length_app; simpl; lia |].
      split; [reflexivity |]. split; [reflexivity |].
      split.
      + rewrite list_lookup_insert_ne by (unfold new; lia).
        apply list_lookup_insert_eq. rewrite length_app. simpl. lia.
      + intros r' H1 H2. rewrite !list_lookup_insert_ne by congruence.
        destruct (decide (r' < new)%nat).
        * apply lookup_app_l. assumption.
        * rewrite lookup_ge_None_2 by (rewrite length_app; simpl; unfold new in *; lia).
          symmetry. apply lookup_ge_None_2. unfold new in *. lia.
    - split; [rewrite list_lookup_insert_ne by (unfold new; lia);
              rewrite lookup_app_r by (unfold new; lia);
              unfold new; rewrite Nat.sub_diag; reflexivity |].
      split; [reflexivity |]. split; [reflexivity |].
      split.
      + apply list_lookup_insert_eq. rewrite length_app. simpl. lia.
      + intros r' H1 H2. rewrite !list_lookup_insert_ne by congruence.
        destruct (decide (r' < new)%nat).
        * apply lookup_app_l. assumption.
        * rewrite lookup_ge_None_2 by (rewrite length_app; simpl; unfold new in *; lia).
          symmetry. apply lookup_ge_None_2. unfold new in *. lia. }
  destruct Hheap as (mh' & mnew & Hmh & Hnew & Hnn & Hnmods & Hpar & Hother).
  assert (Hkept : namesKept (moduleHeap (heap i)) mh').
  { intros r' m' Hr'. destruct (decide (r' = r)) as [-> | Hne].
    - exists (Module_RegisterModule nm nm new m). split; [exact Hpar |].
      rewrite Hr in Hr'. injection Hr' as <-. reflexivity.
    - exists m'. split; [| reflexivity]. rewrite Hother; [exact Hr' | exact Hne |].
      apply lookup_lt_Some in Hr'. unfold new. lia. }
  apply (modulesNamed_grow i); [reflexivity | rewrite Hmh; exact Hkept | | | exact HN].
  - intros r' Hr'. unfold afterNewModule in Hr'. cbn [moduleStack set_moduleStack] in Hr'.
    apply in_app_or in Hr' as [Hold | [<- | []]]; [left; exact Hold |].
    right. rewrite Hmh. exists mnew. split; [exact Hnew | congruence].
  - rewrite Hmh. intros r' m' k c Hr' Hkc Hne.
    destruct (decide (r' = new)) as [-> | Hn1].
    { rewrite Hnew in Hr'. injection Hr' as <-. rewrite Hnmods in Hkc.
      rewrite lookup_empty in Hkc. discriminate. }
    destruct (decide (r' = r)) as [-> | Hn2].
    { rewrite Hpar in Hr'. injection Hr' as <-.
      unfold Module_RegisterModule in Hkc. cbn [modules set_modules set_modulePrefixes] in Hkc.
      destruct (decide (nm = k)) as [<- | Hnk].
      - rewrite lookup_insert_eq in Hkc. injection Hkc as <-.
        right. exists mnew. split; [exact Hnew | congruence].
      - rewrite lookup_insert_ne in Hkc by exact Hnk. left. exists m. split; assumption. }
    left. exists m'. split; [| exact Hkc]. rewrite <- Hother; assumption.
Qed.

End NamingInvariant.

Section WFInvariant.
Context {host : Host}.

Lemma nonempty_snoc {A} (x : A) l : exists ms r, x :: l = ms ++ [r].
Proof.
  destruct (exists_last (l := x :: l)) as (ms & r & E); [discriminate |]. eauto.
Qed.

Lemma namesKept_refl mh : namesKept mh mh.
Proof. intros r m H. eauto. Qed.

Lemma modulesNamed_ext i i' :
  appModule i' = appModule i -> moduleStack i' = moduleStack i ->
  moduleHeap (heap i') = moduleHeap (heap i) -> modulesNamed i -> modulesNamed i'.
Proof.
  intros Ha Hs Hh. apply modulesNamed_grow; [exact Ha | rewrite Hh; apply namesKept_refl | |].
  - intros r Hr. left. rewrite <- Hs. exact Hr.
  - intros r m k c Hr Hk _. left. exists m. rewrite <- Hh. auto.
Qed.

Lemma modulesWF_start b : keeps modulesWF (StartModuleWord_Execute b).
Proof.
  intros i [HS HN]. split; [apply (inv_start _ moduleStackOK_invariant b i HS) |].
  destruct HS as [rest HS].
  destruct (nonempty_snoc (appModule i) rest) as (ms & r & Hs). rewrite <- HS in Hs.
  destruct HN as (N1 & N2 & N3).
  assert (Hin : In r (moduleStack i)) by (rewrite Hs; apply in_or_app; right; left; reflexivity).
  destruct (N2 r Hin) as (m & Hr & _).
  destruct (String.eqb_spec (name b) EmptyString) as [Hn | Hn].
  - rewrite (StartModule_app b i Hn). cbn [snd].
    apply (modulesNamed_grow i); [reflexivity | apply namesKept_refl | | | repeat split; assumption].
    + intros r' Hr'. cbn [moduleStack set_moduleStack] in Hr'. left.
      apply in_app_or in Hr' as [H | [<- | []]]; [exact H |]. rewrite HS. left. reflexivity.
    + intros r' m' k c Hr' Hk _. left. eauto.
  - destruct (modules m !! name b) as [child |] eqn:Hc.
    + rewrite (StartModule_existing b i ms r m child Hn Hs Hr Hc). cbn [snd].
      apply (modulesNamed_grow i); [reflexivity | apply namesKept_refl | | | repeat split; assumption].
      * intros r' Hr'. cbn [moduleStack set_moduleStack] in Hr'.
        apply in_app_or in Hr' as [H | [<- | []]]; [left; exact H |].
        right. exact (N3 r m (name b) child Hr Hc Hn).
      * intros r' m' k c Hr' Hk _. left. eauto.
    + rewrite (StartModule_new b i ms r m Hn Hs Hr Hc). cbn [snd].
      apply (modulesNamed_afterNewModule i ms r m (name b) Hn Hs Hr).
      repeat split; assumption.
Qed.

Lemma modulesWF_invariant : ModuleInvariant modulesWF.
Proof.
  split.
  - intros i i' Ha Hs Hh [H1 H2]. split.
    + apply (inv_ext _ moduleStackOK_invariant i); assumption.
    + apply (modulesNamed_ext i); assumption.
  - intros i [H1 H2]. split; [apply (inv_pop _ moduleStackOK_invariant i H1) |].
    unfold ModuleStackPop. destruct (length (moduleStack i) <=? 1)%nat; [exact H2 |].
    destruct (last (moduleStack i)); [| exact H2]. cbn [snd].
    apply (modulesNamed_grow i); [reflexivity | apply namesKept_refl | | | exact H2].
    + intros r Hr. left. cbn [moduleStack set_moduleStack] in Hr.
      destruct (moduleStack i) as [| x l] eqn:E; [destruct Hr |].
      destruct (exists_last (l := x :: l)) as (l' & a & E'); [discriminate |].
      rewrite E' in *. rewrite removelast_last in Hr. apply in_or_app. left. exact Hr.
    + intros r m k c Hr Hk _. left. eauto.
  - apply modulesWF_start.
  - intros r f Hf i [H1 H2]. split.
    + apply (inv_update _ moduleStackOK_invariant r f Hf i H1).
    + apply modulesNamed_update; assumption.
Qed.

End WFInvariant.

Section Memo.
Context {host : Host}.

Lemma memoValue_lookup mw i c :
  memoHeap (heap i) !! memoCell mw = Some c -> memoValue mw i = (Ok c, i).
Proof.
  intros H. unfold memoValue, liftHeap, derefMemo. rewrite H, set_heap_same. reflexivity.
Qed.

Lemma memo_cached b body cell v i :
  memoHeap (heap i) !! cell = Some (mkMemoCell true v) ->
  Execute (ModuleMemoWord (mkModuleMemoWord b body cell)) i
  = (Ok tt, set_stack (stack i ++ [v]) i).
Proof.
  intros H. cbn [Execute].
  rewrite (bind_Ok _ _ _ _ _ (memoValue_lookup (mkModuleMemoWord b body cell) i _ H)).
  cbn [hasValue negb]. rewrite (bind_Ok _ _ i tt i) by reflexivity.
  rewrite (bind_Ok _ _ _ _ _ (memoValue_lookup (mkModuleMemoWord b body cell) i _ H)).
  reflexivity.
Qed.

Lemma Refresh_runs b body cell i i1 s v :
  Execute body i = (Ok tt, i1) ->
  stack i1 = s ++ [v] ->
  Refresh (mkModuleMemoWord b body cell) i = (Ok tt, set_stack s (cacheIn cell v i1)).
Proof.
  intros Hb Hs. cbn [Refresh].
  rewrite (bind_Ok _ _ _ _ _ Hb).
  rewrite (bind_Ok _ _ _ _ _ (StackPop_snoc i1 s v Hs)).
  reflexivity.
Qed.

Lemma cacheIn_lookup cell v i :
  (cell < length (memoHeap (heap i)))%nat ->
  memoHeap (heap (cacheIn cell v i)) !! cell = Some (mkMemoCell true v).
Proof. intros H. unfold cacheIn. simpl. apply list_lookup_insert_eq. exact H. Qed.

Lemma memo_first b body cell x i i1 s v :
  memoHeap (heap i) !! cell = Some (mkMemoCell false x) ->
  Execute body i = (Ok tt, i1) ->
  stack i1 = s ++ [v] ->
  (cell < length (memoHeap (heap i1)))%nat ->
  Execute (ModuleMemoWord (mkModuleMemoWord b body cell)) i
  = (Ok tt, cacheIn cell v i1).
Proof.
  intros H Hb Hs Hlt. cbn [Execute].
  rewrite (bind_Ok _ _ _ _ _ (memoValue_lookup (mkModuleMemoWord b body cell) i _ H)).
  cbn [hasValue negb].
  rewrite (bind_Ok _ _ _ _ _ (Refresh_runs b body cell i i1 s v Hb Hs)).
  assert (Hc : memoHeap (heap (set_stack s (cacheIn cell v i1))) !! cell
               = Some (mkMemoCell true v)) by (apply (cacheIn_lookup cell v i1 Hlt)).
  rewrite (bind_Ok _ _ _ _ _
             (memoValue_lookup (mkModuleMemoWord b body cell) _ _ Hc)).
  cbn [memo_value]. unfold StackPush, modify. cbn [stack set_stack].
  rewrite <- Hs. destruct i1; reflexivity.
Qed.

Lemma memo_bang b0 b body cell i i1 s v :
  Execute body i = (Ok tt, i1) ->
  stack i1 = s ++ [v] ->
  Execute (ModuleMemoBangWord b0 (mkModuleMemoWord b body cell)) i
  = (Ok tt, set_stack s (cacheIn cell v i1)).
Proof. intros Hb Hs. cbn [Execute]. apply (Refresh_runs b body cell i i1 s v Hb Hs). Qed.

Lemma memo_bang_at b0 b body cell i i1 s v :
  Execute body i = (Ok tt, i1) ->
  stack i1 = s ++ [v] ->
  (cell < length (memoHeap (heap i1)))%nat ->
  Execute (ModuleMemoBangAtWord b0 (mkModuleMemoWord b body cell)) i
  = (Ok tt, cacheIn cell v i1).
Proof.
  intros Hb Hs Hlt. cbn [Execute].
  rewrite (bind_Ok _ _ _ _ _ (Refresh_runs b body cell i i1 s v Hb Hs)).
  assert (Hc : memoHeap (heap (set_stack s (cacheIn cell v i1))) !! cell
               = Some (mkMemoCell true v)) by (apply (cacheIn_lookup cell v i1 Hlt)).
  rewrite (bind_Ok _ _ _ _ _
             (memoValue_lookup (mkModuleMemoWord b body cell) _ _ Hc)).
  cbn [memo_value]. unfold StackPush, modify. cbn [stack set_stack].
  rewrite <- Hs. destruct i1; reflexivity.
Qed.

End Memo.

Section Install.
Context {host : Host}.

Lemma updateModule_heap h r m f :
  moduleHeap h !! r = Some m ->
  updateModule r f h
  = (Ok tt, mkHeap (<[r := f m]> (moduleHeap h)) (variableHeap h) (memoHeap h)).
Proof. intros H. unfold updateModule, bind, derefModule. rewrite H. reflexivity. Qed.

Lemma AddMemoWords_result h r m word :
  moduleHeap h !! r = Some m ->
  let memoWord := mkModuleMemoWord (NewBaseWord (GetName word)) word (length (memoHeap h)) in
  Module_AddMemoWords r word h
  = (Ok memoWord,
     mkHeap (<[r := set_words (words m ++ [ModuleMemoWord memoWord;
                                           NewModuleMemoBangWord memoWord;
                                           NewModuleMemoBangAtWord memoWord]) m]>
               (moduleHeap h))
            (variableHeap h)
            (memoHeap h ++ [mkMemoCell false VNil])).
Proof.
  intros Hr memoWord.
  assert (Hlt : (r < length (moduleHeap h))%nat) by (eapply lookup_lt_Some; eauto).
  unfold Module_AddMemoWords.
  set (h1 := mkHeap (moduleHeap h) (variableHeap h) (memoHeap h ++ [mkMemoCell false VNil])).
  rewrite (bind_Ok _ _ h memoWord h1) by reflexivity.
  erewrite bind_Ok; [| apply updateModule_heap; exact Hr].
  erewrite bind_Ok;
    [| apply updateModule_heap; cbn [moduleHeap]; apply list_lookup_insert_eq; exact Hlt].
  erewrite bind_Ok;
    [| apply updateModule_heap; cbn [moduleHeap]; apply list_lookup_insert_eq;
       rewrite length_insert; exact Hlt].
  unfold ret. cbn [moduleHeap variableHeap memoHeap h1].
  rewrite !list_insert_insert_eq. cbn [words set_words].
  rewrite <- !app_assoc. clear Hr. destruct m; reflexivity.
Qed.

Lemma handleEndDefinition_memo token i ms r m b ws :
  isCompiling i = true ->
  isMemoDefinition i = true ->
  curDefinition i = Some (b, ws) ->
  moduleStack i = ms ++ [r] ->
  moduleHeap (heap i) !! r = Some m ->
  let memoWord :=
    mkModuleMemoWord (NewBaseWord (name b)) (DefinitionWord b ws) (length (memoHeap (heap i))) in
  handleEndDefinitionToken token i
  = (Ok tt,
     set_isCompiling false
       (set_heap
          (mkHeap (<[r := set_words (words m ++ [ModuleMemoWord memoWord;
                                                NewModuleMemoBangWord memoWord;
                                                NewModuleMemoBangAtWord memoWord]) m]>
                     (moduleHeap (heap i)))
                  (variableHeap (heap i))
                  (memoHeap (heap i) ++ [mkMemoCell false VNil])) i)).
Proof.
  intros Hc Hm Hd Hs Hr memoWord. unfold handleEndDefinitionToken.
  rewrite (bind_Ok _ _ i i i) by reflexivity. rewrite Hc, Hd.
  rewrite (bind_Ok _ _ _ _ _ (CurModule_top i ms r Hs)).
  rewrite Hm. rewrite bind_assoc.
  unfold liftHeap at 1. unfold bind at 1.
  rewrite (AddMemoWords_result (heap i) r m (DefinitionWord b ws) Hr).
  reflexivity.
Qed.


Lemma handleWord_compiling w loc i :
  isCompiling i = true ->
  handleWord w loc i = appendToDefinition w i.
Proof. intros H. unfold handleWord, bind, get. rewrite H. reflexivity. Qed.

Lemma appendToDefinition_stack w i : stack (snd (appendToDefinition w i)) = stack i.
Proof. unfold appendToDefinition. destruct (curDefinition i) as [[b ws] |]; reflexivity. Qed.

End Install.

Section DupFacts.

Lemma derefVariable_lookup h v x :
  variableHeap h !! v = Some x -> derefVariable v h = (Ok x, h).
Proof. intros H. unfold derefVariable. rewrite H. reflexivity. Qed.

Lemma dupVariables_spec : forall vars acc h,
  (forall k v, In (k, v) vars -> is_Some (variableHeap h !! v)) ->
  NoDup (vars.*1) ->
  exists res cells,
    dupVariables vars acc h
    = (Ok res, mkHeap (moduleHeap h) (variableHeap h ++ cells) (memoHeap h)) /\
    length cells = length vars /\
    (forall k, ~ In k (vars.*1) -> res !! k = acc !! k) /\
    (forall j k v, vars !! j = Some (k, v) ->
       res !! k = Some (length (variableHeap h) + j)%nat /\
       cells !! j = Variable_Dup <$> (variableHeap h !! v)).
Proof.
  induction vars as [| [k0 v0] rest IH]; intros acc h Hvalid Hnd.
  - exists acc, []. split; [simpl; rewrite app_nil_r; destruct h; reflexivity |].
    split; [reflexivity |]. split; [reflexivity |]. intros j k v H. discriminate.
  - destruct (Hvalid k0 v0 (or_introl eq_refl)) as [x Hx].
    apply NoDup_cons in Hnd as [Hk0 Hnd].
    set (h1 := mkHeap (moduleHeap h) (variableHeap h ++ [Variable_Dup x]) (memoHeap h)).
    destruct (IH (<[k0 := length (variableHeap h)]> acc) h1) as (res & cells & Hrun & Hlen & Hout & Hin).
    { intros k v Hkv. destruct (Hvalid k v (or_intror Hkv)) as [y Hy].
      exists y. subst h1. simpl. rewrite lookup_app_l by (eapply lookup_lt_Some; eauto). exact Hy. }
    { exact Hnd. }
    exists res, (Variable_Dup x :: cells). split; [| split; [| split]].
    + cbn [dupVariables].
      rewrite (bind_Ok _ _ _ _ _ (derefVariable_lookup h v0 x Hx)).
      rewrite (bind_Ok _ _ h (length (variableHeap h)) h1) by reflexivity.
      rewrite Hrun. subst h1. simpl. rewrite <- app_assoc. reflexivity.
    + simpl. rewrite Hlen. reflexivity.
    + intros k Hk. rewrite Hout.
      * apply lookup_insert_ne. intros ->. apply Hk. left. reflexivity.
      * intros Hin'. apply Hk. right. exact Hin'.
    + intros [| j] k v Hj.
      * injection Hj as -> ->. split.
        -- rewrite Hout by (rewrite <- list_elem_of_In; exact Hk0).
           rewrite lookup_insert_eq, Nat.add_0_r. reflexivity.
        -- simpl. rewrite Hx. reflexivity.
      * simpl in Hj. destruct (Hin j k v Hj) as [H1 H2]. split.
        -- rewrite H1. subst h1. simpl. rewrite length_app. simpl. f_equal. lia.
        -- simpl. rewrite H2. subst h1. simpl.
           destruct (Hvalid k v) as [y Hy];
             [right; apply list_elem_of_In, list_elem_of_lookup; eauto |].
           rewrite lookup_app_l by (eapply lookup_lt_Some; eauto). reflexivity.
Qed.

Lemma fold_insert_lookup (l : list (string * nat)) : forall (acc : gmap string nat) k,
  NoDup (l.*1) ->
  fold_left (fun acc kv => <[fst kv := snd kv]> acc) l acc !! k
  = match (list_to_map l : gmap string nat) !! k with
    | Some v => Some v
    | None => acc !! k
    end.
Proof.
  induction l as [| [k0 v0] l IH]; intros acc k Hnd; simpl; [reflexivity |].
  apply NoDup_cons in Hnd as [Hk0 Hnd]. rewrite IH by exact Hnd.
  destruct (decide (k0 = k)) as [<- | Hne].
  - rewrite (not_elem_of_list_to_map_1 _ _ Hk0). rewrite !lookup_insert_eq. reflexivity.
  - rewrite !lookup_insert_ne by exact Hne. reflexivity.
Qed.

Lemma fold_insert_map_to_list (M : gmap string nat) :
  fold_left (fun acc kv => <[fst kv := snd kv]> acc) (map_to_list M) ∅ = M.
Proof.
  apply map_eq. intros k. rewrite fold_insert_lookup by apply NoDup_fst_map_to_list.
  rewrite list_to_map_to_list. rewrite lookup_empty. destruct (M !! k); reflexivity.
Qed.

Lemma exportableMap_lookup (names : list string) : forall (acc : gmap string bool) k,
  fold_left (fun acc name => <[name := true]> acc) names acc !! k
  = if decide (k ∈ names) then Some true else acc !! k.
Proof.
  induction names as [| n names IH]; intros acc k; simpl.
  - destruct (decide (k ∈ [])) as [H | _]; [inversion H | reflexivity].
  - rewrite IH. destruct (decide (k ∈ names)) as [Hin | Hnin].
    + destruct (decide (k ∈ n :: names)) as [_ | Hc]; [reflexivity |].
      exfalso. apply Hc. right. exact Hin.
    + destruct (decide (n = k)) as [<- | Hne].
      * rewrite lookup_insert_eq. destruct (decide (n ∈ n :: names)) as [_ | Hc]; [reflexivity |].
        exfalso. apply Hc. left.
      * rewrite lookup_insert_ne by exact Hne.
        destruct (decide (k ∈ n :: names)) as [Hc | _]; [| reflexivity].
        inversion Hc; subst; contradiction.
Qed.

Lemma ExportableWords_In m w :
  In w (Module_ExportableWords m) <-> In w (words m) /\ In (GetName w) (exportable m).
Proof.
  unfold Module_ExportableWords. rewrite filter_In. rewrite exportableMap_lookup.
  rewrite <- (list_elem_of_In (exportable m) (GetName w)).
  destruct (decide (GetName w ∈ exportable m)) as [H | H].
  - tauto.
  - rewrite lookup_empty. split; [intros [_ F]; discriminate | tauto].
Qed.

Lemma importWords_words prefix ws : forall m,
  words (importWords prefix ws m) = words m ++ map (importedWord prefix) ws /\
  variables (importWords prefix ws m) = variables m /\
  modules (importWords prefix ws m) = modules m /\
  mname (importWords prefix ws m) = mname m /\
  exportable (importWords prefix ws m) = exportable m.
Proof.
  unfold importWords.
  induction ws as [| w ws IH]; intros m; simpl.
  - rewrite app_nil_r. auto.
  - destruct (IH (if String.eqb prefix EmptyString then Module_AddWord w m
                  else Module_AddWord (NewExecuteWord (prefix +:+ "." +:+ GetName w) w) m))
      as (H1 & H2 & H3 & H4 & H5).
    rewrite H1, H2, H3, H4, H5. unfold importedWord.
    destruct (String.eqb prefix EmptyString); simpl; rewrite <- app_assoc; auto.
Qed.

End DupFacts.

Section ImportFacts.

Lemma derefModule_lookup h r m :
  moduleHeap h !! r = Some m -> derefModule r h = (Ok m, h).
Proof. intros H. unfold derefModule. rewrite H. reflexivity. Qed.

Lemma Module_Dup_spec h r m :
  moduleHeap h !! r = Some m ->
  (forall k v, variables m !! k = Some v -> is_Some (variableHeap h !! v)) ->
  exists m' cells,
    Module_Dup r h
    = (Ok (length (moduleHeap h)),
       mkHeap (moduleHeap h ++ [m']) (variableHeap h ++ cells) (memoHeap h)) /\
    words m' = words m /\ exportable m' = exportable m /\ modules m' = modules m /\
    mname m' = mname m /\ forthicCode m' = forthicCode m /\
    (forall k, variables m' !! k = None <-> variables m !! k = None) /\
    (forall k v, variables m !! k = Some v ->
       exists v', variables m' !! k = Some v' /\
                  (length (variableHeap h) <= v')%nat /\
                  (variableHeap h ++ cells) !! v' = Variable_Dup <$> (variableHeap h !! v)) /\
    (forall k1 k2 v', variables m' !! k1 = Some v' -> variables m' !! k2 = Some v' -> k1 = k2).
Proof.
  intros Hr Hvalid.
  destruct (dupVariables_spec (map_to_list (variables m)) ∅ h) as (res & cells & Hrun & Hlen & Hout & Hin).
  { intros k v Hkv. apply (Hvalid k v). apply elem_of_map_to_list, list_elem_of_In. exact Hkv. }
  { apply NoDup_fst_map_to_list. }
  assert (Hsome : forall k v, variables m !! k = Some v ->
            exists j, map_to_list (variables m) !! j = Some (k, v)).
  { intros k v Hkv. apply list_elem_of_lookup, elem_of_map_to_list. exact Hkv. }
  assert (Hnone : forall k, variables m !! k = None -> res !! k = None).
  { intros k Hk. rewrite Hout; [apply lookup_empty |].
    intros Hc. apply list_elem_of_In, list_elem_of_fmap in Hc as ([k' v'] & -> & Hc).
    apply elem_of_map_to_list in Hc. simpl in Hk. congruence. }
  eexists (mkModule (words m) (exportable m) res (modules m) ∅ (mname m) (forthicCode m) false), cells.
  split; [| repeat split; try reflexivity].
  - unfold Module_Dup.
    rewrite (bind_Ok _ _ _ _ _ (derefModule_lookup h r m Hr)).
    cbn [variables set_variables set_words set_exportable NewModule].
    rewrite (bind_Ok _ _ _ _ _ Hrun).
    cbn [modules set_modules set_variables]. rewrite fold_insert_map_to_list. reflexivity.
  - cbn [variables]. intros Hk. destruct (variables m !! k) as [v |] eqn:E; [| reflexivity].
    destruct (Hsome k v E) as [j Hj]. destruct (Hin j k v Hj) as [H1 _]. congruence.
  - cbn [variables]. apply Hnone.
  - cbn [variables]. intros k v Hkv. destruct (Hsome k v Hkv) as [j Hj].
    destruct (Hin j k v Hj) as [H1 H2].
    exists (length (variableHeap h) + j)%nat. split; [exact H1 |]. split; [lia |].
    rewrite lookup_app_r by lia.
    replace (length (variableHeap h) + j - length (variableHeap h))%nat with j by lia.
    exact H2.
  - cbn [variables]. intros k1 k2 v' H1 H2.
    destruct (variables m !! k1) as [v1 |] eqn:E1; [| rewrite (Hnone k1 E1) in H1; discriminate].
    destruct (variables m !! k2) as [v2 |] eqn:E2; [| rewrite (Hnone k2 E2) in H2; discriminate].
    destruct (Hsome k1 v1 E1) as [j1 Hj1]. destruct (Hsome k2 v2 E2) as [j2 Hj2].
    destruct (Hin j1 k1 v1 Hj1) as [G1 _]. destruct (Hin j2 k2 v2 Hj2) as [G2 _].
    rewrite G1 in H1. rewrite G2 in H2.
    assert (j1 = j2) by (injection H1; injection H2; lia). subst j2.
    rewrite Hj1 in Hj2. congruence.
Qed.

Lemma Module_ImportModule_spec h host module hm m prefix :
  host <> module ->
  moduleHeap h !! host = Some hm ->
  moduleHeap h !! module = Some m ->
  (forall k v, variables m !! k = Some v -> is_Some (variableHeap h !! v)) ->
  exists h' hm',
    Module_ImportModule host prefix module h = (Ok tt, h') /\
    moduleHeap h' !! host = Some hm' /\
    moduleHeap h' !! module = Some m /\
    words hm' = words hm ++ map (importedWord prefix) (Module_ExportableWords m) /\
    variables hm' = variables hm /\
    modules hm' = <[mname m := length (moduleHeap h)]> (modules hm) /\
    exportable hm' = exportable hm /\
    (exists copy, moduleHeap h' !! length (moduleHeap h) = Some copy /\
                  words copy = words m /\ exportable copy = exportable m).
Proof.
  intros Hne Hh Hm Hvalid.
  destruct (Module_Dup_spec h module m Hm Hvalid)
    as (m' & cells & Hdup & Hw & He & Hmods & Hn & Hcode & _).
  assert (Hlh : (host < length (moduleHeap h))%nat) by (eapply lookup_lt_Some; eauto).
  assert (Hlm : (module < length (moduleHeap h))%nat) by (eapply lookup_lt_Some; eauto).
  set (h1 := mkHeap (moduleHeap h ++ [m']) (variableHeap h ++ cells) (memoHeap h)) in *.
  assert (Hcopy : moduleHeap h1 !! length (moduleHeap h) = Some m').
  { subst h1. simpl. rewrite lookup_app_r by lia. rewrite Nat.sub_diag. reflexivity. }
  assert (Hh1 : moduleHeap h1 !! host = Some hm).
  { subst h1. simpl. rewrite lookup_app_l by exact Hlh. exact Hh. }
  set (hm1 := importWords prefix (Module_ExportableWords m') hm).
  set (h2 := mkHeap (<[host := hm1]> (moduleHeap h1)) (variableHeap h1) (memoHeap h1)).
  assert (Hm2 : moduleHeap h2 !! module = Some m).
  { subst h2 h1. simpl. rewrite list_lookup_insert_ne by exact Hne.
    rewrite lookup_app_l by exact Hlm. exact Hm. }
  assert (Hh2 : moduleHeap h2 !! host = Some hm1).
  { subst h2 h1. simpl. apply list_lookup_insert_eq. rewrite length_app. simpl. lia. }
  set (hm2 := Module_RegisterModule (mname m) prefix (length (moduleHeap h)) hm1).
  exists (mkHeap (<[host := hm2]> (moduleHeap h2)) (variableHeap h2) (memoHeap h2)), hm2.
  destruct (importWords_words prefix (Module_ExportableWords m') hm) as (W1 & W2 & W3 & W4 & W5).
  assert (Hexp : Module_ExportableWords m' = Module_ExportableWords m).
  { unfold Module_ExportableWords. rewrite Hw, He. reflexivity. }
  split; [| split; [| split; [| split; [| split; [| split; [| split]]]]]].
  - unfold Module_ImportModule.
    rewrite (bind_Ok _ _ _ _ _ Hdup).
    rewrite (bind_Ok _ _ _ _ _ (derefModule_lookup h1 _ m' Hcopy)).
    rewrite (bind_Ok _ _ _ _ _ (updateModule_heap h1 host hm _ Hh1)).
    fold hm1. fold h2.
    rewrite (bind_Ok _ _ _ _ _ (derefModule_lookup h2 module m Hm2)).
    rewrite (updateModule_heap h2 host hm1 _ Hh2). reflexivity.
  - simpl. apply list_lookup_insert_eq. subst h2 h1. simpl.
    rewrite length_insert, length_app. simpl. lia.
  - simpl. rewrite list_lookup_insert_ne by exact Hne. exact Hm2.
  - subst hm2 hm1. cbn [Module_RegisterModule words set_modules set_modulePrefixes].
    rewrite W1, Hexp. reflexivity.
  - subst hm2 hm1. cbn [Module_RegisterModule variables set_modules set_modulePrefixes].
    exact W2.
  - subst hm2 hm1. cbn [Module_RegisterModule modules set_modules set_modulePrefixes].
    rewrite W3. reflexivity.
  - subst hm2 hm1. cbn [Module_RegisterModule exportable set_modules set_modulePrefixes].
    exact W5.
  - exists m'. split; [| split; assumption].
    simpl. rewrite list_lookup_insert_ne by lia.
    subst h2. simpl. rewrite list_lookup_insert_ne by lia. exact Hcopy.
Qed.

Lemma FindWord_from_words m n w :
  variables m = ∅ -> Module_FindWord m n = Some w -> In w (words m).
Proof.
  intros Hv. unfold Module_FindWord, Module_FindDictionaryWord, Module_FindVariable.
  destruct (List.find _ (rev (words m))) as [w' |] eqn:E.
  - intros [= <-]. apply find_some in E as [E _]. apply in_rev. exact E.
  - rewrite Hv, lookup_empty. discriminate.
Qed.

Lemma importedWord_inj prefix w1 w2 :
  importedWord prefix w1 = importedWord prefix w2 -> w1 = w2.
Proof.
  unfold importedWord, NewExecuteWord.
  destruct (String.eqb prefix EmptyString); [auto | congruence].
Qed.

End ImportFacts.

(* ===================================================================== *)
(** ** The claims *)
(* ===================================================================== *)

(** C1. Executing END_ARRAY pops the values above the nearest START_ARRAY
    sentinel, discards the sentinel and pushes one sequence that holds
    the popped values in the order in which they were pushed.  Hence the
    literal [[ v1 ... vn ]], handled on an empty stack by an interpreter
    that is not compiling, leaves exactly one sequence of length n whose
    elements are v1 ... vn in order; a value is anything but the sentinel
    itself.  The literal [[ 1 2 [ 3 4 ] 5 ]] is run as text. *)
Theorem array_literal_round_trip :
  forall host : Host,
    (forall i below open items,
       Type_ open = TOKEN_START_ARRAY ->
       Forall (fun v => isStartArrayToken v = false) items ->
       stack i = below ++ VToken open :: items ->
       Execute NewEndArrayWord i = (Ok tt, set_stack (below ++ [VArray items]) i)) /\
    (forall i open close vs,
       Type_ open = TOKEN_START_ARRAY ->
       Type_ close = TOKEN_END_ARRAY ->
       isCompiling i = false ->
       stack i = [] ->
       Forall (fun v => isStartArrayToken v = false) (map snd vs) ->
       handleArrayLiteral open close vs i = (Ok tt, set_stack [VArray (map snd vs)] i) /\
       length (map snd vs) = length vs) /\
    (forall external : External,
       let r := Run 20 "[ 1 2 [ 3 4 ] 5 ]" (snd (NewInterpreter emptyHeap [])) in
       fst r = Ok tt /\
       stack (snd r) = [VArray [VInt 1; VInt 2; VArray [VInt 3; VInt 4]; VInt 5]]).
Proof.
  intros host. split; [| split].
  - intros i below open items Ho Hall Hs.
    apply (EndArrayWord_Execute_sentinel i below open items Ho Hall Hs).
  - intros i open close vs Ho Hc Hi Hs Hall. split; [| apply length_map].
    rewrite (array_round_trip open close vs i Ho Hc Hi Hall). rewrite Hs. reflexivity.
  - intros external. vm_compute. split; reflexivity.
Qed.

Lemma array_literal_round_trip_witness :
  Execute (host := mathHost) NewEndArrayWord
    (set_stack [VInt 7; VToken openToken; VInt 1; VInt 2] (interpreterCore emptyHeap))
  = (Ok tt, set_stack [VInt 7; VArray [VInt 1; VInt 2]] (interpreterCore emptyHeap)) /\
  handleArrayLiteral (host := mathHost) openToken closeToken
    [("1", VInt 1); ("2", VInt 2); ("<string>", VString "x")] (interpreterCore emptyHeap)
  = (Ok tt, set_stack [VArray [VInt 1; VInt 2; VString "x"]] (interpreterCore emptyHeap)).
Proof.
  split.
  - apply (proj1 (array_literal_round_trip mathHost)
             (set_stack [VInt 7; VToken openToken; VInt 1; VInt 2] (interpreterCore emptyHeap))
             [VInt 7] openToken [VInt 1; VInt 2]).
    + reflexivity.
    + repeat constructor.
    + reflexivity.
  - apply (proj1 (proj2 (array_literal_round_trip mathHost))
             (interpreterCore emptyHeap) openToken closeToken
             [("1", VInt 1); ("2", VInt 2); ("<string>", VString "x")]).
    + reflexivity.
    + reflexivity.
    + reflexivity.
    + reflexivity.
    + repeat constructor.
Defined.

(** C2. The end of a memo definition installs NAME, NAME! and NAME!@ in
    the current module, around one memo cell with an empty cache.  The
    first execution of NAME runs the body, takes the value on top of the
    stack as the cache and pushes it; an execution of NAME with a filled
    cache pushes the cached value and runs nothing; NAME! runs the body
    and caches its top value, which it removes from the stack, so that
    it pushes nothing.  The text [@: X 2 3 + ; X X X!] leaves two fives
    on the stack: the floats 5 with the addition of the math module, the
    integers 5 with an addition of integers. *)
Theorem memo_words :
  forall host : Host,
    (forall token i ms r m b ws,
       Type_ token = TOKEN_END_DEF ->
       isCompiling i = true -> isMemoDefinition i = true ->
       curDefinition i = Some (b, ws) ->
       moduleStack i = ms ++ [r] ->
       moduleHeap (heap i) !! r = Some m ->
       let memoWord :=
         mkModuleMemoWord (NewBaseWord (name b)) (DefinitionWord b ws)
                          (length (memoHeap (heap i))) in
       exists i' m',
         handleToken token i = (Ok tt, i') /\
         moduleHeap (heap i') !! r = Some m' /\
         words m' = words m ++ [ModuleMemoWord memoWord;
                                NewModuleMemoBangWord memoWord;
                                NewModuleMemoBangAtWord memoWord] /\
         map GetName [ModuleMemoWord memoWord; NewModuleMemoBangWord memoWord;
                      NewModuleMemoBangAtWord memoWord]
         = [name b; name b +:+ "!"; name b +:+ "!@"] /\
         memoHeap (heap i') !! memoCell memoWord = Some (mkMemoCell false VNil)) /\
    (forall b body cell x i i1 s v,
       memoHeap (heap i) !! cell = Some (mkMemoCell false x) ->
       Execute body i = (Ok tt, i1) ->
       stack i1 = s ++ [v] ->
       (cell < length (memoHeap (heap i1)))%nat ->
       Execute (ModuleMemoWord (mkModuleMemoWord b body cell)) i
       = (Ok tt, cacheIn cell v i1) /\
       stack (cacheIn cell v i1) = s ++ [v] /\
       memoHeap (heap (cacheIn cell v i1)) !! cell = Some (mkMemoCell true v)) /\
    (forall b body cell v i,
       memoHeap (heap i) !! cell = Some (mkMemoCell true v) ->
       Execute (ModuleMemoWord (mkModuleMemoWord b body cell)) i
       = (Ok tt, set_stack (stack i ++ [v]) i)) /\
    (forall b body cell i i1 s v,
       Execute body i = (Ok tt, i1) ->
       stack i1 = s ++ [v] ->
       (cell < length (memoHeap (heap i1)))%nat ->
       let bang := NewModuleMemoBangWord (mkModuleMemoWord b body cell) in
       Execute bang i = (Ok tt, set_stack s (cacheIn cell v i1)) /\
       memoHeap (heap (set_stack s (cacheIn cell v i1))) !! cell = Some (mkMemoCell true v)) /\
    (forall external : External,
       let r := Run (host := mathHost) 20 "@: X 2 3 + ; X X X!" (snd setupMathInterpreter) in
       fst r = Ok tt /\ stack (snd r) = [VFloat float5; VFloat float5]) /\
    (forall external : External,
       let r := Run (host := integerHost) 20 "@: X 2 3 + ; X X X!" (snd setupMathInterpreter) in
       fst r = Ok tt /\ stack (snd r) = [VInt 5; VInt 5]).
Proof.
  intros host. split; [| split; [| split; [| split; [| split]]]].
  - intros token i ms r m b ws Ht Hc Hm Hd Hs Hr memoWord.
    assert (Hlt : (r < length (moduleHeap (heap i)))%nat) by (eapply lookup_lt_Some; eauto).
    eexists. eexists. split; [| split; [| split; [| split]]].
    + unfold handleToken. rewrite Ht.
      apply (handleEndDefinition_memo token i ms r m b ws Hc Hm Hd Hs Hr).
    + cbn [heap set_isCompiling set_heap moduleHeap].
      apply list_lookup_insert_eq. exact Hlt.
    + reflexivity.
    + reflexivity.
    + cbn [heap set_isCompiling set_heap memoHeap memoCell memoWord].
      rewrite lookup_app_r by lia. rewrite Nat.sub_diag. reflexivity.
  - intros b body cell x i i1 s v Hcell Hb Hs Hlt. split; [| split].
    + apply (memo_first b body cell x i i1 s v Hcell Hb Hs Hlt).
    + exact Hs.
    + apply (cacheIn_lookup cell v i1 Hlt).
  - intros b body cell v i Hcell. apply (memo_cached b body cell v i Hcell).
  - intros b body cell i i1 s v Hb Hs Hlt bang. split.
    + apply (memo_bang _ b body cell i i1 s v Hb Hs).
    + apply (cacheIn_lookup cell v i1 Hlt).
  - intros external. vm_compute. split; reflexivity.
  - intros external. vm_compute. split; reflexivity.
Qed.

Lemma memo_words_witness :
  (exists i' m',
     handleToken (host := mathHost) endDefToken compilingMemoX = (Ok tt, i') /\
     moduleHeap (heap i') !! 0%nat = Some m' /\
     words m' = [ModuleMemoWord memoX; NewModuleMemoBangWord memoX;
                 NewModuleMemoBangAtWord memoX]) /\
  Execute (host := mathHost) (ModuleMemoWord memoX) installedX
  = (Ok tt, cacheIn 0 (VInt 5) (set_stack [VInt 5] installedX)) /\
  Execute (host := mathHost) (ModuleMemoWord memoX)
    (cacheIn 0 (VInt 5) (set_stack [VInt 5] installedX))
  = (Ok tt, set_stack [VInt 5; VInt 5] (cacheIn 0 (VInt 5) (set_stack [VInt 5] installedX))) /\
  Execute (host := mathHost) (NewModuleMemoBangWord memoX) installedX
  = (Ok tt, set_stack [] (cacheIn 0 (VInt 5) (set_stack [VInt 5] installedX))).
Proof.
  split; [| split; [| split]].
  - destruct (proj1 (memo_words mathHost) endDefToken compilingMemoX [] 0%nat
                (SetInterp (NewModule EmptyString EmptyString)) (NewBaseWord "X")
                [NewPushValueWord "5" (VInt 5)]
                eq_refl eq_refl eq_refl eq_refl eq_refl eq_refl)
      as (i' & m' & H1 & H2 & H3 & _).
    exists i', m'. split; [exact H1 |]. split; [exact H2 | exact H3].
  - apply (proj1 (proj2 (memo_words mathHost)) (NewBaseWord "X")
             (DefinitionWord (NewBaseWord "X") [NewPushValueWord "5" (VInt 5)])
             0%nat VNil installedX (set_stack [VInt 5] installedX) [] (VInt 5)).
    + reflexivity.
    + reflexivity.
    + reflexivity.
    + vm_compute. lia.
  - apply (proj1 (proj2 (proj2 (memo_words mathHost))) (NewBaseWord "X")
             (DefinitionWord (NewBaseWord "X") [NewPushValueWord "5" (VInt 5)])
             0%nat (VInt 5) (cacheIn 0 (VInt 5) (set_stack [VInt 5] installedX))).
    reflexivity.
  - apply (proj1 (proj2 (proj2 (proj2 (memo_words mathHost)))) (NewBaseWord "X")
             (DefinitionWord (NewBaseWord "X") [NewPushValueWord "5" (VInt 5)])
             0%nat installedX (set_stack [VInt 5] installedX) [] (VInt 5)).
    + reflexivity.
    + reflexivity.
    + vm_compute. lia.
Defined.

Lemma FindDictionaryWord_last m n w :
  Module_FindDictionaryWord m n = Some w <->
  exists pre post, words m = pre ++ w :: post /\ GetName w = n /\
                   Forall (fun x => GetName x <> n) post.
Proof.
  unfold Module_FindDictionaryWord. split.
  - intros H. destruct (find_rev_Some _ _ _ H) as (pre & post & Hw & Hn & Hpost).
    exists pre, post. split; [exact Hw |]. split; [apply String.eqb_eq; exact Hn |].
    eapply Forall_impl; [exact Hpost |]. intros x Hx. cbv beta in Hx.
    apply String.eqb_neq. exact Hx.
  - intros (pre & post & Hw & Hn & Hpost). rewrite Hw. apply find_rev_last.
    + apply String.eqb_eq. exact Hn.
    + eapply Forall_impl; [exact Hpost |]. intros x Hx. apply String.eqb_neq. exact Hx.
Qed.



Lemma modulesWF_core : modulesWF (interpreterCore emptyHeap).
Proof.
  split; [exists []; reflexivity |]. split; [| split].
  - eexists. split; reflexivity.
  - intros r [<- | []]. eexists. split; [reflexivity | reflexivity].
  - intros r m k c Hr Hk _. destruct r as [| r]; [| discriminate].
    injection Hr as <-. vm_compute in Hk. discriminate.
Qed.

Lemma modulesWF_current i ms r m :
  modulesWF i -> moduleStack i = ms ++ [r] -> moduleHeap (heap i) !! r = Some m ->
  String.eqb (mname m) EmptyString = bool_decide (r = appModule i).
Proof.
  intros [_ (N1 & N2 & _)] Hs Hr.
  destruct (N2 r) as (m' & Hm' & Himp); [rewrite Hs; apply in_or_app; right; left; reflexivity |].
  rewrite Hr in Hm'. injection Hm' as <-.
  destruct N1 as (app & Happ & Hn).
  destruct (String.eqb_spec (mname m) EmptyString) as [E | E].
  - symmetry. apply bool_decide_eq_true. auto.
  - symmetry. apply bool_decide_eq_false. intros ->. rewrite Hr in Happ. congruence.
Qed.

(** C4. Entering a module with the empty name pushes the app module.
    Entering with another name pushes the child of the current module
    registered under the name, if there is one; otherwise a new module
    is created, registered under the current module and pushed, and it
    is registered with the interpreter exactly when the current module is
    the app module.  Leaving pops the module stack, and panics when only
    the app module is on it.  So the module stack is never empty and its
    bottom is the app module, in every state that a run reaches with a
    host that keeps this itself; the same holds for the naming
    discipline on which the registration rests, which a new interpreter
    satisfies. *)
Theorem module_scoping :
  forall host : Host,
    (forall b i,
       name b = EmptyString ->
       Execute (StartModuleWord b) i
       = (Ok tt, set_moduleStack (moduleStack i ++ [appModule i]) i)) /\
    (forall b i ms r m child,
       name b <> EmptyString ->
       moduleStack i = ms ++ [r] ->
       moduleHeap (heap i) !! r = Some m ->
       modules m !! name b = Some child ->
       Execute (StartModuleWord b) i
       = (Ok tt, set_moduleStack (moduleStack i ++ [child]) i)) /\
    (forall b i ms r m,
       name b <> EmptyString ->
       moduleStack i = ms ++ [r] ->
       moduleHeap (heap i) !! r = Some m ->
       modules m !! name b = None ->
       modulesWF i ->
       let new := length (moduleHeap (heap i)) in
       exists i' parent created,
         Execute (StartModuleWord b) i = (Ok tt, i') /\
         moduleStack i' = moduleStack i ++ [new] /\
         moduleHeap (heap i) !! new = None /\
         moduleHeap (heap i') !! new = Some created /\
         mname created = name b /\ words created = [] /\
         moduleHeap (heap i') !! r = Some parent /\
         modules parent !! name b = Some new /\
         registeredMods i'
         = (if bool_decide (r = appModule i)
            then <[name b := new]> (registeredMods i)
            else registeredMods i)) /\
    (forall b i,
       (length (moduleStack i) <= 1)%nat ->
       Execute (EndModuleWord b) i
       = (Panic (PError (NewForthicError "Cannot pop app module from module stack")), i)) /\
    (forall b i ms r,
       moduleStack i = ms ++ [r] -> ms <> [] ->
       Execute (EndModuleWord b) i = (Ok tt, set_moduleStack ms i)) /\
    (hostKeeps host moduleStackOK ->
     forall fuel code i, moduleStackOK i -> moduleStackOK (snd (Run fuel code i))) /\
    (hostKeeps host modulesWF ->
     forall fuel code i, modulesWF i -> modulesWF (snd (Run fuel code i))) /\
    (forall external : External, modulesWF (snd (NewInterpreter emptyHeap []))).
Proof.
  intros host. split; [| split; [| split; [| split; [| split; [| split; [| split]]]]]].
  - intros b i Hn. apply (StartModule_app b i Hn).
  - intros b i ms r m child Hn Hs Hr Hc. apply (StartModule_existing b i ms r m child Hn Hs Hr Hc).
  - intros b i ms r m Hn Hs Hr Hc HWF new.
    assert (Hlt : (r < length (moduleHeap (heap i)))%nat) by (eapply lookup_lt_Some; eauto).
    pose proof (modulesWF_current i ms r m HWF Hs Hr) as Hcur.
    exists (afterNewModule i r m (name b)).
    exists (Module_RegisterModule (name b) (name b) new m).
    exists (if String.eqb (mname m) EmptyString
            then SetInterp (NewModule (name b) EmptyString)
            else NewModule (name b) EmptyString).
    split; [apply (StartModule_new b i ms r m Hn Hs Hr Hc) |].
    split; [reflexivity |].
    split; [apply lookup_ge_None_2; unfold new; lia |].
    unfold afterNewModule. fold new.
    cbn [heap set_moduleStack set_registeredMods set_heap moduleHeap registeredMods].
    rewrite <- Hcur.
    destruct (String.eqb (mname m) EmptyString).
    + split; [apply list_lookup_insert_eq; rewrite length_insert, length_app; simpl; unfold new; lia |].
      split; [reflexivity |]. split; [reflexivity |].
      split; [rewrite list_lookup_insert_ne by (unfold new; lia);
              apply list_lookup_insert_eq; rewrite length_app; simpl; lia |].
      split; [| reflexivity].
      cbn [Module_RegisterModule modules set_modules set_modulePrefixes].
      apply lookup_insert_eq.
    + split; [rewrite list_lookup_insert_ne by (unfold new; lia);
              rewrite lookup_app_r by (unfold new; lia);
              unfold new; rewrite Nat.sub_diag; reflexivity |].
      split; [reflexivity |]. split; [reflexivity |].
      split; [apply list_lookup_insert_eq; rewrite length_app; simpl; lia |].
      split; [| reflexivity].
      cbn [Module_RegisterModule modules set_modules set_modulePrefixes].
      apply lookup_insert_eq.
  - intros b i Hl. cbn [Execute]. unfold EndModuleWord_Execute, bind, ModuleStackPop.
    apply Nat.leb_le in Hl. rewrite Hl. reflexivity.
  - intros b i ms r Hs Hne. cbn [Execute]. unfold EndModuleWord_Execute, bind, ModuleStackPop.
    rewrite Hs, length_app, last_snoc, removelast_last. simpl.
    destruct (length ms + 1 <=? 1)%nat eqn:E; [| reflexivity].
    apply Nat.leb_le in E. destruct ms; [contradiction | simpl in E; lia].
  - intros HK fuel code. apply (keeps_Run moduleStackOK moduleStackOK_invariant HK).
  - intros HK fuel code. apply (keeps_Run modulesWF modulesWF_invariant HK).
  - intros external.
    apply (inv_ext _ (modulesWF_invariant (host := host)) (interpreterCore emptyHeap));
      [reflexivity | reflexivity | reflexivity | apply modulesWF_core].
Qed.

Lemma mathHost_keeps P : @ModuleInvariant mathHost P -> hostKeeps mathHost P.
Proof.
  intros PI. split.
  - intros [| handler]; cbn [native mathHost]; [| apply keeps_throw].
    unfold MathModule_plus.
    apply keeps_bind; [apply (keeps_StackPop P PI) |]. intros b.
    assert (Hcase : keeps P
              (let* a := StackPop in
               match toNumber a, toNumber b with
               | Some numA, Some numB => StackPush (VFloat (PrimFloat.add numA numB))
               | _, _ => StackPush (VFloat PrimFloat.zero)
               end)).
    { apply keeps_bind; [apply (keeps_StackPop P PI) |]. intros a.
      destruct (toNumber a); [destruct (toNumber b) |]; apply (keeps_StackPush P PI). }
    destruct b; try exact Hcase. apply (keeps_StackPush P PI).
  - intros handler err word. cbn [errorHandler mathHost]. apply keeps_throw.
Qed.

Lemma module_scoping_witness :
  Execute (host := mathHost) (NewStartModuleWord EmptyString) (interpreterCore emptyHeap)
  = (Ok tt, set_moduleStack [0; 0]%nat (interpreterCore emptyHeap)) /\
  Execute (host := mathHost) (NewStartModuleWord "m") outsideM
  = (Ok tt, set_moduleStack [0; 1]%nat outsideM) /\
  (exists i', Execute (host := mathHost) (NewStartModuleWord "m") (interpreterCore emptyHeap)
              = (Ok tt, i') /\
              moduleStack i' = [0; 1]%nat /\ registeredMods i' = {[ "m" := 1%nat ]}) /\
  (exists i', Execute (host := mathHost) (NewStartModuleWord "n") insideM = (Ok tt, i') /\
              moduleStack i' = [0; 1; 2]%nat /\ registeredMods i' = {[ "m" := 1%nat ]}) /\
  Execute (host := mathHost) NewEndModuleWord (interpreterCore emptyHeap)
  = (Panic (PError (NewForthicError "Cannot pop app module from module stack")),
     interpreterCore emptyHeap) /\
  Execute (host := mathHost) NewEndModuleWord insideM
  = (Ok tt, set_moduleStack [0%nat] insideM) /\
  moduleStackOK (snd (Run (host := mathHost) 20 "{m {n } } {" (interpreterCore emptyHeap))) /\
  modulesWF (snd (Run (host := mathHost) 20 "{m {n } } {" (interpreterCore emptyHeap))).
Proof.
  pose proof (module_scoping mathHost) as (H1 & H2 & H3 & H4 & H5 & H6 & H7 & _).
  assert (WF1 : modulesWF insideM).
  { apply (keeps_Execute modulesWF modulesWF_invariant
             (mathHost_keeps _ modulesWF_invariant)). apply modulesWF_core. }
  split; [| split; [| split; [| split; [| split; [| split; [| split]]]]]].
  - apply (H1 (NewBaseWord EmptyString) (interpreterCore emptyHeap)). reflexivity.
  - apply (H2 (NewBaseWord "m") outsideM [] 0%nat
              (Module_RegisterModule "m" "m" 1%nat (SetInterp (NewModule EmptyString EmptyString)))
              1%nat).
    + discriminate.
    + reflexivity.
    + reflexivity.
    + reflexivity.
  - destruct (H3 (NewBaseWord "m") (interpreterCore emptyHeap) [] 0%nat
                (SetInterp (NewModule EmptyString EmptyString)))
      as (i' & parent & created & E & Hs & _ & _ & _ & _ & _ & _ & Hreg).
    + discriminate.
    + reflexivity.
    + reflexivity.
    + reflexivity.
    + apply modulesWF_core.
    + exists i'. split; [exact E |]. split; [exact Hs |]. rewrite Hreg. reflexivity.
  - destruct (H3 (NewBaseWord "n") insideM [0%nat] 1%nat
                (SetInterp (NewModule "m" EmptyString)))
      as (i' & parent & created & E & Hs & _ & _ & _ & _ & _ & _ & Hreg).
    + discriminate.
    + reflexivity.
    + reflexivity.
    + reflexivity.
    + exact WF1.
    + exists i'. split; [exact E |]. split; [exact Hs |]. rewrite Hreg. reflexivity.
  - apply (H4 (NewBaseWord "}") (interpreterCore emptyHeap)). vm_compute. lia.
  - apply (H5 (NewBaseWord "}") insideM [0%nat] 1%nat); [reflexivity | discriminate].
  - apply (H6 (mathHost_keeps _ moduleStackOK_invariant)). exists []. reflexivity.
  - apply (H7 (mathHost_keeps _ modulesWF_invariant)). apply modulesWF_core.
Defined.

Lemma FindWord_from_words_name m n w :
  variables m = ∅ -> Module_FindWord m n = Some w -> In w (words m) /\ GetName w = n.
Proof.
  intros Hv. unfold Module_FindWord, Module_FindDictionaryWord, Module_FindVariable.
  destruct (List.find _ (rev (words m))) as [w' |] eqn:E.
  - intros [= <-]. apply find_some in E as [E1 E2]. split; [apply in_rev; exact E1 |].
    apply String.eqb_eq. exact E2.
  - rewrite Hv, lookup_empty. discriminate.
Qed.

Lemma append_inj_l (p a b : string) : p +:+ a = p +:+ b -> a = b.
Proof.
  induction p as [| c p IH]; [auto |]. rewrite !append_cons. intros [= H]. auto.
Qed.

Lemma importedWord_name_inj prefix w1 w2 :
  GetName (importedWord prefix w1) = GetName (importedWord prefix w2) ->
  GetName w1 = GetName w2.
Proof.
  unfold importedWord. destruct (String.eqb prefix EmptyString); [auto |].
  unfold NewExecuteWord, GetName. cbn [base name NewBaseWord]. intros H.
  apply append_inj_l in H. apply (append_inj_l ".") in H. exact H.
Qed.

(** C5. Duplicating a module yields a new module with the same words,
    the same exportable list, the same child-module pointers, and for
    every variable a new cell that holds a variable with the name and
    the value of the original, whose own cell is left as it was.  An
    import duplicates the module, then appends to the host, for every
    word of the copy whose name is in the exportable list, the word
    itself (empty prefix) or a delegating word named prefix.name whose
    target is the word.  So every word that a host can find, if it holds
    nothing but what imports of the module gave it, comes from an
    exportable word; and in a host that was new before the import, a
    word whose name is not exportable is found under no name, nor is
    there anything to find under the name it would be imported with. *)
Theorem import_exportability :
  (forall h r m,
     moduleHeap h !! r = Some m ->
     (forall k v, variables m !! k = Some v -> is_Some (variableHeap h !! v)) ->
     exists m' cells,
       Module_Dup r h
       = (Ok (length (moduleHeap h)),
          mkHeap (moduleHeap h ++ [m']) (variableHeap h ++ cells) (memoHeap h)) /\
       words m' = words m /\ exportable m' = exportable m /\ modules m' = modules m /\
       mname m' = mname m /\ forthicCode m' = forthicCode m /\
       (forall k, variables m' !! k = None <-> variables m !! k = None) /\
       (forall k v, variables m !! k = Some v ->
          exists v' var, variables m' !! k = Some v' /\
                     (length (variableHeap h) <= v')%nat /\
                     variableHeap h !! v = Some var /\
                     (variableHeap h ++ cells) !! v = Some var /\
                     (variableHeap h ++ cells) !! v'
                     = Some (NewVariable (var_name var) (var_value var))) /\
       (forall k1 k2 v', variables m' !! k1 = Some v' -> variables m' !! k2 = Some v' ->
                         k1 = k2)) /\
  (forall prefix w,
     importedWord prefix w
     = if String.eqb prefix EmptyString then w
       else ExecuteWord (mkBaseWord (prefix +:+ "." +:+ GetName w)
                                    (prefix +:+ "." +:+ GetName w) []) w) /\
  (forall h host module hm m prefix,
     host <> module ->
     moduleHeap h !! host = Some hm ->
     moduleHeap h !! module = Some m ->
     (forall k v, variables m !! k = Some v -> is_Some (variableHeap h !! v)) ->
     exists h' hm',
       Module_ImportModule host prefix module h = (Ok tt, h') /\
       moduleHeap h' !! host = Some hm' /\
       moduleHeap h' !! module = Some m /\
       words hm' = words hm ++ map (importedWord prefix) (Module_ExportableWords m) /\
       (forall w, In w (Module_ExportableWords m) <->
                  In w (words m) /\ In (GetName w) (exportable m)) /\
       variables hm' = variables hm /\
       (Forall (fromExports m) (words hm) -> variables hm = ∅ ->
        forall n found, Module_FindWord hm' n = Some found -> fromExports m found) /\
       (words hm = [] -> variables hm = ∅ ->
        forall w, ~ In (GetName w) (exportable m) ->
          (forall n found, Module_FindWord hm' n = Some found ->
                           found <> importedWord prefix w) /\
          Module_FindWord hm' (GetName (importedWord prefix w)) = None)).
Proof.
  split; [| split].
  - intros h r m Hr Hvalid.
    destruct (Module_Dup_spec h r m Hr Hvalid)
      as (m' & cells & Hrun & Hw & He & Hmods & Hn & Hcode & Hnone & Hvars & Hinj).
    exists m', cells. split; [exact Hrun |]. split; [exact Hw |]. split; [exact He |].
    split; [exact Hmods |]. split; [exact Hn |]. split; [exact Hcode |].
    split; [exact Hnone |]. split; [| exact Hinj].
    intros k v Hkv. destruct (Hvars k v Hkv) as (v' & H1 & H2 & H3).
    destruct (Hvalid k v Hkv) as [var Hvar].
    exists v', var. split; [exact H1 |]. split; [exact H2 |]. split; [exact Hvar |].
    split.
    + rewrite lookup_app_l by (eapply lookup_lt_Some; exact Hvar). exact Hvar.
    + rewrite H3, Hvar. reflexivity.
  - intros prefix w. reflexivity.
  - intros h host module hm m prefix Hne Hh Hm Hvalid.
    destruct (Module_ImportModule_spec h host module hm m prefix Hne Hh Hm Hvalid)
      as (h' & hm' & Hrun & Hh' & Hm' & Hw & Hv & _).
    exists h', hm'. split; [exact Hrun |]. split; [exact Hh' |]. split; [exact Hm' |].
    split; [exact Hw |]. split; [apply ExportableWords_In |]. split; [exact Hv |].
    assert (Hnew : forall found, In found (map (importedWord prefix) (Module_ExportableWords m)) ->
              exists w0, In w0 (words m) /\ In (GetName w0) (exportable m) /\
                         found = importedWord prefix w0).
    { intros found Hf. apply in_map_iff in Hf as (w0 & <- & Hw0).
      apply ExportableWords_In in Hw0 as [H1 H2]. eauto. }
    split.
    + intros Hall Hvars n found Hfound.
      apply FindWord_from_words in Hfound; [| rewrite Hv; exact Hvars].
      rewrite Hw in Hfound. apply in_app_or in Hfound as [Hold | Hf].
      * rewrite Forall_forall in Hall. apply Hall. apply list_elem_of_In. exact Hold.
      * destruct (Hnew found Hf) as (w0 & H1 & H2 & ->). exists prefix, w0. auto.
    + intros Hwords Hvars w Hnot.
      assert (Hfind : forall n found, Module_FindWord hm' n = Some found ->
                exists w0, In (GetName w0) (exportable m) /\ found = importedWord prefix w0 /\
                           GetName found = n).
      { intros n found Hfound.
        apply FindWord_from_words_name in Hfound as [Hin Hname]; [| rewrite Hv; exact Hvars].
        rewrite Hw, Hwords in Hin. simpl in Hin.
        destruct (Hnew found Hin) as (w0 & _ & H2 & ->). eauto. }
      split.
      * intros n found Hfound Heq. destruct (Hfind n found Hfound) as (w0 & H2 & -> & _).
        apply importedWord_inj in Heq. subst w0. contradiction.
      * destruct (Module_FindWord hm' (GetName (importedWord prefix w))) as [found |] eqn:E;
          [| reflexivity].
        destruct (Hfind _ found E) as (w0 & H2 & -> & Hname).
        apply importedWord_name_inj in Hname. rewrite Hname in H2. contradiction.
Qed.

Lemma libModule_valid :
  forall k v, variables libModule !! k = Some v -> is_Some (variableHeap libHeap !! v).
Proof.
  intros k v H. cbn [variables libModule set_variables] in H.
  apply lookup_singleton_Some in H as [_ <-]. eexists. reflexivity.
Qed.

Lemma import_exportability_witness :
  (exists m' cells,
     Module_Dup 1 libHeap
     = (Ok 2%nat, mkHeap (moduleHeap libHeap ++ [m']) (variableHeap libHeap ++ cells) []) /\
     words m' = words libModule /\
     exists v', variables m' !! "x" = Some v' /\ (1 <= v')%nat /\
                (variableHeap libHeap ++ cells) !! 0%nat = Some (NewVariable "x" (VInt 7)) /\
                (variableHeap libHeap ++ cells) !! v' = Some (NewVariable "x" (VInt 7))) /\
  (exists h' hm',
     Module_ImportModule 0 EmptyString 1 libHeap = (Ok tt, h') /\
     moduleHeap h' !! 0%nat = Some hm' /\
     words hm' = [PushValueWord (mkBaseWord "PUB" "PUB" []) (VInt 1)] /\
     Module_FindWord hm' "PRIV" = None) /\
  (exists h' hm',
     Module_ImportModule 0 "p" 1 libHeap = (Ok tt, h') /\
     moduleHeap h' !! 0%nat = Some hm' /\
     words hm'
     = [ExecuteWord (mkBaseWord "p.PUB" "p.PUB" [])
          (PushValueWord (mkBaseWord "PUB" "PUB" []) (VInt 1))] /\
     Module_FindWord hm' "p.PRIV" = None).
Proof.
  destruct import_exportability as (HD & HW & HI).
  split; [| split].
  - destruct (HD libHeap 1%nat libModule eq_refl libModule_valid)
      as (m' & cells & Hrun & Hw & _ & _ & _ & _ & _ & Hvars & _).
    exists m', cells. split; [exact Hrun |]. split; [exact Hw |].
    destruct (Hvars "x" 0%nat eq_refl) as (v' & var & H1 & H2 & H3 & H4 & H5).
    exists v'. split; [exact H1 |]. split; [exact H2 |].
    assert (E : var = NewVariable "x" (VInt 7)) by (injection H3; auto).
    rewrite E in H4, H5. split; [exact H4 | exact H5].
  - destruct (HI libHeap 0%nat 1%nat (NewModule EmptyString EmptyString) libModule EmptyString
                ltac:(discriminate) eq_refl eq_refl libModule_valid)
      as (h' & hm' & Hrun & Hh & _ & Hws & _ & _ & _ & Hpriv).
    exists h', hm'. split; [exact Hrun |]. split; [exact Hh |]. split.
    + rewrite Hws. vm_compute. reflexivity.
    + apply (proj2 (Hpriv eq_refl eq_refl (NewPushValueWord "PRIV" (VInt 2))
                      ltac:(intros [H | []]; discriminate))).
  - destruct (HI libHeap 0%nat 1%nat (NewModule EmptyString EmptyString) libModule "p"
                ltac:(discriminate) eq_refl eq_refl libModule_valid)
      as (h' & hm' & Hrun & Hh & _ & Hws & _ & _ & _ & Hpriv).
    exists h', hm'. split; [exact Hrun |]. split; [exact Hh |]. split.
    + rewrite Hws. vm_compute. reflexivity.
    + apply (proj2 (Hpriv eq_refl eq_refl (NewPushValueWord "PRIV" (VInt 2))
                      ltac:(intros [H | []]; discriminate))).
Defined.

(** C6. When what a definition or a native word runs returns an error:
    an intentional stop is returned at once and no handler is called;
    any other error is offered to the handlers of the word in the order
    of their registration; the first handler that returns no error ends
    the search, the word goes on as if nothing had failed (a definition
    continues with the next word of its body) and no later handler is
    called; if every handler returns an error, the word returns the
    original error, not an error of a handler. *)
Theorem error_handler_protocol :
  forall (host : Host) (b : BaseWord) (err : Error) (w : Word) (i : Interpreter),
    (forall handler,
       errorHandlers (AddErrorHandler handler b) = errorHandlers b ++ [handler]) /\
    (isIntentionalStop err = true -> TryErrorHandlers b err w i = (Err err, i)) /\
    (isIntentionalStop err = false ->
     forall pre handler post i1 i2,
       errorHandlers b = pre ++ handler :: post ->
       allFail err w pre i i1 ->
       errorHandler handler err w i1 = (Ok tt, i2) ->
       TryErrorHandlers b err w i = (Ok tt, i2)) /\
    (isIntentionalStop err = false ->
     forall i1,
       allFail err w (errorHandlers b) i i1 ->
       TryErrorHandlers b err w i = (Err err, i1)) /\
    (forall word rest i0,
       Execute word i0 = (Err err, i) ->
       (forall i2, TryErrorHandlers b err w i = (Ok tt, i2) ->
                   Definition_loop b w (word :: rest) i0 = Definition_loop b w rest i2) /\
       (forall e i2, TryErrorHandlers b err w i = (Err e, i2) ->
                     Definition_loop b w (word :: rest) i0 = (Err err, i2))) /\
    (forall words, Execute (DefinitionWord b words)
                   = Definition_loop b (DefinitionWord b words) words) /\
    (forall handler i0,
       native handler i0 = (Err err, i) ->
       (forall i2, TryErrorHandlers b err (ModuleWord b handler) i = (Ok tt, i2) ->
                   Execute (ModuleWord b handler) i0 = (Ok tt, i2)) /\
       (forall e i2, TryErrorHandlers b err (ModuleWord b handler) i = (Err e, i2) ->
                     Execute (ModuleWord b handler) i0 = (Err err, i2))).
Proof.
  intros host b err w i. repeat split.
  - intros Hs. unfold TryErrorHandlers. rewrite Hs. reflexivity.
  - intros Hs pre handler post i1 i2 Hl Hpre Hok. unfold TryErrorHandlers. rewrite Hs, Hl.
    apply (tryHandlers_first err w pre handler post i i1 i2 Hpre Hok).
  - intros Hs i1 Hall. unfold TryErrorHandlers. rewrite Hs.
    apply (tryHandlers_allFail err w _ i i1 Hall).
  - intros i2 Hh. rewrite Definition_loop_cons. unfold catch. rewrite H.
    unfold handleExecutionError, catch. rewrite Hh. reflexivity.
  - intros e i2 Hh. rewrite Definition_loop_cons. unfold catch. rewrite H.
    unfold handleExecutionError, catch. rewrite Hh. reflexivity.
  - intros i2 Hh. cbn [Execute]. unfold catch. rewrite H.
    unfold handleExecutionError, catch. rewrite Hh. reflexivity.
  - intros e i2 Hh. cbn [Execute]. unfold catch. rewrite H.
    unfold handleExecutionError, catch. rewrite Hh. reflexivity.
Qed.

Lemma error_handler_protocol_witness :
  (* handler 1 fails, handler 2 handles, handler 3 is not called *)
  Execute (host := testHost) (ModuleWord failingBase 0) testState
  = (Ok tt, set_stack [VInt 1; VInt 2] testState) /\
  (* a handler that fails: the original error is returned *)
  Execute (host := testHost) (ModuleWord (AddErrorHandler 1 (NewBaseWord "FAILING-WORD")) 0)
    testState
  = (Err testError, set_stack [VInt 1] testState) /\
  (* an intentional stop calls no handler *)
  Execute (host := testHost) (ModuleWord failingBase 1) testState
  = (Err (NewIntentionalStopError "Intentional stop"), testState) /\
  (* a definition goes on with the rest of its body *)
  Execute (host := testHost)
    (DefinitionWord failingBase
       [ModuleWord (NewBaseWord "FAILING") 0; NewPushValueWord "7" (VInt 7)]) testState
  = (Ok tt, set_stack [VInt 1; VInt 2; VInt 7] testState).
Proof.
  split; [| split; [| split]].
  - pose proof (error_handler_protocol testHost failingBase testError
                  (ModuleWord failingBase 0) testState) as (_ & _ & H3 & _ & _ & _ & H7).
    apply (proj1 (H7 0%nat testState eq_refl)).
    apply (H3 eq_refl [1%nat] 2%nat [3%nat]
              (set_stack [VInt 1] testState) (set_stack [VInt 1; VInt 2] testState)).
    + reflexivity.
    + eapply allFail_cons; [reflexivity | apply allFail_nil].
    + reflexivity.
  - pose proof (error_handler_protocol testHost (AddErrorHandler 1 (NewBaseWord "FAILING-WORD"))
                  testError
                  (ModuleWord (AddErrorHandler 1 (NewBaseWord "FAILING-WORD")) 0) testState)
      as (_ & _ & _ & H4 & _ & _ & H7).
    apply (proj2 (H7 0%nat testState eq_refl) testError).
    apply (H4 eq_refl (set_stack [VInt 1] testState)).
    eapply allFail_cons; [reflexivity | apply allFail_nil].
  - pose proof (error_handler_protocol testHost failingBase
                  (NewIntentionalStopError "Intentional stop")
                  (ModuleWord failingBase 1) testState) as (_ & H2 & _ & _ & _ & _ & H7).
    apply (proj2 (H7 1%nat testState eq_refl) (NewIntentionalStopError "Intentional stop")).
    apply (H2 eq_refl).
  - pose proof (error_handler_protocol testHost failingBase testError
                  (DefinitionWord failingBase
                     [ModuleWord (NewBaseWord "FAILING") 0; NewPushValueWord "7" (VInt 7)])
                  testState) as (_ & _ & H3 & _ & H5 & H6 & _).
    rewrite H6.
    rewrite (proj1 (H5 (ModuleWord (NewBaseWord "FAILING") 0)
                       [NewPushValueWord "7" (VInt 7)] testState eq_refl)
               (set_stack [VInt 1; VInt 2] testState)).
    + reflexivity.
    + apply (H3 eq_refl [1%nat] 2%nat [3%nat]
                (set_stack [VInt 1] testState) (set_stack [VInt 1; VInt 2] testState)).
      * reflexivity.
      * eapply allFail_cons; [reflexivity | apply allFail_nil].
      * reflexivity.
Defined.

(** C7. When the loop of a run pulls the end-of-stream token while the
    interpreter is compiling, [Run] returns the missing-semicolon error
    located at the token handled just before: the last token of this
    run, or the one remembered from an earlier run when this run has
    handled none.  The error is a [*ForthicError] with the message of the
    missing semicolon, no code snippet and no cause, whose location is
    the location of that token.  The text [: W] yields the error at the
    location of W: line 1, column 3, bytes 2 to 3. *)
Theorem missing_terminator :
  forall host : Host,
    (forall code i toks i',
       (isCompiling i = true -> is_Some (previousToken i)) ->
       runsToEOS (pushTokenizer code i) toks i' ->
       isCompiling i' = true ->
       exists prev,
         previousAtEOS i toks = Some prev /\
         forall fuel, (length toks < fuel)%nat ->
           Run fuel code i
           = (Err (mkError KForthic "Missing semicolon (;) to end definition" EmptyString
                           (Location prev) None),
              popTokenizer i')) /\
    (forall i toks,
       previousAtEOS i toks
       = match toks with
         | [] => previousToken i
         | _ :: _ => last toks
         end) /\
    (forall external : External,
       fst (NextToken (NewTokenizer ": W" None false))
       = Ok (Some (NewToken TOKEN_START_DEF "W"
                            (Some (mkCodeLocation EmptyString EmptyString 1 3 2 3)))) /\
       fst (Run 5 ": W" (snd (NewInterpreter emptyHeap [])))
       = Err (mkError KForthic "Missing semicolon (;) to end definition" EmptyString
                      (Some (mkCodeLocation EmptyString EmptyString 1 3 2 3)) None)).
Proof.
  intros host. split; [| split].
  - intros code i toks i' HJ Hr Hc. apply (Run_EOS_compiling code i toks i' HJ Hr Hc).
  - intros i toks. unfold previousAtEOS. destruct toks as [| tok toks]; [reflexivity |].
    destruct (last (tok :: toks)) eqn:E; [reflexivity |].
    apply last_None in E. discriminate.
  - intros external. split; vm_compute; reflexivity.
Qed.

Lemma missing_terminator_witness :
  Run (host := mathHost) 2 ": W" (interpreterCore emptyHeap)
  = (Err (mkError KForthic "Missing semicolon (;) to end definition" EmptyString
                  (Some (mkCodeLocation EmptyString EmptyString 1 3 2 3)) None),
     popTokenizer runW3).
Proof.
  destruct (proj1 (missing_terminator mathHost) ": W" (interpreterCore emptyHeap)
              [tokenW] runW3) as (prev & Hp & Hrun).
  - discriminate.
  - apply (runsToEOS_step runW0 tokenW runW1
             (snd (handleToken (host := mathHost) tokenW runW1)) [] runW3).
    + vm_compute. reflexivity.
    + reflexivity.
    + vm_compute. reflexivity.
    + apply (runsToEOS_now runW2
               (NewToken TOKEN_EOS EmptyString
                         (Some (mkCodeLocation EmptyString EmptyString 1 3 2 2))) runW3).
      * vm_compute. reflexivity.
      * reflexivity.
  - reflexivity.
  - injection Hp as <-. apply Hrun. simpl. lia.
Defined.

Lemma closesAt_run t delim q :
  closesAt t delim q = true ->
  byteAt (inputString t) q = delim /\
  byteAt (inputString t) (q + 1) = delim /\
  byteAt (inputString t) (q + 2) = delim /\
  (q + 2 < len (inputString t))%Z /\
  ((q + 3 < len (inputString t))%Z -> byteAt (inputString t) (q + 3) <> delim).
Proof.
  unfold closesAt, isTripleQuote. intros H.
  apply andb_true_iff in H as [H Hnext]. apply andb_true_iff in H as [H0 H].
  destruct (negb (isQuote t delim)); [discriminate |].
  destruct (len (inputString t) <=? q + 2)%Z eqn:Hl; [discriminate |].
  apply andb_true_iff in H as [H1 H2].
  apply Ascii.eqb_eq in H0, H1, H2. apply Z.leb_gt in Hl.
  repeat split; try assumption.
  intros Hlt E. apply Z.ltb_lt in Hlt. rewrite Hlt, E in Hnext.
  unfold byteEq in Hnext. rewrite Ascii.eqb_refl in Hnext. discriminate.
Qed.

Lemma triple_quote_transition_closes delim t tok t' :
  transitionFromGATHER_TRIPLE_QUOTE_STRING delim t = (Ok (Some tok), t') ->
  let p := (inputPos t' - 3)%Z in
  (inputPos t <= p)%Z /\
  closesAt t delim p = true /\
  (forall q, (inputPos t <= q < p)%Z -> closesAt t delim q = false) /\
  Type_ tok = TOKEN_STRING /\
  String_ tok
  = tokenString t +:+ written (inputString t) (inputPos t) (Z.to_nat (p - inputPos t)).
Proof.
  unfold transitionFromGATHER_TRIPLE_QUOTE_STRING. intros H.
  set (t0 := set_stringDelta (Some (mkStringDelta (inputPos (noteStartToken t))
                                                  (inputPos (noteStartToken t))))
                             (noteStartToken t)) in *.
  change (GATHER_TRIPLE_QUOTE_STRING_loop delim (bytesLeft t0) t0 = (Ok (Some tok), t')) in H.
  apply triple_quote_loop_closes in H. exact H.
Qed.

Lemma triple_quote_loop_total delim : forall n t,
  (Z.to_nat (len (inputString t) - inputPos t) < n)%nat ->
  fst (GATHER_TRIPLE_QUOTE_STRING_loop delim n t) <> OutOfFuel.
Proof.
  induction n as [| n IH]; intros t Hn; [lia |].
  rewrite triple_loop_S. unfold atEnd.
  destruct (len (inputString t) <=? inputPos t)%Z eqn:Hend.
  - unfold unterminatedString, bind, get, tokenizerError, throw, ret.
    destruct (streaming t); simpl; discriminate.
  - apply Z.leb_gt in Hend.
    assert (Hstep : forall ch, (Z.to_nat (len (inputString (stepWrite ch t))
                                          - inputPos (stepWrite ch t)) < n)%nat).
    { intros ch. destruct (stepWrite_frame ch t) as (F1 & _ & F3 & _). rewrite F1, F3. lia. }
    destruct (byteEq (cur t) delim && isTripleQuote t (inputPos t) (cur t)).
    + destruct ((inputPos t + 3 <? len (inputString t))%Z
                && byteEq (byteAt (inputString t) (inputPos t + 3)) delim).
      * apply IH, Hstep.
      * simpl. discriminate.
    + apply IH, Hstep.
Qed.

(** C8, as stated, fails: the input of three quotes, the letter a and
    four quotes lexes to a string token of two characters, the letter a
    followed by one quote, not to the four characters of a followed by
    three quotes. *)
Lemma triple_quote_four_closers_counterexample :
  exists tok,
    fst (NextToken (NewTokenizer inputFourClosers None false)) = Ok (Some tok) /\
    Type_ tok = TOKEN_STRING /\
    String_ tok = "a" +:+ quotes 1 /\
    String.length (String_ tok) = 2%nat /\
    String_ tok <> "a" +:+ quotes 3.
Proof.
  eexists. split; [vm_compute; reflexivity |].
  split; [reflexivity |]. split; [reflexivity |]. split; [reflexivity |].
  vm_compute. discriminate.
Qed.

(** C8, amended.  The scan of a triple-quoted string always ends, and
    when it ends with a token it has stopped at the first run of three
    delimiters that no fourth delimiter follows; every byte before that
    run is content: a delimiter that starts a run of three followed by a
    fourth is taken as content and the scan goes on with the next byte.
    So three quotes, a and four quotes lex to one string token whose
    content is the two characters a and quote; with six closing quotes
    the content is a followed by three quotes. *)
Theorem triple_quote_greedy_closure :
  (forall delim t tok t',
     transitionFromGATHER_TRIPLE_QUOTE_STRING delim t = (Ok (Some tok), t') ->
     let p := (inputPos t' - 3)%Z in
     (inputPos t <= p)%Z /\
     closesAt t delim p = true /\
     (forall q, (inputPos t <= q < p)%Z -> closesAt t delim q = false) /\
     Type_ tok = TOKEN_STRING /\
     String_ tok
     = tokenString t +:+ written (inputString t) (inputPos t) (Z.to_nat (p - inputPos t))) /\
  (forall t delim q,
     closesAt t delim q = true ->
     byteAt (inputString t) q = delim /\
     byteAt (inputString t) (q + 1) = delim /\
     byteAt (inputString t) (q + 2) = delim /\
     (q + 2 < len (inputString t))%Z /\
     ((q + 3 < len (inputString t))%Z -> byteAt (inputString t) (q + 3) <> delim)) /\
  (forall delim t,
     fst (transitionFromGATHER_TRIPLE_QUOTE_STRING delim t) <> OutOfFuel) /\
  lexes (quotes 3 +:+ "a" +:+ quotes 4)
  = [Some (TOKEN_STRING, "a" +:+ quotes 1); Some (TOKEN_EOS, EmptyString)] /\
  lexes (quotes 3 +:+ "a" +:+ quotes 6)
  = [Some (TOKEN_STRING, "a" +:+ quotes 3); Some (TOKEN_EOS, EmptyString)] /\
  lexes (quotes 3 +:+ "a" +:+ quotes 3)
  = [Some (TOKEN_STRING, "a"); Some (TOKEN_EOS, EmptyString)].
Proof.
  split; [| split; [| split; [| split; [| split]]]].
  - apply triple_quote_transition_closes.
  - apply closesAt_run.
  - intros delim t. unfold transitionFromGATHER_TRIPLE_QUOTE_STRING.
    set (t0 := set_stringDelta (Some (mkStringDelta (inputPos (noteStartToken t))
                                                    (inputPos (noteStartToken t))))
                               (noteStartToken t)).
    change (fst (GATHER_TRIPLE_QUOTE_STRING_loop delim (bytesLeft t0) t0) <> OutOfFuel).
    apply triple_quote_loop_total. unfold bytesLeft. lia.
  - vm_compute. reflexivity.
  - vm_compute. reflexivity.
  - vm_compute. reflexivity.
Qed.

Lemma triple_quote_greedy_closure_witness :
  closesAt afterOpening dq 5 = true /\
  closesAt afterOpening dq 4 = false.
Proof.
  remember (snd (transitionFromGATHER_TRIPLE_QUOTE_STRING dq afterOpening)) as t' eqn:Et'.
  assert (Hpos : inputPos t' = 8%Z) by (rewrite Et'; vm_compute; reflexivity).
  assert (Hstart : inputPos afterOpening = 3%Z) by (vm_compute; reflexivity).
  destruct (proj1 triple_quote_greedy_closure dq afterOpening
              (NewToken TOKEN_STRING ("a" +:+ quotes 1)
                 (Some (mkCodeLocation EmptyString EmptyString 1 4 3 5))) t')
    as (_ & H2 & H3 & _ & _).
  - rewrite Et'. vm_compute. reflexivity.
  - rewrite Hpos in H2, H3. rewrite Hstart in H3. split; [exact H2 |]. apply H3. lia.
Defined.

(** C9, as stated, fails for the array tokens: handling START_ARRAY while
    compiling does not execute its word, which would push the sentinel;
    the stack stays as it is. *)
Lemma array_tokens_not_immediate_counterexample :
  ~ executedNow (host := mathHost) openToken (startArrayWord openToken) /\
  stack (snd (handleToken (host := mathHost) openToken compilingA)) = [] /\
  stack (snd (Execute (host := mathHost) (startArrayWord openToken) compilingA))
  = [VToken openToken].
Proof.
  split; [| split; reflexivity].
  intros H. specialize (H compilingA (NewBaseWord "A") [] eq_refl eq_refl).
  apply (f_equal (fun r => stack (snd r))) in H. vm_compute in H. discriminate.
Qed.

(** C9, amended.  While a definition is compiled, the tokens that start
    and end a module are immediate: their word is appended to the body
    and executed now.  The tokens that start and end an array are not:
    their word, the word that pushes the token and the end-array word,
    is appended to the body and nothing is executed.  The same holds for
    the word of a string, of a dot symbol and of a word token that
    resolves, and for every word that goes through [handleWord]. *)
Theorem immediate_tokens :
  forall host : Host,
    (forall token, Type_ token = TOKEN_START_MODULE ->
       executedNow token
         (StartModuleWord (mkBaseWord (String_ token) (String_ token) []))) /\
    (forall token, Type_ token = TOKEN_END_MODULE ->
       executedNow token (EndModuleWord (mkBaseWord "}" "}" []))) /\
    (forall token, Type_ token = TOKEN_START_ARRAY ->
       onlyAppended token
         (PushValueWord (mkBaseWord "<start_array_token>" "<start_array_token>" [])
                        (VToken token))) /\
    (forall token, Type_ token = TOKEN_END_ARRAY ->
       onlyAppended token (EndArrayWord (mkBaseWord "]" "]" []))) /\
    (forall token, Type_ token = TOKEN_STRING ->
       onlyAppended token
         (PushValueWord (mkBaseWord "<string>" "<string>" []) (VString (String_ token)))) /\
    (forall token, Type_ token = TOKEN_DOT_SYMBOL ->
       onlyAppended token
         (PushValueWord (mkBaseWord "<dot-symbol>" "<dot-symbol>" [])
                        (VString (String_ token)))) /\
    (forall token word i b body,
       Type_ token = TOKEN_WORD ->
       isCompiling i = true -> curDefinition i = Some (b, body) ->
       FindWord (String_ token) i = (Ok word, i) ->
       handleToken token i = (Ok tt, set_curDefinition (Some (b, body ++ [word])) i)) /\
    (forall word location i b body,
       isCompiling i = true -> curDefinition i = Some (b, body) ->
       handleWord word location i
       = (Ok tt, set_curDefinition (Some (b, body ++ [word])) i)).
Proof.
  intros host.
  assert (Hword : forall word location i b body,
            isCompiling i = true -> curDefinition i = Some (b, body) ->
            handleWord word location i
            = (Ok tt, set_curDefinition (Some (b, body ++ [word])) i)).
  { intros word location i b body Hc Hd. rewrite (handleWord_compiling word location i Hc).
    unfold appendToDefinition. rewrite Hd. reflexivity. }
  assert (Happend : forall word i b body,
            curDefinition i = Some (b, body) ->
            appendToDefinition word i
            = (Ok tt, set_curDefinition (Some (b, body ++ [word])) i)).
  { intros word i b body Hd. unfold appendToDefinition. rewrite Hd. reflexivity. }
  split; [| split; [| split; [| split; [| split; [| split; [| split]]]]]].
  - intros token Ht i b body Hc Hd.
    unfold handleToken. rewrite Ht. unfold handleStartModuleToken.
    rewrite (bind_Ok _ _ i i i) by reflexivity. rewrite Hc.
    rewrite (bind_Ok _ _ _ _ _ (Happend _ i b body Hd)). reflexivity.
  - intros token Ht i b body Hc Hd.
    unfold handleToken. rewrite Ht. unfold handleEndModuleToken.
    rewrite (bind_Ok _ _ i i i) by reflexivity. rewrite Hc.
    rewrite (bind_Ok _ _ _ _ _ (Happend _ i b body Hd)). reflexivity.
  - intros token Ht i b body Hc Hd.
    unfold handleToken. rewrite Ht. unfold handleStartArrayToken.
    apply (Hword _ _ i b body Hc Hd).
  - intros token Ht i b body Hc Hd.
    unfold handleToken. rewrite Ht. unfold handleEndArrayToken.
    apply (Hword _ _ i b body Hc Hd).
  - intros token Ht i b body Hc Hd.
    unfold handleToken. rewrite Ht. unfold handleStringToken.
    apply (Hword _ _ i b body Hc Hd).
  - intros token Ht i b body Hc Hd.
    unfold handleToken. rewrite Ht. unfold handleDotSymbolToken.
    apply (Hword _ _ i b body Hc Hd).
  - intros token word i b body Ht Hc Hd Hf.
    unfold handleToken. rewrite Ht. unfold handleWordToken.
    rewrite (bind_Ok _ _ _ _ _ Hf). apply (Hword _ _ i b body Hc Hd).
  - exact Hword.
Qed.

Lemma immediate_tokens_witness :
  handleToken (host := mathHost) startModuleToken compilingA
  = Execute (host := mathHost) (StartModuleWord (mkBaseWord "m" "m" []))
      (set_curDefinition
         (Some (NewBaseWord "A", [StartModuleWord (mkBaseWord "m" "m" [])])) compilingA) /\
  handleToken (host := mathHost) openToken compilingA
  = (Ok tt,
     set_curDefinition
       (Some (NewBaseWord "A",
              [PushValueWord (mkBaseWord "<start_array_token>" "<start_array_token>" [])
                             (VToken openToken)])) compilingA) /\
  handleWord (host := mathHost) (NewPushValueWord "1" (VInt 1)) None compilingA
  = (Ok tt,
     set_curDefinition (Some (NewBaseWord "A", [NewPushValueWord "1" (VInt 1)])) compilingA).
Proof.
  pose proof (immediate_tokens mathHost) as (H1 & _ & H3 & _ & _ & _ & _ & H8).
  split; [| split].
  - apply (H1 startModuleToken eq_refl compilingA (NewBaseWord "A") [] eq_refl eq_refl).
  - apply (H3 openToken eq_refl compilingA (NewBaseWord "A") [] eq_refl eq_refl).
  - apply (H8 (NewPushValueWord "1" (VInt 1)) None compilingA (NewBaseWord "A") []
              eq_refl eq_refl).
Defined.



(* ===================================================================== *)
(** ** Further properties *)
(* ===================================================================== *)

(** *** The tokenizer stays inside its input *)

Section HoareRules.
Context {S : Type}.

Lemma hoare_conseq {A} (P P' : S -> Prop) (m : M S A) (Q Q' : Outcome A -> S -> Prop) :
  (forall s, P' s -> P s) -> (forall o s, Q o s -> Q' o s) ->
  hoare P m Q -> hoare P' m Q'.
Proof. intros HP HQ H s Hs. apply HQ, H, HP, Hs. Qed.

Lemma hoare_pre {A} (P P' : S -> Prop) (m : M S A) Q :
  (forall s, P' s -> P s) -> hoare P m Q -> hoare P' m Q.
Proof. intros HP H s Hs. apply H, HP, Hs. Qed.

Lemma hoare_ret {A} (P : S -> Prop) (a : A) (Q : Outcome A -> S -> Prop) :
  (forall s, P s -> Q (Ok a) s) -> hoare P (ret a) Q.
Proof. intros H s Hs. apply H, Hs. Qed.

Lemma hoare_throw {A} (P : S -> Prop) e (Q : Outcome A -> S -> Prop) :
  (forall s, P s -> Q (Err e) s) -> hoare P (throw e) Q.
Proof. intros H s Hs. apply H, Hs. Qed.

Lemma hoare_panic {A} (P : S -> Prop) p (Q : Outcome A -> S -> Prop) :
  (forall s, P s -> Q (Panic p) s) -> hoare P (panic p) Q.
Proof. intros H s Hs. apply H, Hs. Qed.

Lemma hoare_modify (P : S -> Prop) (f : S -> S) (Q : Outcome unit -> S -> Prop) :
  (forall s, P s -> Q (Ok tt) (f s)) -> hoare P (modify f) Q.
Proof. intros H s Hs. apply H, Hs. Qed.

Lemma hoare_bind {A B} (P : S -> Prop) (m : M S A) (f : A -> M S B)
    (R : A -> S -> Prop) (Q : Outcome B -> S -> Prop) :
  hoare P m (bindPost R Q) -> (forall a, hoare (R a) (f a) Q) ->
  hoare P (bind m f) Q.
Proof.
  intros Hm Hf s Hs. specialize (Hm s Hs). unfold bind.
  destruct (m s) as [[a | e | p |] s']; simpl in *; try exact Hm.
  apply Hf, Hm.
Qed.

Lemma hoare_bind_ok {A B} (P : S -> Prop) (m : M S A) (f : A -> M S B)
    (R : A -> S -> Prop) (Q : Outcome B -> S -> Prop) :
  hoare P m (fun o s => exists a, o = Ok a /\ R a s) ->
  (forall a, hoare (R a) (f a) Q) ->
  hoare P (bind m f) Q.
Proof.
  intros Hm Hf. apply (hoare_bind P m f R Q); [| exact Hf].
  intros s Hs. destruct (Hm s Hs) as (a & E & HR). rewrite E. exact HR.
Qed.

Lemma hoare_get {A} (P : S -> Prop) (f : S -> M S A) (Q : Outcome A -> S -> Prop) :
  (forall s0, P s0 -> hoare (fun s => s = s0) (f s0) Q) ->
  hoare P (bind get f) Q.
Proof. intros H s Hs. unfold bind, get. apply (H s Hs). reflexivity. Qed.

Lemma hoare_catch {A} (P : S -> Prop) (m : M S A) (h : Error -> M S A)
    (R : Error -> S -> Prop) (Q : Outcome A -> S -> Prop) :
  hoare P m (fun o s => match o with Err e => R e s | _ => Q o s end) ->
  (forall e, hoare (R e) (h e) Q) ->
  hoare P (catch m h) Q.
Proof.
  intros Hm Hh s Hs. specialize (Hm s Hs). unfold catch.
  destruct (m s) as [[a | e | p |] s']; simpl in *; try exact Hm.
  apply Hh, Hm.
Qed.

End HoareRules.

Section TokenizerBounds.
Variable s : string.
Variables ws qs : list ascii.


Lemma scanning_atEnd p t : (scanning s ws qs) p t -> atEnd t = (len s <=? p).
Proof. intros (H1 & _ & _ & H4). unfold atEnd. rewrite H1, H4. reflexivity. Qed.

Lemma scanning_cur p t : (scanning s ws qs) p t -> cur t = byteAt s p.
Proof. intros (H1 & _ & _ & H4). unfold cur. rewrite H1, H4. reflexivity. Qed.

Lemma scanning_isWhitespace p t ch : (scanning s ws qs) p t -> isWhitespace t ch = inList ws ch.
Proof. intros (_ & H2 & _). unfold isWhitespace. rewrite H2. reflexivity. Qed.

Lemma scanning_isQuote p t ch : (scanning s ws qs) p t -> isQuote t ch = inList qs ch.
Proof. intros (_ & _ & H3 & _). unfold isQuote. rewrite H3. reflexivity. Qed.

Lemma scanning_bytesLeft p t : (scanning s ws qs) p t -> (Z.to_nat (len s - p) < bytesLeft t)%nat.
Proof. intros (H1 & _ & _ & H4). unfold bytesLeft. rewrite H1, H4. lia. Qed.

Lemma scanning_forward p t : (scanning s ws qs) p t -> (scanning s ws qs) (p + 1) (advanceForward t).
Proof.
  intros (H1 & H2 & H3 & H4). unfold scanning, advanceForward.
  destruct ((inputPos t <? len (inputString t)) && byteEq (byteAt (inputString t) (inputPos t)) "010");
    cbn; rewrite H1, H2, H3, H4; auto.
Qed.

Lemma scanning_set_tokenString p t x : (scanning s ws qs) p t -> (scanning s ws qs) p (set_tokenString x t).
Proof. intros H. exact H. Qed.

Lemma scanning_noteStartToken p t : (scanning s ws qs) p t -> (scanning s ws qs) p (noteStartToken t).
Proof. intros H. exact H. Qed.

Lemma scanning_set_stringDelta p t x : (scanning s ws qs) p t -> (scanning s ws qs) p (set_stringDelta x t).
Proof. intros H. exact H. Qed.

Lemma scanning_setDeltaEnd p t : (scanning s ws qs) p t -> (scanning s ws qs) p (setDeltaEnd t).
Proof. intros H. unfold setDeltaEnd. destruct (stringDelta_ t); exact H. Qed.

Lemma advance_1 p :
  hoare (scanning s ws qs p) (advancePosition 1) (fun o t => exists a, o = Ok a /\ (scanning s ws qs) (p + 1) t).
Proof. intros t H. exists tt. split; [reflexivity |]. apply scanning_forward, H. Qed.

Lemma advance_2 p :
  hoare (scanning s ws qs p) (advancePosition 2) (fun o t => exists a, o = Ok a /\ (scanning s ws qs) (p + 2) t).
Proof.
  intros t H. exists tt. split; [reflexivity |].
  replace (p + 2) with (p + 1 + 1) by lia.
  apply (scanning_forward (p + 1) (advanceForward t)), scanning_forward, H.
Qed.

Lemma advance_3 p :
  hoare (scanning s ws qs p) (advancePosition 3) (fun o t => exists a, o = Ok a /\ (scanning s ws qs) (p + 3) t).
Proof.
  intros t H. exists tt. split; [reflexivity |].
  replace (p + 3) with (p + 1 + 1 + 1) by lia.
  apply (scanning_forward (p + 1 + 1) (advanceForward (advanceForward t))),
        (scanning_forward (p + 1) (advanceForward t)), scanning_forward, H.
Qed.

Lemma advance_back p :
  1 <= p ->
  hoare (scanning s ws qs p) (advancePosition (-1)) (fun o t => exists a, o = Ok a /\ (scanning s ws qs) (p - 1) t).
Proof.
  intros Hp t (H1 & H2 & H3 & H4).
  change (advancePosition (-1) t) with ((advanceBackward ;> ret tt) t).
  unfold bind, advanceBackward.
  change (inputPos (set_inputPos (inputPos t - 1) t)) with (inputPos t - 1).
  rewrite H4. destruct (p - 1 <? 0) eqn:E; [apply Z.ltb_lt in E; lia |].
  destruct (byteEq _ _); exists tt; (split; [reflexivity |]); unfold scanning; cbn; auto.
Qed.

Lemma writeRune_scanning p ch :
  hoare (scanning s ws qs p) (writeRune ch) (fun o t => exists a, o = Ok a /\ (scanning s ws qs) p t).
Proof. intros t H. exists tt. split; [reflexivity | exact H]. Qed.


Lemma scanPost_ok {A} (good : A -> Prop) q p (o : Outcome A) t :
  (exists a, o = Ok a /\ (scanning s ws qs) p t) -> q <= p <= len s -> (forall a, good a) ->
  scanPost s ws qs good q o t.
Proof. intros (a & -> & H) Hp Hg. exists p. auto. Qed.

Lemma scanPost_mono {A} (good : A -> Prop) q q' (o : Outcome A) t :
  q <= q' -> scanPost s ws qs good q' o t -> scanPost s ws qs good q o t.
Proof. intros Hq (p & H1 & H2 & H3). exists p. split; [exact H1 |]. split; [lia | exact H3]. Qed.

Lemma hoare_here {A} p t0 (m : M Tokenizer A) Q :
  (scanning s ws qs) p t0 -> hoare (scanning s ws qs p) m Q -> hoare (fun t => t = t0) m Q.
Proof. intros H0 H t ->. apply H, H0. Qed.

Lemma modify_scanning p (f : Tokenizer -> Tokenizer) :
  (forall t, (scanning s ws qs) p t -> (scanning s ws qs) p (f t)) ->
  hoare (scanning s ws qs p) (modify f) (fun o t => exists a, o = Ok a /\ (scanning s ws qs) p t).
Proof. intros Hf t H. exists tt. split; [reflexivity | apply Hf, H]. Qed.

Lemma emit_scanning p ty str :
  hoare (scanning s ws qs p) (emit ty str)
        (fun o t => exists tok, o = Ok (Some tok) /\ Type_ tok = ty /\ (scanning s ws qs) p t).
Proof. intros t H. eexists. split; [reflexivity |]. split; [reflexivity | exact H]. Qed.

Lemma emit_scanPost p q ty str :
  ty <> TOKEN_EOS -> q <= p <= len s ->
  hoare (scanning s ws qs p) (emit ty str) (scanPost s ws qs notEOS q).
Proof.
  intros Hty Hp t H. exists p. split; [exact H |]. split; [exact Hp |]. exact Hty.
Qed.

Lemma tokenizerError_scanPost p q msg :
  q <= p <= len s ->
  hoare (scanning s ws qs p) (tokenizerError msg) (scanPost s ws qs notEOS q).
Proof. intros Hp t H. exists p. split; [exact H |]. split; [exact Hp | exact I]. Qed.

Lemma COMMENT_loop_post : forall n p,
  0 <= p <= len s -> (Z.to_nat (len s - p) < n)%nat ->
  hoare (scanning s ws qs p) (COMMENT_loop n) (scanPost s ws qs (fun _ => True) p).
Proof.
  induction n as [| n IH]; intros p Hp Hf; [lia |].
  cbn [COMMENT_loop]. apply hoare_get. intros t0 H0.
  rewrite (scanning_atEnd p t0 H0). destruct (len s <=? p) eqn:E.
  - apply hoare_ret. intros t ->. exists p. split; [exact H0 |]. split; [lia | exact I].
  - apply Z.leb_gt in E.
    eapply hoare_bind_ok; [apply (hoare_here p _ _ _ H0), writeRune_scanning |]. intros [].
    eapply hoare_bind_ok; [apply advance_1 |]. intros [].
    destruct (byteEq (cur t0) "010").
    + eapply hoare_conseq; [| | apply (advance_back (p + 1)); lia]; [auto |].
      intros o t H. apply (scanPost_ok _ p (p + 1 - 1)); [exact H | lia | auto].
    + eapply hoare_conseq; [| | apply (IH (p + 1)); lia]; [auto |].
      intros o t. apply scanPost_mono. lia.
Qed.

Lemma transitionFromCOMMENT_post p :
  0 <= p <= len s ->
  hoare (scanning s ws qs p) transitionFromCOMMENT (scanPost s ws qs notEOS p).
Proof.
  intros Hp. unfold transitionFromCOMMENT.
  eapply hoare_bind_ok; [apply modify_scanning; intros t H; exact H |]. intros [].
  apply (hoare_bind _ _ _ (fun _ t => exists p', (scanning s ws qs) p' t /\ p <= p' <= len s)).
  - apply hoare_get. intros t0 H0. apply (hoare_here p _ _ _ H0).
    eapply hoare_conseq; [| | apply (COMMENT_loop_post _ p Hp (scanning_bytesLeft p t0 H0))];
      [auto |].
    intros o t (p' & H1 & H2 & H3). destruct o; simpl; try contradiction.
    + exists p'. auto.
    + exists p'. auto.
  - intros _ t (p' & H1 & H2). apply (emit_scanPost p' p); [discriminate | exact H2 | exact H1].
Qed.

Lemma ret_scanPost {A} (good : A -> Prop) p q (a : A) :
  good a -> q <= p <= len s ->
  hoare (scanning s ws qs p) (ret a) (scanPost s ws qs good q).
Proof. intros Hg Hp t H. exists p. auto. Qed.

Lemma throw_scanPost {A} (good : A -> Prop) p q e :
  q <= p <= len s ->
  hoare (scanning s ws qs p) (@throw Tokenizer A e) (scanPost s ws qs good q).
Proof. intros Hp t H. exists p. split; [exact H |]. split; [exact Hp | exact I]. Qed.

Lemma back_scanPost (good : unit -> Prop) p q :
  1 <= p -> q <= p - 1 -> p <= len s -> good tt ->
  hoare (scanning s ws qs p) (advancePosition (-1)) (scanPost s ws qs good q).
Proof.
  intros H1 H2 H3 Hg. eapply hoare_conseq; [| | apply (advance_back p H1)]; [auto |].
  intros o t ([] & -> & H). exists (p - 1). split; [exact H |]. split; [lia | exact Hg].
Qed.

Lemma scanPost_bind {A B} (good : A -> Prop) q p m (f : A -> M Tokenizer B)
    (Q : Outcome B -> Tokenizer -> Prop) :
  hoare (scanning s ws qs p) m (scanPost s ws qs good q) ->
  (forall e t p', (scanning s ws qs) p' t -> q <= p' <= len s -> Q (Err e) t) ->
  (forall a p', good a -> q <= p' <= len s -> hoare (scanning s ws qs p') (f a) Q) ->
  hoare (scanning s ws qs p) (bind m f) Q.
Proof.
  intros Hm He Hf t H. specialize (Hm t H). unfold bind.
  destruct (m t) as [[a | e | pv |] t']; destruct Hm as (p' & H1 & H2 & H3); simpl in *;
    try contradiction.
  - apply (Hf a p' H3 H2 t' H1).
  - apply (He e t' p' H1 H2).
Qed.

Lemma gatherDefinitionName_loop_post : forall n p,
  0 <= p <= len s -> (Z.to_nat (len s - p) < n)%nat ->
  hoare (scanning s ws qs p) (gatherDefinitionName_loop n) (scanPost s ws qs (fun _ => True) p).
Proof.
  induction n as [| n IH]; intros p Hp Hf; [lia |].
  cbn [gatherDefinitionName_loop]. apply hoare_get. intros t0 H0.
  rewrite (scanning_atEnd p t0 H0). destruct (len s <=? p) eqn:E.
  - apply (hoare_here p _ _ _ H0), ret_scanPost; [exact I | lia].
  - apply Z.leb_gt in E.
    eapply hoare_bind_ok; [apply (hoare_here p _ _ _ H0), advance_1 |]. intros [].
    destruct (isWhitespace t0 (cur t0)); [apply ret_scanPost; [exact I | lia] |].
    destruct (isQuote t0 (cur t0)); [apply throw_scanPost; lia |].
    destruct (ContainsRune "[]{}" (cur t0)); [apply throw_scanPost; lia |].
    eapply hoare_bind_ok; [apply writeRune_scanning |]. intros [].
    eapply hoare_conseq; [| | apply (IH (p + 1)); lia]; [auto |].
    intros o t. apply scanPost_mono. lia.
Qed.

Lemma gatherDefinitionName_post p :
  0 <= p <= len s ->
  hoare (scanning s ws qs p) gatherDefinitionName (scanPost s ws qs (fun _ => True) p).
Proof.
  intros Hp. unfold gatherDefinitionName. apply hoare_get. intros t0 H0.
  apply (hoare_here p _ _ _ H0).
  apply (gatherDefinitionName_loop_post _ p Hp (scanning_bytesLeft p t0 H0)).
Qed.

Lemma transitionFromGATHER_DEFINITION_NAME_post p :
  0 <= p <= len s ->
  hoare (scanning s ws qs p) transitionFromGATHER_DEFINITION_NAME (scanPost s ws qs notEOS p).
Proof.
  intros Hp. unfold transitionFromGATHER_DEFINITION_NAME.
  eapply hoare_bind_ok; [apply modify_scanning; intros t H; exact H |]. intros [].
  apply (scanPost_bind (fun _ => True) p p); [apply gatherDefinitionName_post, Hp | |].
  - intros e t p' H1 H2. exists p'. split; [exact H1 |]. split; [exact H2 | exact I].
  - intros _ p' _ H2. apply emit_scanPost; [discriminate | exact H2].
Qed.

Lemma transitionFromGATHER_MEMO_NAME_post p :
  0 <= p <= len s ->
  hoare (scanning s ws qs p) transitionFromGATHER_MEMO_NAME (scanPost s ws qs notEOS p).
Proof.
  intros Hp. unfold transitionFromGATHER_MEMO_NAME.
  eapply hoare_bind_ok; [apply modify_scanning; intros t H; exact H |]. intros [].
  apply (scanPost_bind (fun _ => True) p p); [apply gatherDefinitionName_post, Hp | |].
  - intros e t p' H1 H2. exists p'. split; [exact H1 |]. split; [exact H2 | exact I].
  - intros _ p' _ H2. apply emit_scanPost; [discriminate | exact H2].
Qed.

Lemma START_DEFINITION_loop_post : forall n p,
  0 <= p <= len s -> (Z.to_nat (len s - p) < n)%nat ->
  hoare (scanning s ws qs p) (START_DEFINITION_loop n) (scanPost s ws qs notEOS p).
Proof.
  induction n as [| n IH]; intros p Hp Hf; [lia |].
  cbn [START_DEFINITION_loop]. apply hoare_get. intros t0 H0.
  rewrite (scanning_atEnd p t0 H0). destruct (len s <=? p) eqn:E.
  - apply (hoare_here p _ _ _ H0), tokenizerError_scanPost. lia.
  - apply Z.leb_gt in E.
    eapply hoare_bind_ok; [apply (hoare_here p _ _ _ H0), advance_1 |]. intros [].
    destruct (isWhitespace t0 (cur t0)).
    { eapply hoare_conseq; [| | apply (IH (p + 1)); lia]; [auto |].
      intros o t. apply scanPost_mono. lia. }
    destruct (isQuote t0 (cur t0)); [apply tokenizerError_scanPost; lia |].
    eapply hoare_bind_ok; [apply advance_back; lia |]. intros [].
    replace (p + 1 - 1) with p by lia.
    apply transitionFromGATHER_DEFINITION_NAME_post. lia.
Qed.

Lemma START_MEMO_loop_post : forall n p,
  0 <= p <= len s -> (Z.to_nat (len s - p) < n)%nat ->
  hoare (scanning s ws qs p) (START_MEMO_loop n) (scanPost s ws qs notEOS p).
Proof.
  induction n as [| n IH]; intros p Hp Hf; [lia |].
  cbn [START_MEMO_loop]. apply hoare_get. intros t0 H0.
  rewrite (scanning_atEnd p t0 H0). destruct (len s <=? p) eqn:E.
  - apply (hoare_here p _ _ _ H0), tokenizerError_scanPost. lia.
  - apply Z.leb_gt in E.
    eapply hoare_bind_ok; [apply (hoare_here p _ _ _ H0), advance_1 |]. intros [].
    destruct (isWhitespace t0 (cur t0)).
    { eapply hoare_conseq; [| | apply (IH (p + 1)); lia]; [auto |].
      intros o t. apply scanPost_mono. lia. }
    destruct (isQuote t0 (cur t0)); [apply tokenizerError_scanPost; lia |].
    eapply hoare_bind_ok; [apply advance_back; lia |]. intros [].
    replace (p + 1 - 1) with p by lia.
    apply transitionFromGATHER_MEMO_NAME_post. lia.
Qed.

Lemma transitionFromSTART_DEFINITION_post p :
  0 <= p <= len s ->
  hoare (scanning s ws qs p) transitionFromSTART_DEFINITION (scanPost s ws qs notEOS p).
Proof.
  intros Hp. unfold transitionFromSTART_DEFINITION. apply hoare_get. intros t0 H0.
  apply (hoare_here p _ _ _ H0).
  apply (START_DEFINITION_loop_post _ p Hp (scanning_bytesLeft p t0 H0)).
Qed.

Lemma transitionFromSTART_MEMO_post p :
  0 <= p <= len s ->
  hoare (scanning s ws qs p) transitionFromSTART_MEMO (scanPost s ws qs notEOS p).
Proof.
  intros Hp. unfold transitionFromSTART_MEMO. apply hoare_get. intros t0 H0.
  apply (hoare_here p _ _ _ H0).
  apply (START_MEMO_loop_post _ p Hp (scanning_bytesLeft p t0 H0)).
Qed.

Lemma GATHER_MODULE_loop_post : forall n p,
  0 <= p <= len s -> (Z.to_nat (len s - p) < n)%nat ->
  hoare (scanning s ws qs p) (GATHER_MODULE_loop n) (scanPost s ws qs (fun _ => True) p).
Proof.
  induction n as [| n IH]; intros p Hp Hf; [lia |].
  cbn [GATHER_MODULE_loop]. apply hoare_get. intros t0 H0.
  rewrite (scanning_atEnd p t0 H0). destruct (len s <=? p) eqn:E.
  - apply (hoare_here p _ _ _ H0), ret_scanPost; [exact I | lia].
  - apply Z.leb_gt in E.
    eapply hoare_bind_ok; [apply (hoare_here p _ _ _ H0), advance_1 |]. intros [].
    destruct (isWhitespace t0 (cur t0)); [apply ret_scanPost; [exact I | lia] |].
    destruct (byteEq (cur t0) "}"); [apply back_scanPost; [lia | lia | lia | exact I] |].
    eapply hoare_bind_ok; [apply writeRune_scanning |]. intros [].
    eapply hoare_conseq; [| | apply (IH (p + 1)); lia]; [auto |].
    intros o t. apply scanPost_mono. lia.
Qed.

Lemma transitionFromGATHER_MODULE_post p :
  0 <= p <= len s ->
  hoare (scanning s ws qs p) transitionFromGATHER_MODULE (scanPost s ws qs notEOS p).
Proof.
  intros Hp. unfold transitionFromGATHER_MODULE.
  eapply hoare_bind_ok; [apply modify_scanning; intros t H; exact H |]. intros [].
  apply (scanPost_bind (fun _ => True) p p).
  - apply hoare_get. intros t0 H0. apply (hoare_here p _ _ _ H0).
    apply (GATHER_MODULE_loop_post _ p Hp (scanning_bytesLeft p t0 H0)).
  - intros e t p' H1 H2. exists p'. split; [exact H1 |]. split; [exact H2 | exact I].
  - intros _ p' _ H2. apply emit_scanPost; [discriminate | exact H2].
Qed.

Lemma unterminatedString_post p q :
  q <= p <= len s ->
  hoare (scanning s ws qs p) unterminatedString (scanPost s ws qs notEOS q).
Proof.
  intros Hp. unfold unterminatedString. apply hoare_get. intros t0 H0.
  apply (hoare_here p _ _ _ H0).
  destruct (streaming t0); [apply ret_scanPost; [exact I | exact Hp] |].
  apply tokenizerError_scanPost, Hp.
Qed.

Lemma emit_string_post p q :
  q <= p <= len s ->
  hoare (scanning s ws qs p)
    (let* token := emit TOKEN_STRING tokenString in
     modify (set_stringDelta None) ;> ret token)
    (scanPost s ws qs notEOS q).
Proof.
  intros Hp t H. exists p. split; [exact H |]. split; [exact Hp |]. discriminate.
Qed.

Lemma GATHER_TRIPLE_QUOTE_STRING_loop_post delim : forall n p,
  0 <= p <= len s -> (Z.to_nat (len s - p) < n)%nat ->
  hoare (scanning s ws qs p) (GATHER_TRIPLE_QUOTE_STRING_loop delim n) (scanPost s ws qs notEOS p).
Proof.
  induction n as [| n IH]; intros p Hp Hf; [lia |].
  cbn [GATHER_TRIPLE_QUOTE_STRING_loop]. apply hoare_get. intros t0 H0.
  rewrite (scanning_atEnd p t0 H0). destruct (len s <=? p) eqn:E.
  - apply (hoare_here p _ _ _ H0), unterminatedString_post. lia.
  - apply Z.leb_gt in E.
    assert (Hrec : hoare (scanning s ws qs (p + 1)) (GATHER_TRIPLE_QUOTE_STRING_loop delim n)
                         (scanPost s ws qs notEOS p)).
    { eapply hoare_conseq; [| | apply (IH (p + 1)); lia]; [auto |].
      intros o t. apply scanPost_mono. lia. }
    destruct (byteEq (cur t0) delim && isTripleQuote t0 (inputPos t0) (cur t0)) eqn:Hq.
    + destruct ((inputPos t0 + 3 <? len (inputString t0))
                && byteEq (byteAt (inputString t0) (inputPos t0 + 3)) delim) eqn:Hg.
      * eapply hoare_bind_ok; [apply (hoare_here p _ _ _ H0), advance_1 |]. intros [].
        eapply hoare_bind_ok; [apply writeRune_scanning |]. intros [].
        eapply hoare_bind_ok; [apply modify_scanning, scanning_setDeltaEnd |]. intros [].
        exact Hrec.
      * apply andb_true_iff in Hq as [_ Hq]. unfold isTripleQuote in Hq.
        destruct H0 as (I1 & I2 & I3 & I4).
        rewrite I1, I4 in Hq.
        destruct (negb (isQuote t0 (cur t0))); [discriminate |].
        destruct (len s <=? p + 2) eqn:E2; [discriminate |]. apply Z.leb_gt in E2.
        eapply hoare_bind_ok;
          [apply (hoare_here p t0); [repeat split; assumption | apply advance_3] |].
        intros []. apply emit_string_post. lia.
    + eapply hoare_bind_ok; [apply (hoare_here p _ _ _ H0), advance_1 |]. intros [].
      eapply hoare_bind_ok; [apply writeRune_scanning |]. intros [].
      eapply hoare_bind_ok; [apply modify_scanning, scanning_setDeltaEnd |]. intros [].
      exact Hrec.
Qed.

Lemma start_string_delta p :
  hoare (scanning s ws qs p)
    (modify (fun t => set_stringDelta (Some (mkStringDelta (inputPos t) (inputPos t))) t))
    (fun o t => exists a, o = Ok a /\ (scanning s ws qs) p t).
Proof. apply modify_scanning. intros t H. exact H. Qed.

Lemma transitionFromGATHER_TRIPLE_QUOTE_STRING_post delim p :
  0 <= p <= len s ->
  hoare (scanning s ws qs p) (transitionFromGATHER_TRIPLE_QUOTE_STRING delim) (scanPost s ws qs notEOS p).
Proof.
  intros Hp. unfold transitionFromGATHER_TRIPLE_QUOTE_STRING.
  eapply hoare_bind_ok; [apply modify_scanning; intros t H; exact H |]. intros [].
  eapply hoare_bind_ok; [apply start_string_delta |]. intros [].
  apply hoare_get. intros t0 H0. apply (hoare_here p _ _ _ H0).
  apply (GATHER_TRIPLE_QUOTE_STRING_loop_post delim _ p Hp (scanning_bytesLeft p t0 H0)).
Qed.

Lemma GATHER_STRING_loop_post delim : forall n p,
  0 <= p <= len s -> (Z.to_nat (len s - p) < n)%nat ->
  hoare (scanning s ws qs p) (GATHER_STRING_loop delim n) (scanPost s ws qs notEOS p).
Proof.
  induction n as [| n IH]; intros p Hp Hf; [lia |].
  cbn [GATHER_STRING_loop]. apply hoare_get. intros t0 H0.
  rewrite (scanning_atEnd p t0 H0). destruct (len s <=? p) eqn:E.
  - apply (hoare_here p _ _ _ H0), unterminatedString_post. lia.
  - apply Z.leb_gt in E.
    eapply hoare_bind_ok; [apply (hoare_here p _ _ _ H0), advance_1 |]. intros [].
    destruct (byteEq (cur t0) delim); [apply emit_string_post; lia |].
    eapply hoare_bind_ok; [apply writeRune_scanning |]. intros [].
    eapply hoare_bind_ok; [apply modify_scanning, scanning_setDeltaEnd |]. intros [].
    eapply hoare_conseq; [| | apply (IH (p + 1)); lia]; [auto |].
    intros o t. apply scanPost_mono. lia.
Qed.

Lemma transitionFromGATHER_STRING_post delim p :
  0 <= p <= len s ->
  hoare (scanning s ws qs p) (transitionFromGATHER_STRING delim) (scanPost s ws qs notEOS p).
Proof.
  intros Hp. unfold transitionFromGATHER_STRING.
  eapply hoare_bind_ok; [apply modify_scanning; intros t H; exact H |]. intros [].
  eapply hoare_bind_ok; [apply start_string_delta |]. intros [].
  apply hoare_get. intros t0 H0. apply (hoare_here p _ _ _ H0).
  apply (GATHER_STRING_loop_post delim _ p Hp (scanning_bytesLeft p t0 H0)).
Qed.

Lemma GATHER_WORD_tz_loop_post : forall n p,
  0 <= p <= len s -> (Z.to_nat (len s - p) < n)%nat ->
  hoare (scanning s ws qs p) (GATHER_WORD_tz_loop n) (scanPost s ws qs (fun _ => True) p).
Proof.
  induction n as [| n IH]; intros p Hp Hf; [lia |].
  cbn [GATHER_WORD_tz_loop]. apply hoare_get. intros t0 H0.
  rewrite (scanning_atEnd p t0 H0). destruct (len s <=? p) eqn:E.
  - apply (hoare_here p _ _ _ H0), ret_scanPost; [exact I | lia].
  - apply Z.leb_gt in E.
    eapply hoare_bind_ok; [apply (hoare_here p _ _ _ H0), advance_1 |]. intros [].
    eapply hoare_bind_ok; [apply writeRune_scanning |]. intros [].
    destruct (byteEq (cur t0) "]"); [apply ret_scanPost; [exact I | lia] |].
    eapply hoare_conseq; [| | apply (IH (p + 1)); lia]; [auto |].
    intros o t. apply scanPost_mono. lia.
Qed.

Lemma GATHER_WORD_loop_post : forall n p,
  0 <= p <= len s -> (Z.to_nat (len s - p) < n)%nat ->
  hoare (scanning s ws qs p) (GATHER_WORD_loop n) (scanPost s ws qs (fun _ => True) p).
Proof.
  induction n as [| n IH]; intros p Hp Hf; [lia |].
  cbn [GATHER_WORD_loop]. apply hoare_get. intros t0 H0.
  rewrite (scanning_atEnd p t0 H0). destruct (len s <=? p) eqn:E.
  - apply (hoare_here p _ _ _ H0), ret_scanPost; [exact I | lia].
  - apply Z.leb_gt in E.
    eapply hoare_bind_ok; [apply (hoare_here p _ _ _ H0), advance_1 |]. intros [].
    destruct (isWhitespace t0 (cur t0)); [apply ret_scanPost; [exact I | lia] |].
    destruct (ContainsRune ";{}#" (cur t0));
      [apply back_scanPost; [lia | lia | lia | exact I] |].
    destruct (byteEq (cur t0) "[").
    { destruct (Contains (tokenString t0) "T");
        [| apply back_scanPost; [lia | lia | lia | exact I]].
      eapply hoare_bind_ok; [apply writeRune_scanning |]. intros [].
      apply hoare_get. intros t1 H1. apply (hoare_here (p + 1) _ _ _ H1).
      eapply hoare_conseq;
        [| | apply (GATHER_WORD_tz_loop_post _ (p + 1));
             [lia | apply (scanning_bytesLeft (p + 1) t1 H1)]]; [auto |].
      intros o t. apply scanPost_mono. lia. }
    destruct (byteEq (cur t0) "]");
      [apply back_scanPost; [lia | lia | lia | exact I] |].
    eapply hoare_bind_ok; [apply writeRune_scanning |]. intros [].
    eapply hoare_conseq; [| | apply (IH (p + 1)); lia]; [auto |].
    intros o t. apply scanPost_mono. lia.
Qed.

Lemma GATHER_WORD_loop_first n p :
  0 <= p < len s -> (Z.to_nat (len s - p) < n)%nat ->
  inList ws (byteAt s p) = false ->
  ContainsRune ";{}#" (byteAt s p) = false ->
  byteEq (byteAt s p) "[" = false ->
  byteEq (byteAt s p) "]" = false ->
  hoare (scanning s ws qs p) (GATHER_WORD_loop n) (scanPost s ws qs (fun _ => True) (p + 1)).
Proof.
  intros Hp Hf Hws Hd Hl Hr. destruct n as [| n]; [lia |].
  cbn [GATHER_WORD_loop]. apply hoare_get. intros t0 H0.
  rewrite (scanning_atEnd p t0 H0). destruct (len s <=? p) eqn:E; [apply Z.leb_le in E; lia |].
  rewrite (scanning_isWhitespace p t0 _ H0), (scanning_cur p t0 H0), Hws, Hd, Hl, Hr.
  eapply hoare_bind_ok; [apply (hoare_here p _ _ _ H0), advance_1 |]. intros [].
  eapply hoare_bind_ok; [apply writeRune_scanning |]. intros [].
  apply GATHER_WORD_loop_post; lia.
Qed.

Lemma transitionFromGATHER_WORD_post p :
  0 <= p < len s ->
  inList ws (byteAt s p) = false ->
  ContainsRune ";{}#" (byteAt s p) = false ->
  byteEq (byteAt s p) "[" = false ->
  byteEq (byteAt s p) "]" = false ->
  hoare (scanning s ws qs p) transitionFromGATHER_WORD (scanPost s ws qs notEOS (p + 1)).
Proof.
  intros Hp Hws Hd Hl Hr. unfold transitionFromGATHER_WORD.
  eapply hoare_bind_ok; [apply modify_scanning; intros t H; exact H |]. intros [].
  apply (scanPost_bind (fun _ => True) (p + 1) p).
  - apply hoare_get. intros t0 H0. apply (hoare_here p _ _ _ H0).
    apply (GATHER_WORD_loop_first _ p Hp (scanning_bytesLeft p t0 H0) Hws Hd Hl Hr).
  - intros e t p' H1 H2. exists p'. split; [exact H1 |]. split; [exact H2 | exact I].
  - intros _ p' _ H2. apply emit_scanPost; [discriminate | exact H2].
Qed.

Lemma GATHER_DOT_SYMBOL_loop_post : forall n p acc,
  0 <= p <= len s -> (Z.to_nat (len s - p) < n)%nat ->
  hoare (scanning s ws qs p) (GATHER_DOT_SYMBOL_loop n acc) (scanPost s ws qs (fun _ => True) p).
Proof.
  induction n as [| n IH]; intros p acc Hp Hf; [lia |].
  cbn [GATHER_DOT_SYMBOL_loop]. apply hoare_get. intros t0 H0.
  rewrite (scanning_atEnd p t0 H0). destruct (len s <=? p) eqn:E.
  - apply (hoare_here p _ _ _ H0), ret_scanPost; [exact I | lia].
  - apply Z.leb_gt in E.
    eapply hoare_bind_ok; [apply (hoare_here p _ _ _ H0), advance_1 |]. intros [].
    destruct (isWhitespace t0 (cur t0)); [apply ret_scanPost; [exact I | lia] |].
    destruct (ContainsRune ";[]{}#" (cur t0)).
    { eapply hoare_bind_ok; [apply advance_back; lia |]. intros [].
      apply ret_scanPost; [exact I | lia]. }
    eapply hoare_bind_ok; [apply writeRune_scanning |]. intros [].
    eapply hoare_conseq; [| | apply (IH (p + 1)); lia]; [auto |].
    intros o t. apply scanPost_mono. lia.
Qed.

Lemma GATHER_DOT_SYMBOL_loop_first n p acc :
  0 <= p < len s -> (Z.to_nat (len s - p) < n)%nat ->
  inList ws (byteAt s p) = false ->
  ContainsRune ";[]{}#" (byteAt s p) = false ->
  hoare (scanning s ws qs p) (GATHER_DOT_SYMBOL_loop n acc) (scanPost s ws qs (fun _ => True) (p + 1)).
Proof.
  intros Hp Hf Hws Hd. destruct n as [| n]; [lia |].
  cbn [GATHER_DOT_SYMBOL_loop]. apply hoare_get. intros t0 H0.
  rewrite (scanning_atEnd p t0 H0). destruct (len s <=? p) eqn:E; [apply Z.leb_le in E; lia |].
  rewrite (scanning_isWhitespace p t0 _ H0), (scanning_cur p t0 H0), Hws, Hd.
  eapply hoare_bind_ok; [apply (hoare_here p _ _ _ H0), advance_1 |]. intros [].
  eapply hoare_bind_ok; [apply writeRune_scanning |]. intros [].
  apply GATHER_DOT_SYMBOL_loop_post; lia.
Qed.

Lemma transitionFromGATHER_DOT_SYMBOL_post p :
  0 <= p < len s ->
  inList ws (byteAt s p) = false ->
  ContainsRune ";[]{}#" (byteAt s p) = false ->
  hoare (scanning s ws qs p) transitionFromGATHER_DOT_SYMBOL (scanPost s ws qs notEOS (p + 1)).
Proof.
  intros Hp Hws Hd. unfold transitionFromGATHER_DOT_SYMBOL.
  eapply hoare_bind_ok; [apply modify_scanning; intros t H; exact H |]. intros [].
  apply hoare_get. intros t0 H0. apply (hoare_here p _ _ _ H0).
  apply (scanPost_bind (fun _ => True) (p + 1) p).
  - apply (GATHER_DOT_SYMBOL_loop_first _ p _ Hp (scanning_bytesLeft p t0 H0) Hws Hd).
  - intros e t p' H1 H2. exists p'. split; [exact H1 |]. split; [exact H2 | exact I].
  - intros full p' _ H2.
    destruct (len full <? 2); apply emit_scanPost; try discriminate; exact H2.
Qed.

Lemma not_restIsWhitespace p :
  0 <= p < len s -> inList ws (byteAt s p) = false -> ~ restIsWhitespace s ws p.
Proof. intros Hp Hws H. rewrite (H p) in Hws; [discriminate | lia]. Qed.

Lemma scanPost_tokenPost p q o t :
  0 <= p < len s -> inList ws (byteAt s p) = false -> p < q ->
  scanPost s ws qs notEOS q o t -> tokenPost s ws qs p o t.
Proof.
  intros Hp Hws Hq (p' & H1 & H2 & H3).
  pose proof (not_restIsWhitespace p Hp Hws) as Hn.
  exists p'. split; [exact H1 |]. split; [lia |].
  destruct o as [[tok |] | e | pv |]; simpl in *; try assumption.
  destruct (Type_ tok); try (split; [lia | exact Hn]). contradiction.
Qed.

Lemma simple_token_post p ch ty :
  0 <= p < len s -> inList ws (byteAt s p) = false -> ty <> TOKEN_EOS ->
  hoare (scanning s ws qs (p + 1)) (writeRune ch ;> emit ty (fun _ => encodeRune ch))
        (tokenPost s ws qs p).
Proof.
  intros Hp Hws Hty.
  eapply hoare_bind_ok; [apply writeRune_scanning |]. intros [].
  eapply hoare_conseq; [| | apply (emit_scanPost (p + 1) (p + 1) ty); [exact Hty | lia]];
    [auto |].
  intros o t. apply scanPost_tokenPost; [exact Hp | exact Hws | lia].
Qed.

Lemma byteEq_sym a b : byteEq a b = byteEq b a.
Proof. unfold byteEq. apply Ascii.eqb_sym. Qed.

Lemma START_loop_post : forall n p,
  0 <= p <= len s -> (Z.to_nat (len s - p) < n)%nat ->
  hoare (scanning s ws qs p) (START_loop n) (tokenPost s ws qs p).
Proof.
  induction n as [| n IH]; intros p Hp Hf; [lia |].
  cbn [START_loop]. apply hoare_get. intros t0 H0.
  rewrite (scanning_atEnd p t0 H0). destruct (len s <=? p) eqn:E.
  - apply Z.leb_le in E. intros t ->. exists p. split; [exact H0 |]. split; [lia |].
    simpl. split; [lia |]. intros q Hq. lia.
  - apply Z.leb_gt in E. rewrite (scanning_cur p t0 H0). set (ch := byteAt s p).
    eapply hoare_bind_ok;
      [apply (hoare_here p _ _ _ H0), modify_scanning; intros t H; exact H |]. intros [].
    eapply hoare_bind_ok; [apply advance_1 |]. intros [].
    apply hoare_get. intros t1 H1. apply (hoare_here (p + 1) _ _ _ H1).
    rewrite (scanning_isWhitespace (p + 1) t1 _ H1).
    destruct (inList ws ch) eqn:Hws.
    { eapply hoare_conseq; [| | apply (IH (p + 1)); lia]; [auto |].
      intros o t (p' & I1 & I2 & I3). exists p'. split; [exact I1 |]. split; [lia |].
      assert (Hiff : restIsWhitespace s ws p <-> restIsWhitespace s ws (p + 1)).
      { split; intros H q Hq.
        - apply H. lia.
        - destruct (Z.eq_dec q p) as [-> | Hne]; [exact Hws | apply H; lia]. }
      destruct o as [[tok |] | e | pv |]; simpl in *; try (rewrite Hiff; assumption);
        try assumption.
      destruct (Type_ tok); rewrite Hiff;
        try (destruct I3 as [I3 I4]; split; [lia | exact I4]); exact I3. }
    assert (Hp' : 0 <= p < len s) by lia.
    assert (Hsub : forall m, hoare (scanning s ws qs (p + 1)) m (scanPost s ws qs notEOS (p + 1)) ->
                             hoare (scanning s ws qs (p + 1)) m (tokenPost s ws qs p)).
    { intros m Hm. eapply hoare_conseq; [| | exact Hm]; [auto |].
      intros o t. apply scanPost_tokenPost; [exact Hp' | exact Hws | lia]. }
    destruct (byteEq ch "#") eqn:E1; [apply Hsub, transitionFromCOMMENT_post; lia |].
    destruct (byteEq ch ":") eqn:E2; [apply Hsub, transitionFromSTART_DEFINITION_post; lia |].
    destruct (isStartMemo t1 (inputPos t1 - 1)) eqn:E3.
    { unfold isStartMemo in E3. destruct H1 as (J1 & J2 & J3 & J4). rewrite J1, J4 in E3.
      destruct (len s <=? p + 1 - 1 + 1) eqn:E3'; [discriminate |]. apply Z.leb_gt in E3'.
      eapply hoare_bind_ok;
        [apply (hoare_pre (scanning s ws qs (p + 1))); [intros t Ht; exact Ht | apply advance_1] |].
      intros [].
      eapply hoare_conseq; [| | apply (transitionFromSTART_MEMO_post (p + 1 + 1)); lia];
        [auto |].
      intros o t. apply scanPost_tokenPost; [exact Hp' | exact Hws | lia]. }
    destruct (byteEq ch ";") eqn:E4; [apply simple_token_post; [exact Hp' | exact Hws | discriminate] |].
    destruct (byteEq ch "[") eqn:E5; [apply simple_token_post; [exact Hp' | exact Hws | discriminate] |].
    destruct (byteEq ch "]") eqn:E6; [apply simple_token_post; [exact Hp' | exact Hws | discriminate] |].
    destruct (byteEq ch "{") eqn:E7; [apply Hsub, transitionFromGATHER_MODULE_post; lia |].
    destruct (byteEq ch "}") eqn:E8; [apply simple_token_post; [exact Hp' | exact Hws | discriminate] |].
    destruct (isTripleQuote t1 (inputPos t1 - 1) ch) eqn:E9.
    { unfold isTripleQuote in E9. destruct H1 as (J1 & J2 & J3 & J4). rewrite J1, J4 in E9.
      destruct (negb (isQuote t1 ch)); [discriminate |].
      destruct (len s <=? p + 1 - 1 + 2) eqn:E9'; [discriminate |]. apply Z.leb_gt in E9'.
      eapply hoare_bind_ok; [apply advance_2 |]. intros [].
      eapply hoare_conseq;
        [| | apply (transitionFromGATHER_TRIPLE_QUOTE_STRING_post ch (p + 1 + 2)); lia];
        [auto |].
      intros o t. apply scanPost_tokenPost; [exact Hp' | exact Hws | lia]. }
    destruct (isQuote t1 ch); [apply Hsub, transitionFromGATHER_STRING_post; lia |].
    destruct (byteEq ch ".") eqn:E10.
    { eapply hoare_bind_ok; [apply advance_back; lia |]. intros [].
      replace (p + 1 - 1) with p by lia.
      eapply hoare_conseq; [| | apply (transitionFromGATHER_DOT_SYMBOL_post p Hp' Hws)];
        [auto | |].
      - intros o t. apply scanPost_tokenPost; [exact Hp' | exact Hws | lia].
      - fold ch. apply Ascii.eqb_eq in E10. rewrite E10. reflexivity. }
    eapply hoare_bind_ok; [apply advance_back; lia |]. intros [].
    replace (p + 1 - 1) with p by lia.
    eapply hoare_conseq; [| | apply (transitionFromGATHER_WORD_post p Hp' Hws)];
      [auto | | | exact E5 | exact E6].
    + intros o t. apply scanPost_tokenPost; [exact Hp' | exact Hws | lia].
    + fold ch. cbn [ContainsRune]. rewrite (byteEq_sym _ ch), E4.
      rewrite (byteEq_sym _ ch), E7. rewrite (byteEq_sym _ ch), E8.
      rewrite (byteEq_sym _ ch), E1. reflexivity.
Qed.

Lemma NextToken_post p :
  0 <= p <= len s ->
  hoare (scanning s ws qs p) NextToken (tokenPost s ws qs p).
Proof.
  intros Hp. unfold NextToken.
  eapply hoare_bind_ok; [apply modify_scanning; intros t H; exact H |]. intros [].
  unfold transitionFromSTART. apply hoare_get. intros t0 H0.
  apply (hoare_here p _ _ _ H0).
  apply (START_loop_post _ p Hp (scanning_bytesLeft p t0 H0)).
Qed.
End TokenizerBounds.



(** X2. [NextToken] returns the end-of-stream token exactly when
    only whitespace is left (blanks, tabs, line ends, parentheses and
    commas, for a new tokenizer), and is then at the end of the input;
    every other token consumes at least one byte. *)
Theorem NextToken_consumes :
  forall t : Tokenizer,
    0 <= inputPos t <= len (inputString t) ->
    (restIsWhitespace (inputString t) (whitespace t) (inputPos t) ->
     exists tok, fst (NextToken t) = Ok (Some tok) /\ Type_ tok = TOKEN_EOS) /\
    (forall tok t',
       NextToken t = (Ok (Some tok), t') ->
       (Type_ tok = TOKEN_EOS ->
        restIsWhitespace (inputString t) (whitespace t) (inputPos t) /\
        inputPos t' = len (inputString t)) /\
       (Type_ tok <> TOKEN_EOS -> inputPos t < inputPos t')).
Proof.
  intros t Hb.
  destruct (NextToken_post (inputString t) (whitespace t) (quoteChars t) (inputPos t) Hb t)
    as (p' & (S1 & S2 & S3 & S4) & Hp' & Hcase); [repeat split |].
  split.
  - intros Hws. destruct (fst (NextToken t)) as [[tok |] | e | pv |]; try contradiction.
    exists tok. split; [reflexivity |].
    destruct (Type_ tok); try reflexivity; destruct Hcase as [_ Hn]; contradiction.
  - intros tok t' E. rewrite E in *. cbn [fst snd] in *. split.
    + intros Ht. rewrite Ht in Hcase. destruct Hcase as [H1 H2]. split; [exact H2 | lia].
    + intros Ht. destruct (Type_ tok); try contradiction; lia.
Qed.

Lemma NextToken_consumes_witness :
  (exists tok, fst (NextToken (NewTokenizer " (,) " None false)) = Ok (Some tok) /\
               Type_ tok = TOKEN_EOS) /\
  0 < inputPos (snd (NextToken (NewTokenizer "  W" None false))).
Proof.
  split.
  - apply (proj1 (NextToken_consumes (NewTokenizer " (,) " None false)
                    ltac:(vm_compute; split; discriminate))).
    intros q Hq. change (len (inputString (NewTokenizer " (,) " None false))) with 5 in Hq.
    change (inputPos (NewTokenizer " (,) " None false)) with 0 in Hq.
    assert (q = 0 \/ q = 1 \/ q = 2 \/ q = 3 \/ q = 4) as [-> | [-> | [-> | [-> | ->]]]] by lia;
      reflexivity.
  - apply (proj2 (proj2 (NextToken_consumes (NewTokenizer "  W" None false)
                           ltac:(vm_compute; split; discriminate))
                          (NewToken TOKEN_WORD "W" (Some (mkCodeLocation EmptyString EmptyString 1 3 2 3)))
                          (snd (NextToken (NewTokenizer "  W" None false)))
                          ltac:(vm_compute; reflexivity))).
    discriminate.
Defined.

(** *** The main loop ends *)

Section EndsInPlace.
Context {host : Host}.
Hypothesis HE : hostEnds host.

Lemma ends_ret {A} (a : A) : endsInPlace (ret a).
Proof. intros ts i H. split; [discriminate | exact H]. Qed.

Lemma ends_throw {A} e : endsInPlace (@throw Interpreter A e).
Proof. intros ts i H. split; [discriminate | exact H]. Qed.

Lemma ends_panic {A} p : endsInPlace (@panic Interpreter A p).
Proof. intros ts i H. split; [discriminate | exact H]. Qed.

Lemma ends_get : endsInPlace (@get Interpreter).
Proof. intros ts i H. split; [discriminate | exact H]. Qed.

Lemma ends_modify f :
  (forall i, tokenizerStack (f i) = tokenizerStack i) -> endsInPlace (modify f).
Proof. intros Hf ts i H. split; [discriminate | simpl; rewrite Hf; exact H]. Qed.

Lemma ends_bind {A B} (m : M Interpreter A) (f : A -> M Interpreter B) :
  endsInPlace m -> (forall a, endsInPlace (f a)) -> endsInPlace (bind m f).
Proof.
  intros Hm Hf ts i H. destruct (Hm ts i H) as [H1 H2]. unfold bind.
  destruct (m i) as [[a | e | p |] i']; simpl in *;
    try (split; [discriminate | exact H2]); [| contradiction].
  apply (Hf a ts i' H2).
Qed.

Lemma ends_catch {A} (m : M Interpreter A) (h : Error -> M Interpreter A) :
  endsInPlace m -> (forall e, endsInPlace (h e)) -> endsInPlace (catch m h).
Proof.
  intros Hm Hh ts i H. destruct (Hm ts i H) as [H1 H2]. unfold catch.
  destruct (m i) as [[a | e | p |] i']; simpl in *;
    try (split; [discriminate | exact H2]); [| contradiction].
  apply (Hh e ts i' H2).
Qed.

Lemma ends_liftHeap {A} (m : M Heap A) : heapEnds m -> endsInPlace (liftHeap m).
Proof.
  intros Hm ts i H. unfold liftHeap. specialize (Hm (heap i)).
  destruct (m (heap i)) as [o h]. simpl in *. split; [exact Hm | exact H].
Qed.

Lemma heapEnds_ret {A} (a : A) : heapEnds (ret a).
Proof. intros h. discriminate. Qed.

Lemma heapEnds_bind {A B} (m : M Heap A) (f : A -> M Heap B) :
  heapEnds m -> (forall a, heapEnds (f a)) -> heapEnds (bind m f).
Proof.
  intros Hm Hf h. specialize (Hm h). unfold bind.
  destruct (m h) as [[a | e | p |] h']; simpl in *; try discriminate; [| contradiction].
  apply Hf.
Qed.

Lemma heapEnds_derefModule r : heapEnds (derefModule r).
Proof. intros h. unfold derefModule. destruct (moduleHeap h !! r); discriminate. Qed.

Lemma heapEnds_derefMemo r : heapEnds (derefMemo r).
Proof. intros h. unfold derefMemo. destruct (memoHeap h !! r); discriminate. Qed.

Lemma heapEnds_storeModule r m : heapEnds (storeModule r m).
Proof. intros h. discriminate. Qed.

Lemma heapEnds_storeMemo r c : heapEnds (storeMemo r c).
Proof. intros h. discriminate. Qed.

Lemma heapEnds_allocModule m : heapEnds (allocModule m).
Proof. intros h. discriminate. Qed.

Lemma heapEnds_allocMemo c : heapEnds (allocMemo c).
Proof. intros h. discriminate. Qed.

Lemma heapEnds_updateModule r f : heapEnds (updateModule r f).
Proof.
  apply heapEnds_bind; [apply heapEnds_derefModule |]. intros m. apply heapEnds_storeModule.
Qed.

Lemma heapEnds_AddMemoWords r w : heapEnds (Module_AddMemoWords r w).
Proof.
  unfold Module_AddMemoWords, NewModuleMemoWord.
  apply heapEnds_bind.
  { apply heapEnds_bind; [apply heapEnds_allocMemo | intros c; apply heapEnds_ret]. }
  intros mw.
  repeat (apply heapEnds_bind; [apply heapEnds_updateModule | intros _]).
  apply heapEnds_ret.
Qed.

Lemma heapEnds_FindWord_loop n : forall l, heapEnds (FindWord_loop l n).
Proof.
  induction l as [| r l IH]; [apply heapEnds_ret |].
  cbn [FindWord_loop]. apply heapEnds_bind; [apply heapEnds_derefModule |]. intros m.
  destruct (Module_FindWord m n); [apply heapEnds_ret | exact IH].
Qed.

Lemma ends_StackPush v : endsInPlace (StackPush v).
Proof. apply ends_modify. reflexivity. Qed.

Lemma ends_StackPop : endsInPlace StackPop.
Proof.
  intros ts i H. unfold StackPop. destruct (Stack_Pop (stack i)) as [[v items] | e];
    (split; [discriminate | exact H]).
Qed.

Lemma ends_CurModule : endsInPlace CurModule.
Proof.
  intros ts i H. unfold CurModule. destruct (last (moduleStack i));
    (split; [discriminate | exact H]).
Qed.

Lemma ends_ModuleStackPop : endsInPlace ModuleStackPop.
Proof.
  intros ts i H. unfold ModuleStackPop. destruct (length (moduleStack i) <=? 1)%nat;
    [split; [discriminate | exact H] |].
  destruct (last (moduleStack i)); (split; [discriminate | exact H]).
Qed.

Lemma ends_RegisterModule r : endsInPlace (RegisterModule r).
Proof.
  unfold RegisterModule.
  apply ends_bind; [apply ends_liftHeap, heapEnds_derefModule |]. intros m.
  apply ends_bind; [apply ends_modify; reflexivity |]. intros _.
  apply ends_liftHeap, heapEnds_updateModule.
Qed.

Lemma ends_tryHandlers err word : forall hs, endsInPlace (tryHandlers hs err word).
Proof.
  induction hs as [| h hs IH]; intros ts i H; [split; [discriminate | exact H] |].
  cbn [tryHandlers]. destruct HE as [_ H2]. destruct (H2 h err word ts i H) as [E1 E2].
  destruct (errorHandler h err word i) as [[a | e | p |] i']; simpl in *;
    try (split; [discriminate | exact E2]); [| contradiction].
  apply (IH ts i' E2).
Qed.

Lemma ends_handleExecutionError b w err : endsInPlace (handleExecutionError b w err).
Proof.
  unfold handleExecutionError, TryErrorHandlers.
  apply ends_catch; [| intros e; apply ends_throw].
  destruct (isIntentionalStop err); [apply ends_throw | apply ends_tryHandlers].
Qed.

Lemma ends_EndArray_loop : forall n items ts i,
  tokenizerStack i = ts -> (length (stack i) < n)%nat ->
  fst (EndArray_loop n items i) <> OutOfFuel /\
  tokenizerStack (snd (EndArray_loop n items i)) = ts.
Proof.
  induction n as [| n IH]; intros items ts i H Hn; [lia |].
  cbn [EndArray_loop]. unfold bind, StackPop, Stack_Pop.
  destruct (last (stack i)) as [v |] eqn:E; [| split; [discriminate | exact H]].
  destruct (isStartArrayToken v); [split; [discriminate | exact H] |].
  apply IH; [exact H |].
  change (stack (set_stack (removelast (stack i)) i)) with (removelast (stack i)).
  destruct (stack i) as [| x l] using rev_ind; [discriminate |].
  rewrite removelast_last. rewrite length_app in Hn. simpl in Hn. lia.
Qed.

Lemma ends_EndArrayWord_Execute : endsInPlace EndArrayWord_Execute.
Proof.
  intros ts i H. unfold EndArrayWord_Execute, bind, get.
  destruct (ends_EndArray_loop (S (length (stack i))) [] ts i H) as [E1 E2]; [lia |].
  destruct (EndArray_loop (S (length (stack i))) [] i) as [[a | e | p |] i']; simpl in *;
    try (split; [discriminate | exact E2]). contradiction.
Qed.

Lemma ends_StartModuleWord_Execute b : endsInPlace (StartModuleWord_Execute b).
Proof.
  unfold StartModuleWord_Execute.
  destruct (String.eqb (name b) EmptyString).
  - apply ends_bind; [apply ends_get |]. intros i. apply ends_modify. reflexivity.
  - apply ends_bind; [apply ends_CurModule |]. intros cur.
    apply ends_bind; [apply ends_liftHeap, heapEnds_derefModule |]. intros m.
    apply ends_bind; [| intros r; apply ends_modify; reflexivity].
    destruct (Module_FindModule m (name b)); [apply ends_ret |].
    apply ends_bind; [apply ends_liftHeap, heapEnds_allocModule |]. intros r.
    apply ends_bind; [apply ends_CurModule |]. intros cur'.
    apply ends_bind; [apply ends_liftHeap, heapEnds_updateModule |]. intros _.
    apply ends_bind; [apply ends_CurModule |]. intros cur''.
    apply ends_bind; [apply ends_liftHeap, heapEnds_derefModule |]. intros m'.
    apply ends_bind; [| intros _; apply ends_ret].
    destruct (String.eqb (mname m') EmptyString); [apply ends_RegisterModule | apply ends_ret].
Qed.

Lemma ends_memoValue m : endsInPlace (memoValue m).
Proof. apply ends_liftHeap, heapEnds_derefMemo. Qed.

Lemma ends_Execute : forall w, endsInPlace (Execute w).
Proof.
  apply (Word_induction (fun w => endsInPlace (Execute w))
                        (fun m => endsInPlace (Refresh m))).
  - intros b v. apply ends_StackPush.
  - intros b h. cbn [Execute]. apply ends_catch; [apply HE |].
    intros e. apply ends_handleExecutionError.
  - intros b ws Hall.
    change (Execute (DefinitionWord b ws)) with (Definition_loop b (DefinitionWord b ws) ws).
    generalize (DefinitionWord b ws) as w.
    induction Hall as [| x rest Hx _ IH]; intros w; [apply ends_ret |].
    change (Definition_loop b w (x :: rest))
      with (bind (catch (Execute x) (handleExecutionError b w))
                 (fun _ => Definition_loop b w rest)).
    apply ends_bind; [| intros _; apply IH].
    apply ends_catch; [exact Hx |]. intros e. apply ends_handleExecutionError.
  - intros b t Ht. exact Ht.
  - intros b. apply ends_StartModuleWord_Execute.
  - intros b. cbn [Execute]. unfold EndModuleWord_Execute.
    apply ends_bind; [apply ends_ModuleStackPop | intros _; apply ends_ret].
  - intros b. apply ends_EndArrayWord_Execute.
  - intros m Hm. cbn [Execute].
    apply ends_bind; [apply ends_memoValue |]. intros c.
    apply ends_bind; [destruct (negb (hasValue c)); [exact Hm | apply ends_ret] |]. intros _.
    apply ends_bind; [apply ends_memoValue |]. intros c'. apply ends_StackPush.
  - intros b m Hm. exact Hm.
  - intros b m Hm. cbn [Execute].
    apply ends_bind; [exact Hm |]. intros _.
    apply ends_bind; [apply ends_memoValue |]. intros c'. apply ends_StackPush.
  - intros b w c Hw. cbn [Refresh].
    apply ends_bind; [exact Hw |]. intros _.
    apply ends_bind; [apply ends_StackPop |]. intros v.
    apply ends_liftHeap, heapEnds_storeMemo.
Qed.

Lemma ends_appendToDefinition w : endsInPlace (appendToDefinition w).
Proof.
  intros ts i H. unfold appendToDefinition. destruct (curDefinition i) as [[b ws] |];
    (split; [discriminate | exact H]).
Qed.

Lemma ends_handleWord w loc : endsInPlace (handleWord w loc).
Proof.
  unfold handleWord. apply ends_bind; [apply ends_get |]. intros i.
  destruct (isCompiling i); [apply ends_appendToDefinition | apply ends_Execute].
Qed.

Lemma ends_FindWord n : endsInPlace (FindWord n).
Proof.
  unfold FindWord. apply ends_bind; [apply ends_get |]. intros i.
  apply ends_bind; [apply ends_liftHeap, heapEnds_FindWord_loop |]. intros [w |];
    [apply ends_ret |].
  destruct (findLiteralWord i n); [apply ends_ret | apply ends_throw].
Qed.

Lemma ends_missingSemicolonAtPrevious : endsInPlace missingSemicolonAtPrevious.
Proof.
  intros ts i H. unfold missingSemicolonAtPrevious. destruct (previousToken i);
    (split; [discriminate | exact H]).
Qed.

Lemma ends_handleToken tok : endsInPlace (handleToken tok).
Proof.
  unfold handleToken. destruct (Type_ tok).
  - apply ends_handleWord.
  - apply ends_ret.
  - apply ends_handleWord.
  - apply ends_handleWord.
  - unfold handleStartModuleToken. apply ends_bind; [apply ends_get |]. intros i.
    apply ends_bind; [| intros _; apply ends_Execute].
    destruct (isCompiling i); [apply ends_appendToDefinition | apply ends_ret].
  - unfold handleEndModuleToken. apply ends_bind; [apply ends_get |]. intros i.
    apply ends_bind; [| intros _; apply ends_Execute].
    destruct (isCompiling i); [apply ends_appendToDefinition | apply ends_ret].
  - unfold handleStartDefinitionToken. apply ends_bind; [apply ends_get |]. intros i.
    destruct (isCompiling i); [apply ends_missingSemicolonAtPrevious |].
    repeat (apply ends_bind; [apply ends_modify; reflexivity | intros _]).
    apply ends_modify; reflexivity.
  - unfold handleEndDefinitionToken. apply ends_bind; [apply ends_get |]. intros i.
    destruct (isCompiling i); [| apply ends_throw].
    destruct (curDefinition i) as [[b ws] |]; [| apply ends_throw].
    apply ends_bind; [apply ends_CurModule |]. intros cur.
    apply ends_bind; [| intros _; apply ends_modify; reflexivity].
    destruct (isMemoDefinition i).
    + apply ends_bind; [apply ends_liftHeap, heapEnds_AddMemoWords | intros _; apply ends_ret].
    + apply ends_liftHeap, heapEnds_updateModule.
  - unfold handleStartMemoToken. apply ends_bind; [apply ends_get |]. intros i.
    destruct (isCompiling i); [apply ends_missingSemicolonAtPrevious |].
    repeat (apply ends_bind; [apply ends_modify; reflexivity | intros _]).
    apply ends_modify; reflexivity.
  - unfold handleWordToken. apply ends_bind; [apply ends_FindWord |]. intros w.
    apply ends_handleWord.
  - apply ends_handleWord.
  - intros ts i H. unfold handleEOS. destruct (isCompiling i);
      [destruct (previousToken i) |]; (split; [discriminate | exact H]).
Qed.

End EndsInPlace.

Section RunEnds.
Context {host : Host}.
Hypothesis HE : hostEnds host.

Lemma nextToken_top i ts t :
  tokenizerStack i = ts ++ [t] ->
  nextToken i = (fst (NextToken t), set_tokenizerStack (ts ++ [snd (NextToken t)]) i).
Proof.
  intros H. unfold nextToken. rewrite H, last_snoc, removelast_last.
  destruct (NextToken t); reflexivity.
Qed.

Lemma runWithTokenizer_ends : forall fuel i ts t,
  tokenizerStack i = ts ++ [t] ->
  0 <= inputPos t <= len (inputString t) ->
  (Z.to_nat (len (inputString t) - inputPos t) < fuel)%nat ->
  fst (runWithTokenizer fuel i) <> OutOfFuel.
Proof.
  induction fuel as [| fuel IH]; intros i ts t Hts Hb Hf; [lia |].
  cbn [runWithTokenizer]. unfold bind at 1. rewrite (nextToken_top i ts t Hts).
  destruct (NextToken_post (inputString t) (whitespace t) (quoteChars t) (inputPos t) Hb t)
    as (p' & (S1 & S2 & S3 & S4) & Hp' & Hcase); [repeat split |].
  destruct (NextToken t) as [o t']. cbn [fst snd] in *.
  destruct o as [[tok |] | e | pv |]; try discriminate; try contradiction.
  unfold bind at 1.
  destruct (ends_handleToken HE tok (ts ++ [t']) (set_tokenizerStack (ts ++ [t']) i) eq_refl)
    as [E1 E2].
  destruct (handleToken tok (set_tokenizerStack (ts ++ [t']) i)) as [[[] | e | pv |] i2];
    cbn [fst snd] in *; try discriminate; [| contradiction].
  unfold isEOS. destruct (Type_ tok) eqn:Ety; try discriminate;
    (apply (IH _ ts t'); [exact E2 | rewrite S1, S4; lia | rewrite S1, S4; lia]).
Qed.

End RunEnds.

Lemma HasPrefix_length s : forall p,
  HasPrefix s p = true ->
  (String.length (dropBytes (String.length p) s) + String.length p = String.length s)%nat.
Proof.
  induction s as [| c s IH]; intros [| a p] H; simpl in *; try lia; try discriminate.
  apply andb_true_iff in H as [_ H]. specialize (IH p H). lia.
Qed.

Lemma append_length (a b : string) :
  String.length (a +:+ b) = (String.length a + String.length b)%nat.
Proof. induction a as [| c a IH]; [reflexivity |]. rewrite append_cons. simpl. rewrite IH. reflexivity. Qed.

Lemma ReplaceAll_go_length old new :
  (String.length new <= String.length old)%nat ->
  forall n s, (String.length (ReplaceAll_go n s old new) <= String.length s)%nat.
Proof.
  intros Hlen. induction n as [| n IH]; intros s; [simpl; lia |].
  destruct s as [| c s]; [simpl; lia |].
  cbn [ReplaceAll_go]. destruct (HasPrefix (String c s) old) eqn:E.
  - rewrite append_length. pose proof (HasPrefix_length _ _ E).
    specialize (IH (dropBytes (String.length old) (String c s))). lia.
  - simpl. specialize (IH s). lia.
Qed.

Lemma unescapeString_length s : (String.length (unescapeString s) <= String.length s)%nat.
Proof.
  unfold unescapeString, ReplaceAll.
  pose proof (ReplaceAll_go_length "&lt;" "<" ltac:(simpl; lia) (String.length s) s).
  pose proof (ReplaceAll_go_length "&gt;" ">" ltac:(simpl; lia)
                (String.length (ReplaceAll_go (String.length s) s "&lt;" "<"))
                (ReplaceAll_go (String.length s) s "&lt;" "<")).
  lia.
Qed.

(** X3. The loop of [Run] ends: with handlers that end and leave the
    tokenizer stack alone, a run of [code] needs no more iterations of the
    loop than [code] has bytes, plus one for the end of the stream. *)
Theorem Run_ends :
  forall (host : Host) (code : string) (i : Interpreter) (fuel : nat),
    hostEnds host ->
    (String.length code < fuel)%nat ->
    fst (Run fuel code i) <> OutOfFuel.
Proof.
  intros host code i fuel HE Hf. unfold Run.
  pose proof (runWithTokenizer_ends HE fuel
                (set_tokenizerStack (tokenizerStack i ++ [NewTokenizer code None false]) i)
                (tokenizerStack i) (NewTokenizer code None false) eq_refl) as H.
  destruct (runWithTokenizer fuel _) as [[[] | e | pv |] i'] eqn:E; try discriminate.
  apply H.
  - cbn [inputPos inputString NewTokenizer]. unfold len. lia.
  - cbn [inputPos inputString NewTokenizer]. unfold len.
    pose proof (unescapeString_length code). lia.
Qed.

Lemma mathHost_ends : hostEnds mathHost.
Proof.
  split.
  - intros [| handler]; cbn [native mathHost]; [| apply ends_throw].
    unfold MathModule_plus. apply ends_bind; [apply ends_StackPop |]. intros b.
    assert (Hcase : endsInPlace
              (let* a := StackPop in
               match toNumber a, toNumber b with
               | Some numA, Some numB => StackPush (VFloat (PrimFloat.add numA numB))
               | _, _ => StackPush (VFloat PrimFloat.zero)
               end)).
    { apply ends_bind; [apply ends_StackPop |]. intros a.
      destruct (toNumber a); [destruct (toNumber b) |]; apply ends_StackPush. }
    destruct b; try exact Hcase. apply ends_StackPush.
  - intros handler err word. cbn [errorHandler mathHost]. apply ends_throw.
Qed.

Lemma Run_ends_witness :
  fst (Run (host := mathHost) 8 "[ 'a' ]" (interpreterCore emptyHeap)) <> OutOfFuel.
Proof.
  apply (Run_ends mathHost "[ 'a' ]" (interpreterCore emptyHeap) 8 mathHost_ends).
  simpl. lia.
Defined.

(** *** Strings, comments and definition names *)

Section Scanning.

Lemma sameScan_refl t : sameScan t t.
Proof. repeat split. Qed.

Lemma sameScan_trans t1 t2 t3 : sameScan t1 t2 -> sameScan t2 t3 -> sameScan t1 t3.
Proof.
  intros (A1 & A2 & A3 & A4 & A5 & A6 & A7 & A8) (B1 & B2 & B3 & B4 & B5 & B6 & B7 & B8).
  unfold sameScan. rewrite B1, B2, B3, B4, B5, B6, B7, B8. auto 10.
Qed.

Lemma sameScan_advanceForward t : sameScan t (advanceForward t).
Proof.
  unfold sameScan, advanceForward.
  destruct ((inputPos t <? len (inputString t)) && byteEq (byteAt (inputString t) (inputPos t)) "010");
    cbn; auto 10.
Qed.

Lemma sameScan_stepWrite ch t : sameScan t (stepWrite ch t).
Proof.
  unfold stepWrite. eapply sameScan_trans; [apply (sameScan_advanceForward t) |].
  unfold sameScan, setDeltaEnd. destruct (stringDelta_ _); cbn; auto 10.
Qed.

Lemma sameScan_writeStep ch t : sameScan t (writeStep ch t).
Proof.
  unfold writeStep.
  eapply sameScan_trans; [| apply sameScan_advanceForward]. repeat split.
Qed.

Lemma writeStep_frame ch t :
  inputPos (writeStep ch t) = inputPos t + 1 /\
  tokenString (writeStep ch t) = tokenString t +:+ encodeRune ch.
Proof.
  unfold writeStep.
  destruct (advanceForward_frame (set_tokenString (WriteRune (tokenString t) ch) t))
    as (_ & _ & H3 & H4).
  rewrite H3, H4. split; reflexivity.
Qed.

Lemma written_cons s from n :
  written s from (S n) = encodeRune (byteAt s from) +:+ written s (from + 1) n.
Proof. reflexivity. Qed.

End Scanning.

Section SimpleString.

Lemma string_loop_S delim n t :
  GATHER_STRING_loop delim (S n) t =
  if atEnd t then unterminatedString t else
  if byteEq (cur t) delim then
    (Ok (Some (NewToken TOKEN_STRING (tokenString (advanceForward t))
                        (Some (getTokenLocation (advanceForward t))))),
     set_stringDelta None (advanceForward t))
  else GATHER_STRING_loop delim n (stepWrite (cur t) t).
Proof.
  cbn [GATHER_STRING_loop]. unfold bind at 1. unfold get at 1.
  destruct (atEnd t); [reflexivity |].
  destruct (byteEq (cur t) delim); reflexivity.
Qed.

Lemma string_loop_closes delim : forall n t q,
  firstAt (inputString t) (fun c => byteEq c delim) (inputPos t) q ->
  (Z.to_nat (q - inputPos t) < n)%nat ->
  exists t',
    GATHER_STRING_loop delim n t =
    (Ok (Some (NewToken TOKEN_STRING
                 (tokenString t +:+
                  written (inputString t) (inputPos t) (Z.to_nat (q - inputPos t)))
                 (Some (mkCodeLocation (Source (referenceLocation t)) EmptyString
                          (tokenLine t) (tokenColumn t) (tokenStartPos t)
                          (tokenStartPos t +
                           len (tokenString t +:+
                                written (inputString t) (inputPos t)
                                        (Z.to_nat (q - inputPos t)))))))),
     t') /\
    inputPos t' = q + 1 /\ sameScan t t'.
Proof.
  induction n as [| n IH]; intros t q (Hq & Hd & Hfirst) Hn; [lia |].
  rewrite string_loop_S. unfold atEnd.
  destruct (len (inputString t) <=? inputPos t) eqn:E; [apply Z.leb_le in E; lia |].
  destruct (Z.eq_dec q (inputPos t)) as [-> | Hne].
  - unfold cur. rewrite Hd. eexists. split; [| split].
    + rewrite Z.sub_diag. change (written _ _ (Z.to_nat 0)) with EmptyString.
      rewrite append_empty_r.
      destruct (advanceForward_frame t) as (A1 & A2 & A3 & A4).
      destruct (sameScan_advanceForward t) as (B1 & B2 & B3 & B4 & B5 & B6 & B7 & B8).
      unfold getTokenLocation. rewrite A4, B5, B6, B7, B8. reflexivity.
    + destruct (advanceForward_frame t) as (A1 & A2 & A3 & A4). exact A3.
    + apply (sameScan_advanceForward t).
  - assert (Hcur : byteEq (cur t) delim = false) by (apply Hfirst; lia).
    rewrite Hcur.
    destruct (stepWrite_frame (cur t) t) as (F1 & F2 & F3 & F4).
    destruct (sameScan_stepWrite (cur t) t) as (B1 & B2 & B3 & B4 & B5 & B6 & B7 & B8).
    destruct (IH (stepWrite (cur t) t) q) as (t' & E' & P' & S').
    + rewrite F1, F3. split; [lia |]. split; [exact Hd |]. intros r Hr. apply Hfirst. lia.
    + rewrite F3. lia.
    + exists t'. split; [| split; [exact P' |]].
      * rewrite E'. rewrite F1, F3, F4, B5, B6, B7, B8.
        replace (Z.to_nat (q - inputPos t)) with (S (Z.to_nat (q - (inputPos t + 1)))) by lia.
        rewrite written_cons. fold (cur t). rewrite !append_assoc'. reflexivity.
      * eapply sameScan_trans; [apply (sameScan_stepWrite (cur t) t) | exact S'].
Qed.

Lemma string_loop_unterminated delim : forall n t,
  0 <= inputPos t ->
  noneFrom (inputString t) (fun c => byteEq c delim) (inputPos t) ->
  (Z.to_nat (len (inputString t) - inputPos t) < n)%nat ->
  fst (GATHER_STRING_loop delim n t)
  = if streaming t then Ok None else Err (unterminatedError t).
Proof.
  induction n as [| n IH]; intros t Hp Hnone Hn; [lia |].
  rewrite string_loop_S. unfold atEnd.
  destruct (len (inputString t) <=? inputPos t) eqn:E.
  - unfold unterminatedString, bind, get. destruct (streaming t); reflexivity.
  - apply Z.leb_gt in E.
    assert (Hcur : byteEq (cur t) delim = false) by (apply Hnone; lia).
    rewrite Hcur.
    destruct (stepWrite_frame (cur t) t) as (F1 & F2 & F3 & F4).
    destruct (sameScan_stepWrite (cur t) t) as (B1 & B2 & B3 & B4 & B5 & B6 & B7 & B8).
    rewrite IH.
    + rewrite B4. unfold unterminatedError, errorLocation. rewrite B7, B8. reflexivity.
    + rewrite F3. lia.
    + rewrite F1, F3. intros r Hr. apply Hnone. lia.
    + rewrite F1, F3. lia.
Qed.

End SimpleString.

Section CommentFacts.

Lemma comment_loop_S n t :
  COMMENT_loop (S n) t =
  if atEnd t then (Ok tt, t) else
  if byteEq (cur t) "010" then advancePosition (-1) (writeStep (cur t) t)
  else COMMENT_loop n (writeStep (cur t) t).
Proof.
  cbn [COMMENT_loop]. unfold bind at 1. unfold get at 1.
  destruct (atEnd t); [destruct n; reflexivity |].
  destruct (byteEq (cur t) "010"); reflexivity.
Qed.

Lemma comment_loop_0 t : atEnd t = true -> COMMENT_loop 0 t = (Ok tt, t).
Proof. intros H. cbn [COMMENT_loop]. unfold bind, get. rewrite H. reflexivity. Qed.

Lemma back_over_newline t :
  1 <= inputPos t ->
  exists t',
    advancePosition (-1) t = (Ok tt, t') /\
    inputPos t' = inputPos t - 1 /\ tokenString t' = tokenString t /\ sameScan t t'.
Proof.
  intros Hp. change (advancePosition (-1) t) with ((advanceBackward ;> ret tt) t).
  unfold bind, advanceBackward.
  change (inputPos (set_inputPos (inputPos t - 1) t)) with (inputPos t - 1).
  destruct (inputPos t - 1 <? 0) eqn:E; [apply Z.ltb_lt in E; lia |].
  destruct (byteEq _ _); eexists; (split; [reflexivity |]); cbn; repeat split.
Qed.

Lemma comment_loop_to_end : forall n t,
  0 <= inputPos t ->
  noneFrom (inputString t) (fun c => byteEq c "010") (inputPos t) ->
  (Z.to_nat (len (inputString t) - inputPos t) < n)%nat ->
  exists t',
    COMMENT_loop n t = (Ok tt, t') /\
    inputPos t' = Z.max (inputPos t) (len (inputString t)) /\
    tokenString t'
    = tokenString t +:+ written (inputString t) (inputPos t)
                                (Z.to_nat (len (inputString t) - inputPos t)) /\
    sameScan t t'.
Proof.
  induction n as [| n IH]; intros t Hp Hnone Hn; [lia |].
  rewrite comment_loop_S. unfold atEnd.
  destruct (len (inputString t) <=? inputPos t) eqn:E.
  - apply Z.leb_le in E. exists t. split; [reflexivity |]. split; [lia |]. split.
    + replace (Z.to_nat (len (inputString t) - inputPos t)) with 0%nat by lia.
      simpl. rewrite append_empty_r. reflexivity.
    + apply sameScan_refl.
  - apply Z.leb_gt in E.
    assert (Hcur : byteEq (cur t) "010" = false) by (apply Hnone; lia).
    rewrite Hcur.
    destruct (writeStep_frame (cur t) t) as (F3 & F4).
    pose proof (sameScan_writeStep (cur t) t) as HS.
    destruct HS as (B1 & B2).
    destruct (IH (writeStep (cur t) t)) as (t' & E' & P' & T' & S').
    + rewrite F3. lia.
    + rewrite B1, F3. intros r Hr. apply Hnone. lia.
    + rewrite B1, F3. lia.
    + exists t'. split; [exact E' |]. rewrite B1, F3 in *. split; [lia |]. split.
      * rewrite T', F4.
        replace (Z.to_nat (len (inputString t) - inputPos t))
          with (S (Z.to_nat (len (inputString t) - (inputPos t + 1)))) by lia.
        rewrite written_cons. fold (cur t). rewrite !append_assoc'. reflexivity.
      * eapply sameScan_trans; [apply (sameScan_writeStep (cur t) t) | exact S'].
Qed.

Lemma comment_loop_to_newline : forall n t q,
  0 <= inputPos t ->
  firstAt (inputString t) (fun c => byteEq c "010") (inputPos t) q ->
  (Z.to_nat (q - inputPos t) < n)%nat ->
  exists t',
    COMMENT_loop n t = (Ok tt, t') /\
    inputPos t' = q /\
    tokenString t'
    = tokenString t +:+ written (inputString t) (inputPos t)
                                (S (Z.to_nat (q - inputPos t))) /\
    sameScan t t'.
Proof.
  induction n as [| n IH]; intros t q Hp (Hq & Hd & Hfirst) Hn; [lia |].
  rewrite comment_loop_S. unfold atEnd.
  destruct (len (inputString t) <=? inputPos t) eqn:E; [apply Z.leb_le in E; lia |].
  destruct (writeStep_frame (cur t) t) as (F3 & F4).
  pose proof (sameScan_writeStep (cur t) t) as HS.
  destruct (Z.eq_dec q (inputPos t)) as [-> | Hne].
  - unfold cur at 1. rewrite Hd.
    destruct (back_over_newline (writeStep (cur t) t)) as (t' & E' & P' & T' & S');
      [rewrite F3; lia |].
    exists t'. split; [exact E' |]. split; [rewrite P', F3; lia |]. split.
    + rewrite T', F4. rewrite Z.sub_diag. simpl. rewrite append_empty_r. reflexivity.
    + eapply sameScan_trans; [exact HS | exact S'].
  - assert (Hcur : byteEq (cur t) "010" = false) by (apply Hfirst; lia).
    rewrite Hcur. destruct HS as (B1 & B2).
    destruct (IH (writeStep (cur t) t) q) as (t' & E' & P' & T' & S').
    + rewrite F3. lia.
    + rewrite B1, F3. split; [lia |]. split; [exact Hd |]. intros r Hr. apply Hfirst. lia.
    + rewrite F3. lia.
    + exists t'. split; [exact E' |]. split; [exact P' |]. rewrite B1, F3 in *. split.
      * rewrite T', F4.
        replace (Z.to_nat (q - inputPos t)) with (S (Z.to_nat (q - (inputPos t + 1)))) by lia.
        rewrite (written_cons _ (inputPos t)). fold (cur t). rewrite !append_assoc'. reflexivity.
      * eapply sameScan_trans; [apply (sameScan_writeStep (cur t) t) | exact S'].
Qed.

End CommentFacts.

Section DefinitionNames.


Lemma sameScan_nameStep ch t : sameScan t (nameStep ch t).
Proof.
  unfold nameStep. eapply sameScan_trans; [apply (sameScan_advanceForward t) |]. repeat split.
Qed.

Lemma nameStep_frame ch t :
  inputPos (nameStep ch t) = inputPos t + 1 /\
  tokenString (nameStep ch t) = tokenString t +:+ encodeRune ch.
Proof.
  destruct (advanceForward_frame t) as (_ & _ & H3 & H4).
  unfold nameStep. cbn [inputPos tokenString set_tokenString]. rewrite H3, H4.
  split; reflexivity.
Qed.





End DefinitionNames.

Section Bytes.

Lemma encodeRune_ascii ch : isASCII ch = true -> encodeRune ch = String ch EmptyString.
Proof.
  unfold isASCII, encodeRune. intros H. apply N.ltb_lt in H.
  destruct (N.to_nat (N_of_ascii ch) <? 128)%nat eqn:E; [reflexivity |].
  apply Nat.ltb_ge in E. lia.
Qed.

Lemma encodeRune_length ch :
  String.length (encodeRune ch) = (if isASCII ch then 1 else 2)%nat.
Proof.
  unfold isASCII, encodeRune.
  destruct (N.to_nat (N_of_ascii ch) <? 128)%nat eqn:E.
  - apply Nat.ltb_lt in E. destruct (N_of_ascii ch <? 128)%N eqn:E'; [reflexivity |].
    apply N.ltb_ge in E'. lia.
  - apply Nat.ltb_ge in E. destruct (N_of_ascii ch <? 128)%N eqn:E'; [| reflexivity].
    apply N.ltb_lt in E'. lia.
Qed.

Lemma written_length s : forall n from,
  String.length (written s from n) = (n + highBytes s from n)%nat.
Proof.
  induction n as [| n IH]; intros from; [reflexivity |].
  rewrite written_cons, append_length, encodeRune_length, IH. cbn [highBytes].
  destruct (isASCII (byteAt s from)); lia.
Qed.

Lemma substring_S c : forall k (s : string) n,
  String.get k s = Some c ->
  substring k (S n) s = String c (substring (S k) n s).
Proof.
  induction k as [| k IH]; intros s n H; destruct s as [| a s]; try discriminate.
  - simpl in H. injection H as ->. reflexivity.
  - simpl in H. cbn [substring]. apply IH. exact H.
Qed.

Lemma byteAt_get s from :
  0 <= from < len s -> String.get (Z.to_nat from) s = Some (byteAt s from).
Proof.
  intros H. unfold byteAt. destruct (from <? 0) eqn:E; [apply Z.ltb_lt in E; lia |].
  destruct (String.get (Z.to_nat from) s) eqn:G; [reflexivity |].
  exfalso. unfold len in H.
  assert (Hlt : (Z.to_nat from < String.length s)%nat) by lia.
  revert G Hlt. generalize (Z.to_nat from) as k. clear.
  induction s as [| a s IH]; intros k G Hlt; [simpl in Hlt; lia |].
  destruct k as [| k]; [discriminate |]. simpl in *. apply (IH k G). lia.
Qed.

Lemma substring_0 : forall k (s : string), substring k 0 s = EmptyString.
Proof.
  induction k as [| k IH]; intros [| a s]; try reflexivity. cbn [substring]. apply IH.
Qed.

Lemma written_ascii s : forall n from,
  0 <= from -> from + Z.of_nat n <= len s ->
  (forall r, from <= r < from + Z.of_nat n -> isASCII (byteAt s r) = true) ->
  written s from n = substring (Z.to_nat from) n s.
Proof.
  induction n as [| n IH]; intros from Hf Hl Hall.
  - rewrite substring_0. reflexivity.
  - rewrite written_cons, encodeRune_ascii by (apply Hall; lia).
    rewrite (substring_S (byteAt s from)) by (apply byteAt_get; lia).
    rewrite append_cons. f_equal. change (EmptyString +:+ ?x) with x.
    rewrite IH; [| lia | lia | intros r Hr; apply Hall; lia].
    replace (Z.to_nat (from + 1)) with (S (Z.to_nat from)) by lia. reflexivity.
Qed.

End Bytes.

Lemma noteStartToken_fields t :
  inputString (noteStartToken t) = inputString t /\
  inputPos (noteStartToken t) = inputPos t /\
  tokenString (noteStartToken t) = tokenString t /\
  tokenLine (noteStartToken t) = line t /\
  tokenColumn (noteStartToken t) = column t /\
  streaming (noteStartToken t) = streaming t.
Proof. repeat split. Qed.

(** X4. A quoted string ends at the first delimiter that follows
    its opening quote: there is no escape.  The token holds what the
    tokenizer writes for the bytes in between: one byte for a byte below
    0x80, which makes the text of the token the text of the input when
    that is ASCII, and two bytes for every other byte.  Without a closing
    delimiter the tokenizer returns the error of an unterminated string,
    located at the start of the content, or no token when it is
    streaming. *)
Theorem quoted_string_token :
  forall (delim : ascii) (t : Tokenizer),
    0 <= inputPos t ->
    (forall q,
       firstAt (inputString t) (fun c => byteEq c delim) (inputPos t) q ->
       let n := Z.to_nat (q - inputPos t) in
       exists tok t',
         transitionFromGATHER_STRING delim t = (Ok (Some tok), t') /\
         Type_ tok = TOKEN_STRING /\
         String_ tok = tokenString t +:+ written (inputString t) (inputPos t) n /\
         String.length (written (inputString t) (inputPos t) n)
         = (n + highBytes (inputString t) (inputPos t) n)%nat /\
         (highBytes (inputString t) (inputPos t) n = 0%nat ->
          String_ tok = tokenString t +:+ substring (Z.to_nat (inputPos t)) n (inputString t)) /\
         inputPos t' = q + 1) /\
    (noneFrom (inputString t) (fun c => byteEq c delim) (inputPos t) ->
     fst (transitionFromGATHER_STRING delim t)
     = if streaming t then Ok None
       else Err (tokenizerErrorAt "Unterminated string" t)).
Proof.
  intros delim t Hp. split.
  - intros q Hq n.
    set (t0 := set_stringDelta (Some (mkStringDelta (inputPos (noteStartToken t))
                                                    (inputPos (noteStartToken t))))
                               (noteStartToken t)).
    destruct (string_loop_closes delim (bytesLeft t0) t0 q) as (t' & E & P & S).
    { exact Hq. }
    { destruct Hq as (Hq & _). unfold bytesLeft.
      change (inputPos t0) with (inputPos t). change (inputString t0) with (inputString t).
      lia. }
    eexists. exists t'. split; [exact E |]. split; [reflexivity |].
    split; [reflexivity |]. split; [apply written_length |]. split; [| exact P].
    intros Hh. cbn [String_]. f_equal.
    change (inputString t0) with (inputString t). change (inputPos t0) with (inputPos t).
    destruct Hq as (Hq & _).
    assert (Hall : forall k from, highBytes (inputString t) from k = 0%nat ->
              forall r, from <= r < from + Z.of_nat k -> isASCII (byteAt (inputString t) r) = true).
    { induction k as [| k IH]; intros from H0 r Hr; [lia |]. cbn [highBytes] in H0.
      destruct (Z.eq_dec r from) as [-> | Hne].
      - destruct (isASCII (byteAt (inputString t) from)); [reflexivity | lia].
      - apply (IH (from + 1)); [| lia].
        destruct (isASCII (byteAt (inputString t) from)); lia. }
    apply written_ascii; [exact Hp | unfold n; lia | apply Hall, Hh].
  - intros Hnone.
    set (t0 := set_stringDelta (Some (mkStringDelta (inputPos (noteStartToken t))
                                                    (inputPos (noteStartToken t))))
                               (noteStartToken t)).
    change (fst (GATHER_STRING_loop delim (bytesLeft t0) t0)
            = if streaming t then Ok None else Err (tokenizerErrorAt "Unterminated string" t)).
    rewrite (string_loop_unterminated delim (bytesLeft t0) t0); [reflexivity | exact Hp | exact Hnone |].
    unfold bytesLeft. lia.
Qed.

Lemma quoted_string_token_witness :
  (exists tok t',
     transitionFromGATHER_STRING "'" (afterFirstByte "'ab' x") = (Ok (Some tok), t') /\
     String_ tok = "ab" /\ inputPos t' = 4) /\
  fst (transitionFromGATHER_STRING "'" (afterFirstByte "'ab"))
  = Err (tokenizerErrorAt "Unterminated string" (afterFirstByte "'ab")).
Proof.
  split.
  - destruct (proj1 (quoted_string_token "'" (afterFirstByte "'ab' x")
                       ltac:(vm_compute; discriminate)) 3)
      as (tok & t' & E & _ & Hs & _ & _ & P).
    + split; [vm_compute; split; [discriminate | reflexivity] |].
      split; [reflexivity |]. intros r Hr.
      change (inputPos (afterFirstByte "'ab' x")) with 1 in Hr.
      assert (r = 1 \/ r = 2) as [-> | ->] by lia; reflexivity.
    + exists tok, t'. split; [exact E |]. split; [rewrite Hs; reflexivity | exact P].
  - apply (proj2 (quoted_string_token "'" (afterFirstByte "'ab")
                    ltac:(vm_compute; discriminate))).
    intros r Hr.
    change (inputPos (afterFirstByte "'ab")) with 1 in Hr.
    change (len (inputString (afterFirstByte "'ab"))) with 3 in Hr.
    assert (r = 1 \/ r = 2) as [-> | ->] by lia; reflexivity.
Defined.

(** X5. A comment runs to the end of its line.  When a newline
    follows, the text of the comment token ends with that newline, and
    the tokenizer stays on the newline, which the next call reads as
    whitespace; otherwise the comment takes the rest of the input. *)
Theorem comment_token :
  forall t : Tokenizer,
    0 <= inputPos t ->
    (forall q,
       firstAt (inputString t) (fun c => byteEq c "010") (inputPos t) q ->
       exists tok t',
         transitionFromCOMMENT t = (Ok (Some tok), t') /\
         Type_ tok = TOKEN_COMMENT /\
         String_ tok
         = tokenString t +:+
           written (inputString t) (inputPos t) (S (Z.to_nat (q - inputPos t))) /\
         inputPos t' = q /\ inputString t' = inputString t) /\
    (noneFrom (inputString t) (fun c => byteEq c "010") (inputPos t) ->
     exists tok t',
       transitionFromCOMMENT t = (Ok (Some tok), t') /\
       Type_ tok = TOKEN_COMMENT /\
       String_ tok
       = tokenString t +:+
         written (inputString t) (inputPos t)
                 (Z.to_nat (len (inputString t) - inputPos t)) /\
       inputPos t' = Z.max (inputPos t) (len (inputString t))).
Proof.
  intros t Hp. split.
  - intros q Hq.
    destruct (comment_loop_to_newline (bytesLeft (noteStartToken t)) (noteStartToken t) q)
      as (t' & E & P & T & S).
    { exact Hp. }
    { exact Hq. }
    { destruct Hq as (Hq & _). unfold bytesLeft.
      change (inputPos (noteStartToken t)) with (inputPos t).
      change (inputString (noteStartToken t)) with (inputString t). lia. }
    eexists. exists t'. split.
    + unfold transitionFromCOMMENT.
      rewrite (bind_Ok _ _ t tt (noteStartToken t)) by reflexivity.
      rewrite (bind_Ok _ _ (noteStartToken t) tt t'); [reflexivity |].
      unfold bind at 1, get at 1. exact E.
    + split; [reflexivity |]. split; [exact T |]. split; [exact P |].
      destruct S as (S1 & _). exact S1.
  - intros Hnone.
    destruct (comment_loop_to_end (bytesLeft (noteStartToken t)) (noteStartToken t))
      as (t' & E & P & T & S).
    { exact Hp. }
    { exact Hnone. }
    { unfold bytesLeft. lia. }
    eexists. exists t'. split.
    + unfold transitionFromCOMMENT.
      rewrite (bind_Ok _ _ t tt (noteStartToken t)) by reflexivity.
      rewrite (bind_Ok _ _ (noteStartToken t) tt t'); [reflexivity |].
      unfold bind at 1, get at 1. exact E.
    + split; [reflexivity |]. split; [exact T | exact P].
Qed.

Lemma comment_token_witness :
  exists tok t',
    transitionFromCOMMENT (afterFirstByte commentThenX) = (Ok (Some tok), t') /\
    String_ tok = " hi" +:+ String "010" EmptyString /\
    inputPos t' = 4.
Proof.
  destruct (proj1 (comment_token (afterFirstByte commentThenX)
                     ltac:(vm_compute; discriminate)) 4)
    as (tok & t' & E & _ & Hs & P & _).
  - split; [vm_compute; split; [discriminate | reflexivity] |].
    split; [reflexivity |]. intros r Hr.
    change (inputPos (afterFirstByte commentThenX)) with 1 in Hr.
    assert (r = 1 \/ r = 2 \/ r = 3) as [-> | [-> | ->]] by lia; reflexivity.
  - exists tok, t'. split; [exact E |]. split; [rewrite Hs; reflexivity | exact P].
Defined.



(** X7. Moving the position one byte forward and one byte back
    restores the tokenizer, except that over a newline the column is not
    restored: it is left at 1. *)
Theorem advance_and_back :
  forall t : Tokenizer,
    0 <= inputPos t < len (inputString t) ->
    (advancePosition 1 ;> advancePosition (-1)) t
    = (Ok tt,
       if byteEq (byteAt (inputString t) (inputPos t)) "010" then set_column 1 t else t).
Proof.
  intros t Hp.
  change ((advancePosition 1 ;> advancePosition (-1)) t)
    with ((advanceBackward ;> ret tt) (advanceForward t)).
  unfold bind, advanceBackward, advanceForward.
  destruct (inputPos t <? len (inputString t)) eqn:E; [| apply Z.ltb_ge in E; lia].
  cbn [andb].
  destruct (byteEq (byteAt (inputString t) (inputPos t)) "010") eqn:Hn;
    cbn [inputPos set_inputPos set_column set_line inputString line column];
    replace (inputPos t + 1 - 1) with (inputPos t) by lia;
    (destruct (inputPos t <? 0) eqn:E0; [apply Z.ltb_lt in E0; lia |]);
    rewrite Hn; unfold ret; f_equal;
    destruct t as [rl ln col ins ip wsp qcs tsp tep tl tc tstr sd strm];
    unfold set_column; cbn.
  - replace (ln + 1 - 1) with ln by lia. reflexivity.
  - replace (col + 1 - 1) with col by lia. reflexivity.
Qed.

Lemma advance_and_back_witness :
  (advancePosition 1 ;> advancePosition (-1)) (atByte 4 commentThenX)
  = (Ok tt, set_column 1 (atByte 4 commentThenX)) /\
  (advancePosition 1 ;> advancePosition (-1)) (atByte 2 commentThenX)
  = (Ok tt, atByte 2 commentThenX).
Proof.
  split.
  - apply (advance_and_back (atByte 4 commentThenX)). vm_compute. split; [discriminate | reflexivity].
  - apply (advance_and_back (atByte 2 commentThenX)). vm_compute. split; [discriminate | reflexivity].
Defined.

(** *** The data stack *)

Lemma set_stack_same i : set_stack (stack i) i = i.
Proof. destruct i. reflexivity. Qed.

(** X8. The data stack is last in, first out: a pop right after a
    push returns the pushed value and leaves the interpreter as it was
    before the push; a peek returns what the next pop returns and changes
    nothing; pushes are popped in the reverse order. *)
Theorem stack_push_pop :
  forall (v w : Value) (i : Interpreter),
    (StackPush v ;> StackPop) i = (Ok v, i) /\
    (StackPush v ;> StackPeek) i = (Ok v, snd (StackPush v i)) /\
    (StackPush v ;> StackPush w ;> (let* b := StackPop in let* a := StackPop in ret (a, b))) i
    = (Ok (v, w), i) /\
    Stack_Pop (Stack_Push (stack i) v) = inl (v, stack i) /\
    Stack_Peek (Stack_Push (stack i) v) = inl v.
Proof.
  intros v w i.
  assert (Hpop : forall x s j, StackPop (set_stack (s ++ [x]) j) = (Ok x, set_stack s j)).
  { intros x s j. unfold StackPop, Stack_Pop.
    change (stack (set_stack (s ++ [x]) j)) with (s ++ [x]).
    rewrite last_snoc, removelast_last. destruct j; reflexivity. }
  split; [| split; [| split; [| split]]].
  - unfold bind, StackPush, modify. rewrite Hpop, set_stack_same. reflexivity.
  - unfold bind, StackPush, modify, StackPeek, Stack_Peek.
    change (stack (set_stack (stack i ++ [v]) i)) with (stack i ++ [v]).
    rewrite last_snoc. reflexivity.
  - unfold bind, StackPush, modify.
    change (stack (set_stack (stack i ++ [v]) i)) with (stack i ++ [v]).
    rewrite set_stack_twice. rewrite Hpop, Hpop, set_stack_same. reflexivity.
  - unfold Stack_Pop, Stack_Push. rewrite last_snoc, removelast_last. reflexivity.
  - unfold Stack_Peek, Stack_Push. rewrite last_snoc. reflexivity.
Qed.

(** X9. [Stack.Get] and [Stack.Set] count from the bottom of the
    stack and check their index: an index below 0 or not below the
    length is an error that leaves the stack alone; otherwise [Set] keeps
    the length and changes one item only, which a [Get] at the same
    index then returns, and the top of the stack is at the length
    minus 1. *)
Theorem stack_get_set :
  forall (items : list Value) (index : Z) (val : Value),
    (index < 0 \/ Z.of_nat (length items) <= index ->
     Stack_Get items index = inr (stackIndexError items index) /\
     Stack_Set items index val = inr (stackIndexError items index)) /\
    (0 <= index < Z.of_nat (length items) ->
     exists items',
       Stack_Set items index val = inl items' /\
       length items' = length items /\
       Stack_Get items' index = inl val /\
       (forall other, other <> index -> Stack_Get items' other = Stack_Get items other) /\
       exists old, Stack_Get items index = inl old) /\
    (forall top, Stack_Peek items = inl top ->
       Stack_Get items (Z.of_nat (length items) - 1) = inl top).
Proof.
  intros items index val. split; [| split].
  - intros H. unfold Stack_Get, Stack_Set.
    destruct ((index <? 0) || (Z.of_nat (length items) <=? index)) eqn:E; [auto |].
    apply orb_false_iff in E as [E1 E2]. apply Z.ltb_ge in E1. apply Z.leb_gt in E2. lia.
  - intros H. unfold Stack_Set.
    destruct ((index <? 0) || (Z.of_nat (length items) <=? index)) eqn:E.
    { apply orb_true_iff in E as [E | E]; [apply Z.ltb_lt in E | apply Z.leb_le in E]; lia. }
    eexists. split; [reflexivity |]. split; [apply length_insert |]. split; [| split].
    + unfold Stack_Get. rewrite length_insert, E.
      rewrite list_lookup_insert_eq by lia. reflexivity.
    + intros other Hne. unfold Stack_Get, stackIndexError. rewrite length_insert.
      destruct ((other <? 0) || (Z.of_nat (length items) <=? other)) eqn:E'; [reflexivity |].
      apply orb_false_iff in E' as [E1 E2]. apply Z.ltb_ge in E1. apply Z.leb_gt in E2.
      rewrite list_lookup_insert_ne by lia. reflexivity.
    + unfold Stack_Get. rewrite E.
      destruct (items !! Z.to_nat index) as [old |] eqn:El; [eauto |].
      apply lookup_ge_None in El. lia.
  - intros top H. unfold Stack_Peek in H.
    destruct (last items) as [x |] eqn:El; [| discriminate]. injection H as <-.
    destruct items as [| a l] using rev_ind; [discriminate |].
    rewrite last_snoc in El. injection El as <-.
    unfold Stack_Get. rewrite length_app. simpl length.
    destruct ((Z.of_nat (length l + 1) - 1 <? 0)
              || (Z.of_nat (length l + 1) <=? Z.of_nat (length l + 1) - 1)) eqn:E.
    { apply orb_true_iff in E as [E | E]; [apply Z.ltb_lt in E | apply Z.leb_le in E]; lia. }
    replace (Z.to_nat (Z.of_nat (length l + 1) - 1)) with (length l) by lia.
    rewrite lookup_app_r by lia. rewrite Nat.sub_diag. reflexivity.
Qed.

Lemma stack_get_set_witness :
  Stack_Get [VInt 1; VInt 2] 2 = inr (stackIndexError [VInt 1; VInt 2] 2) /\
  Stack_Set [VInt 1; VInt 2] 0 (VInt 7) = inl [VInt 7; VInt 2] /\
  Stack_Get [VInt 1; VInt 2] 1 = inl (VInt 2).
Proof.
  pose proof (stack_get_set [VInt 1; VInt 2] 2 VNil) as (H1 & _ & _).
  pose proof (stack_get_set [VInt 1; VInt 2] 0 (VInt 7)) as (_ & H2 & _).
  pose proof (stack_get_set [VInt 1; VInt 2] 0 VNil) as (_ & _ & H3).
  split; [| split].
  - apply (proj1 (H1 ltac:(right; simpl; lia))).
  - destruct (H2 ltac:(simpl; lia)) as (items' & E & _). rewrite E. f_equal.
    vm_compute in E. injection E as <-. reflexivity.
  - apply (H3 (VInt 2)). reflexivity.
Defined.

(** *** Definitions *)

Section Definitions.
Context {host : Host}.






End Definitions.



(** *** Modules and variables *)

Section ImportResolution.

Lemma filter_exportable_split m pre w post :
  words m = pre ++ w :: post ->
  In (GetName w) (exportable m) ->
  exists pre' post',
    Module_ExportableWords m = pre' ++ w :: post' /\
    (forall x, In x post' -> In x post).
Proof.
  intros Hw Hin. unfold Module_ExportableWords. rewrite Hw.
  rewrite List.filter_app. cbn [List.filter].
  rewrite exportableMap_lookup.
  destruct (decide (GetName w ∈ exportable m)) as [_ | Hn];
    [| exfalso; apply Hn, list_elem_of_In, Hin].
  eexists. eexists. split; [reflexivity |].
  intros x Hx. apply filter_In in Hx as [Hx _]. exact Hx.
Qed.

Lemma import_resolves_words hm hm' m prefix n w :
  words hm' = words hm ++ map (importedWord prefix) (Module_ExportableWords m) ->
  In n (exportable m) ->
  Module_FindDictionaryWord m n = Some w ->
  Module_FindDictionaryWord hm' (GetName (importedWord prefix w))
  = Some (importedWord prefix w).
Proof.
  intros Hw Hin Hfind.
  apply FindDictionaryWord_last in Hfind as (pre & post & Hm & Hn & Hpost).
  subst n.
  destruct (filter_exportable_split m pre w post Hm Hin) as (pre' & post' & He & Hsub).
  apply FindDictionaryWord_last.
  exists (words hm ++ map (importedWord prefix) pre'), (map (importedWord prefix) post').
  split; [| split; [reflexivity |]].
  - rewrite Hw, He, map_app. cbn [map]. rewrite <- app_assoc. reflexivity.
  - apply Forall_forall. intros x Hx.
    apply list_elem_of_In, in_map_iff in Hx as (y & <- & Hy).
    intros Heq. apply importedWord_name_inj in Heq.
    rewrite Forall_forall in Hpost. apply (Hpost y); [| exact Heq].
    apply list_elem_of_In, Hsub, Hy.
Qed.

End ImportResolution.

(** X11. After a module is imported into a host, every
    exportable name that the module resolves to a dictionary word
    resolves in the host to that same word (empty prefix) or, under the
    name prefix.name, to a word that delegates to it; the import shadows
    whatever the host had under the name.  The module itself is left as
    it was. *)
Theorem import_makes_exports_findable :
  forall (h : Heap) (host module : nat) (hm m : Module_) (prefix : string),
    host <> module ->
    moduleHeap h !! host = Some hm ->
    moduleHeap h !! module = Some m ->
    (forall k v, variables m !! k = Some v -> is_Some (variableHeap h !! v)) ->
    exists h' hm',
      Module_ImportModule host prefix module h = (Ok tt, h') /\
      moduleHeap h' !! host = Some hm' /\
      moduleHeap h' !! module = Some m /\
      (forall n w,
         In n (exportable m) ->
         Module_FindDictionaryWord m n = Some w ->
         Module_FindWord hm' (if String.eqb prefix EmptyString then n
                              else prefix +:+ "." +:+ n)
         = Some (if String.eqb prefix EmptyString then w
                 else NewExecuteWord (prefix +:+ "." +:+ n) w)) /\
      (forall b target (i : Interpreter) (host0 : Host),
         @Execute host0 (ExecuteWord b target) i = @Execute host0 target i).
Proof.
  intros h host module hm m prefix Hne Hh Hm Hvalid.
  destruct (Module_ImportModule_spec h host module hm m prefix Hne Hh Hm Hvalid)
    as (h' & hm' & Hrun & Hh' & Hm' & Hw & _).
  exists h', hm'. split; [exact Hrun |]. split; [exact Hh' |]. split; [exact Hm' |].
  split; [| reflexivity].
  intros n w Hin Hfind.
  pose proof (import_resolves_words hm hm' m prefix n w Hw Hin Hfind) as Hres.
  assert (Hname : GetName w = n).
  { apply FindDictionaryWord_last in Hfind as (pre & post & _ & Hn & _). exact Hn. }
  unfold importedWord in Hres. unfold Module_FindWord.
  destruct (String.eqb prefix EmptyString).
  - rewrite Hname in Hres. rewrite Hres. reflexivity.
  - rewrite Hname in Hres. change (GetName (NewExecuteWord (prefix +:+ "." +:+ n) w))
      with (prefix +:+ "." +:+ n) in Hres. rewrite Hres. reflexivity.
Qed.

Lemma import_makes_exports_findable_witness :
  (exists h' hm',
     Module_ImportModule 0 EmptyString 1 libHeap = (Ok tt, h') /\
     moduleHeap h' !! 0%nat = Some hm' /\
     Module_FindWord hm' "PUB" = Some (NewPushValueWord "PUB" (VInt 1))) /\
  (exists h' hm',
     Module_ImportModule 0 "p" 1 libHeap = (Ok tt, h') /\
     moduleHeap h' !! 0%nat = Some hm' /\
     Module_FindWord hm' "p.PUB"
     = Some (NewExecuteWord "p.PUB" (NewPushValueWord "PUB" (VInt 1)))).
Proof.
  split.
  - destruct (import_makes_exports_findable libHeap 0%nat 1%nat
                (NewModule EmptyString EmptyString) libModule EmptyString
                ltac:(discriminate) eq_refl eq_refl libModule_valid)
      as (h' & hm' & Hrun & Hh & _ & Hfind & _).
    exists h', hm'. split; [exact Hrun |]. split; [exact Hh |].
    apply (Hfind "PUB" (NewPushValueWord "PUB" (VInt 1))); [left; reflexivity | reflexivity].
  - destruct (import_makes_exports_findable libHeap 0%nat 1%nat
                (NewModule EmptyString EmptyString) libModule "p"
                ltac:(discriminate) eq_refl eq_refl libModule_valid)
      as (h' & hm' & Hrun & Hh & _ & Hfind & _).
    exists h', hm'. split; [exact Hrun |]. split; [exact Hh |].
    apply (Hfind "PUB" (NewPushValueWord "PUB" (VInt 1))); [left; reflexivity | reflexivity].
Defined.

Section Registry.


End Registry.



Section UseModulesFacts.



End UseModulesFacts.



Section VariableFacts.

Lemma GetValue_lookup h r v :
  variableHeap h !! r = Some v -> Variable_GetValue r h = (Ok (var_value v), h).
Proof. intros H. unfold Variable_GetValue, bind, derefVariable. rewrite H. reflexivity. Qed.

Lemma SetValue_lookup h r v x :
  variableHeap h !! r = Some v ->
  Variable_SetValue r x h
  = (Ok tt, mkHeap (moduleHeap h) (<[r := NewVariable (var_name v) x]> (variableHeap h))
                   (memoHeap h)).
Proof. intros H. unfold Variable_SetValue. rewrite H. reflexivity. Qed.

Lemma set_then_get h r r' v v' x :
  variableHeap h !! r = Some v ->
  variableHeap h !! r' = Some v' ->
  r <> r' ->
  exists h',
    Variable_SetValue r x h = (Ok tt, h') /\
    Variable_GetValue r h' = (Ok x, h') /\
    Variable_GetValue r' h' = (Ok (var_value v'), h').
Proof.
  intros Hr Hr' Hne.
  assert (Hlt : (r < length (variableHeap h))%nat) by (eapply lookup_lt_Some; eauto).
  eexists. split; [apply (SetValue_lookup h r v x Hr) |]. split.
  - rewrite (GetValue_lookup _ r (NewVariable (var_name v) x)); [reflexivity |].
    cbn. apply list_lookup_insert_eq. exact Hlt.
  - rewrite (GetValue_lookup _ r' v'); [reflexivity |]. cbn.
    rewrite list_lookup_insert_ne by exact Hne. exact Hr'.
Qed.

End VariableFacts.

(** X14. [AddVariable] binds a name once: for a name that
    the module does not bind it makes a new cell with the value, which
    the name then resolves to (as the word that pushes the cell, unless a
    dictionary word has the name); for a name that is bound it does
    nothing, so the value of the variable is not overwritten. *)
Theorem add_variable :
  forall (h : Heap) (r : nat) (m : Module_) (name : string) (value : Value),
    moduleHeap h !! r = Some m ->
    (variables m !! name = None ->
     let cell := length (variableHeap h) in
     exists h' m',
       Module_AddVariable r name value h = (Ok tt, h') /\
       moduleHeap h' !! r = Some m' /\
       Module_GetVariable m' name = Some cell /\
       variableHeap h' = variableHeap h ++ [NewVariable name value] /\
       Variable_GetValue cell h' = (Ok value, h') /\
       (forall k, k <> name -> variables m' !! k = variables m !! k) /\
       words m' = words m /\
       (Module_FindDictionaryWord m name = None ->
        Module_FindWord m' name = Some (NewPushValueWord name (VVariable cell))) /\
       (forall value2, Module_AddVariable r name value2 h' = (Ok tt, h'))) /\
    (is_Some (variables m !! name) ->
     Module_AddVariable r name value h = (Ok tt, h)).
Proof.
  intros h r m name value Hr.
  assert (Hlt : (r < length (moduleHeap h))%nat) by (eapply lookup_lt_Some; eauto).
  split.
  - intros Hnone cell.
    exists (mkHeap (<[r := set_variables (<[name := cell]> (variables m)) m]> (moduleHeap h))
                   (variableHeap h ++ [NewVariable name value]) (memoHeap h)),
           (set_variables (<[name := cell]> (variables m)) m).
    split; [| split; [| split; [| split; [| split; [| split; [| split; [| split]]]]]]].
    + unfold Module_AddVariable.
      rewrite (bind_Ok _ _ _ _ _ (derefModule_lookup h r m Hr)). rewrite Hnone.
      reflexivity.
    + cbn. apply list_lookup_insert_eq. exact Hlt.
    + unfold Module_GetVariable. cbn. apply lookup_insert_eq.
    + reflexivity.
    + rewrite (GetValue_lookup _ cell (NewVariable name value)); [reflexivity |]. cbn.
      rewrite lookup_app_r by (unfold cell; lia). unfold cell. rewrite Nat.sub_diag.
      reflexivity.
    + intros k Hk. cbn. apply lookup_insert_ne. congruence.
    + reflexivity.
    + intros Hd. unfold Module_FindWord, Module_FindDictionaryWord in *.
      cbn [words set_variables]. rewrite Hd. unfold Module_FindVariable. cbn [variables set_variables].
      rewrite lookup_insert_eq. reflexivity.
    + intros value2. unfold Module_AddVariable.
      erewrite bind_Ok;
        [| apply derefModule_lookup; cbn; apply list_lookup_insert_eq; exact Hlt].
      cbn [variables set_variables]. rewrite lookup_insert_eq. reflexivity.
  - intros [v Hv]. unfold Module_AddVariable.
    rewrite (bind_Ok _ _ _ _ _ (derefModule_lookup h r m Hr)). rewrite Hv. reflexivity.
Qed.

Lemma add_variable_witness :
  Module_AddVariable 1 "x" (VInt 99) libHeap = (Ok tt, libHeap) /\
  exists h',
    Module_AddVariable 1 "y" (VInt 5) libHeap = (Ok tt, h') /\
    Variable_GetValue 1 h' = (Ok (VInt 5), h').
Proof.
  pose proof (add_variable libHeap 1%nat libModule "x" (VInt 99) eq_refl) as (_ & H2).
  pose proof (add_variable libHeap 1%nat libModule "y" (VInt 5) eq_refl) as (H1 & _).
  split.
  - apply H2. eexists. reflexivity.
  - destruct (H1 eq_refl) as (h' & m' & E & _ & _ & _ & G & _).
    exists h'. split; [exact E | exact G].
Defined.

(** X15. The variables of a duplicated module are independent
    of the variables of the original: each starts with the value of its
    original, and setting either one afterwards does not change what the
    other holds. *)
Theorem dup_variables_independent :
  forall (h : Heap) (r : nat) (m : Module_) (k : string) (v : nat) (x : Value),
    moduleHeap h !! r = Some m ->
    (forall k v, variables m !! k = Some v -> is_Some (variableHeap h !! v)) ->
    variables m !! k = Some v ->
    exists copy h' m' v' old,
      Module_Dup r h = (Ok copy, h') /\
      moduleHeap h' !! copy = Some m' /\
      moduleHeap h' !! r = Some m /\
      Module_GetVariable m' k = Some v' /\
      v' <> v /\
      Variable_GetValue v h = (Ok old, h) /\
      Variable_GetValue v h' = (Ok old, h') /\
      Variable_GetValue v' h' = (Ok old, h') /\
      (exists h1,
         Variable_SetValue v' x h' = (Ok tt, h1) /\
         Variable_GetValue v' h1 = (Ok x, h1) /\
         Variable_GetValue v h1 = (Ok old, h1)) /\
      (exists h2,
         Variable_SetValue v x h' = (Ok tt, h2) /\
         Variable_GetValue v h2 = (Ok x, h2) /\
         Variable_GetValue v' h2 = (Ok old, h2)).
Proof.
  intros h r m k v x Hr Hvalid Hk.
  destruct (Module_Dup_spec h r m Hr Hvalid)
    as (m' & cells & Hdup & _ & _ & _ & _ & _ & _ & Hvars & _).
  destruct (Hvars k v Hk) as (v' & Hv' & Hge & Hcell).
  destruct (Hvalid k v Hk) as [var Hvar].
  assert (Hlt : (v < length (variableHeap h))%nat) by (eapply lookup_lt_Some; eauto).
  assert (Hlr : (r < length (moduleHeap h))%nat) by (eapply lookup_lt_Some; eauto).
  rewrite Hvar in Hcell. cbn in Hcell.
  set (h' := mkHeap (moduleHeap h ++ [m']) (variableHeap h ++ cells) (memoHeap h)) in *.
  assert (Hv_h' : variableHeap h' !! v = Some var).
  { unfold h'. cbn. rewrite lookup_app_l by exact Hlt. exact Hvar. }
  exists (length (moduleHeap h)), h', m', v', (var_value var).
  split; [exact Hdup |].
  split; [unfold h'; cbn; rewrite lookup_app_r by lia; rewrite Nat.sub_diag; reflexivity |].
  split; [unfold h'; cbn; rewrite lookup_app_l by exact Hlr; exact Hr |].
  split; [exact Hv' |]. split; [lia |].
  split; [apply (GetValue_lookup h v var Hvar) |].
  split; [apply (GetValue_lookup h' v var Hv_h') |].
  split; [rewrite (GetValue_lookup h' v' _ Hcell); reflexivity |].
  split.
  - destruct (set_then_get h' v' v _ var x Hcell Hv_h' ltac:(lia)) as (h1 & E & G1 & G2).
    exists h1. auto.
  - destruct (set_then_get h' v v' var _ x Hv_h' Hcell ltac:(lia)) as (h2 & E & G1 & G2).
    exists h2. split; [exact E |]. split; [exact G1 |]. rewrite G2. reflexivity.
Qed.

Lemma dup_variables_independent_witness :
  exists copy h' m' v',
    Module_Dup 1 libHeap = (Ok copy, h') /\
    moduleHeap h' !! copy = Some m' /\
    Module_GetVariable m' "x" = Some v' /\
    v' <> 0%nat /\
    Variable_GetValue v' h' = (Ok (VInt 7), h') /\
    exists h1,
      Variable_SetValue v' (VInt 8) h' = (Ok tt, h1) /\
      Variable_GetValue 0 h1 = (Ok (VInt 7), h1).
Proof.
  destruct (dup_variables_independent libHeap 1%nat libModule "x" 0%nat (VInt 8)
              eq_refl libModule_valid eq_refl)
    as (copy & h' & m' & v' & old & E & Hm & _ & Hv & Hne & G0 & _ & G1 & (h1 & S1 & _ & G2) & _).
  assert (Hold : old = VInt 7) by (vm_compute in G0; congruence).
  subst old. exists copy, h', m', v'. repeat (split; [assumption |]).
  exists h1. split; assumption.
Defined.

(** *** Integer literals *)

Section DecimalText.

Lemma digitsValue_uint d : forall acc,
  digitsValue (NilEmpty.string_of_uint d) acc = Some (uintValue d acc).
Proof.
  induction d; intros acc; cbn [NilEmpty.string_of_uint digitsValue uintValue];
    [reflexivity | ..];
    (match goal with
     | |- (if isDigit ?c then _ else _) = _ =>
         change (isDigit c) with true; cbv iota;
         rewrite IHd; f_equal; f_equal;
         change (Z.of_N (N_of_ascii c)) with (Z.of_N (N_of_ascii c)); vm_compute (Z.of_N (N_of_ascii c) - 48);
         lia
     end).
Qed.

Lemma digitsOnly_uint d : digitsOnly (NilEmpty.string_of_uint d) = true.
Proof. induction d; cbn [NilEmpty.string_of_uint digitsOnly]; [reflexivity | ..]; exact IHd. Qed.

Lemma of_uint_acc_value d : forall acc,
  Z.pos (Pos.of_uint_acc d acc) = uintValue d (Z.pos acc).
Proof.
  induction d; intros acc; cbn [Pos.of_uint_acc uintValue]; [reflexivity | ..];
    rewrite IHd; f_equal; lia.
Qed.

Lemma of_uint_value d : Z.of_N (Pos.of_uint d) = uintValue d 0.
Proof.
  induction d; cbn [Pos.of_uint uintValue]; [reflexivity | exact IHd | ..];
    cbn [Z.of_N]; rewrite of_uint_acc_value; reflexivity.
Qed.

Lemma to_uint_value p : uintValue (Pos.to_uint p) 0 = Z.pos p.
Proof. rewrite <- of_uint_value, DecimalPos.Unsigned.of_to. reflexivity. Qed.

Lemma to_uint_text p :
  NilZero.string_of_uint (Pos.to_uint p) = NilEmpty.string_of_uint (Pos.to_uint p) /\
  exists c rest, NilEmpty.string_of_uint (Pos.to_uint p) = String c rest /\
                 isDigit c = true /\ digitsOnly rest = true.
Proof.
  pose proof (to_uint_value p) as Hv. pose proof (digitsOnly_uint (Pos.to_uint p)) as Hd.
  destruct (Pos.to_uint p) eqn:E; [cbn in Hv; lia | ..];
    (split; [reflexivity |]); cbn [NilEmpty.string_of_uint] in *;
    eexists _, _; (split; [reflexivity |]); (split; [reflexivity | exact Hd]).
Qed.

Lemma FormatInt_shape n : integerShape (strconv_FormatInt n) = true.
Proof.
  unfold strconv_FormatInt. destruct n as [| p | p]; [reflexivity | ..];
    cbn [Z.to_int NilZero.string_of_int];
    destruct (to_uint_text p) as (-> & c & rest & -> & Hc & Hrest).
  - cbn. rewrite Hc, Hrest. reflexivity.
  - cbn. rewrite Hc, Hrest. reflexivity.
Qed.

Lemma ParseInt_FormatInt n : inInt64 n -> strconv_ParseInt (strconv_FormatInt n) = Some n.
Proof.
  unfold inInt64, strconv_FormatInt. intros Hn.
  destruct n as [| p | p]; [reflexivity | ..]; cbn [Z.to_int NilZero.string_of_int];
    pose proof (digitsValue_uint (Pos.to_uint p) 0) as Hv; rewrite to_uint_value in Hv;
    destruct (to_uint_text p) as (-> & c & rest & E & Hc & Hrest); rewrite E in *.
  - unfold strconv_ParseInt.
    assert (Hplus : byteEq c "+" = false).
    { unfold byteEq. destruct (Ascii.eqb_spec c "+"); [subst; discriminate | reflexivity]. }
    assert (Hminus : byteEq c "-" = false).
    { unfold byteEq. destruct (Ascii.eqb_spec c "-"); [subst; discriminate | reflexivity]. }
    rewrite Hplus, Hminus, Hv. cbn [negb andb].
    destruct (2 ^ 63 <=? Z.pos p) eqn:Hle; [apply Z.leb_le in Hle; lia | reflexivity].
  - unfold strconv_ParseInt.
    change (byteEq "-" "+") with false. change (byteEq "-" "-") with true. cbv iota.
    rewrite Hv. cbn [negb andb].
    destruct (2 ^ 63 <? Z.pos p) eqn:Hlt; [apply Z.ltb_lt in Hlt; lia | reflexivity].
Qed.

Lemma digit_not c x : isDigit c = true -> isDigit x = false -> byteEq c x = false.
Proof.
  intros Hc Hx. unfold byteEq. destruct (Ascii.eqb_spec c x); [subst; congruence | reflexivity].
Qed.

Lemma HasPrefix_first c rest x p :
  byteEq x c = false -> HasPrefix (String c rest) (String x p) = false.
Proof. intros H. cbn. rewrite H. reflexivity. Qed.

Lemma digitsOnly_Contains s x :
  isDigit x = false -> digitsOnly s = true -> Contains s (String x EmptyString) = false.
Proof.
  intros Hx. induction s as [| c s IH]; intros Hs; [reflexivity |].
  cbn in Hs. apply andb_true_iff in Hs as [Hc Hs]. cbn [Contains].
  rewrite HasPrefix_first, (IH Hs); [reflexivity |].
  unfold byteEq. rewrite Ascii.eqb_sym. apply (digit_not c x Hc Hx).
Qed.

Lemma integerShape_Contains s x :
  isDigit x = false -> byteEq x "-" = false -> integerShape s = true ->
  Contains s (String x EmptyString) = false.
Proof.
  intros Hx Hm Hs. destruct s as [| c s]; [discriminate |].
  cbn in Hs. apply andb_true_iff in Hs as [Hc Hs]. cbn [Contains].
  rewrite (digitsOnly_Contains s x Hx Hs), HasPrefix_first; [reflexivity |].
  apply orb_true_iff in Hc as [Hc | Hc].
  - unfold byteEq. rewrite Ascii.eqb_sym. apply (digit_not c x Hc Hx).
  - unfold byteEq in *. apply Ascii.eqb_eq in Hc. subst c. exact Hm.
Qed.

Lemma ToInt_FormatInt n : inInt64 n -> ToInt (strconv_FormatInt n) = Some (VInt n).
Proof.
  intros Hn. unfold ToInt.
  rewrite (integerShape_Contains _ "." eq_refl eq_refl (FormatInt_shape n)).
  rewrite (ParseInt_FormatInt n Hn), String.eqb_refl. reflexivity.
Qed.

End DecimalText.

(** X16. [ToInt] accepts exactly the canonical decimal texts of
    the 64-bit integers: the text that [FormatInt] gives for an integer
    in range is accepted as that integer, and no other text is
    accepted. *)
Theorem ToInt_canonical :
  forall (s : string) (v : Value),
    ToInt s = Some v <->
    exists n : Z, inInt64 n /\ s = strconv_FormatInt n /\ v = VInt n.
Proof.
  intros s v. unfold ToInt. split.
  - destruct (Contains s "."); [discriminate |].
    destruct (strconv_ParseInt s) as [n |] eqn:Hp; [| discriminate].
    destruct (String.eqb_spec (strconv_FormatInt n) s) as [He | He]; [| discriminate].
    cbn [negb]. intros [= <-]. exists n. split; [| split; [symmetry; exact He | reflexivity]].
    unfold strconv_ParseInt in Hp. destruct s as [| c rest]; [discriminate |].
    destruct (if byteEq c "+" then (false, rest)
              else if byteEq c "-" then (true, rest) else (false, String c rest))
      as [neg digits].
    assert (Hd : match digitsValue digits 0 with
                 | Some un =>
                   if negb neg && (2 ^ 63 <=? un) then None
                   else if neg && (2 ^ 63 <? un) then None
                   else Some (if neg then - un else un)
                 | None => None
                 end = Some n) by (destruct digits; [discriminate | exact Hp]).
    clear Hp. destruct (digitsValue digits 0) as [un |] eqn:Hun; [| discriminate].
    assert (Hpos : forall d a, 0 <= a -> forall r, digitsValue d a = Some r -> 0 <= r).
    { clear. induction d as [| c d IH]; intros a Ha r Hr; cbn in Hr; [congruence |].
      destruct (isDigit c) eqn:Hc; [| discriminate].
      unfold isDigit in Hc. apply andb_true_iff in Hc as [H1 _]. apply N.leb_le in H1.
      eapply IH; [| exact Hr]. lia. }
    pose proof (Hpos digits 0 ltac:(lia) un Hun) as Hun0.
    unfold inInt64. destruct neg; cbn [negb andb] in Hd.
    + destruct (2 ^ 63 <? un) eqn:Hlt; [discriminate |]. apply Z.ltb_ge in Hlt.
      injection Hd as <-. lia.
    + destruct (2 ^ 63 <=? un) eqn:Hle; [discriminate |]. apply Z.leb_gt in Hle.
      injection Hd as <-. lia.
  - intros (n & Hn & -> & ->). apply ToInt_FormatInt. exact Hn.
Qed.

Section StandardLiterals.
Context {external : External}.

Lemma ToBool_integer s : integerShape s = true -> ToBool s = None.
Proof.
  destruct s as [| c rest]; [discriminate |]. cbn [integerShape]. intros H.
  apply andb_true_iff in H as [Hc _]. unfold ToBool.
  assert (HT : Ascii.eqb c "T" = false).
  { destruct (Ascii.eqb_spec c "T"); [subst; discriminate | reflexivity]. }
  assert (HF : Ascii.eqb c "F" = false).
  { destruct (Ascii.eqb_spec c "F"); [subst; discriminate | reflexivity]. }
  cbn [String.eqb]. rewrite HT, HF. reflexivity.
Qed.

Lemma matchTime_integer s : integerShape s = true -> matchTime s = None.
Proof.
  destruct s as [| c1 [| c2 [| c3 rest]]]; try reflexivity; cbn [integerShape digitsOnly];
    intros H; repeat (apply andb_true_iff in H as [? H]); unfold matchTime.
  - destruct (isDigit c1); [| reflexivity].
    rewrite (digit_not c2 ":") by (assumption || reflexivity).
    destruct (isDigit c2); reflexivity.
  - destruct (isDigit c1); [| reflexivity].
    rewrite (digit_not c2 ":") by (assumption || reflexivity).
    destruct (isDigit c2); [| reflexivity].
    rewrite (digit_not c3 ":") by (assumption || reflexivity). reflexivity.
Qed.

Lemma matchLiteralDate_integer s : integerShape s = true -> matchLiteralDate s = None.
Proof.
  intros H. unfold matchLiteralDate.
  destruct s as [| y1 [| y2 [| y3 [| y4 [| d1 rest]]]]]; try reflexivity.
  cbn [integerShape digitsOnly] in H.
  apply andb_true_iff in H as [_ H]. apply andb_true_iff in H as [_ H].
  apply andb_true_iff in H as [_ H]. apply andb_true_iff in H as [_ H].
  apply andb_true_iff in H as [Hd1 _].
  rewrite (digit_not d1 "-" Hd1 eq_refl).
  destruct rest as [| m1 [| m2 [| d2 [| a1 [| a2 [| x rest]]]]]]; reflexivity.
Qed.

Lemma standard_handlers_integer (loc : string) (n : Z) :
  inInt64 n ->
  findLiteralWord_loop [ToBool; ToFloat; ToZonedDateTime loc; ToLiteralDate loc; ToTime; ToInt]
                       (strconv_FormatInt n)
  = Some (NewPushValueWord (strconv_FormatInt n) (VInt n)).
Proof.
  intros Hn. pose proof (FormatInt_shape n) as Hs.
  assert (Hint : ToInt (strconv_FormatInt n) = Some (VInt n)).
  { apply ToInt_FormatInt. exact Hn. }
  cbn [findLiteralWord_loop].
  rewrite (ToBool_integer _ Hs).
  unfold ToFloat. rewrite (integerShape_Contains _ "." eq_refl eq_refl Hs). cbn [negb].
  unfold ToZonedDateTime. rewrite (integerShape_Contains _ "T" eq_refl eq_refl Hs). cbn [negb].
  unfold ToLiteralDate. rewrite (matchLiteralDate_integer _ Hs).
  unfold ToTime. rewrite (matchTime_integer _ Hs).
  rewrite Hint. reflexivity.
Qed.


Lemma interpreterCore_fields (h : Heap) :
  moduleStack (interpreterCore h) = [length (moduleHeap h)] /\
  literalHandlers (interpreterCore h) = [] /\
  moduleHeap (heap (interpreterCore h)) !! length (moduleHeap h)
  = Some (SetInterp (NewModule EmptyString EmptyString)).
Proof.
  unfold interpreterCore, liftHeap, allocModule, modify, updateModule, derefModule,
    storeModule, ModuleStackPush, get, bind.
  cbn. rewrite lookup_app_r by lia. rewrite Nat.sub_diag. cbn.
  split; [reflexivity |]. split; [reflexivity |].
  apply list_lookup_insert_eq. rewrite length_app. cbn. lia.
Qed.

Lemma NewInterpreter_fields (h : Heap) :
  let i := snd (NewInterpreter h []) in
  moduleStack i = [length (moduleHeap h)] /\
  (exists loc,
     literalHandlers i
     = [ToBool; ToFloat; ToZonedDateTime loc; ToLiteralDate loc; ToTime; ToInt]) /\
  moduleHeap (heap i) !! length (moduleHeap h)
  = Some (SetInterp (NewModule EmptyString EmptyString)).
Proof.
  destruct (interpreterCore_fields h) as (Hs & _ & Hm).
  unfold NewInterpreter, registerStandardLiterals, importModules, bind, get, modify, ret.
  cbn. split; [exact Hs |]. split; [eexists; reflexivity | exact Hm].
Qed.

End StandardLiterals.

(** X17. The canonical decimal text of a 64-bit integer is
    a literal of that integer for the standard handlers: none of the
    handlers that are tried before [ToInt] takes it.  In a new
    interpreter, whose app module has no words, [FindWord] resolves the
    text to the word that pushes the integer. *)
Theorem integer_literal_resolves :
  forall (external : External) (h : Heap) (n : Z),
    inInt64 n ->
    let text := strconv_FormatInt n in
    (forall i : Interpreter,
       findLiteralWord (snd (registerStandardLiterals i)) text
       = Some (NewPushValueWord text (VInt n))) /\
    (let i := snd (NewInterpreter h []) in
     FindWord text i = (Ok (NewPushValueWord text (VInt n)), i)).
Proof.
  intros external h n Hn text. split.
  - intros i. unfold findLiteralWord, registerStandardLiterals, bind, get, modify.
    cbn [snd fst literalHandlers set_literalHandlers].
    apply standard_handlers_integer. exact Hn.
  - intros i. destruct (NewInterpreter_fields h) as (Hs & (loc & Hl) & Hm). fold i in Hs, Hl, Hm.
    rewrite FindWord_not_in_modules.
    + unfold findLiteralWord. rewrite Hl. unfold text.
      rewrite (standard_handlers_integer loc n Hn). reflexivity.
    + rewrite Hs. constructor; [| constructor].
      eexists. split; [exact Hm | reflexivity].
Qed.

Lemma integer_literal_resolves_witness :
  FindWord "-42" (snd (NewInterpreter (external := plainExternal) libHeap []))
  = (Ok (NewPushValueWord "-42" (VInt (-42))),
     snd (NewInterpreter (external := plainExternal) libHeap [])).
Proof.
  exact (proj2 (integer_literal_resolves plainExternal libHeap (-42)
                  ltac:(unfold inInt64; lia))).
Defined.

(** *** Blank code *)

Section BlankCode.

Lemma ReplaceAll_go_absent a old new : forall n s,
  ContainsRune s a = false -> ReplaceAll_go n s (String a old) new = s.
Proof.
  induction n as [| n IH]; intros s H; [reflexivity |].
  destruct s as [| c s]; [reflexivity |]. cbn [ReplaceAll_go].
  cbn [ContainsRune] in H. apply orb_false_iff in H as [Hc Hs].
  cbn [HasPrefix]. unfold byteEq in *. rewrite Ascii.eqb_sym, Hc. cbn [andb].
  rewrite (IH s Hs). reflexivity.
Qed.

Lemma isBlank_no_ampersand code : isBlank code = true -> ContainsRune code "&" = false.
Proof.
  induction code as [| c code IH]; intros H; [reflexivity |].
  cbn [isBlank] in H. apply andb_true_iff in H as [Hc H]. cbn [ContainsRune].
  rewrite (IH H), orb_false_r. unfold byteEq.
  destruct (Ascii.eqb_spec c "&") as [-> |]; [discriminate | reflexivity].
Qed.

Lemma isBlank_unescape code : isBlank code = true -> unescapeString code = code.
Proof.
  intros H. unfold unescapeString, ReplaceAll.
  rewrite (ReplaceAll_go_absent "&" "lt;" "<" _ code (isBlank_no_ampersand code H)).
  apply ReplaceAll_go_absent, isBlank_no_ampersand, H.
Qed.

Lemma isBlank_rest code :
  isBlank code = true ->
  restIsWhitespace code (whitespace (NewTokenizer EmptyString None false)) 0.
Proof.
  induction code as [| c code IH]; intros H q Hq; [unfold len in Hq; simpl in Hq; lia |].
  cbn [isBlank] in H. apply andb_true_iff in H as [Hc H].
  destruct (Z.eq_dec q 0) as [-> | Hne]; [exact Hc |].
  specialize (IH H (q - 1)). unfold len in *. cbn [String.length] in Hq.
  replace (byteAt (String c code) q) with (byteAt code (q - 1)); [apply IH; lia |].
  unfold byteAt. destruct (q <? 0) eqn:E1; [apply Z.ltb_lt in E1; lia |].
  destruct (q - 1 <? 0) eqn:E2; [apply Z.ltb_lt in E2; lia |].
  replace (Z.to_nat q) with (S (Z.to_nat (q - 1))) by lia. reflexivity.
Qed.

Lemma NextToken_rest_blank t :
  0 <= inputPos t <= len (inputString t) ->
  restIsWhitespace (inputString t) (whitespace t) (inputPos t) ->
  exists tok, fst (NextToken t) = Ok (Some tok) /\ Type_ tok = TOKEN_EOS.
Proof.
  intros Hb Hrest.
  destruct (NextToken_post (inputString t) (whitespace t) (quoteChars t) (inputPos t) Hb t)
    as (p & _ & _ & Hpost); [repeat split |].
  destruct (fst (NextToken t)) as [[tok |] | e | pv |]; try contradiction.
  exists tok. split; [reflexivity |].
  destruct (Type_ tok); try reflexivity; destruct Hpost as [_ Hn]; contradiction.
Qed.

Lemma NextToken_blank code :
  isBlank code = true ->
  exists tok, fst (NextToken (NewTokenizer code None false)) = Ok (Some tok) /\
              Type_ tok = TOKEN_EOS.
Proof.
  intros H. set (t := NewTokenizer code None false).
  assert (Hin : inputString t = code) by (unfold t; cbn; apply isBlank_unescape, H).
  apply NextToken_rest_blank.
  - unfold t, len; cbn; lia.
  - rewrite Hin. apply (isBlank_rest code H).
Qed.

End BlankCode.

(** X18. Running code that holds nothing but whitespace changes
    nothing: outside a definition [Run] returns without an error and the
    interpreter is as it was; inside a definition it returns an error and
    the interpreter is as it was.  One iteration of the loop is enough. *)
Theorem Run_blank :
  forall (host : Host) (code : string) (i : Interpreter) (fuel : nat),
    isBlank code = true ->
    (isCompiling i = false -> Run (S fuel) code i = (Ok tt, i)) /\
    (isCompiling i = true -> exists err, Run (S fuel) code i = (Err err, i)).
Proof.
  intros host code i fuel H.
  destruct (NextToken_blank code H) as (tok & Htok & Hty).
  assert (Hrun : Run (S fuel) code i
                 = let (o, i') := handleEOS i in (o, i')).
  { unfold Run. cbn [runWithTokenizer]. unfold bind at 1.
    assert (H1 : tokenizerStack
                   (set_tokenizerStack (tokenizerStack i ++ [NewTokenizer code None false]) i)
                 = tokenizerStack i ++ [NewTokenizer code None false])
      by (destruct i; reflexivity).
    rewrite (nextToken_top _ _ _ H1). clear H1.
    rewrite Htok. unfold handleToken, isEOS. rewrite Hty. unfold bind, handleEOS.
    destruct i as [st app ms rm ts prev comp memo cur lits tz hp]; cbn.
    destruct comp.
    - destruct prev; cbn; rewrite removelast_last; reflexivity.
    - cbn. rewrite removelast_last. reflexivity. }
  rewrite Hrun. unfold handleEOS. split; intros ->.
  - reflexivity.
  - destruct (previousToken i); eexists; reflexivity.
Qed.

Lemma Run_blank_witness :
  Run (host := mathHost) 1 " ( , ) " (interpreterCore emptyHeap)
  = (Ok tt, interpreterCore emptyHeap).
Proof.
  exact (proj1 (Run_blank mathHost " ( , ) " (interpreterCore emptyHeap) 0 eq_refl) eq_refl).
Defined.

(** *** Time literals *)

Section TimeLiterals.
Context {external : External}.

Lemma digitsValue_nonneg : forall d a r, 0 <= a -> digitsValue d a = Some r -> 0 <= r.
Proof.
  induction d as [| c d IH]; intros a r Ha Hr; cbn in Hr; [congruence |].
  destruct (isDigit c) eqn:Hc; [| discriminate].
  unfold isDigit in Hc. apply andb_true_iff in Hc as [H1 _]. apply N.leb_le in H1.
  eapply IH; [| exact Hr]. lia.
Qed.

Lemma Atoi_digits s n :
  digitsOnly s = true -> strconv_Atoi s = Some n -> 0 <= n.
Proof.
  unfold strconv_Atoi, strconv_ParseInt. destruct s as [| c rest]; [discriminate |].
  intros Hd. pose proof Hd as Hd'. cbn [digitsOnly] in Hd.
  apply andb_true_iff in Hd as [Hc _].
  rewrite (digit_not c "+" Hc eq_refl), (digit_not c "-" Hc eq_refl).
  destruct (digitsValue (String c rest) 0) as [un |] eqn:Hun; [| discriminate].
  pose proof (digitsValue_nonneg _ 0 _ (Z.le_refl 0) Hun) as H0.
  cbn [negb andb]. destruct (2 ^ 63 <=? un); [discriminate |]. intros [= <-]. exact H0.
Qed.

Lemma matchTime_digits s hh mm meridiem :
  matchTime s = Some (hh, mm, meridiem) ->
  digitsOnly hh = true /\ digitsOnly mm = true /\
  (meridiem = EmptyString \/ meridiem = "AM" \/ meridiem = "PM").
Proof.
  assert (Htail : forall hh0 rest,
            digitsOnly hh0 = true ->
            match rest with
            | String m1 (String m2 suffix) =>
              if isDigit m1 && isDigit m2 then
                let mm := String m1 (String m2 EmptyString) in
                if String.eqb suffix EmptyString then Some (hh0, mm, EmptyString)
                else
                  let meridiem := skipRegexpSpace suffix in
                  if String.eqb meridiem "AM" || String.eqb meridiem "PM"
                  then Some (hh0, mm, meridiem) else None
              else None
            | _ => None
            end = Some (hh, mm, meridiem) ->
            digitsOnly hh = true /\ digitsOnly mm = true /\
            (meridiem = EmptyString \/ meridiem = "AM" \/ meridiem = "PM")).
  { intros hh0 rest Hh. destruct rest as [| m1 [| m2 suffix]]; try discriminate.
    destruct (isDigit m1 && isDigit m2) eqn:Hm; [| discriminate].
    apply andb_true_iff in Hm as [Hm1 Hm2]. cbv zeta.
    destruct (String.eqb suffix EmptyString).
    - intros [= <- <- <-]. cbn [digitsOnly]. rewrite Hm1, Hm2. auto.
    - destruct (String.eqb_spec (skipRegexpSpace suffix) "AM") as [Ea |];
        [| destruct (String.eqb_spec (skipRegexpSpace suffix) "PM") as [Ep |]];
        cbn [orb]; try discriminate; intros [= <- <- <-]; cbn [digitsOnly];
        rewrite Hm1, Hm2; auto. }
  unfold matchTime. destruct s as [| h1 [| c2 rest]]; try discriminate.
  destruct (isDigit h1) eqn:H1; [| discriminate].
  destruct (byteEq c2 ":").
  - apply Htail. cbn. rewrite H1. reflexivity.
  - destruct (isDigit c2) eqn:H2; [| discriminate].
    destruct rest as [| c3 rest]; [discriminate |].
    destruct (byteEq c3 ":"); [| discriminate].
    apply Htail. cbn. rewrite H1, H2. reflexivity.
Qed.

End TimeLiterals.

(** X19. A time literal is a time of the day: whatever text
    [ToTime] accepts, the time it gives has an hour from 0 to 23 and a
    minute from 0 to 59, after the adjustment for AM and PM. *)
Theorem ToTime_range :
  forall (external : External) (s : string) (v : Value),
    ToTime s = Some v ->
    exists hours minutes : Z,
      0 <= hours <= 23 /\ 0 <= minutes <= 59 /\
      v = VTime (time_Date 0 1 1 hours minutes 0 0 "UTC").
Proof.
  intros external s v. unfold ToTime.
  destruct (matchTime s) as [[[hh mm] meridiem] |] eqn:Em; [| discriminate].
  destruct (matchTime_digits s hh mm meridiem Em) as (Hh & Hm & _).
  destruct (strconv_Atoi hh) as [hours |] eqn:Eh; [| discriminate].
  destruct (strconv_Atoi mm) as [minutes |] eqn:Emm; [| discriminate].
  pose proof (Atoi_digits hh hours Hh Eh) as Hh0.
  pose proof (Atoi_digits mm minutes Hm Emm) as Hm0.
  set (adjusted := if String.eqb meridiem "PM" && (hours <? 12) then hours + 12
                   else if String.eqb meridiem "AM" && (hours =? 12) then 0
                   else if String.eqb meridiem "AM" && (12 <? hours) then hours - 12
                   else hours).
  assert (Ha : 0 <= adjusted).
  { unfold adjusted.
    destruct (String.eqb meridiem "PM" && (hours <? 12)); [lia |].
    destruct (String.eqb meridiem "AM" && (hours =? 12)); [lia |].
    destruct (String.eqb meridiem "AM" && (12 <? hours)) eqn:E; [| lia].
    apply andb_true_iff in E as [_ E]. apply Z.ltb_lt in E. lia. }
  destruct ((23 <? adjusted) || (60 <=? minutes)) eqn:E; [discriminate |].
  apply orb_false_iff in E as [E1 E2]. apply Z.ltb_ge in E1. apply Z.leb_gt in E2.
  intros [= <-]. exists adjusted, minutes. split; [lia |]. split; [lia | reflexivity].
Qed.

Lemma ToTime_range_witness :
  exists hours minutes : Z,
    0 <= hours <= 23 /\ 0 <= minutes <= 59 /\
    VTime (mkGoTime 0 "UTC")
    = VTime (time_Date (External := plainExternal) 0 1 1 hours minutes 0 0 "UTC").
Proof.
  exact (ToTime_range plainExternal "11:30 PM" (VTime (mkGoTime 0 "UTC")) eq_refl).
Defined.

(** *** Word options *)

Section WordOptionsFacts.

Lemma flatOptions_cons k v pairs :
  flatOptions ((k, v) :: pairs) = VString k :: v :: flatOptions pairs.
Proof. reflexivity. Qed.

Lemma flatOptions_length pairs : length (flatOptions pairs) = (2 * length pairs)%nat.
Proof.
  induction pairs as [| [k v] pairs IH]; [reflexivity |].
  rewrite flatOptions_cons. cbn [length]. rewrite IH. lia.
Qed.

Lemma NewWordOptions_loop_flat : forall pairs opts,
  NewWordOptions_loop (flatOptions pairs) opts
  = inl (mkWordOptions (fold_left (fun m p => <[fst p := snd p]> m) pairs opts)).
Proof.
  induction pairs as [| [k v] pairs IH]; intros opts; [reflexivity |].
  rewrite flatOptions_cons. cbn [NewWordOptions_loop fold_left fst snd]. apply IH.
Qed.

Lemma options_fold_lookup key : forall pairs (opts : gmap string Value),
  fold_left (fun m p => <[fst p := snd p]> m) pairs opts !! key
  = match lastOption key pairs with
    | Some v => Some v
    | None => opts !! key
    end.
Proof.
  induction pairs as [| [k v] pairs IH] using rev_ind; intros opts; [reflexivity |].
  rewrite fold_left_app. cbn [fold_left fst snd]. unfold lastOption.
  rewrite rev_app_distr. cbn [rev app List.find fst snd].
  destruct (String.eqb_spec k key) as [-> | Hne].
  - apply lookup_insert_eq.
  - rewrite lookup_insert_ne by exact Hne. apply IH.
Qed.

Lemma NewWordOptions_flat pairs :
  NewWordOptions (VArray (flatOptions pairs))
  = inl (mkWordOptions (fold_left (fun m p => <[fst p := snd p]> m) pairs ∅)).
Proof.
  unfold NewWordOptions. rewrite flatOptions_length.
  replace (Z.of_nat (2 * length pairs) mod 2 =? 0) with true.
  - cbn [negb]. apply NewWordOptions_loop_flat.
  - symmetry. apply Z.eqb_eq. rewrite Nat2Z.inj_mul, Z.mul_comm. apply Z.mod_mul. lia.
Qed.

Lemma NewWordOptions_loop_pairs : forall n arr opts wo,
  length arr = (2 * n)%nat ->
  NewWordOptions_loop arr opts = inl wo ->
  exists pairs, arr = flatOptions pairs.
Proof.
  induction n as [| n IH]; intros arr opts wo Hlen Hrun.
  - destruct arr; [exists []; reflexivity | discriminate].
  - destruct arr as [| key [| value rest]]; try (cbn in Hlen; lia).
    cbn [NewWordOptions_loop] in Hrun.
    destruct key as [| | | | k | | | |]; try discriminate.
    destruct (IH rest _ wo ltac:(cbn in Hlen; lia) Hrun) as [pairs ->].
    exists ((k, value) :: pairs). reflexivity.
Qed.

End WordOptionsFacts.

(** X20. Options are built from an array of alternating keys
    and values, and a later pair overrides an earlier one with the same
    key: [Get] gives the value of the last pair that has the key, and for
    a key that no pair has the default (or nil without a default); [Has]
    tells whether some pair has the key. *)
Theorem word_options_last_wins :
  forall pairs : list (string * Value),
    exists wo : WordOptions,
      NewWordOptions (VArray (flatOptions pairs)) = inl wo /\
      forall (key : string) (defaultValue : list Value),
        WordOptions_Get wo key defaultValue
        = match lastOption key pairs with
          | Some v => v
          | None => match defaultValue with d :: _ => d | [] => VNil end
          end /\
        WordOptions_Has wo key
        = match lastOption key pairs with Some _ => true | None => false end.
Proof.
  intros pairs. eexists. split; [apply NewWordOptions_flat |].
  intros key defaultValue. unfold WordOptions_Get, WordOptions_Has. cbn [options].
  rewrite options_fold_lookup, lookup_empty.
  destruct (lastOption key pairs); split; reflexivity.
Qed.

(** X21. [NewWordOptions] accepts exactly the arrays that
    alternate string keys and values; any other value, an array of odd
    length and an array with a key that is not a string are errors. *)
Theorem NewWordOptions_accepts :
  forall flatArray : Value,
    (exists wo, NewWordOptions flatArray = inl wo) <->
    (exists pairs, flatArray = VArray (flatOptions pairs)).
Proof.
  intros flatArray. split.
  - intros [wo H]. unfold NewWordOptions in H.
    destruct flatArray as [| | | | | | arr | |]; try discriminate.
    destruct (Z.of_nat (length arr) mod 2 =? 0) eqn:E; [| discriminate].
    cbn [negb] in H. apply Z.eqb_eq in E.
    destruct (NewWordOptions_loop_pairs (length arr / 2) arr ∅ wo) as [pairs ->].
    + apply Nat2Z.inj. rewrite Nat2Z.inj_mul, Nat2Z.inj_div. cbn [Z.of_nat].
      pose proof (Z.div_mod (Z.of_nat (length arr)) 2 ltac:(lia)). lia.
    + exact H.
    + exists pairs. reflexivity.
  - intros [pairs ->]. eexists. apply NewWordOptions_flat.
Qed.

(** *** Word tokens *)

Section Words.

Lemma advancePosition_1 t : advancePosition 1 t = (Ok tt, advanceForward t).
Proof. reflexivity. Qed.

Lemma word_loop_S n t :
  GATHER_WORD_loop (S n) t =
  if atEnd t then (Ok tt, t) else
  if isWhitespace t (cur t) then (Ok tt, advanceForward t)
  else if ContainsRune ";{}#" (cur t) then advancePosition (-1) (advanceForward t)
  else if byteEq (cur t) "[" then
    if Contains (tokenString t) "T" then
      (writeRune (cur t) ;> let* t' := get in GATHER_WORD_tz_loop (bytesLeft t'))
        (advanceForward t)
    else advancePosition (-1) (advanceForward t)
  else if byteEq (cur t) "]" then advancePosition (-1) (advanceForward t)
  else GATHER_WORD_loop n (nameStep (cur t) t).
Proof.
  cbn [GATHER_WORD_loop]. unfold bind at 1. unfold get at 1.
  destruct (atEnd t); [reflexivity |].
  unfold bind at 1. rewrite advancePosition_1.
  destruct (isWhitespace t (cur t)); [reflexivity |].
  destruct (ContainsRune ";{}#" (cur t)); [reflexivity |].
  destruct (byteEq (cur t) "["); [destruct (Contains (tokenString t) "T"); reflexivity |].
  destruct (byteEq (cur t) "]"); reflexivity.
Qed.

Lemma sameScan_endsWord t t' ch : sameScan t t' -> endsWord t' ch = endsWord t ch.
Proof. intros (_ & H2 & _). unfold endsWord, isWhitespace. rewrite H2. reflexivity. Qed.

Lemma sameScan_isWhitespace t t' ch : sameScan t t' -> isWhitespace t' ch = isWhitespace t ch.
Proof. intros (_ & H2 & _). unfold isWhitespace. rewrite H2. reflexivity. Qed.

Lemma word_loop_stops : forall n t q,
  firstAt (inputString t) (endsWord t) (inputPos t) q ->
  0 <= inputPos t ->
  (Z.to_nat (q - inputPos t) < n)%nat ->
  (byteEq (byteAt (inputString t) q) "[" = true ->
   Contains (tokenString t +:+ written (inputString t) (inputPos t) (Z.to_nat (q - inputPos t)))
            "T" = false) ->
  exists t',
    GATHER_WORD_loop n t = (Ok tt, t') /\
    inputPos t' = (if isWhitespace t (byteAt (inputString t) q) then q + 1 else q) /\
    tokenString t'
    = tokenString t +:+ written (inputString t) (inputPos t) (Z.to_nat (q - inputPos t)) /\
    sameScan t t'.
Proof.
  induction n as [| n IH]; intros t q (Hq & Hd & Hfirst) Hp Hn HT; [lia |].
  rewrite word_loop_S. unfold atEnd.
  destruct (len (inputString t) <=? inputPos t) eqn:E; [apply Z.leb_le in E; lia |].
  destruct (Z.eq_dec q (inputPos t)) as [-> | Hne].
  - fold (cur t) in *. rewrite Z.sub_diag in *. cbn [Z.to_nat written] in *.
    rewrite append_empty_r in *.
    destruct (advanceForward_frame t) as (A1 & A2 & A3 & A4).
    destruct (isWhitespace t (cur t)) eqn:Hws.
    { exists (advanceForward t). split; [reflexivity |]. split; [exact A3 |].
      split; [exact A4 | apply sameScan_advanceForward]. }
    destruct (back_over_newline (advanceForward t) ltac:(rewrite A3; lia))
      as (t' & E' & P' & T' & S').
    assert (Hback : exists t',
              advancePosition (-1) (advanceForward t) = (Ok tt, t') /\
              inputPos t' = inputPos t /\ tokenString t' = tokenString t /\ sameScan t t').
    { exists t'. split; [exact E' |]. split; [rewrite P', A3; lia |].
      split; [rewrite T'; exact A4 |].
      eapply sameScan_trans; [apply sameScan_advanceForward | exact S']. }
    unfold endsWord in Hd. rewrite Hws in Hd. cbn [orb] in Hd.
    destruct (ContainsRune ";{}#" (cur t)); [exact Hback |].
    destruct (byteEq (cur t) "[") eqn:Hb; [rewrite (HT eq_refl); exact Hback |].
    destruct (byteEq (cur t) "]"); [exact Hback | discriminate].
  - assert (Hcur : endsWord t (cur t) = false) by (apply Hfirst; lia).
    unfold endsWord in Hcur.
    apply orb_false_iff in Hcur as [Hcur H4]. apply orb_false_iff in Hcur as [Hcur H3].
    apply orb_false_iff in Hcur as [H1 H2]. rewrite H1, H2, H3, H4.
    destruct (nameStep_frame (cur t) t) as (F3 & F4).
    pose proof (sameScan_nameStep (cur t) t) as HS. pose proof HS as (B1 & _).
    assert (Hw : tokenString (nameStep (cur t) t) +:+
                 written (inputString t) (inputPos t + 1) (Z.to_nat (q - (inputPos t + 1)))
                 = tokenString t +:+
                   written (inputString t) (inputPos t) (Z.to_nat (q - inputPos t))).
    { rewrite F4.
      replace (Z.to_nat (q - inputPos t)) with (S (Z.to_nat (q - (inputPos t + 1)))) by lia.
      rewrite written_cons. fold (cur t). rewrite !append_assoc'. reflexivity. }
    destruct (IH (nameStep (cur t) t) q) as (t' & E' & P' & T' & S').
    + rewrite B1, F3. split; [lia |]. split.
      * rewrite (sameScan_endsWord _ _ _ HS). exact Hd.
      * intros r Hr. rewrite (sameScan_endsWord _ _ _ HS). apply Hfirst. lia.
    + rewrite F3. lia.
    + rewrite F3. lia.
    + rewrite B1, F3, Hw. exact HT.
    + exists t'. rewrite E'. rewrite B1, F3, Hw in T'.
      rewrite B1, (sameScan_isWhitespace _ _ _ HS) in P'.
      split; [reflexivity |]. split; [exact P' |]. split; [exact T' |].
      eapply sameScan_trans; [exact HS | exact S'].
Qed.

Lemma word_loop_to_end : forall n t,
  0 <= inputPos t ->
  noneFrom (inputString t) (endsWord t) (inputPos t) ->
  (Z.to_nat (len (inputString t) - inputPos t) < n)%nat ->
  exists t',
    GATHER_WORD_loop n t = (Ok tt, t') /\
    inputPos t' = Z.max (inputPos t) (len (inputString t)) /\
    tokenString t'
    = tokenString t +:+ written (inputString t) (inputPos t)
                                (Z.to_nat (len (inputString t) - inputPos t)) /\
    sameScan t t'.
Proof.
  induction n as [| n IH]; intros t Hp Hnone Hn; [lia |].
  rewrite word_loop_S. unfold atEnd.
  destruct (len (inputString t) <=? inputPos t) eqn:E.
  - apply Z.leb_le in E. exists t. split; [reflexivity |]. split; [lia |]. split.
    + replace (Z.to_nat (len (inputString t) - inputPos t)) with 0%nat by lia.
      simpl. rewrite append_empty_r. reflexivity.
    + apply sameScan_refl.
  - apply Z.leb_gt in E.
    assert (Hcur : endsWord t (cur t) = false) by (apply Hnone; lia).
    unfold endsWord in Hcur.
    apply orb_false_iff in Hcur as [Hcur H4]. apply orb_false_iff in Hcur as [Hcur H3].
    apply orb_false_iff in Hcur as [H1 H2]. rewrite H1, H2, H3, H4.
    destruct (nameStep_frame (cur t) t) as (F3 & F4).
    pose proof (sameScan_nameStep (cur t) t) as HS. pose proof HS as (B1 & _).
    destruct (IH (nameStep (cur t) t)) as (t' & E' & P' & T' & S').
    + rewrite F3. lia.
    + rewrite B1, F3. intros r Hr. rewrite (sameScan_endsWord _ _ _ HS). apply Hnone. lia.
    + rewrite B1, F3. lia.
    + exists t'. split; [exact E' |]. rewrite B1, F3 in *. split; [lia |]. split.
      * rewrite T', F4.
        replace (Z.to_nat (len (inputString t) - inputPos t))
          with (S (Z.to_nat (len (inputString t) - (inputPos t + 1)))) by lia.
        rewrite written_cons. fold (cur t). rewrite !append_assoc'. reflexivity.
      * eapply sameScan_trans; [exact HS | exact S'].
Qed.

(** From the start state, on a byte that starts a word, [NextToken]
    gathers a word from that byte, with an empty text to begin with. *)
Lemma NextToken_word t :
  0 <= inputPos t < len (inputString t) ->
  startsWord t = true ->
  exists t0,
    inputString t0 = inputString t /\ whitespace t0 = whitespace t /\
    inputPos t0 = inputPos t /\ tokenString t0 = EmptyString /\
    NextToken t
    = match GATHER_WORD_loop (bytesLeft t0) t0 with
      | (Ok _, t') =>
        (Ok (Some (NewToken TOKEN_WORD (tokenString t') (Some (getTokenLocation t')))), t')
      | (Err e, t') => (Err e, t')
      | (Panic pv, t') => (Panic pv, t')
      | (OutOfFuel, t') => (OutOfFuel, t')
      end.
Proof.
  intros Hp Hs. unfold startsWord in Hs.
  apply andb_true_iff in Hs as [Hs Hdot]. apply andb_true_iff in Hs as [Hs Hquote].
  apply andb_true_iff in Hs as [Hs Hmemo]. apply andb_true_iff in Hs as [Hs Hcolon].
  apply negb_true_iff in Hs, Hdot, Hquote, Hmemo, Hcolon. unfold endsWord in Hs.
  apply orb_false_iff in Hs as [Hs H4]. apply orb_false_iff in Hs as [Hs H3].
  apply orb_false_iff in Hs as [H1 H2].
  set (t1 := noteStartToken (clearTokenString t)).
  destruct (advanceForward_frame t1) as (A1 & A2 & A3 & A4).
  destruct (back_over_newline (advanceForward t1)
              ltac:(rewrite A3; unfold t1; cbn [inputPos noteStartToken clearTokenString
                      set_tokenStart set_tokenString]; lia))
    as (t2 & E2 & P2 & T2 & S2).
  pose proof (sameScan_trans _ _ _ (sameScan_advanceForward t1) S2) as S12.
  exists (noteStartToken t2).
  destruct S12 as (B1 & B2 & B3 & _).
  assert (Hpos : inputPos t2 = inputPos t) by (rewrite P2, A3; unfold t1; cbn; lia).
  split; [cbn; rewrite B1; reflexivity |]. split; [cbn; rewrite B2; reflexivity |].
  split; [cbn; exact Hpos |]. split; [cbn; rewrite T2, A4; reflexivity |].
  unfold NextToken, transitionFromSTART.
  unfold bind at 1. unfold modify at 1. unfold bind at 1. unfold get at 1.
  change (bytesLeft (clearTokenString t)) with (bytesLeft t).
  unfold bytesLeft at 1. cbn [START_loop].
  unfold bind at 1. unfold get at 1.
  change (atEnd (clearTokenString t)) with (atEnd t). unfold atEnd.
  destruct (len (inputString t) <=? inputPos t) eqn:E; [apply Z.leb_le in E; lia |].
  unfold bind at 1. unfold modify at 1. fold t1.
  unfold bind at 1. rewrite advancePosition_1.
  unfold bind at 1. unfold get at 1.
  change (cur (clearTokenString t)) with (cur t).
  assert (Hw : isWhitespace (advanceForward t1) (cur t) = false).
  { rewrite <- H1. unfold isWhitespace. f_equal.
    destruct (sameScan_advanceForward t1) as (_ & W & _). rewrite W. reflexivity. }
  assert (Hq : isQuote (advanceForward t1) (cur t) = false).
  { rewrite <- Hquote.
    unfold isQuote. f_equal. rewrite A2. reflexivity. }
  assert (Hm : isStartMemo (advanceForward t1) (inputPos (advanceForward t1) - 1) = false).
  { rewrite <- Hmemo.
    unfold isStartMemo. rewrite A1, A3. unfold t1. cbn [inputPos inputString noteStartToken
      clearTokenString set_tokenStart set_tokenString].
    replace (inputPos t + 1 - 1) with (inputPos t) by lia. reflexivity. }
  assert (Htq : isTripleQuote (advanceForward t1) (inputPos (advanceForward t1) - 1) (cur t)
                = false).
  { unfold isTripleQuote. rewrite Hq. reflexivity. }
  rewrite Hw, Hm, Htq, Hq.
  cbn [ContainsRune orb] in H2.
  assert (Hne : byteEq (cur t) "#" = false /\ byteEq (cur t) ";" = false /\
                byteEq (cur t) "{" = false /\ byteEq (cur t) "}" = false).
  { unfold byteEq in *. rewrite !(Ascii.eqb_sym _ (cur t)) in H2.
    repeat (apply orb_false_iff in H2 as [? H2]). auto. }
  destruct Hne as (N1 & N2 & N3 & N4).
  rewrite N1, Hcolon, N2, H3, H4, N3, N4, Hdot.
  unfold bind at 1. rewrite E2.
  unfold transitionFromGATHER_WORD.
  unfold bind at 1. unfold modify at 1.
  unfold bind at 1. unfold bind at 1. unfold get at 1.
  destruct (GATHER_WORD_loop (bytesLeft (noteStartToken t2)) (noteStartToken t2))
    as [[[] | e | pv |] t'] eqn:EL; reflexivity.
Qed.

End Words.

Section WordTokens.

Lemma NextToken_word_stops t q :
  0 <= inputPos t < len (inputString t) ->
  startsWord t = true ->
  firstAt (inputString t) (endsWord t) (inputPos t) q ->
  (byteEq (byteAt (inputString t) q) "[" = true ->
   Contains (written (inputString t) (inputPos t) (Z.to_nat (q - inputPos t))) "T" = false) ->
  exists tok t',
    NextToken t = (Ok (Some tok), t') /\
    Type_ tok = TOKEN_WORD /\
    String_ tok = written (inputString t) (inputPos t) (Z.to_nat (q - inputPos t)) /\
    inputPos t' = (if isWhitespace t (byteAt (inputString t) q) then q + 1 else q) /\
    inputString t' = inputString t.
Proof.
  intros Hp Hs Hq HT.
  destruct (NextToken_word t Hp Hs) as (t0 & I1 & I2 & I3 & I4 & Hrun).
  assert (Hends : forall ch, endsWord t0 ch = endsWord t ch).
  { intros ch. unfold endsWord, isWhitespace. rewrite I2. reflexivity. }
  destruct (word_loop_stops (bytesLeft t0) t0 q) as (t' & E & P & T & S).
  - rewrite I1, I3. destruct Hq as (Hq1 & Hq2 & Hq3).
    split; [exact Hq1 |]. split; [rewrite Hends; exact Hq2 |].
    intros r Hr. rewrite Hends. apply Hq3, Hr.
  - lia.
  - unfold bytesLeft. rewrite I1, I3. destruct Hq as (Hq1 & _). lia.
  - rewrite I1, I3, I4. exact HT.
  - rewrite E in Hrun. eexists. exists t'. split; [exact Hrun |].
    split; [reflexivity |]. cbn [String_].
    split; [rewrite T, I1, I3, I4; reflexivity |].
    split; [rewrite P, I1; unfold isWhitespace; rewrite I2; reflexivity |].
    destruct S as (S1 & _). rewrite S1. exact I1.
Qed.

Lemma NextToken_word_to_end t :
  0 <= inputPos t < len (inputString t) ->
  startsWord t = true ->
  noneFrom (inputString t) (endsWord t) (inputPos t) ->
  exists tok t',
    NextToken t = (Ok (Some tok), t') /\
    Type_ tok = TOKEN_WORD /\
    String_ tok
    = written (inputString t) (inputPos t) (Z.to_nat (len (inputString t) - inputPos t)) /\
    inputPos t' = len (inputString t) /\
    inputString t' = inputString t /\ whitespace t' = whitespace t.
Proof.
  intros Hp Hs Hnone.
  destruct (NextToken_word t Hp Hs) as (t0 & I1 & I2 & I3 & I4 & Hrun).
  assert (Hends : forall ch, endsWord t0 ch = endsWord t ch).
  { intros ch. unfold endsWord, isWhitespace. rewrite I2. reflexivity. }
  destruct (word_loop_to_end (bytesLeft t0) t0) as (t' & E & P & T & S).
  - lia.
  - rewrite I1, I3. intros r Hr. rewrite Hends. apply Hnone, Hr.
  - unfold bytesLeft. lia.
  - rewrite E in Hrun. eexists. exists t'. split; [exact Hrun |].
    split; [reflexivity |]. cbn [String_].
    split; [rewrite T, I1, I3, I4; reflexivity |].
    split; [rewrite P, I1, I3; lia |].
    destruct S as (S1 & S2 & _). rewrite S1, S2. split; [exact I1 | exact I2].
Qed.

End WordTokens.

(** X22. A word runs from a byte that starts one up to the first
    byte that is whitespace or one of the characters that start another
    token.  Whitespace there is consumed with the word; any other such
    byte is left for the next token (an opening bracket only when the
    word has no letter T so far); at the end of the input the word is what
    was left.  The text of the token is what the tokenizer writes for the
    bytes of the word. *)
Theorem word_token :
  forall t : Tokenizer,
    0 <= inputPos t < len (inputString t) ->
    startsWord t = true ->
    (forall q,
       firstAt (inputString t) (endsWord t) (inputPos t) q ->
       let text := written (inputString t) (inputPos t) (Z.to_nat (q - inputPos t)) in
       (byteEq (byteAt (inputString t) q) "[" = true -> Contains text "T" = false) ->
       exists tok t',
         NextToken t = (Ok (Some tok), t') /\
         Type_ tok = TOKEN_WORD /\
         String_ tok = text /\
         inputPos t' = (if isWhitespace t (byteAt (inputString t) q) then q + 1 else q)) /\
    (noneFrom (inputString t) (endsWord t) (inputPos t) ->
     exists tok t',
       NextToken t = (Ok (Some tok), t') /\
       Type_ tok = TOKEN_WORD /\
       String_ tok
       = written (inputString t) (inputPos t) (Z.to_nat (len (inputString t) - inputPos t)) /\
       inputPos t' = len (inputString t)).
Proof.
  intros t Hp Hs. split.
  - intros q Hq text HT.
    destruct (NextToken_word_stops t q Hp Hs Hq HT) as (tok & t' & E & Ty & St & P & _).
    exists tok, t'. auto.
  - intros Hnone.
    destruct (NextToken_word_to_end t Hp Hs Hnone) as (tok & t' & E & Ty & St & P & _).
    exists tok, t'. auto.
Qed.

Lemma word_token_witness :
  (exists tok t',
     NextToken (NewTokenizer "DUP;" None false) = (Ok (Some tok), t') /\
     String_ tok = "DUP" /\ inputPos t' = 3) /\
  (exists tok t',
     NextToken (NewTokenizer "SWAP" None false) = (Ok (Some tok), t') /\
     String_ tok = "SWAP" /\ inputPos t' = 4).
Proof.
  split.
  - destruct (proj1 (word_token (NewTokenizer "DUP;" None false)
                       ltac:(vm_compute; split; [discriminate | reflexivity]) eq_refl) 3)
      as (tok & t' & E & _ & Hs & P).
    + split; [vm_compute; split; [discriminate | reflexivity] |].
      split; [reflexivity |]. intros r Hr.
      change (inputPos (NewTokenizer "DUP;" None false)) with 0 in Hr.
      assert (r = 0 \/ r = 1 \/ r = 2) as [-> | [-> | ->]] by lia; reflexivity.
    + discriminate.
    + exists tok, t'. split; [exact E |]. split; [rewrite Hs; reflexivity | exact P].
  - destruct (proj2 (word_token (NewTokenizer "SWAP" None false)
                       ltac:(vm_compute; split; [discriminate | reflexivity]) eq_refl))
      as (tok & t' & E & _ & Hs & P).
    + intros r Hr.
      change (inputPos (NewTokenizer "SWAP" None false)) with 0 in Hr.
      change (len (inputString (NewTokenizer "SWAP" None false))) with 4 in Hr.
      assert (r = 0 \/ r = 1 \/ r = 2 \/ r = 3) as [-> | [-> | [-> | ->]]] by lia; reflexivity.
    + exists tok, t'. split; [exact E |]. split; [rewrite Hs; reflexivity | exact P].
Defined.

(** *** Running an integer *)

Section IntegerText.

Lemma integerByte_all (P : ascii -> bool) :
  forallb P ["0"; "1"; "2"; "3"; "4"; "5"; "6"; "7"; "8"; "9"; "-"]%char = true ->
  forall c, integerByte c = true -> P c = true.
Proof.
  intros HP c Hc. cbn [forallb] in HP.
  repeat (apply andb_true_iff in HP as [? HP]).
  destruct c as [[] [] [] [] [] [] [] []]; try (cbv in Hc; discriminate Hc); assumption.
Qed.

Lemma integerShape_bytes : forall s r,
  integerShape s = true -> 0 <= r < len s -> integerByte (byteAt s r) = true.
Proof.
  assert (Hd : forall s r, digitsOnly s = true -> 0 <= r < len s ->
                           integerByte (byteAt s r) = true).
  { induction s as [| c s IH]; intros r H Hr; [unfold len in Hr; simpl in Hr; lia |].
    cbn [digitsOnly] in H. apply andb_true_iff in H as [Hc H].
    destruct (Z.eq_dec r 0) as [-> | Hne].
    - unfold integerByte. change (byteAt (String c s) 0) with c. rewrite Hc. reflexivity.
    - unfold len in *. cbn [String.length] in Hr.
      replace (byteAt (String c s) r) with (byteAt s (r - 1)); [apply IH; [exact H | lia] |].
      unfold byteAt. destruct (r <? 0) eqn:E1; [apply Z.ltb_lt in E1; lia |].
      destruct (r - 1 <? 0) eqn:E2; [apply Z.ltb_lt in E2; lia |].
      replace (Z.to_nat r) with (S (Z.to_nat (r - 1))) by lia. reflexivity. }
  intros s r H Hr. destruct s as [| c s]; [discriminate |].
  cbn [integerShape] in H. apply andb_true_iff in H as [Hc H].
  destruct (Z.eq_dec r 0) as [-> | Hne]; [exact Hc |].
  unfold len in *. cbn [String.length] in Hr.
  replace (byteAt (String c s) r) with (byteAt s (r - 1));
    [apply Hd; [exact H | unfold len; lia] |].
  unfold byteAt. destruct (r <? 0) eqn:E1; [apply Z.ltb_lt in E1; lia |].
  destruct (r - 1 <? 0) eqn:E2; [apply Z.ltb_lt in E2; lia |].
  replace (Z.to_nat r) with (S (Z.to_nat (r - 1))) by lia. reflexivity.
Qed.

Lemma integerShape_no_ampersand s : integerShape s = true -> ContainsRune s "&" = false.
Proof.
  assert (Hd : forall d, digitsOnly d = true -> ContainsRune d "&" = false).
  { induction d as [| c d IH]; intros H; [reflexivity |].
    cbn [digitsOnly] in H. apply andb_true_iff in H as [Hc H]. cbn [ContainsRune].
    rewrite (IH H), orb_false_r. apply (digit_not c "&" Hc eq_refl). }
  destruct s as [| c s]; [discriminate |]. cbn [integerShape]. intros H.
  apply andb_true_iff in H as [Hc H]. cbn [ContainsRune]. rewrite (Hd s H), orb_false_r.
  apply negb_true_iff.
  apply (integerByte_all (fun c => negb (byteEq c "&")) eq_refl c Hc).
Qed.

Lemma integerShape_unescape s : integerShape s = true -> unescapeString s = s.
Proof.
  intros H. unfold unescapeString, ReplaceAll.
  rewrite (ReplaceAll_go_absent "&" "lt;" "<" _ s (integerShape_no_ampersand s H)).
  apply ReplaceAll_go_absent, integerShape_no_ampersand, H.
Qed.

Lemma substring_all : forall s : string, substring 0 (String.length s) s = s.
Proof. induction s as [| c s IH]; [reflexivity |]. cbn [String.length substring]. rewrite IH. reflexivity. Qed.

(** The tokens of the text of an integer: one word, then the end. *)
Lemma integer_text_tokens s :
  integerShape s = true ->
  exists tok t' eos,
    NextToken (NewTokenizer s None false) = (Ok (Some tok), t') /\
    Type_ tok = TOKEN_WORD /\ String_ tok = s /\
    fst (NextToken t') = Ok (Some eos) /\ Type_ eos = TOKEN_EOS.
Proof.
  intros H. set (t := NewTokenizer s None false).
  assert (Hin : inputString t = s) by (unfold t; cbn; apply integerShape_unescape, H).
  assert (Hlen : 0 < len s) by (destruct s; [discriminate | unfold len; cbn; lia]).
  assert (Hpos : inputPos t = 0) by reflexivity.
  pose proof (integerShape_bytes s) as Hbytes.
  assert (Hends : forall r, 0 <= r < len s -> endsWord t (byteAt s r) = false).
  { intros r Hr. apply negb_true_iff.
    apply (integerByte_all (fun c => negb (endsWord t c)) eq_refl _ (Hbytes r H Hr)). }
  destruct (NextToken_word_to_end t) as (tok & t' & E & Ty & St & P & In' & Ws').
  - rewrite Hin, Hpos. lia.
  - unfold startsWord, cur. rewrite Hin, Hpos.
    pose proof (Hbytes 0 H ltac:(lia)) as Hb.
    rewrite (Hends 0 ltac:(lia)).
    rewrite (proj1 (negb_true_iff _)
               (integerByte_all (fun c => negb (byteEq c ":")) eq_refl _ Hb)).
    rewrite (proj1 (negb_true_iff _)
               (integerByte_all (fun c => negb (isQuote t c)) eq_refl _ Hb)).
    rewrite (proj1 (negb_true_iff _)
               (integerByte_all (fun c => negb (byteEq c ".")) eq_refl _ Hb)).
    assert (Hmemo : isStartMemo t 0 = false).
    { unfold isStartMemo. rewrite Hin. destruct (len s <=? 0 + 1); [reflexivity |].
      rewrite (proj1 (negb_true_iff _)
                 (integerByte_all (fun c => negb (byteEq c "@")) eq_refl _ Hb)).
      reflexivity. }
    rewrite Hmemo. reflexivity.
  - rewrite Hin, Hpos. intros r Hr. apply Hends. lia.
  - destruct (NextToken_rest_blank t') as (eos & E2 & Ty2).
    + rewrite P, In'. unfold len. lia.
    + rewrite P, In'. intros q Hq. lia.
    + exists tok, t', eos. split; [exact E |]. split; [exact Ty |]. split; [| auto].
      rewrite St, Hin, Hpos, Z.sub_0_r.
      rewrite written_ascii.
      * unfold len. rewrite Nat2Z.id. apply substring_all.
      * lia.
      * unfold len. lia.
      * intros r Hr. apply (integerByte_all isASCII eq_refl). apply Hbytes; [exact H |].
        unfold len in *. lia.
Qed.

End IntegerText.

Section RunInteger.
Context {host : Host}.

Lemma handleEOS_plain i : isCompiling i = false -> handleEOS i = (Ok tt, i).
Proof. intros H. unfold handleEOS. rewrite H. reflexivity. Qed.

End RunInteger.

(** X23. Running the decimal text of a 64-bit integer pushes that
    integer.  This holds for an interpreter with the standard literal
    handlers that is outside a definition and whose modules on the module
    stack have no word or variable of that name; two iterations of the
    loop are enough, and nothing else of the interpreter changes but the
    token it remembers as the previous one. *)
Theorem Run_integer :
  forall (host : Host) (external : External) (i : Interpreter) (loc : string)
         (n : Z) (fuel : nat),
    inInt64 n ->
    isCompiling i = false ->
    literalHandlers i = standardHandlers loc ->
    Forall (fun r => exists m, moduleHeap (heap i) !! r = Some m /\
                               Module_FindWord m (strconv_FormatInt n) = None)
           (moduleStack i) ->
    exists tok,
      Type_ tok = TOKEN_WORD /\ String_ tok = strconv_FormatInt n /\
      Run (S (S fuel)) (strconv_FormatInt n) i
      = (Ok tt, set_previousToken (Some tok) (set_stack (stack i ++ [VInt n]) i)).
Proof.
  intros host external i loc n fuel Hn Hc Hl Hm. set (text := strconv_FormatInt n) in *.
  destruct (integer_text_tokens text (FormatInt_shape n))
    as (tok & t' & eos & E1 & Ty1 & St1 & E2 & Ty2).
  exists tok. split; [exact Ty1 |]. split; [exact St1 |].
  destruct i as [st app ms rm ts prev comp memo cur lits tz hp].
  cbn [isCompiling literalHandlers heap moduleStack] in Hc, Hl, Hm. subst comp lits.
  unfold Run. cbn [tokenizerStack set_tokenizerStack].
  set (tk := NewTokenizer text None false) in *.
  set (i1 := set_tokenizerStack (ts ++ [tk]) _).
  assert (N1 : nextToken i1
               = (Ok (Some tok),
                  mkInterpreter st app ms rm (ts ++ [t']) prev false memo cur
                                (standardHandlers loc) tz hp)).
  { rewrite (nextToken_top i1 ts tk eq_refl). rewrite E1. reflexivity. }
  set (i2 := mkInterpreter st app ms rm (ts ++ [t']) prev false memo cur
                           (standardHandlers loc) tz hp) in *.
  assert (F : FindWord text i2 = (Ok (NewPushValueWord text (VInt n)), i2)).
  { rewrite FindWord_not_in_modules by exact Hm.
    unfold findLiteralWord. cbn [literalHandlers i2]. unfold standardHandlers, text.
    rewrite (standard_handlers_integer loc n Hn). reflexivity. }
  assert (H2 : handleToken tok i2
               = (Ok tt, mkInterpreter (st ++ [VInt n]) app ms rm (ts ++ [t']) prev false memo
                                       cur (standardHandlers loc) tz hp)).
  { unfold handleToken. rewrite Ty1. unfold handleWordToken. rewrite St1.
    rewrite (bind_Ok _ _ _ _ _ F). reflexivity. }
  set (i3 := mkInterpreter (st ++ [VInt n]) app ms rm (ts ++ [t']) prev false memo
                           cur (standardHandlers loc) tz hp) in *.
  set (i4 := set_previousToken (Some tok) i3).
  assert (N2 : nextToken i4
               = (Ok (Some eos),
                  set_tokenizerStack (ts ++ [snd (NextToken t')]) i4)).
  { rewrite (nextToken_top i4 ts t' eq_refl). rewrite E2. reflexivity. }
  assert (R2 : runWithTokenizer (S fuel) i4
               = (Ok tt, set_tokenizerStack (ts ++ [snd (NextToken t')]) i4)).
  { cbn [runWithTokenizer]. rewrite (bind_Ok _ _ _ _ _ N2).
    assert (H3 : handleToken eos (set_tokenizerStack (ts ++ [snd (NextToken t')]) i4)
                 = (Ok tt, set_tokenizerStack (ts ++ [snd (NextToken t')]) i4)).
    { unfold handleToken. rewrite Ty2. apply handleEOS_plain. reflexivity. }
    rewrite (bind_Ok _ _ _ _ _ H3). unfold isEOS. rewrite Ty2. reflexivity. }
  assert (R1 : runWithTokenizer (S (S fuel)) i1
               = (Ok tt, set_tokenizerStack (ts ++ [snd (NextToken t')]) i4)).
  { change (runWithTokenizer (S (S fuel)))
      with (let* next := nextToken in
            match next with
            | None => panic nilDereference
            | Some token =>
              handleToken token ;>
              if isEOS token then ret tt
              else modify (set_previousToken (Some token)) ;> runWithTokenizer (S fuel)
            end).
    rewrite (bind_Ok _ _ _ _ _ N1). rewrite (bind_Ok _ _ _ _ _ H2).
    unfold isEOS. rewrite Ty1.
    rewrite (bind_Ok _ _ i3 tt i4 eq_refl). exact R2. }
  rewrite R1. cbn. rewrite removelast_last. reflexivity.
Qed.

Lemma Run_integer_witness :
  exists tok,
    Run (host := mathHost) 2 "-42" (snd (NewInterpreter (external := plainExternal) emptyHeap []))
    = (Ok tt,
       set_previousToken (Some tok)
         (set_stack [VInt (-42)] (snd (NewInterpreter (external := plainExternal) emptyHeap [])))).
Proof.
  destruct (Run_integer mathHost plainExternal
              (snd (NewInterpreter (external := plainExternal) emptyHeap [])) "UTC" (-42) 0)
    as (tok & _ & _ & E).
  - unfold inInt64. lia.
  - reflexivity.
  - reflexivity.
  - constructor; [| constructor]. eexists. split; reflexivity.
  - exists tok. exact E.
Defined.

(** *** Running a string literal *)

Section ByteAccess.

Lemma byteAt_0 c s : byteAt (String c s) 0 = c.
Proof. reflexivity. Qed.

Lemma byteAt_S c s r : 0 <= r -> byteAt (String c s) (r + 1) = byteAt s r.
Proof.
  intros Hr. unfold byteAt.
  destruct (r + 1 <? 0) eqn:E1; [apply Z.ltb_lt in E1; lia |].
  destruct (r <? 0) eqn:E2; [apply Z.ltb_lt in E2; lia |].
  replace (Z.to_nat (r + 1)) with (S (Z.to_nat r)) by lia. reflexivity.
Qed.

Lemma byteAt_app_l : forall a b r, 0 <= r < len a -> byteAt (a +:+ b) r = byteAt a r.
Proof.
  induction a as [| c a IH]; intros b r Hr; [unfold len in Hr; simpl in Hr; lia |].
  rewrite append_cons. destruct (Z.eq_dec r 0) as [-> | Hne]; [reflexivity |].
  replace r with (r - 1 + 1) by lia. rewrite !byteAt_S by lia. apply IH.
  unfold len in *. cbn [String.length] in Hr. lia.
Qed.

Lemma byteAt_app_r : forall a c b, byteAt (a +:+ String c b) (len a) = c.
Proof.
  induction a as [| x a IH]; intros c b; [reflexivity |].
  rewrite append_cons. unfold len. cbn [String.length].
  replace (Z.of_nat (S (String.length a))) with (len a + 1) by (unfold len; lia).
  rewrite byteAt_S by (unfold len; lia). apply IH.
Qed.

Lemma len_append a b : len (a +:+ b) = len a + len b.
Proof. unfold len. rewrite append_length. lia. Qed.

Lemma substring_app_l : forall a b : string, substring 0 (String.length a) (a +:+ b) = a.
Proof.
  induction a as [| c a IH]; intros b.
  - destruct b; reflexivity.
  - rewrite append_cons. cbn [String.length substring]. rewrite IH. reflexivity.
Qed.

Lemma plainText_bytes q : forall text r,
  plainText q text = true -> 0 <= r < len text ->
  isASCII (byteAt text r) = true /\ byteEq (byteAt text r) q = false /\
  byteEq (byteAt text r) "&" = false.
Proof.
  induction text as [| c text IH]; intros r H Hr; [unfold len in Hr; simpl in Hr; lia |].
  cbn [plainText] in H. apply andb_true_iff in H as [H Hrest].
  apply andb_true_iff in H as [H Hamp]. apply andb_true_iff in H as [Hascii Hq].
  apply negb_true_iff in Hamp, Hq.
  destruct (Z.eq_dec r 0) as [-> | Hne]; [rewrite byteAt_0; auto |].
  replace r with (r - 1 + 1) by lia. rewrite byteAt_S by lia. apply IH; [exact Hrest |].
  unfold len in *. cbn [String.length] in Hr. lia.
Qed.

Lemma plainText_no_ampersand q : forall text,
  plainText q text = true -> forall tail,
  ContainsRune (text +:+ tail) "&" = ContainsRune tail "&".
Proof.
  induction text as [| c text IH]; intros H tail; [reflexivity |].
  cbn [plainText] in H. apply andb_true_iff in H as [H Hrest].
  apply andb_true_iff in H as [_ Hamp]. apply negb_true_iff in Hamp.
  rewrite append_cons. cbn [ContainsRune]. rewrite Hamp. cbn [orb]. apply IH, Hrest.
Qed.

End ByteAccess.

Section StringLiterals.

(** From the start state, on a quote that opens a string with a single
    delimiter, [NextToken] gathers the string that follows the quote. *)
Lemma NextToken_quote t :
  0 <= inputPos t < len (inputString t) ->
  startsString t = true ->
  NextToken t
  = transitionFromGATHER_STRING (cur t) (advanceForward (noteStartToken (clearTokenString t))).
Proof.
  intros Hp Hs. unfold startsString in Hs.
  apply andb_true_iff in Hs as [Hs Htriple]. apply andb_true_iff in Hs as [Hs Hmemo].
  apply andb_true_iff in Hs as [Hs Hspecial]. apply andb_true_iff in Hs as [Hquote Hws].
  apply negb_true_iff in Htriple, Hmemo, Hspecial, Hws.
  set (t1 := noteStartToken (clearTokenString t)).
  destruct (advanceForward_frame t1) as (A1 & A2 & A3 & A4).
  destruct (sameScan_advanceForward t1) as (_ & W & _).
  unfold NextToken, transitionFromSTART.
  unfold bind at 1. unfold modify at 1. unfold bind at 1. unfold get at 1.
  change (bytesLeft (clearTokenString t)) with (bytesLeft t).
  unfold bytesLeft at 1. cbn [START_loop].
  unfold bind at 1. unfold get at 1.
  change (atEnd (clearTokenString t)) with (atEnd t). unfold atEnd.
  destruct (len (inputString t) <=? inputPos t) eqn:E; [apply Z.leb_le in E; lia |].
  unfold bind at 1. unfold modify at 1. fold t1.
  unfold bind at 1. rewrite advancePosition_1.
  unfold bind at 1. unfold get at 1.
  change (cur (clearTokenString t)) with (cur t).
  assert (Hw : isWhitespace (advanceForward t1) (cur t) = false).
  { rewrite <- Hws. unfold isWhitespace. f_equal. rewrite W. reflexivity. }
  assert (Hq : isQuote (advanceForward t1) (cur t) = true).
  { rewrite <- Hquote. unfold isQuote. f_equal. rewrite A2. reflexivity. }
  assert (Hpos : inputPos (advanceForward t1) - 1 = inputPos t).
  { rewrite A3. unfold t1. cbn. lia. }
  assert (Hm : isStartMemo (advanceForward t1) (inputPos (advanceForward t1) - 1) = false).
  { rewrite <- Hmemo, Hpos. unfold isStartMemo. rewrite A1. reflexivity. }
  assert (Htq : isTripleQuote (advanceForward t1) (inputPos (advanceForward t1) - 1) (cur t)
                = false).
  { rewrite <- Htriple, Hpos. unfold isTripleQuote, isQuote. rewrite A1, A2. reflexivity. }
  cbn [ContainsRune orb] in Hspecial.
  unfold byteEq in *. rewrite !(Ascii.eqb_sym _ (cur t)) in Hspecial.
  repeat (apply orb_false_iff in Hspecial as [? Hspecial]).
  rewrite Hw, Hm, Htq, Hq.
  repeat match goal with
         | H : Ascii.eqb (cur t) _ = false |- _ => rewrite H; clear H
         end.
  reflexivity.
Qed.

(** The tokens of a plain string literal: the string, then the end. *)
Lemma quoted_tokens q text :
  isQuote (NewTokenizer EmptyString None false) q = true ->
  plainText q text = true ->
  exists tok t' eos,
    NextToken (NewTokenizer (quoted q text) None false) = (Ok (Some tok), t') /\
    Type_ tok = TOKEN_STRING /\ String_ tok = text /\
    fst (NextToken t') = Ok (Some eos) /\ Type_ eos = TOKEN_EOS.
Proof.
  intros Hq Hplain.
  assert (Hcases : q = "034"%char \/ q = "'"%char \/ q = "^"%char).
  { unfold isQuote, inList in Hq. cbn [quoteChars NewTokenizer existsb] in Hq.
    unfold byteEq in Hq.
    destruct (Ascii.eqb_spec q "034"); [auto |].
    destruct (Ascii.eqb_spec q "'"); [auto |].
    destruct (Ascii.eqb_spec q "^"); [auto | discriminate]. }
  set (code := quoted q text).
  assert (Hamp : ContainsRune code "&" = false).
  { unfold code, quoted. cbn [ContainsRune].
    rewrite (plainText_no_ampersand q text Hplain).
    destruct Hcases as [-> | [-> | ->]]; reflexivity. }
  assert (Hun : unescapeString code = code).
  { unfold unescapeString, ReplaceAll.
    rewrite (ReplaceAll_go_absent "&" "lt;" "<" _ code Hamp).
    apply ReplaceAll_go_absent, Hamp. }
  set (t := NewTokenizer code None false).
  assert (Hin : inputString t = code) by (unfold t; cbn; exact Hun).
  assert (Hpos : inputPos t = 0) by reflexivity.
  assert (Hlen : len code = len text + 2).
  { unfold code, quoted, len. cbn [String.length]. rewrite append_length. cbn. lia. }
  pose proof (Zle_0_nat (String.length text)) as Hlt. fold (len text) in Hlt.
  assert (Hcur : cur t = q) by (unfold cur; rewrite Hin, Hpos; reflexivity).
  assert (Hbody : forall r, 1 <= r < 1 + len text -> byteAt code r = byteAt text (r - 1)).
  { intros r Hr. unfold code, quoted. replace r with (r - 1 + 1) at 1 by lia.
    rewrite byteAt_S by lia. apply byteAt_app_l. lia. }
  assert (Hclose : byteAt code (1 + len text) = q).
  { unfold code, quoted. rewrite Z.add_comm, byteAt_S by lia. apply byteAt_app_r. }
  assert (Hstart : startsString t = true).
  { unfold startsString. rewrite Hcur, Hpos.
    assert (Htq : isTripleQuote t 0 q = false).
    { unfold isTripleQuote. rewrite Hin, Hlen.
      destruct (negb (isQuote t q)); [reflexivity |].
      destruct (len text + 2 <=? 0 + 2) eqn:E; [reflexivity |].
      apply Z.leb_gt in E. rewrite (Hbody (0 + 1)) by lia.
      destruct (plainText_bytes q text (0 + 1 - 1) Hplain ltac:(lia)) as (_ & Hne & _).
      rewrite Hne. reflexivity. }
    assert (Hm : isStartMemo t 0 = false).
    { unfold isStartMemo. rewrite Hin. destruct (len code <=? 0 + 1); [reflexivity |].
      unfold code, quoted. rewrite byteAt_0.
      destruct Hcases as [-> | [-> | ->]]; reflexivity. }
    rewrite Htq, Hm. destruct Hcases as [-> | [-> | ->]]; reflexivity. }
  rewrite (NextToken_quote t ltac:(rewrite Hin, Hpos; lia) Hstart), Hcur.
  set (t1 := advanceForward (noteStartToken (clearTokenString t))).
  set (t0 := set_stringDelta (Some (mkStringDelta (inputPos (noteStartToken t1))
                                                  (inputPos (noteStartToken t1))))
                             (noteStartToken t1)).
  assert (I1 : inputString t0 = code).
  { unfold t0, t1. cbn [inputString set_stringDelta noteStartToken set_tokenStart].
    destruct (advanceForward_frame (noteStartToken (clearTokenString t))) as (A1 & _).
    rewrite A1. exact Hin. }
  assert (I2 : inputPos t0 = 1).
  { unfold t0, t1. cbn [inputPos set_stringDelta noteStartToken set_tokenStart].
    destruct (advanceForward_frame (noteStartToken (clearTokenString t))) as (_ & _ & A3 & _).
    rewrite A3. reflexivity. }
  assert (I3 : tokenString t0 = EmptyString).
  { unfold t0, t1. cbn [tokenString set_stringDelta noteStartToken set_tokenStart].
    destruct (advanceForward_frame (noteStartToken (clearTokenString t))) as (_ & _ & _ & A4).
    rewrite A4. reflexivity. }
  destruct (string_loop_closes q (bytesLeft t0) t0 (1 + len text)) as (t' & E & P & S).
  { rewrite I1, I2. split; [lia |]. split; [rewrite Hclose; apply Ascii.eqb_refl |].
    intros r Hr. rewrite (Hbody r Hr).
    apply (plainText_bytes q text (r - 1) Hplain). lia. }
  { unfold bytesLeft. rewrite I1, I2. lia. }
  change (transitionFromGATHER_STRING q t1) with (GATHER_STRING_loop q (bytesLeft t0) t0).
  rewrite E.
  destruct (NextToken_rest_blank t') as (eos & E2 & Ty2).
  { destruct S as (S1 & _). rewrite P, S1, I1. lia. }
  { destruct S as (S1 & _). rewrite P, S1, I1. intros r Hr. lia. }
  eexists. exists t', eos. split; [reflexivity |]. split; [reflexivity |].
  split; [| split; [exact E2 | exact Ty2]].
  cbn [String_]. rewrite I1, I2, I3.
  replace (1 + len text - 1) with (len text) by lia.
  rewrite written_ascii.
  - unfold len. rewrite Nat2Z.id. change (Z.to_nat 1) with 1%nat.
    unfold code, quoted. cbn [substring]. apply substring_app_l.
  - lia.
  - lia.
  - intros r Hr. rewrite (Hbody r) by lia.
    apply (plainText_bytes q text (r - 1) Hplain). lia.
Qed.

End StringLiterals.

Section SingleToken.
Context {host : Host}.

(** A run of code that holds one token: the token is handled, then the
    end of the stream. *)
Lemma Run_single_token code i tok t' eos i' fuel :
  NextToken (NewTokenizer code None false) = (Ok (Some tok), t') ->
  fst (NextToken t') = Ok (Some eos) ->
  Type_ eos = TOKEN_EOS ->
  isEOS tok = false ->
  (forall ts, handleToken tok (set_tokenizerStack ts i) = (Ok tt, set_tokenizerStack ts i')) ->
  isCompiling i' = false ->
  Run (S (S fuel)) code i
  = (Ok tt, set_previousToken (Some tok) (set_tokenizerStack (tokenizerStack i) i')).
Proof.
  intros E1 E2 Ty2 Ty1 Hh Hc.
  unfold Run.
  set (tk := NewTokenizer code None false) in *.
  set (ts := tokenizerStack i).
  set (i1 := set_tokenizerStack (ts ++ [tk]) i).
  assert (N1 : nextToken i1 = (Ok (Some tok), set_tokenizerStack (ts ++ [t']) i)).
  { rewrite (nextToken_top i1 ts tk) by (unfold i1; destruct i; reflexivity).
    rewrite E1. unfold i1. destruct i; reflexivity. }
  set (i3 := set_tokenizerStack (ts ++ [t']) i').
  set (i4 := set_previousToken (Some tok) i3).
  assert (N2 : nextToken i4
               = (Ok (Some eos), set_tokenizerStack (ts ++ [snd (NextToken t')]) i4)).
  { rewrite (nextToken_top i4 ts t') by (unfold i4, i3; destruct i'; reflexivity).
    rewrite E2. reflexivity. }
  assert (R2 : runWithTokenizer (S fuel) i4
               = (Ok tt, set_tokenizerStack (ts ++ [snd (NextToken t')]) i4)).
  { cbn [runWithTokenizer]. rewrite (bind_Ok _ _ _ _ _ N2).
    assert (H3 : handleToken eos (set_tokenizerStack (ts ++ [snd (NextToken t')]) i4)
                 = (Ok tt, set_tokenizerStack (ts ++ [snd (NextToken t')]) i4)).
    { unfold handleToken. rewrite Ty2. apply handleEOS_plain.
      unfold i4, i3. destruct i'; exact Hc. }
    rewrite (bind_Ok _ _ _ _ _ H3). unfold isEOS. rewrite Ty2. reflexivity. }
  assert (R1 : runWithTokenizer (S (S fuel)) i1
               = (Ok tt, set_tokenizerStack (ts ++ [snd (NextToken t')]) i4)).
  { change (runWithTokenizer (S (S fuel)))
      with (let* next := nextToken in
            match next with
            | None => panic nilDereference
            | Some token =>
              handleToken token ;>
              if isEOS token then ret tt
              else modify (set_previousToken (Some token)) ;> runWithTokenizer (S fuel)
            end).
    rewrite (bind_Ok _ _ _ _ _ N1). rewrite (bind_Ok _ _ _ _ _ (Hh (ts ++ [t']))).
    rewrite Ty1. fold i3.
    rewrite (bind_Ok _ _ i3 tt i4 eq_refl). exact R2. }
  rewrite R1. unfold i4, i3, ts. destruct i, i'. cbn. rewrite removelast_last. reflexivity.
Qed.

End SingleToken.

(** X24. Running a plain string literal pushes its text: for
    a text of bytes below 0x80 that holds neither the delimiter nor an
    ampersand, the code made of a quote, the text and the same quote
    pushes the text as a string, outside a definition; nothing else of
    the interpreter changes but the token it remembers as the previous
    one. *)
Theorem Run_string :
  forall (host : Host) (q : ascii) (text : string) (i : Interpreter) (fuel : nat),
    isQuote (NewTokenizer EmptyString None false) q = true ->
    plainText q text = true ->
    isCompiling i = false ->
    exists tok,
      Type_ tok = TOKEN_STRING /\ String_ tok = text /\
      Run (S (S fuel)) (quoted q text) i
      = (Ok tt, set_previousToken (Some tok) (set_stack (stack i ++ [VString text]) i)).
Proof.
  intros host q text i fuel Hq Hplain Hc.
  destruct (quoted_tokens q text Hq Hplain) as (tok & t' & eos & E1 & Ty1 & St1 & E2 & Ty2).
  exists tok. split; [exact Ty1 |]. split; [exact St1 |].
  rewrite (Run_single_token (quoted q text) i tok t' eos
             (set_stack (stack i ++ [VString text]) i) fuel E1 E2 Ty2).
  - destruct i; reflexivity.
  - unfold isEOS. rewrite Ty1. reflexivity.
  - intros ts. unfold handleToken. rewrite Ty1. unfold handleStringToken, handleWord.
    rewrite St1. unfold bind, get.
    destruct i as [st app ms rm ts0 prev comp memo cur lits tz hp].
    cbn [isCompiling] in Hc. subst comp. reflexivity.
  - destruct i; exact Hc.
Qed.

Lemma Run_string_witness :
  exists tok,
    Run (host := mathHost) 2 "'it is'" (interpreterCore emptyHeap)
    = (Ok tt, set_previousToken (Some tok)
                (set_stack [VString "it is"] (interpreterCore emptyHeap))).
Proof.
  destruct (Run_string mathHost "'" "it is" (interpreterCore emptyHeap) 0 eq_refl eq_refl eq_refl)
    as (tok & _ & _ & E).
  exists tok. exact E.
Defined.

(** *** Dot-symbol tokens *)

Section DotSymbols.

Lemma dot_loop_S n full t :
  GATHER_DOT_SYMBOL_loop (S n) full t =
  if atEnd t then (Ok full, t) else
  if isWhitespace t (cur t) then (Ok full, advanceForward t)
  else if ContainsRune ";[]{}#" (cur t)
       then (advancePosition (-1) ;> ret full) (advanceForward t)
       else GATHER_DOT_SYMBOL_loop n (WriteRune full (cur t)) (nameStep (cur t) t).
Proof.
  cbn [GATHER_DOT_SYMBOL_loop]. unfold bind at 1. unfold get at 1.
  destruct (atEnd t); [reflexivity |].
  unfold bind at 1. rewrite advancePosition_1.
  destruct (isWhitespace t (cur t)); [reflexivity |].
  destruct (ContainsRune ";[]{}#" (cur t)); reflexivity.
Qed.

Lemma sameScan_endsSymbol t t' ch : sameScan t t' -> endsSymbol t' ch = endsSymbol t ch.
Proof. intros (_ & H2 & _). unfold endsSymbol, isWhitespace. rewrite H2. reflexivity. Qed.

Lemma dot_loop_stops : forall n full t q,
  firstAt (inputString t) (endsSymbol t) (inputPos t) q ->
  0 <= inputPos t ->
  (Z.to_nat (q - inputPos t) < n)%nat ->
  exists t',
    GATHER_DOT_SYMBOL_loop n full t
    = (Ok (full +:+ written (inputString t) (inputPos t) (Z.to_nat (q - inputPos t))), t') /\
    inputPos t' = (if isWhitespace t (byteAt (inputString t) q) then q + 1 else q) /\
    tokenString t'
    = tokenString t +:+ written (inputString t) (inputPos t) (Z.to_nat (q - inputPos t)) /\
    sameScan t t'.
Proof.
  induction n as [| n IH]; intros full t q (Hq & Hd & Hfirst) Hp Hn; [lia |].
  rewrite dot_loop_S. unfold atEnd.
  destruct (len (inputString t) <=? inputPos t) eqn:E; [apply Z.leb_le in E; lia |].
  destruct (Z.eq_dec q (inputPos t)) as [-> | Hne].
  - fold (cur t) in *. rewrite Z.sub_diag. cbn [Z.to_nat written].
    rewrite !append_empty_r.
    destruct (advanceForward_frame t) as (A1 & A2 & A3 & A4).
    destruct (isWhitespace t (cur t)) eqn:Hws.
    { exists (advanceForward t). split; [reflexivity |]. split; [exact A3 |].
      split; [exact A4 | apply sameScan_advanceForward]. }
    unfold endsSymbol in Hd. rewrite Hws in Hd. cbn [orb] in Hd. rewrite Hd.
    destruct (back_over_newline (advanceForward t) ltac:(rewrite A3; lia))
      as (t' & E' & P' & T' & S').
    exists t'. unfold bind. rewrite E'. split; [reflexivity |].
    split; [rewrite P', A3; lia |]. split; [rewrite T'; exact A4 |].
    eapply sameScan_trans; [apply sameScan_advanceForward | exact S'].
  - assert (Hcur : endsSymbol t (cur t) = false) by (apply Hfirst; lia).
    unfold endsSymbol in Hcur. apply orb_false_iff in Hcur as [H1 H2]. rewrite H1, H2.
    destruct (nameStep_frame (cur t) t) as (F3 & F4).
    pose proof (sameScan_nameStep (cur t) t) as HS. pose proof HS as (B1 & _).
    destruct (IH (WriteRune full (cur t)) (nameStep (cur t) t) q) as (t' & E' & P' & T' & S').
    + rewrite B1, F3. split; [lia |]. split.
      * rewrite (sameScan_endsSymbol _ _ _ HS). exact Hd.
      * intros r Hr. rewrite (sameScan_endsSymbol _ _ _ HS). apply Hfirst. lia.
    + rewrite F3. lia.
    + rewrite F3. lia.
    + exists t'. rewrite E'. rewrite B1, F3 in *.
      rewrite (sameScan_isWhitespace _ _ _ HS) in P'.
      replace (Z.to_nat (q - inputPos t)) with (S (Z.to_nat (q - (inputPos t + 1)))) by lia.
      rewrite written_cons. fold (cur t).
      split; [unfold WriteRune; rewrite !append_assoc'; reflexivity |].
      split; [exact P' |]. split.
      * rewrite T', F4. rewrite !append_assoc'. reflexivity.
      * eapply sameScan_trans; [exact HS | exact S'].
Qed.

Lemma dot_loop_to_end : forall n full t,
  0 <= inputPos t ->
  noneFrom (inputString t) (endsSymbol t) (inputPos t) ->
  (Z.to_nat (len (inputString t) - inputPos t) < n)%nat ->
  exists t',
    GATHER_DOT_SYMBOL_loop n full t
    = (Ok (full +:+ written (inputString t) (inputPos t)
                            (Z.to_nat (len (inputString t) - inputPos t))), t') /\
    inputPos t' = Z.max (inputPos t) (len (inputString t)) /\
    sameScan t t'.
Proof.
  induction n as [| n IH]; intros full t Hp Hnone Hn; [lia |].
  rewrite dot_loop_S. unfold atEnd.
  destruct (len (inputString t) <=? inputPos t) eqn:E.
  - apply Z.leb_le in E. exists t.
    replace (Z.to_nat (len (inputString t) - inputPos t)) with 0%nat by lia.
    cbn [written]. rewrite append_empty_r.
    split; [reflexivity |]. split; [lia | apply sameScan_refl].
  - apply Z.leb_gt in E.
    assert (Hcur : endsSymbol t (cur t) = false) by (apply Hnone; lia).
    unfold endsSymbol in Hcur. apply orb_false_iff in Hcur as [H1 H2]. rewrite H1, H2.
    destruct (nameStep_frame (cur t) t) as (F3 & F4).
    pose proof (sameScan_nameStep (cur t) t) as HS. pose proof HS as (B1 & _).
    destruct (IH (WriteRune full (cur t)) (nameStep (cur t) t)) as (t' & E' & P' & S').
    + rewrite F3. lia.
    + rewrite B1, F3. intros r Hr. rewrite (sameScan_endsSymbol _ _ _ HS). apply Hnone. lia.
    + rewrite B1, F3. lia.
    + exists t'. rewrite E'. rewrite B1, F3 in *.
      replace (Z.to_nat (len (inputString t) - inputPos t))
        with (S (Z.to_nat (len (inputString t) - (inputPos t + 1)))) by lia.
      rewrite written_cons. fold (cur t).
      split; [unfold WriteRune; rewrite !append_assoc'; reflexivity |].
      split; [lia |]. eapply sameScan_trans; [exact HS | exact S'].
Qed.

(** From the start state, on a dot, [NextToken] gathers a dot symbol
    from that dot. *)
Lemma NextToken_dot t :
  0 <= inputPos t < len (inputString t) ->
  cur t = "."%char ->
  isWhitespace t "." = false ->
  isQuote t "." = false ->
  exists t0,
    inputString t0 = inputString t /\ whitespace t0 = whitespace t /\
    inputPos t0 = inputPos t /\
    NextToken t
    = match GATHER_DOT_SYMBOL_loop (bytesLeft t0) EmptyString t0 with
      | (Ok fullToken, t') => (Ok (Some (dotToken fullToken t')), t')
      | (Err e, t') => (Err e, t')
      | (Panic pv, t') => (Panic pv, t')
      | (OutOfFuel, t') => (OutOfFuel, t')
      end.
Proof.
  intros Hp Hdot Hws Hquote.
  set (t1 := noteStartToken (clearTokenString t)).
  destruct (advanceForward_frame t1) as (A1 & A2 & A3 & A4).
  destruct (back_over_newline (advanceForward t1)
              ltac:(rewrite A3; unfold t1; cbn [inputPos noteStartToken clearTokenString
                      set_tokenStart set_tokenString]; lia))
    as (t2 & E2 & P2 & T2 & S2).
  pose proof (sameScan_trans _ _ _ (sameScan_advanceForward t1) S2) as S12.
  exists (noteStartToken t2).
  destruct S12 as (B1 & B2 & B3 & _).
  assert (Hpos : inputPos t2 = inputPos t) by (rewrite P2, A3; unfold t1; cbn; lia).
  split; [cbn; rewrite B1; reflexivity |]. split; [cbn; rewrite B2; reflexivity |].
  split; [cbn; exact Hpos |].
  unfold NextToken, transitionFromSTART.
  unfold bind at 1. unfold modify at 1. unfold bind at 1. unfold get at 1.
  change (bytesLeft (clearTokenString t)) with (bytesLeft t).
  unfold bytesLeft at 1. cbn [START_loop].
  unfold bind at 1. unfold get at 1.
  change (atEnd (clearTokenString t)) with (atEnd t). unfold atEnd.
  destruct (len (inputString t) <=? inputPos t) eqn:E; [apply Z.leb_le in E; lia |].
  unfold bind at 1. unfold modify at 1. fold t1.
  unfold bind at 1. rewrite advancePosition_1.
  unfold bind at 1. unfold get at 1.
  change (cur (clearTokenString t)) with (cur t). rewrite Hdot.
  assert (Hw : isWhitespace (advanceForward t1) "." = false).
  { destruct (sameScan_advanceForward t1) as (_ & W & _).
    unfold isWhitespace in *. rewrite W. exact Hws. }
  assert (Hq : isQuote (advanceForward t1) "." = false).
  { unfold isQuote in *. rewrite A2. exact Hquote. }
  assert (Hm : isStartMemo (advanceForward t1) (inputPos (advanceForward t1) - 1) = false).
  { unfold isStartMemo. rewrite A1, A3. unfold t1. cbn [inputPos inputString noteStartToken
      clearTokenString set_tokenStart set_tokenString].
    replace (inputPos t + 1 - 1) with (inputPos t) by lia.
    destruct (len (inputString t) <=? inputPos t + 1); [reflexivity |].
    fold (cur t). rewrite Hdot. reflexivity. }
  assert (Htq : isTripleQuote (advanceForward t1) (inputPos (advanceForward t1) - 1) "."
                = false).
  { unfold isTripleQuote. rewrite Hq. reflexivity. }
  rewrite Hw, Hm, Htq, Hq.
  change (byteEq "." "#") with false. change (byteEq "." ":") with false.
  change (byteEq "." ";") with false. change (byteEq "." "[") with false.
  change (byteEq "." "]") with false. change (byteEq "." "{") with false.
  change (byteEq "." "}") with false. change (byteEq "." ".") with true. cbv iota.
  unfold bind at 1. rewrite E2.
  unfold transitionFromGATHER_DOT_SYMBOL.
  unfold bind at 1. unfold modify at 1.
  unfold bind at 1. unfold get at 1. unfold bind at 1.
  destruct (GATHER_DOT_SYMBOL_loop (bytesLeft (noteStartToken t2)) EmptyString
              (noteStartToken t2)) as [[full | e | pv |] t'] eqn:EL; try reflexivity.
  unfold dotToken. destruct (len full <? 2); reflexivity.
Qed.

Lemma dotToken_text text t :
  let tok := dotToken ("." +:+ text) t in
  if String.eqb text EmptyString
  then Type_ tok = TOKEN_WORD /\ String_ tok = "."
  else Type_ tok = TOKEN_DOT_SYMBOL /\ String_ tok = text.
Proof.
  destruct text as [| c text]; [split; reflexivity |].
  cbn [String.eqb]. unfold dotToken.
  replace (len ("." +:+ String c text) <? 2) with false.
  - split; reflexivity.
  - symmetry. apply Z.ltb_ge. unfold len. rewrite append_length. cbn [String.length]. lia.
Qed.

End DotSymbols.

(** X25. A dot starts a dot symbol, which runs up to the first byte
    that is whitespace or one of the characters that start another
    token; whitespace there is consumed.  The token is a dot-symbol token
    whose text leaves out the dot; a dot with nothing after it is a word
    token instead, with the dot as its text. *)
Theorem dot_symbol_token :
  forall t : Tokenizer,
    0 <= inputPos t < len (inputString t) ->
    cur t = "."%char ->
    isWhitespace t "." = false ->
    isQuote t "." = false ->
    (forall q,
       firstAt (inputString t) (endsSymbol t) (inputPos t + 1) q ->
       let text := written (inputString t) (inputPos t + 1) (Z.to_nat (q - (inputPos t + 1))) in
       exists tok t',
         NextToken t = (Ok (Some tok), t') /\
         (if String.eqb text EmptyString
          then Type_ tok = TOKEN_WORD /\ String_ tok = "."
          else Type_ tok = TOKEN_DOT_SYMBOL /\ String_ tok = text) /\
         inputPos t' = (if isWhitespace t (byteAt (inputString t) q) then q + 1 else q)) /\
    (noneFrom (inputString t) (endsSymbol t) (inputPos t + 1) ->
     let text := written (inputString t) (inputPos t + 1)
                         (Z.to_nat (len (inputString t) - (inputPos t + 1))) in
     exists tok t',
       NextToken t = (Ok (Some tok), t') /\
       (if String.eqb text EmptyString
        then Type_ tok = TOKEN_WORD /\ String_ tok = "."
        else Type_ tok = TOKEN_DOT_SYMBOL /\ String_ tok = text) /\
       inputPos t' = len (inputString t)).
Proof.
  intros t Hp Hdot Hws Hquote.
  destruct (NextToken_dot t Hp Hdot Hws Hquote) as (t0 & I1 & I2 & I3 & Hrun).
  assert (Hends : forall ch, endsSymbol t0 ch = endsSymbol t ch).
  { intros ch. unfold endsSymbol, isWhitespace. rewrite I2. reflexivity. }
  assert (Hfirst : endsSymbol t (byteAt (inputString t) (inputPos t)) = false).
  { fold (cur t). rewrite Hdot. unfold endsSymbol. rewrite Hws. reflexivity. }
  assert (Hw1 : forall k,
            written (inputString t) (inputPos t) (S k)
            = "." +:+ written (inputString t) (inputPos t + 1) k).
  { intros k. rewrite written_cons. fold (cur t). rewrite Hdot. reflexivity. }
  split.
  - intros q (Hq1 & Hq2 & Hq3) text.
    destruct (dot_loop_stops (bytesLeft t0) EmptyString t0 q) as (t' & E & P & _ & Hsame).
    + rewrite I1, I3. split; [lia |]. split; [rewrite Hends; exact Hq2 |].
      intros r Hr. rewrite Hends.
      destruct (Z.eq_dec r (inputPos t)) as [-> | Hne]; [exact Hfirst | apply Hq3; lia].
    + lia.
    + unfold bytesLeft. rewrite I1, I3. lia.
    + rewrite E in Hrun. rewrite I1, I3 in *.
      replace (Z.to_nat (q - inputPos t)) with (S (Z.to_nat (q - (inputPos t + 1)))) in Hrun
        by lia.
      rewrite Hw1 in Hrun. fold text in Hrun.
      eexists. exists t'. split; [exact Hrun |]. split; [apply dotToken_text |].
      rewrite P. unfold isWhitespace. rewrite I2. reflexivity.
  - intros Hnone text.
    destruct (dot_loop_to_end (bytesLeft t0) EmptyString t0) as (t' & E & P & Hsame).
    + lia.
    + rewrite I1, I3. intros r Hr. rewrite Hends.
      destruct (Z.eq_dec r (inputPos t)) as [-> | Hne]; [exact Hfirst | apply Hnone; lia].
    + unfold bytesLeft. lia.
    + rewrite E in Hrun. rewrite I1, I3 in *.
      replace (Z.to_nat (len (inputString t) - inputPos t))
        with (S (Z.to_nat (len (inputString t) - (inputPos t + 1)))) in Hrun by lia.
      rewrite Hw1 in Hrun. fold text in Hrun.
      eexists. exists t'. split; [exact Hrun |]. split; [apply dotToken_text |].
      rewrite P. lia.
Qed.

Lemma dot_symbol_token_witness :
  (exists tok t',
     NextToken (NewTokenizer ".key 1" None false) = (Ok (Some tok), t') /\
     Type_ tok = TOKEN_DOT_SYMBOL /\ String_ tok = "key" /\ inputPos t' = 5) /\
  (exists tok t',
     NextToken (NewTokenizer "." None false) = (Ok (Some tok), t') /\
     Type_ tok = TOKEN_WORD /\ String_ tok = ".").
Proof.
  split.
  - destruct (proj1 (dot_symbol_token (NewTokenizer ".key 1" None false)
                       ltac:(vm_compute; split; [discriminate | reflexivity])
                       eq_refl eq_refl eq_refl) 4)
      as (tok & t' & E & (Ty & St) & P).
    + split; [vm_compute; split; [discriminate | reflexivity] |].
      split; [reflexivity |]. intros r Hr.
      change (inputPos (NewTokenizer ".key 1" None false)) with 0 in Hr.
      assert (r = 1 \/ r = 2 \/ r = 3) as [-> | [-> | ->]] by lia; reflexivity.
    + exists tok, t'. split; [exact E |]. split; [exact Ty |]. split; [exact St | exact P].
  - destruct (proj2 (dot_symbol_token (NewTokenizer "." None false)
                       ltac:(vm_compute; split; [discriminate | reflexivity])
                       eq_refl eq_refl eq_refl))
      as (tok & t' & E & (Ty & St) & _).
    + intros r Hr.
      change (inputPos (NewTokenizer "." None false)) with 0 in Hr.
      change (len (inputString (NewTokenizer "." None false))) with 1 in Hr. lia.
    + exists tok, t'. split; [exact E |]. split; [exact Ty | exact St].
Defined.
